(** * RoboScript: parser and Arduino code generator

    A shallow embedding of the RoboScript compiler front end
    (token-based [Parser], line-based [PeglibParser], the AST with its
    JSON view) and of [ArduinoGenerator], followed by the properties
    of the specification that are settled against it. *)

From Stdlib Require Import ZArith String Ascii List DecimalString Decimal Lia.
From stdpp Require Import base option list gmap strings sets.

Set Warnings "-register-all,-clear-no-such-hyp".

Open Scope string_scope.
Open Scope Z_scope.

(* ===================================================================== *)
(** * C++ primitives                                                      *)
(* ===================================================================== *)

Module Cpp.

(** [int] is a 32-bit two's-complement integer.  Arithmetic that leaves
    the range is taken modulo 2^32 (what the usual targets do). *)
Definition INT_MIN : Z := - 2 ^ 31.
Definition INT_MAX : Z := 2 ^ 31 - 1.

Definition in_int (z : Z) : bool := (INT_MIN <=? z) && (z <=? INT_MAX).

Definition wrap (z : Z) : Z := (z + 2 ^ 31) mod 2 ^ 32 - 2 ^ 31.

Definition int_mul (a b : Z) : Z := wrap (a * b).

(** [/] on [int] truncates toward zero. *)
Definition int_div (a b : Z) : Z := wrap (Z.quot a b).

(** [std::to_string(int)]. *)
Definition to_string (z : Z) : string := NilZero.string_of_int (Z.to_int z).

(** The one-character string holding a double quote. *)
Definition dquote : string := String (ascii_of_nat 34) EmptyString.

(** [std::string(n, ' ')]. *)
Fixpoint spaces (n : nat) : string :=
  match n with
  | O => ""
  | S k => String " " (spaces k)
  end.

(** [s.find(pat)]: index of the first occurrence, [None] for [npos]. *)
Fixpoint find (s pat : string) : option nat :=
  if String.prefix pat s then Some O
  else match s with
       | EmptyString => None
       | String _ tl => S <$> find tl pat
       end.

(** [s.find(pat) != std::string::npos]. *)
Definition found (s pat : string) : bool :=
  match find s pat with Some _ => true | None => false end.

Definition isdigit (c : ascii) : bool :=
  let n := nat_of_ascii c in (48 <=? n)%nat && (n <=? 57)%nat.

(** [std::isspace] in the "C" locale: space, \t \n \v \f \r. *)
Definition isspace (c : ascii) : bool :=
  let n := nat_of_ascii c in (n =? 32)%nat || ((9 <=? n)%nat && (n <=? 13)%nat).

Fixpoint skip_spaces (s : string) : string :=
  match s with
  | String c tl => if isspace c then skip_spaces tl else s
  | EmptyString => s
  end.

Definition digit_val (c : ascii) : Z := Z.of_nat (nat_of_ascii c) - 48.

(** The digits at the front of [s], accumulated in base ten. *)
Fixpoint read_digits (s : string) (acc : Z) : Z :=
  match s with
  | String c tl => if isdigit c then read_digits tl (acc * 10 + digit_val c) else acc
  | EmptyString => acc
  end.

Definition starts_with_digit (s : string) : bool :=
  match s with
  | String c _ => isdigit c
  | EmptyString => false
  end.

(** [std::stoi(s)]: leading white space, an optional sign, then the
    longest run of digits; the rest of the string is ignored.  [None]
    stands for the exception ([std::invalid_argument] when no digit
    follows, [std::out_of_range] when the value is no [int]). *)
Definition stoi (s : string) : option Z :=
  let s := skip_spaces s in
  let '(neg, s) :=
    match s with
    | String "-" tl => (true, tl)
    | String "+" tl => (false, tl)
    | _ => (false, s)
    end in
  if starts_with_digit s then
    let v := read_digits s 0 in
    let v := if neg : bool then - v else v in
    if in_int v then Some v else None
  else None.

End Cpp.

Import Cpp.

(* ===================================================================== *)
(** * The AST (ast.h)                                                     *)
(* ===================================================================== *)

Module Condition.
Record t := mk {
  left : string;
  op : string;
  right : string
}.
End Condition.

(** One constructor per [Statement] subclass.  A statement slot is a
    [std::shared_ptr<Statement>] and may be null: [NullStatement].  The
    [condition] of an [IfStatement] or a [WhileStatement] is held by
    value: both parsers set that pointer before the node is stored, and
    a node whose condition pointer is still null (a default-constructed
    one) is outside the model. *)
Inductive Statement : Type :=
| NullStatement
| RobotDeclaration (name : string)
| MoveStatement (direction : string) (distance : Z)
| TurnStatement (direction : string) (angle : Z)
| StopStatement
| IfStatement (condition : Condition.t) (thenBody elseBody : list Statement)
| WhileStatement (condition : Condition.t) (body : list Statement)
| RepeatStatement (times : Z) (body : list Statement)
| LEDStatement (state color : string)
| ServoStatement (name : string) (angle : Z)
| MotorStatement (name : string) (speed : Z)
| WaitStatement (duration : Z)
| FunctionDef (name : string) (body : list Statement)
| CallStatement (name : string)
| SendStatement (message : string).

Record Program := mkProgram { statements : list Statement }.

(** Induction over statements that also reaches the nested bodies. *)
Section StatementInd.
Variable P : Statement -> Prop.
Hypothesis HNull : P NullStatement.
Hypothesis HRobot : forall n, P (RobotDeclaration n).
Hypothesis HMove : forall d n, P (MoveStatement d n).
Hypothesis HTurn : forall d n, P (TurnStatement d n).
Hypothesis HStop : P StopStatement.
Hypothesis HIf : forall c t e, Forall P t -> Forall P e -> P (IfStatement c t e).
Hypothesis HWhile : forall c b, Forall P b -> P (WhileStatement c b).
Hypothesis HRepeat : forall n b, Forall P b -> P (RepeatStatement n b).
Hypothesis HLED : forall s c, P (LEDStatement s c).
Hypothesis HServo : forall n a, P (ServoStatement n a).
Hypothesis HMotor : forall n s, P (MotorStatement n s).
Hypothesis HWait : forall d, P (WaitStatement d).
Hypothesis HFunction : forall n b, Forall P b -> P (FunctionDef n b).
Hypothesis HCall : forall n, P (CallStatement n).
Hypothesis HSend : forall m, P (SendStatement m).

Fixpoint Statement_nested_ind (s : Statement) : P s :=
  let all := fix all (l : list Statement) : Forall P l :=
    match l with
    | [] => @List.Forall_nil _ P
    | x :: tl => @List.Forall_cons _ P x tl (Statement_nested_ind x) (all tl)
    end in
  match s with
  | NullStatement => HNull
  | RobotDeclaration n => HRobot n
  | MoveStatement d n => HMove d n
  | TurnStatement d n => HTurn d n
  | StopStatement => HStop
  | IfStatement c t e => HIf c t e (all t) (all e)
  | WhileStatement c b => HWhile c b (all b)
  | RepeatStatement n b => HRepeat n b (all b)
  | LEDStatement s c => HLED s c
  | ServoStatement n a => HServo n a
  | MotorStatement n s => HMotor n s
  | WaitStatement d => HWait d
  | FunctionDef n b => HFunction n b (all b)
  | CallStatement n => HCall n
  | SendStatement m => HSend m
  end.
End StatementInd.

(* ===================================================================== *)
(** * ArduinoGenerator (arduino_generator.h, arduino_generator.cpp)       *)
(* ===================================================================== *)

Module ArduinoGenerator.

(** Pin configuration. *)
Definition SERVO_PIN : Z := 9.
Definition LED_PIN : Z := 13.
Definition MOTOR_LEFT_FORWARD : Z := 5.
Definition MOTOR_LEFT_BACKWARD : Z := 6.
Definition MOTOR_RIGHT_FORWARD : Z := 10.
Definition MOTOR_RIGHT_BACKWARD : Z := 11.
Definition DISTANCE_SENSOR_PIN : Z := 14.
Definition LIGHT_SENSOR_PIN : Z := 15.

(** The private fields of the class. *)
Record t := mk {
  indentLevel : Z;
  generatedCode : list string;
  setupCode : list string;
  variableDeclarations : list string
}.

Definition set_indentLevel (n : Z) (g : t) : t :=
  mk n (generatedCode g) (setupCode g) (variableDeclarations g).
Definition set_generatedCode (c : list string) (g : t) : t :=
  mk (indentLevel g) c (setupCode g) (variableDeclarations g).
Definition set_setupCode (c : list string) (g : t) : t :=
  mk (indentLevel g) (generatedCode g) c (variableDeclarations g).
Definition set_variableDeclarations (c : list string) (g : t) : t :=
  mk (indentLevel g) (generatedCode g) (setupCode g) c.

(** The constructor: [indentLevel(0)], empty vectors. *)
Definition new : t := mk 0 [] [] [].

(** A member function either returns with the object updated or leaves
    through an exception ([None]).  The only exception the generator
    can raise is the [std::length_error] of [std::string(n, ' ')] in
    [indent] when [indentLevel * 2] is negative, hence an enormous
    [size_t]. *)
Definition indent (g : t) : option string :=
  if decide (0 <= indentLevel g * 2)
  then Some (spaces (Z.to_nat (indentLevel g * 2)))
  else None.

Definition addLine (code : string) (g : t) : option t :=
  ind ← indent g;
  Some (set_generatedCode (generatedCode g ++ [ind +:+ code]) g).

Definition addSetupLine (code : string) (g : t) : option t :=
  ind ← indent g;
  Some (set_setupCode (setupCode g ++ [ind +:+ code]) g).

Definition increaseIndent (g : t) : t := set_indentLevel (indentLevel g + 1) g.
Definition decreaseIndent (g : t) : t := set_indentLevel (indentLevel g - 1) g.

(** Several [addLine] calls in sequence. *)
Fixpoint addLines (codes : list string) (g : t) : option t :=
  match codes with
  | [] => Some g
  | c :: tl => g' ← addLine c g; addLines tl g'
  end.

(** A range-based [for] whose body is a member function call. *)
Definition forEach {A : Type} (f : A -> t -> option t) : list A -> t -> option t :=
  fix go (l : list A) (g : t) : option t :=
    match l with
    | [] => Some g
    | x :: tl => g' ← f x g; go tl g'
    end.

Definition digitalWrite (pin : Z) (level : string) : string :=
  "digitalWrite(" +:+ to_string pin +:+ ", " +:+ level +:+ ");".

Definition generateRobotDeclaration (name : string) : t -> option t :=
  addLines ["// Robot: " +:+ name; "// Initializing robot systems..."].

Definition generateMove (direction : string) (distance : Z) (g : t) : option t :=
  if decide (direction = "forward") then
    addLines [ "// Move forward: " +:+ to_string distance +:+ " units";
               digitalWrite MOTOR_LEFT_FORWARD "HIGH";
               digitalWrite MOTOR_RIGHT_FORWARD "HIGH";
               digitalWrite MOTOR_LEFT_BACKWARD "LOW";
               digitalWrite MOTOR_RIGHT_BACKWARD "LOW";
               "delay(" +:+ to_string (int_mul distance 10) +:+ ");" ] g
  else if decide (direction = "backward") then
    addLines [ "// Move backward: " +:+ to_string distance +:+ " units";
               digitalWrite MOTOR_LEFT_FORWARD "LOW";
               digitalWrite MOTOR_RIGHT_FORWARD "LOW";
               digitalWrite MOTOR_LEFT_BACKWARD "HIGH";
               digitalWrite MOTOR_RIGHT_BACKWARD "HIGH";
               "delay(" +:+ to_string (int_mul distance 10) +:+ ");" ] g
  else Some g.

Definition generateTurn (direction : string) (angle : Z) (g : t) : option t :=
  g ← (if decide (direction = "left") then
         addLines [ "// Turn left: " +:+ to_string angle +:+ " degrees";
                    digitalWrite MOTOR_LEFT_FORWARD "LOW";
                    digitalWrite MOTOR_RIGHT_FORWARD "HIGH";
                    digitalWrite MOTOR_LEFT_BACKWARD "HIGH";
                    digitalWrite MOTOR_RIGHT_BACKWARD "LOW" ] g
       else if decide (direction = "right") then
         addLines [ "// Turn right: " +:+ to_string angle +:+ " degrees";
                    digitalWrite MOTOR_LEFT_FORWARD "HIGH";
                    digitalWrite MOTOR_RIGHT_FORWARD "LOW";
                    digitalWrite MOTOR_LEFT_BACKWARD "LOW";
                    digitalWrite MOTOR_RIGHT_BACKWARD "HIGH" ] g
       else Some g);
  addLine ("delay(" +:+ to_string (int_mul angle 5) +:+ ");") g.

(** The lines [generateStop] emits, in the order it emits them. *)
Definition stopSequence : list string :=
  [ "// Stop all motors";
    digitalWrite MOTOR_LEFT_FORWARD "LOW";
    digitalWrite MOTOR_LEFT_BACKWARD "LOW";
    digitalWrite MOTOR_RIGHT_FORWARD "LOW";
    digitalWrite MOTOR_RIGHT_BACKWARD "LOW" ].

Definition generateStop : t -> option t := addLines stopSequence.

Definition analogRead (pin : Z) : string := "analogRead(" +:+ to_string pin +:+ ")".

(** One operand of a condition: a sensor name becomes an analog read. *)
Definition lowerOperand (x : string) : string :=
  if found x "sensor.distance" then analogRead DISTANCE_SENSOR_PIN
  else if found x "sensor.light" then analogRead LIGHT_SENSOR_PIN
  else x.

Definition generateCondition (condition : Condition.t) : string :=
  let left := lowerOperand (Condition.left condition) in
  let op := Condition.op condition in
  let right := lowerOperand (Condition.right condition) in
  "(" +:+ left +:+ " " +:+ op +:+ " " +:+ right +:+ ")".

Definition generateLED (state color : string) (g : t) : option t :=
  if decide (state = "on") then
    g ← addLine "// LED on" g;
    g ← (if decide (color = "") then Some g else addLine ("// Color: " +:+ color) g);
    addLine (digitalWrite LED_PIN "HIGH") g
  else if decide (state = "off") then
    addLines ["// LED off"; digitalWrite LED_PIN "LOW"] g
  else Some g.

Definition generateServo (name : string) (angle : Z) : t -> option t :=
  addLines [ "// Servo " +:+ name +:+ " to angle " +:+ to_string angle;
             "servo.write(" +:+ to_string angle +:+ ");";
             "delay(100);" ].

(** [int pwmValue = (speed * 255) / 100;] *)
Definition pwmValue (speed : Z) : Z := int_div (int_mul speed 255) 100.

Definition analogWrite (pin value : Z) : string :=
  "analogWrite(" +:+ to_string pin +:+ ", " +:+ to_string value +:+ ");".

Definition generateMotor (name : string) (speed : Z) (g : t) : option t :=
  g ← addLine ("// Motor " +:+ name +:+ " speed: " +:+ to_string speed +:+ "%") g;
  if decide (name = "left") then
    addLine (analogWrite MOTOR_LEFT_FORWARD (pwmValue speed)) g
  else if decide (name = "right") then
    addLine (analogWrite MOTOR_RIGHT_FORWARD (pwmValue speed)) g
  else Some g.

Definition generateWait (duration : Z) : t -> option t :=
  addLine ("delay(" +:+ to_string duration +:+ ");  // Wait " +:+ to_string duration +:+ "ms").

Definition generateCall (name : string) : t -> option t :=
  addLine (name +:+ "();  // Call function").

Definition generateSend (message : string) : t -> option t :=
  addLine ("Serial.println(" +:+ dquote +:+ message +:+ dquote +:+ ");").

Definition newline : string := String "010" "".

(** The inner loop of [generateFunction]:
    [while (generatedCode.size() > savedSize)
       { funcCode += generatedCode.back() + "\n"; generatedCode.pop_back(); }]
    Every turn removes one element, so [length code] turns are enough. *)
Fixpoint extractLoop (turns : nat) (savedSize : nat)
         (code : list string) (funcCode : string) : list string * string :=
  match turns with
  | O => (code, funcCode)
  | S k =>
      if decide (savedSize < length code)%nat then
        match last code with
        | Some back => extractLoop k savedSize (removelast code) (funcCode +:+ back +:+ newline)
        | None => (code, funcCode)
        end
      else (code, funcCode)
  end.

Definition extractNew (savedSize : nat) (code : list string) (funcCode : string) :=
  extractLoop (length code) savedSize code funcCode.

(** The body of [for (const auto& s : stmt->body)] in [generateFunction],
    with [funcCode] carried along. *)
Definition functionBodyLoop (generateStatement : Statement -> t -> option t) :
  list Statement -> string * t -> option (string * t) :=
  fix go (l : list Statement) (acc : string * t) : option (string * t) :=
    match l with
    | [] => Some acc
    | s :: tl =>
        let '(funcCode, g) := acc in
        let savedSize := length (generatedCode g) in
        g ← generateStatement s g;
        let '(code, funcCode) := extractNew savedSize (generatedCode g) funcCode in
        go tl (funcCode, set_generatedCode code g)
    end.

(** [generateStatement] dispatches on the class of the node.  The
    emitters of the nodes with bodies ([generateIf], [generateWhile],
    [generateRepeat], [generateFunction]) call it back for the nested
    statements, so their bodies stand inline here; they are named
    below. *)
Fixpoint generateStatement (stmt : Statement) (g : t) {struct stmt} : option t :=
  match stmt with
  | NullStatement => Some g
  | RobotDeclaration name => generateRobotDeclaration name g
  | MoveStatement direction distance => generateMove direction distance g
  | TurnStatement direction angle => generateTurn direction angle g
  | StopStatement => generateStop g
  | IfStatement condition thenBody elseBody =>
      (* generateIf *)
      g ← addLine ("if " +:+ generateCondition condition +:+ " {") g;
      let g := increaseIndent g in
      g ← forEach generateStatement thenBody g;
      let g := decreaseIndent g in
      g ← (match elseBody with
           | [] => Some g
           | _ :: _ =>
               g ← addLine "} else {" g;
               let g := increaseIndent g in
               g ← forEach generateStatement elseBody g;
               Some (decreaseIndent g)
           end);
      addLine "}" g
  | WhileStatement condition body =>
      (* generateWhile *)
      g ← addLine ("while " +:+ generateCondition condition +:+ " {") g;
      let g := increaseIndent g in
      g ← forEach generateStatement body g;
      let g := decreaseIndent g in
      addLine "}" g
  | RepeatStatement times body =>
      (* generateRepeat *)
      g ← addLine ("for (int i = 0; i < " +:+ to_string times +:+ "; i++) {") g;
      let g := increaseIndent g in
      g ← forEach generateStatement body g;
      let g := decreaseIndent g in
      addLine "}" g
  | LEDStatement state color => generateLED state color g
  | ServoStatement name angle => generateServo name angle g
  | MotorStatement name speed => generateMotor name speed g
  | WaitStatement duration => generateWait duration g
  | FunctionDef name body =>
      (* generateFunction *)
      let g := set_variableDeclarations
                 (variableDeclarations g ++ ["void " +:+ name +:+ "() {"]) g in
      let savedIndent := indentLevel g in
      let g := set_indentLevel 1 g in
      '(funcCode, g) ← functionBodyLoop generateStatement body ("", g);
      let g := set_indentLevel savedIndent g in
      Some (set_variableDeclarations
              (variableDeclarations g ++ [funcCode; "}"; ""]) g)
  | CallStatement name => generateCall name g
  | SendStatement message => generateSend message g
  end.

Definition generateBlock : list Statement -> t -> option t :=
  forEach generateStatement.

Definition generateIf (condition : Condition.t) (thenBody elseBody : list Statement) :=
  generateStatement (IfStatement condition thenBody elseBody).
Definition generateWhile (condition : Condition.t) (body : list Statement) :=
  generateStatement (WhileStatement condition body).
Definition generateRepeat (times : Z) (body : list Statement) :=
  generateStatement (RepeatStatement times body).
Definition generateFunction (name : string) (body : list Statement) :=
  generateStatement (FunctionDef name body).

(** [for (const auto& x : v) result << x << "\n";] *)
Definition unlines (v : list string) : string :=
  String.concat "" (map (fun x => x +:+ newline) v).

Definition pinMode (pin : Z) : string := "pinMode(" +:+ to_string pin +:+ ", OUTPUT);".

(** The document [generate] assembles from the three buffers. *)
Definition document (g : t) : string :=
  "#include <Servo.h>" +:+ newline +:+ newline
  +:+ "// Pin Definitions" +:+ newline
  +:+ "#define LED_PIN " +:+ to_string LED_PIN +:+ newline
  +:+ "#define MOTOR_LEFT_FORWARD " +:+ to_string MOTOR_LEFT_FORWARD +:+ newline
  +:+ "#define MOTOR_LEFT_BACKWARD " +:+ to_string MOTOR_LEFT_BACKWARD +:+ newline
  +:+ "#define MOTOR_RIGHT_FORWARD " +:+ to_string MOTOR_RIGHT_FORWARD +:+ newline
  +:+ "#define MOTOR_RIGHT_BACKWARD " +:+ to_string MOTOR_RIGHT_BACKWARD +:+ newline
  +:+ "#define DISTANCE_SENSOR_PIN " +:+ to_string DISTANCE_SENSOR_PIN +:+ newline
  +:+ "#define LIGHT_SENSOR_PIN " +:+ to_string LIGHT_SENSOR_PIN +:+ newline +:+ newline
  +:+ "// Global Variables" +:+ newline
  +:+ "Servo servo;" +:+ newline +:+ newline
  +:+ unlines (variableDeclarations g)
  +:+ "void setup() {" +:+ newline
  +:+ unlines (setupCode g)
  +:+ "}" +:+ newline +:+ newline
  +:+ "void loop() {" +:+ newline
  +:+ (match generatedCode g with
       | [] => "  // Your robot code here" +:+ newline
       | _ :: _ => unlines (generatedCode g)
       end)
  +:+ "}" +:+ newline.

(** [generate]: the returned text and the object as it is left. *)
Definition generate (program : Program) (g : t) : option (string * t) :=
  let g := set_generatedCode [] g in
  let g := set_setupCode [] g in
  let g := set_variableDeclarations [] g in
  let g := set_indentLevel 0 g in
  g ← addSetupLine "// Initialize pins" g;
  g ← addSetupLine (pinMode LED_PIN) g;
  g ← addSetupLine (pinMode MOTOR_LEFT_FORWARD) g;
  g ← addSetupLine (pinMode MOTOR_LEFT_BACKWARD) g;
  g ← addSetupLine (pinMode MOTOR_RIGHT_FORWARD) g;
  g ← addSetupLine (pinMode MOTOR_RIGHT_BACKWARD) g;
  g ← addSetupLine "Serial.begin(9600);" g;
  g ← addSetupLine ("Serial.println(" +:+ dquote +:+ "Robot initialized" +:+ dquote +:+ ");") g;
  g ← forEach generateStatement (statements program) g;
  Some (document g, g).

Definition getSetupCode (g : t) : string := unlines (setupCode g).
Definition getLoopCode (g : t) : string := unlines (generatedCode g).
Definition getVariableDeclarations (g : t) : string := unlines (variableDeclarations g).

End ArduinoGenerator.


(* ===================================================================== *)
(** * The JSON view of the AST (ast.cpp)                                  *)
(* ===================================================================== *)

(** [nlohmann::json] values, as far as [toJson] builds them.  An object
    is a map from keys to values: a key is in the object exactly when
    some [j["key"] = ...] assigned it. *)
Inductive Json : Type :=
| JString (s : string)
| JNumber (z : Z)
| JArray (items : list Json)
| JObject (fields : gmap string Json).

Module Ast.

Definition Condition_toJson (c : Condition.t) : Json :=
  JObject (<["right" := JString (Condition.right c)]>
          (<["operator" := JString (Condition.op c)]>
          (<["left" := JString (Condition.left c)]>
          (<["type" := JString "Condition"]> ∅)))).

Definition LEDStatement_toJson (state color : string) : Json :=
  let j : gmap string Json := ∅ in
  let j := <["type" := JString "LED"]> j in
  let j := <["state" := JString state]> j in
  let j := if decide (color = "") then j else <["color" := JString color]> j in
  JObject j.

(** [stmt->toJson()] through the virtual table.  A null slot has no
    object to call: [None]. *)
Fixpoint toJson (stmt : Statement) : option Json :=
  match stmt with
  | NullStatement => None
  | RobotDeclaration name =>
      Some (JObject (<["name" := JString name]>
                    (<["type" := JString "RobotDeclaration"]> ∅)))
  | MoveStatement direction distance =>
      Some (JObject (<["distance" := JNumber distance]>
                    (<["direction" := JString direction]>
                    (<["type" := JString "Move"]> ∅))))
  | TurnStatement direction angle =>
      Some (JObject (<["angle" := JNumber angle]>
                    (<["direction" := JString direction]>
                    (<["type" := JString "Turn"]> ∅))))
  | StopStatement => Some (JObject (<["type" := JString "Stop"]> ∅))
  | IfStatement condition thenBody elseBody =>
      t ← mapM toJson thenBody;
      e ← mapM toJson elseBody;
      Some (JObject (<["elseBody" := JArray e]>
                    (<["thenBody" := JArray t]>
                    (<["condition" := Condition_toJson condition]>
                    (<["type" := JString "If"]> ∅)))))
  | WhileStatement condition body =>
      b ← mapM toJson body;
      Some (JObject (<["body" := JArray b]>
                    (<["condition" := Condition_toJson condition]>
                    (<["type" := JString "While"]> ∅))))
  | RepeatStatement times body =>
      b ← mapM toJson body;
      Some (JObject (<["body" := JArray b]>
                    (<["times" := JNumber times]>
                    (<["type" := JString "Repeat"]> ∅))))
  | LEDStatement state color => Some (LEDStatement_toJson state color)
  | ServoStatement name angle =>
      Some (JObject (<["angle" := JNumber angle]>
                    (<["name" := JString name]>
                    (<["type" := JString "Servo"]> ∅))))
  | MotorStatement name speed =>
      Some (JObject (<["speed" := JNumber speed]>
                    (<["name" := JString name]>
                    (<["type" := JString "Motor"]> ∅))))
  | WaitStatement duration =>
      Some (JObject (<["duration" := JNumber duration]>
                    (<["type" := JString "Wait"]> ∅)))
  | FunctionDef name body =>
      b ← mapM toJson body;
      Some (JObject (<["body" := JArray b]>
                    (<["name" := JString name]>
                    (<["type" := JString "Function"]> ∅))))
  | CallStatement name =>
      Some (JObject (<["name" := JString name]>
                    (<["type" := JString "Call"]> ∅)))
  | SendStatement message =>
      Some (JObject (<["message" := JString message]>
                    (<["type" := JString "Send"]> ∅)))
  end.

Definition Program_toJson (program : Program) : option Json :=
  s ← mapM toJson (statements program);
  Some (JObject (<["statements" := JArray s]>
                (<["type" := JString "Program"]> ∅))).

(** [stmt->getNodeType()] through the virtual table (ast.h). *)
Definition getNodeType (stmt : Statement) : option string :=
  match stmt with
  | NullStatement => None
  | RobotDeclaration _ => Some "RobotDeclaration"
  | MoveStatement _ _ => Some "Move"
  | TurnStatement _ _ => Some "Turn"
  | StopStatement => Some "Stop"
  | IfStatement _ _ _ => Some "If"
  | WhileStatement _ _ => Some "While"
  | RepeatStatement _ _ => Some "Repeat"
  | LEDStatement _ _ => Some "LED"
  | ServoStatement _ _ => Some "Servo"
  | MotorStatement _ _ => Some "Motor"
  | WaitStatement _ => Some "Wait"
  | FunctionDef _ _ => Some "Function"
  | CallStatement _ => Some "Call"
  | SendStatement _ => Some "Send"
  end.

Definition Condition_getNodeType (c : Condition.t) : string := "Condition".
Definition Program_getNodeType (program : Program) : string := "Program".

End Ast.

(* ===================================================================== *)
(** * Tokens and exceptions (lexer.h, exceptions.h)                       *)
(* ===================================================================== *)

Inductive TokenType : Type :=
| KEYWORD | IDENTIFIER | NUMBER | STRING | OPERATOR
| LPAREN | RPAREN | COMMA | DOT | END_OF_FILE.

#[global] Instance TokenType_eq_dec : EqDecision TokenType.
Proof. solve_decision. Defined.

Module Token.
Record t := mk {
  type : TokenType;
  value : string;
  line : Z;
  column : Z
}.

Definition typeToString (tok : t) : string :=
  match type tok with
  | KEYWORD => "KEYWORD"
  | IDENTIFIER => "IDENTIFIER"
  | NUMBER => "NUMBER"
  | STRING => "STRING"
  | OPERATOR => "OPERATOR"
  | LPAREN => "LPAREN"
  | RPAREN => "RPAREN"
  | COMMA => "COMMA"
  | DOT => "DOT"
  | END_OF_FILE => "EOF"
  end.
End Token.

(** What the front end throws.  [StdException] is a [std::exception]
    that is neither of the two RoboScript classes: the
    [std::invalid_argument] or [std::out_of_range] of [std::stoi]. *)
Inductive Exception : Type :=
| ParserException (message : string) (line column : Z) (expected found : string)
| SemanticException (message context : string)
| StdException (what : string).

(** [std::unordered_set<std::string>] is a finite set whose iteration
    order the standard leaves open.  An [UnorderedSetOrder] is one such
    order: some enumeration of each set without repetition.  Whatever
    order an implementation follows in a run, some [UnorderedSetOrder]
    describes it; the properties below hold for every one of them. *)
Record UnorderedSetOrder := {
  iterate : gset string -> list string;
  iterate_perm : forall s, iterate s ≡ₚ elements s
}.

Definition elementsOrder : UnorderedSetOrder :=
  {| iterate := elements; iterate_perm := fun s => reflexivity (elements s) |}.

(* ===================================================================== *)
(** * Lexer (lexer.h, lexer.cpp)                                          *)
(* ===================================================================== *)

Module Lexer.

(** The private fields of the class. *)
Record t := mk {
  source : string;
  pos : nat;
  line : Z;
  column : Z
}.

(** [Lexer(code)]. *)
Definition new (code : string) : t := mk code 0 1 1.

Definition KEYWORDS : gset string :=
  list_to_set
    [ "ROBOT"; "MOVE"; "TURN"; "STOP"; "IF"; "THEN"; "ELSE"; "END";
      "WHILE"; "DO"; "REPEAT"; "TIMES"; "FUNCTION"; "CALL"; "LED";
      "SERVO"; "MOTOR"; "SPEED"; "WAIT"; "SEND"; "TO"; "forward";
      "backward"; "left"; "right"; "on"; "off"; "sensor"; "message" ].

(** The outcome of a member function: a value and the new state, or a
    [LexerException].  [OutOfFuel] belongs to the model only (the loops
    run for at most as many turns as the source has characters left,
    plus one). *)
Inductive Result (A : Type) : Type :=
| Ok (a : A) (l : t)
| Throw (message : string) (line column : Z) (invalidChar : ascii)
| OutOfFuel.
Arguments Ok {A} a l.
Arguments Throw {A} message line column invalidChar.
Arguments OutOfFuel {A}.

Definition NUL : ascii := ascii_of_nat 0.

Definition currentChar (l : t) : ascii :=
  default NUL (String.get (pos l) (source l)).

Definition peekChar (offset : nat) (l : t) : ascii :=
  default NUL (String.get (pos l + offset) (source l)).

Definition advance (l : t) : t :=
  match String.get (pos l) (source l) with
  | Some c =>
      if decide (c = "010"%char)
      then mk (source l) (S (pos l)) (line l + 1) 1
      else mk (source l) (S (pos l)) (line l) (column l + 1)
  | None => l
  end.

(** [std::isalpha], [std::isalnum] in the "C" locale. *)
Definition isalpha (c : ascii) : bool :=
  let n := nat_of_ascii c in
  ((65 <=? n)%nat && (n <=? 90)%nat) || ((97 <=? n)%nat && (n <=? 122)%nat).
Definition isalnum (c : ascii) : bool := isalpha c || isdigit c.

(** Turns enough for any loop that advances on every turn. *)
Definition turnsLeft (l : t) : nat := S (String.length (source l) - pos l).

(** [while (cond(currentChar())) advance();] *)
Fixpoint advanceWhile (cond : ascii -> bool) (turns : nat) (l : t) : option t :=
  match turns with
  | O => None
  | S k => if cond (currentChar l) then advanceWhile cond k (advance l) else Some l
  end.

Definition skipWhitespace (l : t) : option t := advanceWhile isspace (turnsLeft l) l.

Definition skipComment (l : t) : option t :=
  if decide (currentChar l = "#"%char) then
    l ← advanceWhile (fun c => negb (bool_decide (c = "010"%char))
                               && negb (bool_decide (c = NUL)))
                     (turnsLeft l) l;
    Some (if decide (currentChar l = "010"%char) then advance l else l)
  else Some l.

(** [while (cond(currentChar())) { text += currentChar(); advance(); }] *)
Fixpoint readWhile (cond : ascii -> bool) (turns : nat) (text : string) (l : t)
  : option (string * t) :=
  match turns with
  | O => None
  | S k =>
      if cond (currentChar l)
      then readWhile cond k (text +:+ String (currentChar l) "") (advance l)
      else Some (text, l)
  end.

Definition lift {A} (r : option (A * t)) : Result A :=
  match r with
  | Some (a, l) => Ok a l
  | None => OutOfFuel
  end.

Definition readNumber (l : t) : Result Token.t :=
  let startLine := line l in
  let startCol := column l in
  match readWhile isdigit (turnsLeft l) "" l with
  | Some (number, l) => Ok (Token.mk NUMBER number startLine startCol) l
  | None => OutOfFuel
  end.

Definition readIdentifier (l : t) : Result Token.t :=
  let startLine := line l in
  let startCol := column l in
  match readWhile (fun c => isalnum c || bool_decide (c = "_"%char)
                            || bool_decide (c = "."%char))
                  (turnsLeft l) "" l with
  | Some (ident, l) =>
      if decide (ident ∈ KEYWORDS)
      then Ok (Token.mk KEYWORD ident startLine startCol) l
      else Ok (Token.mk IDENTIFIER ident startLine startCol) l
  | None => OutOfFuel
  end.

Definition backslash : ascii := ascii_of_nat 92.
Definition quote : ascii := ascii_of_nat 34.

(** The [while] loop of [readString]. *)
Fixpoint readStringLoop (turns : nat) (str : string) (l : t) : option (string * t) :=
  match turns with
  | O => None
  | S k =>
      let c := currentChar l in
      if negb (bool_decide (c = quote)) && negb (bool_decide (c = NUL)) then
        if bool_decide (c = backslash) && negb (bool_decide (peekChar 1 l = NUL)) then
          let l := advance l in
          let e := currentChar l in
          let str :=
            if decide (e = "n"%char) then str +:+ String "010" ""
            else if decide (e = "t"%char) then str +:+ String "009" ""
            else str +:+ String e "" in
          readStringLoop k str (advance l)
        else readStringLoop k (str +:+ String c "") (advance l)
      else Some (str, l)
  end.

Definition readString (l : t) : Result Token.t :=
  let startLine := line l in
  let startCol := column l in
  let l := advance l in
  match readStringLoop (turnsLeft l) "" l with
  | Some (str, l) =>
      if decide (currentChar l = quote)
      then Ok (Token.mk STRING str startLine startCol) (advance l)
      else Throw "Unterminated string literal" (line l) (column l) (currentChar l)
  | None => OutOfFuel
  end.

(** [while (currentChar() == '#') { skipComment(); skipWhitespace(); }] *)
Fixpoint skipComments (turns : nat) (l : t) : option t :=
  match turns with
  | O => None
  | S k =>
      if decide (currentChar l = "#"%char) then
        l ← skipComment l;
        l ← skipWhitespace l;
        skipComments k l
      else Some l
  end.

Definition isOperator (ch : ascii) : bool :=
  bool_decide (ch = "+"%char) || bool_decide (ch = "-"%char) || bool_decide (ch = "*"%char)
  || bool_decide (ch = "/"%char) || bool_decide (ch = "<"%char)
  || bool_decide (ch = ">"%char) || bool_decide (ch = "="%char).

Definition getNextToken (l : t) : Result Token.t :=
  match (l ← skipWhitespace l; skipComments (turnsLeft l) l) with
  | None => OutOfFuel
  | Some l =>
      let tokenLine := line l in
      let tokenCol := column l in
      let ch := currentChar l in
      if decide (ch = NUL) then Ok (Token.mk END_OF_FILE "EOF" tokenLine tokenCol) l
      else if isdigit ch then readNumber l
      else if isalpha ch || bool_decide (ch = "_"%char) then readIdentifier l
      else if decide (ch = quote) then readString l
      else if decide (ch = "("%char) then Ok (Token.mk LPAREN "(" tokenLine tokenCol) (advance l)
      else if decide (ch = ")"%char) then Ok (Token.mk RPAREN ")" tokenLine tokenCol) (advance l)
      else if decide (ch = ","%char) then Ok (Token.mk COMMA "," tokenLine tokenCol) (advance l)
      else if decide (ch = "."%char) then Ok (Token.mk DOT "." tokenLine tokenCol) (advance l)
      else if isOperator ch
           then Ok (Token.mk OPERATOR (String ch "") tokenLine tokenCol) (advance l)
      else Throw "Invalid character" (line l) (column l) ch
  end.

(** The [while (true)] loop of [tokenize]. *)
Fixpoint tokenizeLoop (turns : nat) (tokens : list Token.t) (l : t) : Result (list Token.t) :=
  match turns with
  | O => OutOfFuel
  | S k =>
      match getNextToken l with
      | Ok token l =>
          let tokens := (tokens ++ [token])%list in
          if decide (Token.type token = END_OF_FILE) then Ok tokens l
          else tokenizeLoop k tokens l
      | Throw m ln col ch => Throw m ln col ch
      | OutOfFuel => OutOfFuel
      end
  end.

Definition tokenize (l : t) : Result (list Token.t) := tokenizeLoop (turnsLeft l) [] l.

(** [Lexer lexer(code); lexer.tokenize()]: the tokens, if any. *)
Definition run (code : string) : option (list Token.t) :=
  match tokenize (new code) with
  | Ok tokens _ => Some tokens
  | _ => None
  end.

End Lexer.

(* ===================================================================== *)
(** * Parser (parser.h, parser.cpp)                                       *)
(* ===================================================================== *)

Module Parser.

(** The private fields of the class. *)
Record t := mk {
  tokens : list Token.t;
  pos : nat;
  declaredFunctions : gset string;
  calledFunctions : gset string
}.

(** [Parser(toks)]. *)
Definition new (toks : list Token.t) : t := mk toks 0 ∅ ∅.

Definition set_pos (n : nat) (p : t) : t :=
  mk (tokens p) n (declaredFunctions p) (calledFunctions p).
Definition declare (name : string) (p : t) : t :=
  mk (tokens p) (pos p) ({[name]} ∪ declaredFunctions p) (calledFunctions p).
Definition call (name : string) (p : t) : t :=
  mk (tokens p) (pos p) (declaredFunctions p) ({[name]} ∪ calledFunctions p).

(** The outcome of a member function: it returns a value and leaves
    the object in a new state, or it throws.  [OutOfFuel] belongs to
    the model only: the loops and the recursion of the parser are run
    for a bounded number of turns (see [parse_terminates]). *)
Inductive Result (A : Type) : Type :=
| Ok (a : A) (p : t)
| Throw (e : Exception)
| OutOfFuel.
Arguments Ok {A} a p.
Arguments Throw {A} e.
Arguments OutOfFuel {A}.

Definition M (A : Type) : Type := t -> Result A.

Definition ret {A} (a : A) : M A := fun p => Ok a p.
Definition throw {A} (e : Exception) : M A := fun _ => Throw e.
Definition bind {A B} (m : M A) (k : A -> M B) : M B :=
  fun p => match m p with
           | Ok a p' => k a p'
           | Throw e => Throw e
           | OutOfFuel => OutOfFuel
           end.

Declare Scope parser_scope.
Delimit Scope parser_scope with parser.
Notation "x <- m ;; k" := (bind m (fun x => k))
  (at level 100, m at next level, right associativity) : parser_scope.
Notation "m ;; k" := (bind m (fun _ => k))
  (at level 100, right associativity) : parser_scope.
Local Open Scope parser_scope.

Definition eof : Token.t := Token.mk END_OF_FILE "EOF" 0 0.

(** [peek()]: the current token, the static [eof] past the end. *)
Definition peek (p : t) : Token.t := default eof (tokens p !! pos p).

(** [consume()]: [tokens[pos++]]. *)
Definition consume : M Token.t := fun p =>
  match tokens p !! pos p with
  | None => Throw (ParserException "Unexpected end of input" 0 0 "token" "EOF")
  | Some tok => Ok tok (set_pos (S (pos p)) p)
  end.

(** [consume(expected)]. *)
Definition consumeExpected (expected : string) : M Token.t := fun p =>
  let token := peek p in
  if decide (Token.value token = expected)
  then Ok token (set_pos (S (pos p)) p)
  else Throw (ParserException "Unexpected token" (Token.line token) (Token.column token)
                              expected (Token.value token)).

(** [check(TokenType)] and [check(const std::string&)]. *)
Definition checkType (ty : TokenType) (p : t) : bool := bool_decide (Token.type (peek p) = ty).
Definition check (v : string) (p : t) : bool := bool_decide (Token.value (peek p) = v).

(** [std::stoi] inside a statement rule. *)
Definition stoi (s : string) : M Z :=
  match Cpp.stoi s with
  | Some z => ret z
  | None => throw (StdException "stoi")
  end.

(** [if (tok.type != TokenType::NUMBER) throw ParserException(...)]. *)
Definition expectType (tok : Token.t) (ty : TokenType) (message expected : string) : M unit :=
  if decide (Token.type tok = ty) then ret tt
  else throw (ParserException message (Token.line tok) (Token.column tok)
                              expected (Token.typeToString tok)).

(** The condition under which [parseBlock] keeps looping. *)
Definition blockContinues (terminator : string) (p : t) : bool :=
  negb (check terminator p) && negb (check "EOF" p)
  && negb (bool_decide (Token.type (peek p) = END_OF_FILE)).

(** The [while] loop of [parseBlock], over the statement rule it calls. *)
Fixpoint blockLoop (parseStatement : M (option Statement)) (turns : nat)
         (terminator : string) (statements : list Statement) : M (list Statement) :=
  fun p =>
  match turns with
  | O => OutOfFuel
  | S k =>
      if blockContinues terminator p then
        if check "END" p || check "ELSE" p || check "DO" p then Ok statements p
        else
          match parseStatement p with
          | Ok (Some stmt) p' => blockLoop parseStatement k terminator (statements ++ [stmt]) p'
          | Ok None p' =>
              if blockContinues terminator p' then Ok statements p'
              else blockLoop parseStatement k terminator statements p'
          | Throw e => Throw e
          | OutOfFuel => OutOfFuel
          end
      else Ok statements p
  end.

Definition parseRobotDeclaration : M Statement :=
  consumeExpected "ROBOT" ;;
  nameToken <- consume ;;
  ret (RobotDeclaration (Token.value nameToken)).

Definition parseMoveStatement : M Statement :=
  consumeExpected "MOVE" ;;
  dirToken <- consume ;;
  let direction := Token.value dirToken in
  (if decide (direction <> "forward" /\ direction <> "backward")
   then throw (SemanticException ("Invalid movement direction: " +:+ direction)
                                 "Expected 'forward' or 'backward'")
   else ret tt) ;;
  distToken <- consume ;;
  expectType distToken NUMBER "Movement distance must be a number" "NUMBER" ;;
  distance <- stoi (Token.value distToken) ;;
  (if decide (distance < 0)
   then throw (SemanticException "Movement distance must be positive"
                                 ("Found: " +:+ to_string distance))
   else ret tt) ;;
  ret (MoveStatement direction distance).

Definition parseTurnStatement : M Statement :=
  consumeExpected "TURN" ;;
  dirToken <- consume ;;
  let direction := Token.value dirToken in
  (if decide (direction <> "left" /\ direction <> "right")
   then throw (SemanticException ("Invalid turn direction: " +:+ direction)
                                 "Expected 'left' or 'right'")
   else ret tt) ;;
  angleToken <- consume ;;
  expectType angleToken NUMBER "Turn angle must be a number" "NUMBER" ;;
  angle <- stoi (Token.value angleToken) ;;
  ret (TurnStatement direction angle).

Definition parseStopStatement : M Statement :=
  consumeExpected "STOP" ;;
  ret StopStatement.

Definition parseCondition : M Condition.t :=
  left <- consume ;;
  op <- consume ;;
  right <- consume ;;
  ret (Condition.mk (Token.value left) (Token.value op) (Token.value right)).

Definition parseLEDStatement : M Statement :=
  consumeExpected "LED" ;;
  stateToken <- consume ;;
  let state := Token.value stateToken in
  (if decide (state <> "on" /\ state <> "off")
   then throw (SemanticException "LED state must be 'on' or 'off'" ("Found: " +:+ state))
   else ret tt) ;;
  color <- (fun p => if checkType IDENTIFIER p
                     then (tok <- consume ;; ret (Token.value tok)) p
                     else ret "" p) ;;
  ret (LEDStatement state color).

Definition parseServoStatement : M Statement :=
  consumeExpected "SERVO" ;;
  nameToken <- consume ;;
  consumeExpected "TO" ;;
  angleToken <- consume ;;
  expectType angleToken NUMBER "Servo angle must be a number" "NUMBER" ;;
  angle <- stoi (Token.value angleToken) ;;
  ret (ServoStatement (Token.value nameToken) angle).

Definition parseMotorStatement : M Statement :=
  consumeExpected "MOTOR" ;;
  nameToken <- consume ;;
  consumeExpected "SPEED" ;;
  speedToken <- consume ;;
  expectType speedToken NUMBER "Motor speed must be a number" "NUMBER" ;;
  speed <- stoi (Token.value speedToken) ;;
  (if decide (speed < 0 \/ speed > 100)
   then throw (SemanticException "Motor speed must be between 0 and 100"
                                 ("Found: " +:+ to_string speed))
   else ret tt) ;;
  ret (MotorStatement (Token.value nameToken) speed).

Definition parseWaitStatement : M Statement :=
  consumeExpected "WAIT" ;;
  durationToken <- consume ;;
  expectType durationToken NUMBER "Wait duration must be a number" "NUMBER" ;;
  duration <- stoi (Token.value durationToken) ;;
  ret (WaitStatement duration).

Definition parseCallStatement : M Statement :=
  consumeExpected "CALL" ;;
  nameToken <- consume ;;
  let name := Token.value nameToken in
  (fun p => Ok tt (call name p)) ;;
  ret (CallStatement name).

Definition parseSendStatement : M Statement :=
  consumeExpected "SEND" ;;
  consumeExpected "message" ;;
  msgToken <- consume ;;
  expectType msgToken STRING "Send message must be a string" "STRING" ;;
  ret (SendStatement (Token.value msgToken)).

(** The rules with nested blocks, over the block rule they call. *)
Section Compound.
Variable parseBlock : string -> M (list Statement).

Definition parseIfStatement : M Statement :=
  consumeExpected "IF" ;;
  condition <- parseCondition ;;
  consumeExpected "THEN" ;;
  thenBody <- parseBlock "ELSE" ;;
  elseBody <- (fun p => if check "ELSE" p
                        then (consumeExpected "ELSE" ;; parseBlock "END") p
                        else ret [] p) ;;
  consumeExpected "END" ;;
  ret (IfStatement condition thenBody elseBody).

Definition parseWhileStatement : M Statement :=
  consumeExpected "WHILE" ;;
  condition <- parseCondition ;;
  consumeExpected "DO" ;;
  body <- parseBlock "END" ;;
  consumeExpected "END" ;;
  ret (WhileStatement condition body).

Definition parseRepeatStatement : M Statement :=
  consumeExpected "REPEAT" ;;
  timesToken <- consume ;;
  expectType timesToken NUMBER "Repeat count must be a number" "NUMBER" ;;
  times <- stoi (Token.value timesToken) ;;
  consumeExpected "TIMES" ;;
  body <- parseBlock "END" ;;
  consumeExpected "END" ;;
  ret (RepeatStatement times body).

Definition parseFunctionDef : M Statement :=
  consumeExpected "FUNCTION" ;;
  nameToken <- consume ;;
  let name := Token.value nameToken in
  (fun p => Ok tt (declare name p)) ;;
  body <- parseBlock "END" ;;
  consumeExpected "END" ;;
  ret (FunctionDef name body).

(** The [if]/[else if] chain inside the [try] of [parseStatement]. *)
Definition dispatch (token : Token.t) : M (option Statement) := fun p =>
  if check "ROBOT" p then (s <- parseRobotDeclaration ;; ret (Some s)) p
  else if check "MOVE" p then (s <- parseMoveStatement ;; ret (Some s)) p
  else if check "TURN" p then (s <- parseTurnStatement ;; ret (Some s)) p
  else if check "STOP" p then (s <- parseStopStatement ;; ret (Some s)) p
  else if check "IF" p then (s <- parseIfStatement ;; ret (Some s)) p
  else if check "WHILE" p then (s <- parseWhileStatement ;; ret (Some s)) p
  else if check "REPEAT" p then (s <- parseRepeatStatement ;; ret (Some s)) p
  else if check "LED" p then (s <- parseLEDStatement ;; ret (Some s)) p
  else if check "SERVO" p then (s <- parseServoStatement ;; ret (Some s)) p
  else if check "MOTOR" p then (s <- parseMotorStatement ;; ret (Some s)) p
  else if check "WAIT" p then (s <- parseWaitStatement ;; ret (Some s)) p
  else if check "FUNCTION" p then (s <- parseFunctionDef ;; ret (Some s)) p
  else if check "CALL" p then (s <- parseCallStatement ;; ret (Some s)) p
  else if check "SEND" p then (s <- parseSendStatement ;; ret (Some s)) p
  else if check "END" p then (consumeExpected "END" ;; ret None) p
  else Throw (ParserException "Unknown statement type" (Token.line token)
                              (Token.column token) "Valid statement keyword"
                              (Token.value token)).

(** The [catch] clauses of [parseStatement]: the two RoboScript
    exceptions pass, any other [std::exception] is wrapped. *)
Definition rethrow (token : Token.t) (e : Exception) : Exception :=
  match e with
  | ParserException _ _ _ _ _ => e
  | SemanticException _ _ => e
  | StdException what =>
      ParserException ("Error parsing statement: " +:+ what) (Token.line token)
                      (Token.column token) "Valid statement" (Token.value token)
  end.

Definition parseStatementWith : M (option Statement) := fun p =>
  let token := peek p in
  if decide (Token.type token = END_OF_FILE) then Ok None p
  else if check "END" p then Ok None p
  else match dispatch token p with
       | Throw e => Throw (rethrow token e)
       | r => r
       end.
End Compound.

(** [parseStatement] and [parseBlock] call each other; [fuel] bounds
    the nesting depth and the turns of each block loop. *)
Fixpoint parseStatement (fuel : nat) : M (option Statement) :=
  match fuel with
  | O => fun _ => OutOfFuel
  | S n => parseStatementWith (fun terminator => blockLoop (parseStatement n) n terminator [])
  end.

Definition parseBlock (fuel : nat) (terminator : string) : M (list Statement) :=
  blockLoop (parseStatement fuel) fuel terminator [].

(** [availableFuncs] as [semanticAnalysis] builds it. *)
Fixpoint joinFuncs (fs : list string) (availableFuncs : string) : string :=
  match fs with
  | [] => availableFuncs
  | f :: tl =>
      let availableFuncs :=
        if decide (availableFuncs = "") then availableFuncs else availableFuncs +:+ ", " in
      joinFuncs tl (availableFuncs +:+ f)
  end.

Definition availableFuncs (ord : UnorderedSetOrder) (declared : gset string) : string :=
  if decide (declared = ∅) then "none" else joinFuncs (iterate ord declared) "".

(** The [for] loop of [semanticAnalysis] over [calledFunctions]. *)
Fixpoint checkCalls (ord : UnorderedSetOrder) (declared : gset string)
         (called : list string) : option Exception :=
  match called with
  | [] => None
  | funcName :: tl =>
      if decide (funcName ∈ declared) then checkCalls ord declared tl
      else Some (SemanticException
                   ("Function '" +:+ funcName +:+ "' is called but never defined")
                   ("Available functions: " +:+ availableFuncs ord declared))
  end.

Definition semanticAnalysis (ord : UnorderedSetOrder) (program : Program) : M unit := fun p =>
  match checkCalls ord (declaredFunctions p) (iterate ord (calledFunctions p)) with
  | Some e => Throw e
  | None => Ok tt p
  end.

Definition programContinues (p : t) : bool :=
  negb (check "EOF" p) && negb (bool_decide (Token.type (peek p) = END_OF_FILE))
  && negb (check "END" p).

(** The [while] loop of [parse]. *)
Fixpoint programLoop (fuel : nat) (turns : nat) (statements : list Statement)
  : M (list Statement) := fun p =>
  match turns with
  | O => OutOfFuel
  | S k =>
      if programContinues p then
        match parseStatement fuel p with
        | Ok (Some stmt) p' => programLoop fuel k (statements ++ [stmt]) p'
        | Ok None p' => programLoop fuel k statements p'
        | Throw e => Throw e
        | OutOfFuel => OutOfFuel
        end
      else Ok statements p
  end.

(** Everything [parse] does before [semanticAnalysis]. *)
Definition parseProgram (fuel : nat) : M Program :=
  statements <- programLoop fuel fuel [] ;;
  (fun p => if check "END" p then (consumeExpected "END" ;; ret tt) p else ret tt p) ;;
  ret (mkProgram statements).

Definition parse (ord : UnorderedSetOrder) (fuel : nat) : M Program :=
  program <- parseProgram fuel ;;
  semanticAnalysis ord program ;;
  ret program.

(** One more than the number of tokens is enough fuel for any input. *)
Definition fuelFor (toks : list Token.t) : nat := S (length toks).

(** [Parser parser(tokens); parser.parse()] as [parseAndDisplay] runs
    it: the returned [Program], or the exception. *)
Definition run (ord : UnorderedSetOrder) (toks : list Token.t) : Result Program :=
  parse ord (fuelFor toks) (new toks).

End Parser.


(* ===================================================================== *)
(** * PeglibParser, line based (peglib_parser.h, peglib_parser.cpp)        *)
(* ===================================================================== *)

(** The implementation that matches keywords at the start of trimmed
    source lines.  (The other [PeglibParser::parse] of the repository
    hands the text to the peglib library, whose code is not part of
    it.) *)
Module PeglibParser.

(** The private fields of the class. *)
Record t := mk {
  source : string;
  declaredFunctions : gset string;
  calledFunctions : gset string
}.

(** [PeglibParser(sourceCode)]. *)
Definition new (sourceCode : string) : t := mk sourceCode ∅ ∅.

(** The characters of [" \t\r\n"]. *)
Definition isTrimmed (c : ascii) : bool :=
  let n := nat_of_ascii c in
  (n =? 32)%nat || (n =? 9)%nat || (n =? 13)%nat || (n =? 10)%nat.

(** [str.find_first_not_of(" \t\r\n")]. *)
Fixpoint find_first_not_of (str : string) : option nat :=
  match str with
  | EmptyString => None
  | String c tl => if isTrimmed c then S <$> find_first_not_of tl else Some O
  end.

(** [str.find_last_not_of(" \t\r\n")]. *)
Fixpoint find_last_not_of (str : string) : option nat :=
  match str with
  | EmptyString => None
  | String c tl =>
      match find_last_not_of tl with
      | Some i => Some (S i)
      | None => if isTrimmed c then None else Some O
      end
  end.

Definition trim (str : string) : string :=
  match find_first_not_of str with
  | None => ""
  | Some first =>
      let last := default O (find_last_not_of str) in
      String.substring first (last - first + 1) str
  end.

(** The pieces of [s] between occurrences of [delimiter], the current
    piece being [cur]. *)
Fixpoint pieces (delimiter : ascii) (s : string) (cur : string) : list string :=
  match s with
  | EmptyString => [cur]
  | String c tl =>
      if decide (c = delimiter) then cur :: pieces delimiter tl ""
      else pieces delimiter tl (cur +:+ String c "")
  end.

(** What a [while (std::getline(ss, line, delimiter))] loop reads from
    a stream over [s]: the pieces, except that the read after the last
    delimiter fails when nothing is left. *)
Definition getlines (delimiter : ascii) (s : string) : list string :=
  let ps := pieces delimiter s "" in
  match last ps with
  | Some "" => removelast ps
  | _ => ps
  end.

Definition split (str : string) (delimiter : ascii) : list string :=
  filter (fun token => token <> "") (map trim (getlines delimiter str)).

Definition firstChar (s : string) : option ascii :=
  match s with
  | String c _ => Some c
  | EmptyString => None
  end.

(** The lines [parse] keeps: trimmed, not empty, not a comment. *)
Definition sourceLines (source : string) : list string :=
  filter (fun line => line <> "" /\ firstChar line <> Some "#"%char)
         (map trim (getlines "010"%char source)).

(** [parts[i]] on a vector known to be long enough. *)
Definition part (parts : list string) (i : nat) : string := default "" (parts !! i).

Definition parseWait (line : string) : option Statement :=
  let parts := split line " " in
  if decide (length parts < 2)%nat then None
  else match Cpp.stoi (part parts 1) with
       | Some duration => Some (WaitStatement duration)
       | None => None
       end.

Definition parseLED (line : string) : option Statement :=
  let parts := split line " " in
  if decide (length parts < 2)%nat then None
  else
    let state := part parts 1 in
    let color := if decide (2 < length parts)%nat then part parts 2 else "" in
    Some (LEDStatement state color).

(** [if (speed < 0) speed = 0; if (speed > 100) speed = 100;] *)
Definition clamp (speed : Z) : Z :=
  let speed := if decide (speed < 0) then 0 else speed in
  if decide (speed > 100) then 100 else speed.

Definition parseMotor (line : string) : option Statement :=
  let parts := split line " " in
  if decide (length parts < 3)%nat then None
  else
    let named :=
      if decide ((3 <= length parts)%nat /\ part parts 1 = "SPEED") then
        speed ← Cpp.stoi (part parts 2); Some ("default", speed)
      else if decide ((4 <= length parts)%nat /\ part parts 2 = "SPEED") then
        let motorName := part parts 1 in
        speed ← Cpp.stoi (part parts 3); Some (motorName, speed)
      else if decide (2 <= length parts)%nat then
        speed ← Cpp.stoi (part parts 1); Some ("default", speed)
      else None in
    '(motorName, speed) ← named;
    Some (MotorStatement motorName (clamp speed)).

(** [parseRepeat], over the [parseStatements] it calls for the body. *)
Definition parseRepeat
           (parseStatements : nat -> list Statement -> option (nat * list Statement))
           (lines : list string) (index : nat) : option (nat * option Statement) :=
  let line := part lines index in
  let index := S index in
  let parts := split line " " in
  if decide (length parts < 3)%nat then Some (index, None)
  else match Cpp.stoi (part parts 1) with
       | None => Some (index, None)
       | Some count =>
           '(index, body) ← parseStatements index [];
           let index := if decide (lines !! index = Some "END") then S index else index in
           Some (index, Some (RepeatStatement count body))
       end.

Definition push_back (statements : list Statement) (stmt : option Statement) :=
  match stmt with
  | Some s => (statements ++ [s])%list
  | None => statements
  end.

(** [parseStatements(lines, index, statements)]: the final [index] and
    [statements].  [None] belongs to the model only: [fuel] bounds the
    turns of the loop and the nesting (see [parseStatements_total]). *)
Fixpoint parseStatements (fuel : nat) (lines : list string) (index : nat)
         (statements : list Statement) : option (nat * list Statement) :=
  match fuel with
  | O => None
  | S n =>
      match lines !! index with
      | None => Some (index, statements)
      | Some line =>
          if decide (line = "END") then Some (index, statements)
          else if decide (find line "REPEAT" = Some O) then
            '(index, repeatStmt) ← parseRepeat (parseStatements n lines) lines index;
            parseStatements n lines index (push_back statements repeatStmt)
          else if decide (find line "WAIT" = Some O) then
            parseStatements n lines (S index) (push_back statements (parseWait line))
          else if decide (find line "LED" = Some O) then
            parseStatements n lines (S index) (push_back statements (parseLED line))
          else if decide (find line "MOTOR" = Some O) then
            parseStatements n lines (S index) (push_back statements (parseMotor line))
          else if decide (line = "STOP") then
            parseStatements n lines (S index) (statements ++ [StopStatement])
          else parseStatements n lines (S index) statements
      end
  end.

(** [semanticAnalysis]: the same check as the token parser's, with its
    own wording. *)
Fixpoint checkCalls (ord : UnorderedSetOrder) (declared : gset string)
         (called : list string) : option Exception :=
  match called with
  | [] => None
  | funcName :: tl =>
      if decide (funcName ∈ declared) then checkCalls ord declared tl
      else
        let available := if decide (declared = ∅) then "none" else "" in
        Some (SemanticException
                ("Function '" +:+ funcName +:+ "' called but not defined")
                ("Available: " +:+ Parser.joinFuncs (iterate ord declared) available))
  end.

Definition semanticAnalysis (ord : UnorderedSetOrder) (program : Program) (p : t)
  : option Exception :=
  checkCalls ord (declaredFunctions p) (iterate ord (calledFunctions p)).

(** [parse]: the [Program], or the exception of [semanticAnalysis];
    [None] when the model runs out of fuel. *)
Definition parseWith (ord : UnorderedSetOrder) (fuel : nat) (p : t)
  : option (Program + Exception) :=
  let lines := sourceLines (source p) in
  '(_, statements) ← parseStatements fuel lines 0 [];
  let program := mkProgram statements in
  match semanticAnalysis ord program p with
  | Some e => Some (inr e)
  | None => Some (inl program)
  end.

Definition parse (ord : UnorderedSetOrder) (sourceCode : string)
  : option (Program + Exception) :=
  parseWith ord (S (length (sourceLines sourceCode))) (new sourceCode).

End PeglibParser.

(* ===================================================================== *)
(** * Specification vocabulary                                            *)
(* ===================================================================== *)

(** [s] contains [pat] as a substring. *)
Definition contains (s pat : string) : Prop :=
  exists pre post, s = pre +:+ pat +:+ post.

(** The generator object [g'] differs from [g] by lines appended to the
    loop-body buffer and to the hoisted definitions only. *)
Definition extends (g g' : ArduinoGenerator.t) : Prop :=
  ArduinoGenerator.setupCode g' = ArduinoGenerator.setupCode g
  /\ (exists new, ArduinoGenerator.generatedCode g'
                  = (ArduinoGenerator.generatedCode g ++ new)%list)
  /\ (exists d, ArduinoGenerator.variableDeclarations g'
                = (ArduinoGenerator.variableDeclarations g ++ d)%list).

(** ... and the indentation counter is back where it was. *)
Definition preserves (g g' : ArduinoGenerator.t) : Prop :=
  ArduinoGenerator.indentLevel g' = ArduinoGenerator.indentLevel g /\ extends g g'.

(** A statement is emitted well: whenever the emit returns it preserves
    the object as above, and it does return when the indentation
    counter is not negative. *)
Definition emitsWell (f : ArduinoGenerator.t -> option ArduinoGenerator.t) : Prop :=
  forall g,
    (forall g', f g = Some g' -> preserves g g')
    /\ (0 <= ArduinoGenerator.indentLevel g -> is_Some (f g)).

(** What the inner loop of [generateFunction] adds to [funcCode] for the
    lines [new] a statement emitted: they are taken from the back. *)
Definition drained (new : list string) (funcCode : string) : string :=
  fold_left (fun acc back => acc +:+ back +:+ ArduinoGenerator.newline) (rev new) funcCode.

(** The generator object after the lines [codes] were added to the
    loop-body buffer at the current indentation. *)
Definition emitted (g : ArduinoGenerator.t) (codes : list string) : ArduinoGenerator.t :=
  ArduinoGenerator.set_generatedCode
    (ArduinoGenerator.generatedCode g
     ++ map (fun code => spaces (Z.to_nat (ArduinoGenerator.indentLevel g * 2)) +:+ code) codes)
    g.

(** The descriptive comment line of a motor statement. *)
Definition motorComment (name : string) (speed : Z) : string :=
  "// Motor " +:+ name +:+ " speed: " +:+ to_string speed +:+ "%".

(** The names of the [FunctionDef] nodes of a statement, nested ones
    included, and the names its [Call] nodes refer to. *)
Fixpoint declaredIn (stmt : Statement) : gset string :=
  match stmt with
  | IfStatement _ thenBody elseBody =>
      ⋃ (map declaredIn thenBody) ∪ ⋃ (map declaredIn elseBody)
  | WhileStatement _ body => ⋃ (map declaredIn body)
  | RepeatStatement _ body => ⋃ (map declaredIn body)
  | FunctionDef name body => {[name]} ∪ ⋃ (map declaredIn body)
  | _ => ∅
  end.

Fixpoint calledIn (stmt : Statement) : gset string :=
  match stmt with
  | IfStatement _ thenBody elseBody =>
      ⋃ (map calledIn thenBody) ∪ ⋃ (map calledIn elseBody)
  | WhileStatement _ body => ⋃ (map calledIn body)
  | RepeatStatement _ body => ⋃ (map calledIn body)
  | FunctionDef _ body => ⋃ (map calledIn body)
  | CallStatement name => {[name]}
  | _ => ∅
  end.

Definition declaredInAll (stmts : list Statement) : gset string := ⋃ (map declaredIn stmts).
Definition calledInAll (stmts : list Statement) : gset string := ⋃ (map calledIn stmts).

(** Every [MotorStatement] of the statement, nested ones included, has
    its speed in [0,100]. *)
Fixpoint motorsInRange (stmt : Statement) : bool :=
  match stmt with
  | IfStatement _ thenBody elseBody =>
      forallb motorsInRange thenBody && forallb motorsInRange elseBody
  | WhileStatement _ body => forallb motorsInRange body
  | RepeatStatement _ body => forallb motorsInRange body
  | FunctionDef _ body => forallb motorsInRange body
  | MotorStatement _ speed => (0 <=? speed) && (speed <=? 100)
  | _ => true
  end.

(** [x] occurs in [stmt]: it is [stmt] itself or occurs in one of the
    statements of its bodies. *)
Inductive occursIn (x : Statement) : Statement -> Prop :=
| occurs_here : occursIn x x
| occurs_then c th el s : In s th -> occursIn x s -> occursIn x (IfStatement c th el)
| occurs_else c th el s : In s el -> occursIn x s -> occursIn x (IfStatement c th el)
| occurs_while c body s : In s body -> occursIn x s -> occursIn x (WhileStatement c body)
| occurs_repeat n body s : In s body -> occursIn x s -> occursIn x (RepeatStatement n body)
| occurs_function f body s : In s body -> occursIn x s -> occursIn x (FunctionDef f body).

(** [x] occurs somewhere in the program. *)
Definition occursInProgram (x : Statement) (program : Program) : Prop :=
  exists s, In s (statements program) /\ occursIn x s.

(** The tokens the parser has not consumed yet. *)
Definition remaining (p : Parser.t) : nat := (length (Parser.tokens p) - Parser.pos p)%nat.

(** From [p] to [p'] the parser moved forward over its tokens, within
    them, and registered the declared names [D] and the called names [C]. *)
Definition moved (D C : gset string) (p p' : Parser.t) : Prop :=
  Parser.tokens p' = Parser.tokens p
  /\ (Parser.pos p <= Parser.pos p')%nat
  /\ ((Parser.pos p' <= length (Parser.tokens p))%nat \/ Parser.pos p' = Parser.pos p)
  /\ Parser.declaredFunctions p' = Parser.declaredFunctions p ∪ D
  /\ Parser.calledFunctions p' = Parser.calledFunctions p ∪ C.

(** A statement rule returned [stmt]: it consumed at least one token,
    registered exactly the names of [stmt], and the motors of [stmt] are
    in range. *)
Definition parsedOne (p : Parser.t) (stmt : Statement) (p' : Parser.t) : Prop :=
  moved (declaredIn stmt) (calledIn stmt) p p'
  /\ (Parser.pos p < Parser.pos p')%nat
  /\ motorsInRange stmt = true.

(** A block rule returned [stmts]. *)
Definition parsedAll (p : Parser.t) (stmts : list Statement) (p' : Parser.t) : Prop :=
  moved (declaredInAll stmts) (calledInAll stmts) p p'
  /\ forallb motorsInRange stmts = true.

(** What a statement rule that returned has done: a null result leaves
    the parser as it was, in front of the end marker or of [END]. *)
Definition statementParsed (p : Parser.t) (r : option Statement) (p' : Parser.t) : Prop :=
  match r with
  | Some s => parsedOne p s p'
  | None =>
      p' = p
      /\ (Token.type (Parser.peek p) = END_OF_FILE \/ Parser.check "END" p = true)
  end.

(** No token from index [n] on has the text [END]. *)
Definition noEndFrom (n : nat) (toks : list Token.t) : Prop :=
  forall i tok, (n <= i)%nat -> toks !! i = Some tok -> Token.value tok <> "END".

(** Token sequences used as examples. *)
Definition keyword (v : string) (line column : Z) : Token.t := Token.mk KEYWORD v line column.
Definition identifier (v : string) (line column : Z) : Token.t :=
  Token.mk IDENTIFIER v line column.
Definition number (v : string) (line column : Z) : Token.t := Token.mk NUMBER v line column.
Definition endOfFile (line column : Z) : Token.t := Token.mk END_OF_FILE "EOF" line column.

(** [CALL f FUNCTION f STOP END]: the call stands before the definition. *)
Definition forwardCall : list Token.t :=
  [ keyword "CALL" 1 1; identifier "f" 1 6;
    keyword "FUNCTION" 2 1; identifier "f" 2 10; keyword "STOP" 3 1; keyword "END" 4 1;
    endOfFile 4 4 ].

(** [CALL g] with no definition anywhere. *)
Definition undefinedCall : list Token.t :=
  [ keyword "CALL" 1 1; identifier "g" 1 6; endOfFile 1 7 ].

(** [IF a < b THEN MOVE up 1] with no [END]. *)
Definition unclosedIfBadMove : list Token.t :=
  [ keyword "IF" 1 1; identifier "a" 1 4; Token.mk OPERATOR "<" 1 6; identifier "b" 1 8;
    keyword "THEN" 1 10; keyword "MOVE" 2 1; identifier "up" 2 6; number "1" 2 9;
    endOfFile 2 10 ].

(** [IF sensor.distance < 30 THEN STOP] with no [END]. *)
Definition unclosedIf : list Token.t :=
  [ keyword "IF" 1 1; identifier "sensor.distance" 1 4; Token.mk OPERATOR "<" 1 20;
    number "30" 1 22; keyword "THEN" 1 25; keyword "STOP" 2 1; endOfFile 2 5 ].

(** [IF a < b THEN] / [REPEAT 2 TIMES STOP END]: the inner block is
    closed, the [IF] is not. *)
Definition unclosedIfRepeat : list Token.t :=
  [ keyword "IF" 1 1; identifier "a" 1 4; Token.mk OPERATOR "<" 1 6; identifier "b" 1 8;
    keyword "THEN" 1 10; keyword "REPEAT" 2 1; number "2" 2 8; keyword "TIMES" 2 10;
    keyword "STOP" 2 16; keyword "END" 2 21; endOfFile 2 24 ].

(** [REPEAT 2 TIMES] / [STOP IF a < b THEN] / [STOP]: an [IF] without
    [END] behind a statement, inside a block that is open. *)
Definition unclosedIfInside : list Token.t :=
  [ keyword "REPEAT" 1 1; number "2" 1 8; keyword "TIMES" 1 10;
    keyword "STOP" 2 1; keyword "IF" 2 6; identifier "a" 2 9; Token.mk OPERATOR "<" 2 11;
    identifier "b" 2 13; keyword "THEN" 2 15; keyword "STOP" 3 1; endOfFile 3 5 ].

(** [REPEAT 0 TIMES STOP END]. *)
Definition repeatZero : list Token.t :=
  [ keyword "REPEAT" 1 1; number "0" 1 8; keyword "TIMES" 1 10; keyword "STOP" 1 16;
    keyword "END" 1 21; endOfFile 1 24 ].

(** [MOTOR left SPEED 75 END]. *)
Definition motorLeft : list Token.t :=
  [ keyword "MOTOR" 1 1; keyword "left" 1 7; keyword "SPEED" 1 12; number "75" 1 18;
    keyword "END" 2 1; endOfFile 2 4 ].

(** The source texts of the token sequences above. *)
Definition repeatZeroText : string := "REPEAT 0 TIMES STOP END".
Definition forwardCallText : string :=
  "CALL f" +:+ ArduinoGenerator.newline +:+ "FUNCTION f" +:+ ArduinoGenerator.newline
  +:+ "STOP" +:+ ArduinoGenerator.newline +:+ "END".
Definition undefinedCallText : string := "CALL g".
Definition unclosedIfBadMoveText : string :=
  "IF a < b THEN" +:+ ArduinoGenerator.newline +:+ "MOVE up 1".
Definition unclosedIfText : string :=
  "IF sensor.distance < 30 THEN" +:+ ArduinoGenerator.newline +:+ "STOP".
Definition unclosedIfRepeatText : string :=
  "IF a < b THEN" +:+ ArduinoGenerator.newline +:+ "REPEAT 2 TIMES STOP END".
Definition unclosedIfInsideText : string :=
  "REPEAT 2 TIMES" +:+ ArduinoGenerator.newline +:+ "STOP IF a < b THEN"
  +:+ ArduinoGenerator.newline +:+ "STOP".
Definition motorLeftText : string :=
  "MOTOR left SPEED 75" +:+ ArduinoGenerator.newline +:+ "END".

(** The AST behind the generated document shipped with the repository:
    example program 1 of main.cpp, with the body of its REPEAT empty. *)
Definition sampleProgram : Program :=
  mkProgram
    [ RobotDeclaration "myRobot";
      MoveStatement "forward" 100;
      TurnStatement "left" 90;
      MoveStatement "forward" 50;
      IfStatement (Condition.mk "sensor.distance" "<" "30")
        [StopStatement; TurnStatement "right" 180; MoveStatement "backward" 20] [];
      RepeatStatement 3 [];
      ServoStatement "arm" 90;
      MotorStatement "left" 75;
      MotorStatement "right" 75;
      WhileStatement (Condition.mk "sensor.light" ">" "50")
        [MoveStatement "forward" 10; WaitStatement 100];
      FunctionDef "avoidObstacle"
        [IfStatement (Condition.mk "sensor.distance" "<" "20")
           [StopStatement; TurnStatement "right" 45] []];
      CallStatement "avoidObstacle";
      SendStatement "Task complete" ].

(** The lines of that document. *)
Definition sampleDocument : list string :=
  [ "#include <Servo.h>"; "";
    "// Pin Definitions";
    "#define LED_PIN 13";
    "#define MOTOR_LEFT_FORWARD 5";
    "#define MOTOR_LEFT_BACKWARD 6";
    "#define MOTOR_RIGHT_FORWARD 10";
    "#define MOTOR_RIGHT_BACKWARD 11";
    "#define DISTANCE_SENSOR_PIN 14";
    "#define LIGHT_SENSOR_PIN 15"; "";
    "// Global Variables";
    "Servo servo;"; "";
    "void avoidObstacle() {";
    "  }";
    "    delay(225);";
    "    digitalWrite(11, HIGH);";
    "    digitalWrite(6, LOW);";
    "    digitalWrite(10, LOW);";
    "    digitalWrite(5, HIGH);";
    "    // Turn right: 45 degrees";
    "    digitalWrite(11, LOW);";
    "    digitalWrite(10, LOW);";
    "    digitalWrite(6, LOW);";
    "    digitalWrite(5, LOW);";
    "    // Stop all motors";
    "  if (analogRead(14) < 20) {"; "";
    "}"; "";
    "void setup() {";
    "// Initialize pins";
    "pinMode(13, OUTPUT);";
    "pinMode(5, OUTPUT);";
    "pinMode(6, OUTPUT);";
    "pinMode(10, OUTPUT);";
    "pinMode(11, OUTPUT);";
    "Serial.begin(9600);";
    "Serial.println(" +:+ dquote +:+ "Robot initialized" +:+ dquote +:+ ");";
    "}"; "";
    "void loop() {";
    "// Robot: myRobot";
    "// Initializing robot systems...";
    "// Move forward: 100 units";
    "digitalWrite(5, HIGH);";
    "digitalWrite(10, HIGH);";
    "digitalWrite(6, LOW);";
    "digitalWrite(11, LOW);";
    "delay(1000);";
    "// Turn left: 90 degrees";
    "digitalWrite(5, LOW);";
    "digitalWrite(10, HIGH);";
    "digitalWrite(6, HIGH);";
    "digitalWrite(11, LOW);";
    "delay(450);";
    "// Move forward: 50 units";
    "digitalWrite(5, HIGH);";
    "digitalWrite(10, HIGH);";
    "digitalWrite(6, LOW);";
    "digitalWrite(11, LOW);";
    "delay(500);";
    "if (analogRead(14) < 30) {";
    "  // Stop all motors";
    "  digitalWrite(5, LOW);";
    "  digitalWrite(6, LOW);";
    "  digitalWrite(10, LOW);";
    "  digitalWrite(11, LOW);";
    "  // Turn right: 180 degrees";
    "  digitalWrite(5, HIGH);";
    "  digitalWrite(10, LOW);";
    "  digitalWrite(6, LOW);";
    "  digitalWrite(11, HIGH);";
    "  delay(900);";
    "  // Move backward: 20 units";
    "  digitalWrite(5, LOW);";
    "  digitalWrite(10, LOW);";
    "  digitalWrite(6, HIGH);";
    "  digitalWrite(11, HIGH);";
    "  delay(200);";
    "}";
    "for (int i = 0; i < 3; i++) {";
    "}";
    "// Servo arm to angle 90";
    "servo.write(90);";
    "delay(100);";
    "// Motor left speed: 75%";
    "analogWrite(5, 191);";
    "// Motor right speed: 75%";
    "analogWrite(10, 191);";
    "while (analogRead(15) > 50) {";
    "  // Move forward: 10 units";
    "  digitalWrite(5, HIGH);";
    "  digitalWrite(10, HIGH);";
    "  digitalWrite(6, LOW);";
    "  digitalWrite(11, LOW);";
    "  delay(100);";
    "  delay(100);  // Wait 100ms";
    "}";
    "avoidObstacle();  // Call function";
    "Serial.println(" +:+ dquote +:+ "Task complete" +:+ dquote +:+ ");";
    "}" ].

(** A function with a single [STOP], and a call to it. *)
Definition avoidObstacleText : string :=
  ArduinoGenerator.unlines
    [ "FUNCTION avoidObstacle"; "  STOP"; "END"; "CALL avoidObstacle" ].

(** Example program 1 of main.cpp ([getExampleProgram(1)]), line by line. *)
Definition exampleProgram1 : string :=
  ArduinoGenerator.unlines
    [ "# Robot navigation program";
      "ROBOT myRobot";
      "";
      "MOVE forward 100";
      "TURN left 90";
      "MOVE forward 50";
      "";
      "IF sensor.distance < 30 THEN";
      "  STOP";
      "  TURN right 180";
      "  MOVE backward 20";
      "END";
      "";
      "REPEAT 3 TIMES";
      "  LED on RED";
      "  WAIT 500";
      "  LED off";
      "END";
      "";
      "SERVO arm TO 90";
      "MOTOR left SPEED 75";
      "MOTOR right SPEED 75";
      "";
      "WHILE sensor.light > 50 DO";
      "  MOVE forward 10";
      "  WAIT 100";
      "END";
      "";
      "FUNCTION avoidObstacle";
      "  IF sensor.distance < 20 THEN";
      "    STOP";
      "    TURN right 45";
      "  END";
      "END";
      "";
      "CALL avoidObstacle";
      "";
      "SEND message " +:+ dquote +:+ "Task complete" +:+ dquote ]
  +:+ "END".

(** Lexer, then parser, as [parseAndDisplay] chains them. *)
Definition frontEnd (ord : UnorderedSetOrder) (code : string) : option Program :=
  toks ← Lexer.run code;
  match Parser.run ord toks with
  | Parser.Ok program _ => Some program
  | _ => None
  end.

(** [m'] does what [m] does wherever [m] does not run out of fuel. *)
Definition agrees {A : Type} (m m' : Parser.M A) : Prop :=
  forall p, m p <> Parser.OutOfFuel -> m' p = m p.

(** ** The lexer *)

(** Every character of [s] satisfies [f]. *)
Fixpoint allChars (f : ascii -> bool) (s : string) : bool :=
  match s with
  | EmptyString => true
  | String c tl => f c && allChars f tl
  end.

(** The characters [readIdentifier] keeps reading. *)
Definition isWordChar (c : ascii) : bool :=
  Lexer.isalnum c || bool_decide (c = "_"%char) || bool_decide (c = "."%char).

(** The characters the loop of [readString] keeps reading. *)
Definition inString (c : ascii) : bool :=
  negb (bool_decide (c = Lexer.quote)) && negb (bool_decide (c = Lexer.NUL)).

(** The characters the loop of [skipComment] passes over. *)
Definition inComment (c : ascii) : bool :=
  negb (bool_decide (c = "010"%char)) && negb (bool_decide (c = Lexer.NUL)).

(** The text of a token fits its type. *)
Definition wellLexed (tok : Token.t) : Prop :=
  match Token.type tok with
  | NUMBER => Token.value tok <> "" /\ allChars isdigit (Token.value tok) = true
  | KEYWORD => Token.value tok ∈ Lexer.KEYWORDS
  | IDENTIFIER =>
      Token.value tok ∉ Lexer.KEYWORDS
      /\ Token.value tok <> "" /\ allChars isWordChar (Token.value tok) = true
  | STRING => True
  | OPERATOR => exists ch, Lexer.isOperator ch = true /\ Token.value tok = String ch ""
  | LPAREN => Token.value tok = "("
  | RPAREN => Token.value tok = ")"
  | COMMA => Token.value tok = ","
  | DOT => Token.value tok = "."
  | END_OF_FILE => Token.value tok = "EOF"
  end.

(** No token can start with [c], and [c] is neither white space, the
    start of a comment nor the end of the text. *)
Definition startsNoToken (c : ascii) : bool :=
  negb (isspace c) && negb (bool_decide (c = "#"%char)) && negb (bool_decide (c = Lexer.NUL))
  && negb (isdigit c) && negb (Lexer.isalpha c) && negb (bool_decide (c = "_"%char))
  && negb (bool_decide (c = Lexer.quote))
  && negb (bool_decide (c = "("%char)) && negb (bool_decide (c = ")"%char))
  && negb (bool_decide (c = ","%char)) && negb (bool_decide (c = "."%char))
  && negb (Lexer.isOperator c).

(** The position of the lexer is within the text, and its line and
    column counters are at least 1. *)
Definition lexerOk (l : Lexer.t) : Prop :=
  (Lexer.pos l <= String.length (Lexer.source l))%nat
  /\ 1 <= Lexer.line l /\ 1 <= Lexer.column l.

(** From [l] to [l'] the lexer went forward over the same text. *)
Definition lexerMoved (l l' : Lexer.t) : Prop :=
  Lexer.source l' = Lexer.source l /\ (Lexer.pos l <= Lexer.pos l')%nat /\ lexerOk l'.

(** The characters of the text the lexer has not passed. *)
Definition charsLeft (l : Lexer.t) : nat :=
  (String.length (Lexer.source l) - Lexer.pos l)%nat.

(** A token as the lexer builds it: its text fits its type, and its
    position is a line and a column counted from 1. *)
Definition lexedToken (tok : Token.t) : Prop :=
  wellLexed tok /\ 1 <= Token.line tok /\ 1 <= Token.column tok.

(** The two [LexerException]s: the message and the character carried. *)
Definition lexerError (message : string) (invalidChar : ascii) : Prop :=
  (message = "Invalid character" /\ startsNoToken invalidChar = true)
  \/ (message = "Unterminated string literal" /\ invalidChar = Lexer.NUL).

(** What a member function of the lexer that returns a token has done. *)
Definition lexed {A : Type} (P : A -> Lexer.t -> Prop) (l : Lexer.t) (r : Lexer.Result A) : Prop :=
  match r with
  | Lexer.Ok a l' => lexerMoved l l' /\ P a l'
  | Lexer.Throw message line column invalidChar =>
      lexerError message invalidChar /\ 1 <= line /\ 1 <= column
  | Lexer.OutOfFuel => False
  end.

(** [getNextToken] read [tok] from [l] and stands at [l']: a token that
    is not the end marker takes at least one character. *)
Definition tokenRead (l : Lexer.t) (tok : Token.t) (l' : Lexer.t) : Prop :=
  lexedToken tok /\ (Token.type tok <> END_OF_FILE -> (Lexer.pos l < Lexer.pos l')%nat).

(** No character of [s] is a double quote. *)
Definition noQuote (s : string) : bool :=
  allChars (fun c => negb (bool_decide (c = Lexer.quote))) s.

(** A character [readString] copies as it is: no quote, no backslash,
    not the end of the text. *)
Definition isPlain (c : ascii) : bool :=
  negb (bool_decide (c = Lexer.quote)) && negb (bool_decide (c = Lexer.NUL))
  && negb (bool_decide (c = Lexer.backslash)).

(** The text of a string literal without escapes. *)
Definition plainText (s : string) : bool := allChars isPlain s.

(** [SEND message "s"]. *)
Definition sendText (s : string) : string := "SEND message " +:+ dquote +:+ s +:+ dquote.

(** ** The generator *)

(** The lines [stmt] adds to the loop-body buffer and to the hoisted
    definitions when it is emitted at indentation [level] into empty
    buffers. *)
Definition emittedBy (level : Z) (stmt : Statement) : list string * list string :=
  match ArduinoGenerator.generateStatement stmt (ArduinoGenerator.mk level [] [] []) with
  | Some g => (ArduinoGenerator.generatedCode g, ArduinoGenerator.variableDeclarations g)
  | None => ([], [])
  end.

Definition codeOf (level : Z) (stmt : Statement) : list string := fst (emittedBy level stmt).
Definition hoistedBy (level : Z) (stmt : Statement) : list string := snd (emittedBy level stmt).

(** The generator object with [code] appended to the loop-body buffer
    and [decls] to the hoisted definitions, nothing else changed. *)
Definition grown (g : ArduinoGenerator.t) (code decls : list string) : ArduinoGenerator.t :=
  ArduinoGenerator.mk (ArduinoGenerator.indentLevel g)
                      (ArduinoGenerator.generatedCode g ++ code)
                      (ArduinoGenerator.setupCode g)
                      (ArduinoGenerator.variableDeclarations g ++ decls).

(** [line] begins with the indentation of [level]. *)
Definition indentedAt (level : Z) (line : string) : Prop :=
  String.prefix (spaces (Z.to_nat (level * 2))) line = true.

(** [f] emits the same lines whatever the buffers hold: they depend on
    the indentation level only, and they are indented at that level. *)
Definition emitsLocally (f : ArduinoGenerator.t -> option ArduinoGenerator.t) : Prop :=
  forall level,
    0 <= level ->
    exists code decls,
      Forall (indentedAt level) code
      /\ forall g, ArduinoGenerator.indentLevel g = level -> f g = Some (grown g code decls).

(** The text of a hoisted function body: statement after statement, the
    lines of each statement from the last to the first. *)
Definition hoistedText (body : list Statement) : string :=
  String.concat "" (map (fun s => ArduinoGenerator.unlines (rev (codeOf 1 s))) body).

(** The setup block [generate] writes. *)
Definition setupBlock : list string :=
  [ "// Initialize pins"; "pinMode(13, OUTPUT);"; "pinMode(5, OUTPUT);";
    "pinMode(6, OUTPUT);"; "pinMode(10, OUTPUT);"; "pinMode(11, OUTPUT);";
    "Serial.begin(9600);";
    "Serial.println(" +:+ dquote +:+ "Robot initialized" +:+ dquote +:+ ");" ].

(** The statement is a function definition (or an empty slot): it adds
    nothing to the loop body. *)
Definition definesOnly (stmt : Statement) : bool :=
  match stmt with
  | NullStatement => true
  | FunctionDef _ _ => true
  | _ => false
  end.

(** ** Lines and words *)

(** Every character of [s] is one of [" \t\r\n"]. *)
Definition blank (s : string) : bool := allChars PeglibParser.isTrimmed s.

Fixpoint lastChar (s : string) : option ascii :=
  match s with
  | EmptyString => None
  | String c EmptyString => Some c
  | String _ tl => lastChar tl
  end.

(** [s] neither begins nor ends with one of [" \t\r\n"]. *)
Definition trimmed (s : string) : Prop :=
  s = ""
  \/ ((exists c, PeglibParser.firstChar s = Some c /\ PeglibParser.isTrimmed c = false)
      /\ (exists c, lastChar s = Some c /\ PeglibParser.isTrimmed c = false)).

(** [delimiter] does not occur in [s]. *)
Definition without (delimiter : ascii) (s : string) : bool :=
  allChars (fun c => negb (bool_decide (c = delimiter))) s.

(** ** The abstract syntax tree *)

(** No statement slot of [stmt], at any depth, is null. *)
Fixpoint nullFree (stmt : Statement) : bool :=
  match stmt with
  | NullStatement => false
  | IfStatement _ thenBody elseBody => forallb nullFree thenBody && forallb nullFree elseBody
  | WhileStatement _ body => forallb nullFree body
  | RepeatStatement _ body => forallb nullFree body
  | FunctionDef _ body => forallb nullFree body
  | _ => true
  end.

(** What the rules of the token parser check of a node before they
    build it; an integer field is an [int]. *)
Definition validNode (stmt : Statement) : Prop :=
  match stmt with
  | NullStatement => False
  | MoveStatement direction distance =>
      (direction = "forward" \/ direction = "backward") /\ 0 <= distance <= INT_MAX
  | TurnStatement direction angle =>
      (direction = "left" \/ direction = "right") /\ INT_MIN <= angle <= INT_MAX
  | RepeatStatement times _ => INT_MIN <= times <= INT_MAX
  | LEDStatement state _ => state = "on" \/ state = "off"
  | ServoStatement _ angle => INT_MIN <= angle <= INT_MAX
  | MotorStatement _ speed => 0 <= speed <= 100
  | WaitStatement duration => INT_MIN <= duration <= INT_MAX
  | _ => True
  end.

(** [validNode], decided, for the statement and for every statement of
    its bodies. *)
Fixpoint wellFormed (stmt : Statement) : bool :=
  match stmt with
  | NullStatement => false
  | MoveStatement direction distance =>
      (bool_decide (direction = "forward") || bool_decide (direction = "backward"))
      && (0 <=? distance) && (distance <=? INT_MAX)
  | TurnStatement direction angle =>
      (bool_decide (direction = "left") || bool_decide (direction = "right")) && in_int angle
  | IfStatement _ thenBody elseBody =>
      forallb wellFormed thenBody && forallb wellFormed elseBody
  | WhileStatement _ body => forallb wellFormed body
  | RepeatStatement times body => in_int times && forallb wellFormed body
  | LEDStatement state _ => bool_decide (state = "on") || bool_decide (state = "off")
  | ServoStatement _ angle => in_int angle
  | MotorStatement _ speed => (0 <=? speed) && (speed <=? 100)
  | WaitStatement duration => in_int duration
  | FunctionDef _ body => forallb wellFormed body
  | _ => true
  end.

(** [j["key"]] on a JSON value that was built: the member, if [j] is an
    object that has it. *)
Definition field (key : string) (j : Json) : option Json :=
  match j with
  | JObject fields => fields !! key
  | _ => None
  end.

(** The nodes the line-based parser builds: [Stop], [Wait], [LED],
    [Motor], and [Repeat] around such nodes. *)
Fixpoint lineKind (stmt : Statement) : bool :=
  match stmt with
  | StopStatement => true
  | RepeatStatement _ body => forallb lineKind body
  | LEDStatement _ _ => true
  | MotorStatement _ _ => true
  | WaitStatement _ => true
  | _ => false
  end.

(** ** The token parser *)

(** The texts [parseStatement] dispatches on. *)
Definition statementKeywords : list string :=
  [ "ROBOT"; "MOVE"; "TURN"; "STOP"; "IF"; "WHILE"; "REPEAT"; "LED"; "SERVO"; "MOTOR";
    "WAIT"; "FUNCTION"; "CALL"; "SEND" ].

(** What the parser can throw on tokens that came from the lexer: never
    the complaint about a negative distance, and the complaint about a
    motor speed only for a speed above 100. *)
Definition reachableOnLexed (e : Exception) : Prop :=
  match e with
  | SemanticException message context =>
      message <> "Movement distance must be positive"
      /\ (message = "Motor speed must be between 0 and 100" ->
          exists speed, 100 < speed /\ context = "Found: " +:+ to_string speed)
  | _ => True
  end.

(** Every token the parser holds is one the lexer could have built. *)
Definition lexedState (p : Parser.t) : Prop := Forall lexedToken (Parser.tokens p).

(** On lexed tokens [m] keeps the tokens, returns values that satisfy
    [Q], and throws reachable exceptions only. *)
Definition throwsOnly {A : Type} (Q : A -> Prop) (m : Parser.M A) : Prop :=
  forall p,
    lexedState p ->
    match m p with
    | Parser.Ok a p' => Parser.tokens p' = Parser.tokens p /\ Q a
    | Parser.Throw e => reachableOnLexed e
    | Parser.OutOfFuel => True
    end.

(** ** Complete statements *)

(** The token [peek] sees at index [i]: the static end marker past the
    end of the vector. *)
Definition tokenAt (toks : list Token.t) (i : nat) : Token.t :=
  default Parser.eof (toks !! i).

(** At index [i] stands a token with the text [keyword] that is not of
    type [END_OF_FILE]: [parseStatement] dispatches on it. *)
Definition starts (toks : list Token.t) (i : nat) (keyword : string) : Prop :=
  exists tok, toks !! i = Some tok /\ Token.value tok = keyword
              /\ Token.type tok <> END_OF_FILE.

(** [spans toks i stmt j]: the tokens from index [i] up to, not
    including, index [j] are one complete statement, the one its rule
    returns as [stmt]; every nested block is closed by its [END].
    [spansAll] is a sequence of such statements, one after the other.
    One constructor per path through a statement rule that returns. *)
Inductive spans (toks : list Token.t) : nat -> Statement -> nat -> Prop :=
| spans_robot i nameToken :
    starts toks i "ROBOT" ->
    toks !! S i = Some nameToken ->
    spans toks i (RobotDeclaration (Token.value nameToken)) (2 + i)
| spans_move i dirToken distToken distance :
    starts toks i "MOVE" ->
    toks !! S i = Some dirToken ->
    Token.value dirToken = "forward" \/ Token.value dirToken = "backward" ->
    toks !! S (S i) = Some distToken ->
    Token.type distToken = NUMBER ->
    Cpp.stoi (Token.value distToken) = Some distance ->
    0 <= distance ->
    spans toks i (MoveStatement (Token.value dirToken) distance) (3 + i)
| spans_turn i dirToken angleToken angle :
    starts toks i "TURN" ->
    toks !! S i = Some dirToken ->
    Token.value dirToken = "left" \/ Token.value dirToken = "right" ->
    toks !! S (S i) = Some angleToken ->
    Token.type angleToken = NUMBER ->
    Cpp.stoi (Token.value angleToken) = Some angle ->
    spans toks i (TurnStatement (Token.value dirToken) angle) (3 + i)
| spans_stop i :
    starts toks i "STOP" ->
    spans toks i StopStatement (1 + i)
| spans_if i left op right thenToken thenBody j endToken :
    starts toks i "IF" ->
    toks !! S i = Some left -> toks !! S (S i) = Some op -> toks !! S (S (S i)) = Some right ->
    toks !! S (S (S (S i))) = Some thenToken -> Token.value thenToken = "THEN" ->
    spansAll toks (5 + i) thenBody j ->
    toks !! j = Some endToken -> Token.value endToken = "END" ->
    spans toks i
          (IfStatement (Condition.mk (Token.value left) (Token.value op) (Token.value right))
                       thenBody [])
          (1 + j)
| spans_if_else i left op right thenToken thenBody j elseToken elseBody k endToken :
    starts toks i "IF" ->
    toks !! S i = Some left -> toks !! S (S i) = Some op -> toks !! S (S (S i)) = Some right ->
    toks !! S (S (S (S i))) = Some thenToken -> Token.value thenToken = "THEN" ->
    spansAll toks (5 + i) thenBody j ->
    toks !! j = Some elseToken -> Token.value elseToken = "ELSE" ->
    spansAll toks (1 + j) elseBody k ->
    toks !! k = Some endToken -> Token.value endToken = "END" ->
    spans toks i
          (IfStatement (Condition.mk (Token.value left) (Token.value op) (Token.value right))
                       thenBody elseBody)
          (1 + k)
| spans_while i left op right doToken body j endToken :
    starts toks i "WHILE" ->
    toks !! S i = Some left -> toks !! S (S i) = Some op -> toks !! S (S (S i)) = Some right ->
    toks !! S (S (S (S i))) = Some doToken -> Token.value doToken = "DO" ->
    spansAll toks (5 + i) body j ->
    toks !! j = Some endToken -> Token.value endToken = "END" ->
    spans toks i
          (WhileStatement (Condition.mk (Token.value left) (Token.value op) (Token.value right))
                          body)
          (1 + j)
| spans_repeat i timesToken times timesWord body j endToken :
    starts toks i "REPEAT" ->
    toks !! S i = Some timesToken ->
    Token.type timesToken = NUMBER ->
    Cpp.stoi (Token.value timesToken) = Some times ->
    toks !! S (S i) = Some timesWord -> Token.value timesWord = "TIMES" ->
    spansAll toks (3 + i) body j ->
    toks !! j = Some endToken -> Token.value endToken = "END" ->
    spans toks i (RepeatStatement times body) (1 + j)
| spans_led i stateToken :
    starts toks i "LED" ->
    toks !! S i = Some stateToken ->
    Token.value stateToken = "on" \/ Token.value stateToken = "off" ->
    Token.type (tokenAt toks (S (S i))) <> IDENTIFIER ->
    spans toks i (LEDStatement (Token.value stateToken) "") (2 + i)
| spans_led_color i stateToken colorToken :
    starts toks i "LED" ->
    toks !! S i = Some stateToken ->
    Token.value stateToken = "on" \/ Token.value stateToken = "off" ->
    toks !! S (S i) = Some colorToken ->
    Token.type colorToken = IDENTIFIER ->
    spans toks i (LEDStatement (Token.value stateToken) (Token.value colorToken)) (3 + i)
| spans_servo i nameToken toToken angleToken angle :
    starts toks i "SERVO" ->
    toks !! S i = Some nameToken ->
    toks !! S (S i) = Some toToken -> Token.value toToken = "TO" ->
    toks !! S (S (S i)) = Some angleToken ->
    Token.type angleToken = NUMBER ->
    Cpp.stoi (Token.value angleToken) = Some angle ->
    spans toks i (ServoStatement (Token.value nameToken) angle) (4 + i)
| spans_motor i nameToken speedWord speedToken speed :
    starts toks i "MOTOR" ->
    toks !! S i = Some nameToken ->
    toks !! S (S i) = Some speedWord -> Token.value speedWord = "SPEED" ->
    toks !! S (S (S i)) = Some speedToken ->
    Token.type speedToken = NUMBER ->
    Cpp.stoi (Token.value speedToken) = Some speed ->
    0 <= speed <= 100 ->
    spans toks i (MotorStatement (Token.value nameToken) speed) (4 + i)
| spans_wait i durationToken duration :
    starts toks i "WAIT" ->
    toks !! S i = Some durationToken ->
    Token.type durationToken = NUMBER ->
    Cpp.stoi (Token.value durationToken) = Some duration ->
    spans toks i (WaitStatement duration) (2 + i)
| spans_function i nameToken body j endToken :
    starts toks i "FUNCTION" ->
    toks !! S i = Some nameToken ->
    spansAll toks (2 + i) body j ->
    toks !! j = Some endToken -> Token.value endToken = "END" ->
    spans toks i (FunctionDef (Token.value nameToken) body) (1 + j)
| spans_call i nameToken :
    starts toks i "CALL" ->
    toks !! S i = Some nameToken ->
    spans toks i (CallStatement (Token.value nameToken)) (2 + i)
| spans_send i messageWord msgToken :
    starts toks i "SEND" ->
    toks !! S i = Some messageWord -> Token.value messageWord = "message" ->
    toks !! S (S i) = Some msgToken ->
    Token.type msgToken = STRING ->
    spans toks i (SendStatement (Token.value msgToken)) (3 + i)
with spansAll (toks : list Token.t) : nat -> list Statement -> nat -> Prop :=
| spansAll_nil i : spansAll toks i [] i
| spansAll_cons i stmt j stmts k :
    spans toks i stmt j -> spansAll toks j stmts k -> spansAll toks i (stmt :: stmts) k.

Scheme spans_mut := Minimality for spans Sort Prop
  with spansAll_mut := Minimality for spansAll Sort Prop.
Combined Scheme spans_both from spans_mut, spansAll_mut.

(** A token at which a block loop stops although it is not [END]: the
    end of the stream, or a stray [ELSE] or [DO]. *)
Definition endsBlock (tok : Token.t) : Prop :=
  Token.value tok <> "END"
  /\ (Token.type tok = END_OF_FILE \/ Token.value tok = "EOF"
      \/ Token.value tok = "ELSE" \/ Token.value tok = "DO").

(** The [IF] at index [i] is left open: after its header and [THEN]
    come complete statements (and, after an [ELSE], complete statements
    again), and then, where the closing [END] is due, the token [found]
    that ends the block and is not [END]. *)
Inductive openIf (toks : list Token.t) (i : nat) (found : Token.t) : Prop :=
| openIf_then left op right thenToken thenBody j :
    starts toks i "IF" ->
    toks !! S i = Some left -> toks !! S (S i) = Some op -> toks !! S (S (S i)) = Some right ->
    toks !! S (S (S (S i))) = Some thenToken -> Token.value thenToken = "THEN" ->
    spansAll toks (5 + i) thenBody j ->
    found = tokenAt toks j -> endsBlock found -> Token.value found <> "ELSE" ->
    openIf toks i found
| openIf_else left op right thenToken thenBody j elseToken elseBody k :
    starts toks i "IF" ->
    toks !! S i = Some left -> toks !! S (S i) = Some op -> toks !! S (S (S i)) = Some right ->
    toks !! S (S (S (S i))) = Some thenToken -> Token.value thenToken = "THEN" ->
    spansAll toks (5 + i) thenBody j ->
    toks !! j = Some elseToken -> Token.value elseToken = "ELSE" ->
    spansAll toks (1 + j) elseBody k ->
    found = tokenAt toks k -> endsBlock found ->
    openIf toks i found.

(** [opensAt toks i k]: at index [i] stands the header of a block that
    starts at index [k]: the rule reads the tokens from [i] to [k] and
    calls [parseBlock] there.  For an [IF] the block is the one after
    [THEN], or the one after [ELSE] behind complete statements. *)
Inductive opensAt (toks : list Token.t) : nat -> nat -> Prop :=
| opens_if i left op right thenToken :
    starts toks i "IF" ->
    toks !! S i = Some left -> toks !! S (S i) = Some op -> toks !! S (S (S i)) = Some right ->
    toks !! S (S (S (S i))) = Some thenToken -> Token.value thenToken = "THEN" ->
    opensAt toks i (5 + i)
| opens_else i left op right thenToken thenBody j elseToken :
    starts toks i "IF" ->
    toks !! S i = Some left -> toks !! S (S i) = Some op -> toks !! S (S (S i)) = Some right ->
    toks !! S (S (S (S i))) = Some thenToken -> Token.value thenToken = "THEN" ->
    spansAll toks (5 + i) thenBody j ->
    toks !! j = Some elseToken -> Token.value elseToken = "ELSE" ->
    opensAt toks i (1 + j)
| opens_while i left op right doToken :
    starts toks i "WHILE" ->
    toks !! S i = Some left -> toks !! S (S i) = Some op -> toks !! S (S (S i)) = Some right ->
    toks !! S (S (S (S i))) = Some doToken -> Token.value doToken = "DO" ->
    opensAt toks i (5 + i)
| opens_repeat i timesToken times timesWord :
    starts toks i "REPEAT" ->
    toks !! S i = Some timesToken ->
    Token.type timesToken = NUMBER ->
    Cpp.stoi (Token.value timesToken) = Some times ->
    toks !! S (S i) = Some timesWord -> Token.value timesWord = "TIMES" ->
    opensAt toks i (3 + i)
| opens_function i nameToken :
    starts toks i "FUNCTION" ->
    toks !! S i = Some nameToken ->
    opensAt toks i (2 + i).

(** [reached toks i]: the parser gets to a statement at index [i]: the
    first one, the one behind a complete statement it got to, or the
    first one of a block whose header it got to. *)
Inductive reached (toks : list Token.t) : nat -> Prop :=
| reached_first : reached toks 0
| reached_next i stmt j : reached toks i -> spans toks i stmt j -> reached toks j
| reached_inside i k : reached toks i -> opensAt toks i k -> reached toks k.

(** The [SemanticException]s of the statement rules: a value check of
    [MOVE], [TURN], [LED] or [MOTOR] failed. *)
Definition valueCheckFailed (message : string) : Prop :=
  (exists direction, message = "Invalid movement direction: " +:+ direction)
  \/ message = "Movement distance must be positive"
  \/ (exists direction, message = "Invalid turn direction: " +:+ direction)
  \/ message = "LED state must be 'on' or 'off'"
  \/ message = "Motor speed must be between 0 and 100".

(** What a statement rule throws through the [catch] clauses of
    [parseStatement]: a [ParserException], or the [SemanticException]
    of a failed value check; never another [std::exception], never the
    complaint of the whole-program check. *)
Definition statementException (e : Exception) : Prop :=
  match e with
  | ParserException _ _ _ _ _ => True
  | SemanticException message _ => valueCheckFailed message
  | StdException _ => False
  end.

(** What a statement rule throws before the [catch] clauses. *)
Definition ruleException (e : Exception) : Prop :=
  match e with
  | ParserException _ _ _ _ _ => True
  | SemanticException message _ => valueCheckFailed message
  | StdException _ => True
  end.

(** [m] throws exceptions of the class [E] only. *)
Definition throwsIn {A : Type} (E : Exception -> Prop) (m : Parser.M A) : Prop :=
  forall p e, m p = Parser.Throw e -> E e.

(** The statement rule parses the tokens from [i] to [j] into [s], from
    every state that stands at [i] with fuel to spare. *)
Definition accepts (toks : list Token.t) (i : nat) (s : Statement) (j : nat) : Prop :=
  (i < j)%nat
  /\ forall fuel p,
      Parser.tokens p = toks -> Parser.pos p = i -> (remaining p < fuel)%nat ->
      exists p', Parser.parseStatement fuel p = Parser.Ok (Some s) p'
                 /\ Parser.tokens p' = toks /\ Parser.pos p' = j.

(** The block loop parses the tokens from [i] to [j] into [stmts],
    appended to what it has, when it stops at [j]. *)
Definition acceptsAll (toks : list Token.t) (i : nat) (stmts : list Statement) (j : nat) : Prop :=
  (i <= j)%nat
  /\ forall fuel turns terminator acc p,
      Parser.tokens p = toks -> Parser.pos p = i ->
      (remaining p < fuel)%nat -> (remaining p < turns)%nat ->
      terminator = "ELSE" \/ terminator = "END" ->
      (forall q, Parser.tokens q = toks -> Parser.pos q = j ->
                 Parser.blockContinues terminator q = false
                 \/ Parser.check "END" q || Parser.check "ELSE" q || Parser.check "DO" q
                    = true) ->
      exists p', Parser.blockLoop (Parser.parseStatement fuel) turns terminator acc p
                 = Parser.Ok (acc ++ stmts)%list p'
                 /\ Parser.tokens p' = toks /\ Parser.pos p' = j.

(** The loop of [parse] and the loop of [parseBlock] throw at index
    [i], whatever they hold, an exception of the class [E]. *)
Definition loopsThrow (E : Exception -> Prop) (toks : list Token.t) (i : nat) : Prop :=
  (forall fuel turns acc p,
      Parser.tokens p = toks -> Parser.pos p = i ->
      (remaining p < fuel)%nat -> (remaining p < turns)%nat ->
      exists e, Parser.programLoop fuel turns acc p = Parser.Throw e /\ E e)
  /\ (forall fuel turns terminator acc p,
         Parser.tokens p = toks -> Parser.pos p = i ->
         (remaining p < fuel)%nat -> (remaining p < turns)%nat ->
         terminator = "ELSE" \/ terminator = "END" ->
         exists e, Parser.blockLoop (Parser.parseStatement fuel) turns terminator acc p
                   = Parser.Throw e /\ E e).

(** ===================================================================== *)
(** * Properties of the C++ primitives                                    *)
(** ===================================================================== *)

Lemma append_cons (x : ascii) (a b : string) : String x a +:+ b = String x (a +:+ b).
Proof. reflexivity. Qed.

Lemma append_nil_l (a : string) : "" +:+ a = a.
Proof. reflexivity. Qed.

Lemma append_assoc (a b c : string) : (a +:+ b) +:+ c = a +:+ (b +:+ c).
Proof.
  induction a as [|x a IH]; [reflexivity |].
  rewrite !append_cons. now rewrite IH.
Qed.

Lemma append_nil_r (a : string) : a +:+ "" = a.
Proof.
  induction a as [|x a IH]; [reflexivity |].
  rewrite append_cons. now rewrite IH.
Qed.

Lemma prefix_iff (p s : string) :
  String.prefix p s = true <-> exists post, s = p +:+ post.
Proof.
  revert s. induction p as [|a p IH]; intros s.
  - destruct s; simpl; split; eauto.
  - destruct s as [|b s]; simpl.
    + split; [discriminate | intros [post H]; discriminate].
    + destruct (ascii_dec a b) as [->|Hab].
      * rewrite IH. split; intros [post H]; exists post.
        -- rewrite append_cons. congruence.
        -- rewrite append_cons in H. congruence.
      * split; [discriminate | intros [post H]].
        rewrite append_cons in H. congruence.
Qed.

Lemma found_iff (s pat : string) : found s pat = true <-> contains s pat.
Proof.
  unfold found, contains. induction s as [|c s IH].
  - cbn [find]. destruct (String.prefix pat "") eqn:E.
    + split; [intros _ | reflexivity].
      apply prefix_iff in E as [post E]. exists "", post. exact E.
    + split; [discriminate |].
      intros (pre & post & H). destruct pre; [|discriminate].
      assert (String.prefix pat "" = true) by (apply prefix_iff; eauto).
      congruence.
  - cbn [find]. destruct (String.prefix pat (String c s)) eqn:E.
    + split; [intros _ | reflexivity].
      apply prefix_iff in E as [post E]. exists "", post. exact E.
    + destruct (find s pat) eqn:F; simpl.
      * split; [intros _ | reflexivity].
        destruct IH as [IH _]. destruct (IH eq_refl) as (pre & post & ->).
        exists (String c pre), post. reflexivity.
      * split; [discriminate |].
        intros (pre & post & H). destruct pre as [|x pre].
        -- assert (String.prefix pat (String c s) = true) by (apply prefix_iff; eauto).
           congruence.
        -- rewrite append_cons in H. injection H as -> ->.
           destruct IH as [_ IH]. discriminate IH. eauto.
Qed.

Lemma found_false_iff (s pat : string) : found s pat = false <-> ~ contains s pat.
Proof.
  rewrite <- found_iff. destruct (found s pat); split; congruence.
Qed.

Lemma wrap_in_range (z : Z) : INT_MIN <= z <= INT_MAX -> wrap z = z.
Proof.
  unfold wrap, INT_MIN, INT_MAX. intros H.
  rewrite Z.mod_small; lia.
Qed.

Lemma pwmValue_exact (speed : Z) :
  INT_MIN <= speed * 255 <= INT_MAX ->
  ArduinoGenerator.pwmValue speed = Z.quot (speed * 255) 100.
Proof.
  intros H. unfold ArduinoGenerator.pwmValue, int_mul, int_div.
  rewrite (wrap_in_range (speed * 255)) by exact H.
  apply wrap_in_range.
  unfold INT_MIN, INT_MAX in *.
  destruct (Z_le_gt_dec 0 (speed * 255)).
  - pose proof (Z.quot_pos (speed * 255) 100 ltac:(lia) ltac:(lia)).
    pose proof (Z.quot_le_upper_bound (speed * 255) 100 (2 ^ 31 - 1) ltac:(lia) ltac:(lia)).
    lia.
  - pose proof (Z.quot_opp_l (speed * 255) 100 ltac:(lia)) as Ho.
    pose proof (Z.quot_pos (- (speed * 255)) 100 ltac:(lia) ltac:(lia)).
    pose proof (Z.quot_le_upper_bound (- (speed * 255)) 100 (2 ^ 31) ltac:(lia) ltac:(lia)).
    lia.
Qed.

Lemma pwmValue_percent (speed : Z) :
  0 <= speed <= 100 ->
  ArduinoGenerator.pwmValue speed = Z.quot (speed * 255) 100
  /\ 0 <= ArduinoGenerator.pwmValue speed <= 255.
Proof.
  intros H.
  assert (E : ArduinoGenerator.pwmValue speed = Z.quot (speed * 255) 100).
  { apply pwmValue_exact. unfold INT_MIN, INT_MAX. lia. }
  split; [exact E |]. rewrite E.
  pose proof (Z.quot_pos (speed * 255) 100 ltac:(lia) ltac:(lia)).
  pose proof (Z.quot_le_upper_bound (speed * 255) 100 255 ltac:(lia) ltac:(lia)).
  lia.
Qed.

(** ===================================================================== *)
(** * The generator: frame and balance                                    *)
(** ===================================================================== *)

Section GeneratorFacts.
Import ArduinoGenerator.

Lemma extends_refl g : extends g g.
Proof.
  repeat split; [exists [] | exists []]; now rewrite app_nil_r.
Qed.

Lemma extends_trans g1 g2 g3 : extends g1 g2 -> extends g2 g3 -> extends g1 g3.
Proof.
  intros (S1 & [n1 C1] & [d1 D1]) (S2 & [n2 C2] & [d2 D2]).
  repeat split.
  - congruence.
  - exists (n1 ++ n2)%list. rewrite C2, C1. now rewrite app_assoc.
  - exists (d1 ++ d2)%list. rewrite D2, D1. now rewrite app_assoc.
Qed.

Lemma preserves_refl g : preserves g g.
Proof. split; [reflexivity | apply extends_refl]. Qed.

Lemma preserves_trans g1 g2 g3 : preserves g1 g2 -> preserves g2 g3 -> preserves g1 g3.
Proof.
  intros [L1 E1] [L2 E2]. split; [congruence | eapply extends_trans; eauto].
Qed.

Lemma addLine_Some code g :
  0 <= indentLevel g ->
  addLine code g
  = Some (set_generatedCode
            (generatedCode g ++ [spaces (Z.to_nat (indentLevel g * 2)) +:+ code]) g).
Proof.
  intros H. unfold addLine, indent.
  destruct (decide (0 <= indentLevel g * 2)); [reflexivity | lia].
Qed.

Lemma addLine_inv code g g' :
  addLine code g = Some g' ->
  0 <= indentLevel g
  /\ g' = set_generatedCode
            (generatedCode g ++ [spaces (Z.to_nat (indentLevel g * 2)) +:+ code]) g.
Proof.
  unfold addLine, indent.
  destruct (decide (0 <= indentLevel g * 2)); simpl; [|discriminate].
  intros [= <-]. split; [lia | reflexivity].
Qed.

Lemma emitsWell_addLine code : emitsWell (addLine code).
Proof.
  intros g. split.
  - intros g' H. apply addLine_inv in H as [_ ->].
    split; [reflexivity |]. repeat split; simpl; eauto.
    exists []. now rewrite app_nil_r.
  - intros H. rewrite addLine_Some by exact H. eauto.
Qed.

Lemma emitsWell_ret : emitsWell Some.
Proof.
  intros g. split; [intros g' [= <-]; apply preserves_refl | eauto].
Qed.

Lemma emitsWell_bind f h :
  emitsWell f -> emitsWell h -> emitsWell (fun g => g' ← f g; h g').
Proof.
  intros Hf Hh g. split.
  - intros g' H. destruct (f g) as [g1|] eqn:E; simpl in H; [|discriminate].
    eapply preserves_trans; [apply Hf, E | apply Hh, H].
  - intros H. destruct (proj2 (Hf g) H) as [g1 E]. rewrite E. simpl.
    apply Hh. destruct (proj1 (Hf g) g1 E) as [-> _]. exact H.
Qed.

Lemma emitsWell_addLines codes : emitsWell (addLines codes).
Proof.
  induction codes as [|c codes IH]; simpl.
  - apply emitsWell_ret.
  - apply (emitsWell_bind (addLine c) (addLines codes)); [apply emitsWell_addLine | exact IH].
Qed.

Lemma emitsWell_forEach (f : Statement -> t -> option t) (l : list Statement) :
  Forall (fun s => emitsWell (f s)) l -> emitsWell (forEach f l).
Proof.
  induction 1 as [|s l Hs Hl IH]; simpl.
  - apply emitsWell_ret.
  - apply (emitsWell_bind (f s) (forEach f l)); assumption.
Qed.

Lemma emitsWell_generateMove d n : emitsWell (generateMove d n).
Proof.
  unfold generateMove. intros g.
  repeat case_decide; try apply emitsWell_addLines. apply emitsWell_ret.
Qed.

Lemma emitsWell_generateTurn d n : emitsWell (generateTurn d n).
Proof.
  unfold generateTurn.
  apply (emitsWell_bind
           (fun g => if decide (d = "left") then addLines _ g
                     else if decide (d = "right") then addLines _ g else Some g)
           (addLine _)); [| apply emitsWell_addLine].
  intros g. repeat case_decide; try apply emitsWell_addLines. apply emitsWell_ret.
Qed.

Lemma emitsWell_generateLED s c : emitsWell (generateLED s c).
Proof.
  unfold generateLED. intros g. destruct (decide (s = "on")).
  - apply (emitsWell_bind (addLine _)
             (fun g => g' ← (if decide (c = "") then Some g else addLine _ g); addLine _ g'));
      [apply emitsWell_addLine |].
    apply (emitsWell_bind (fun g => if decide (c = "") then Some g else addLine _ g)
                          (addLine _)); [| apply emitsWell_addLine].
    intros g0. case_decide; [apply emitsWell_ret | apply emitsWell_addLine].
  - case_decide; [apply emitsWell_addLines | apply emitsWell_ret].
Qed.

Lemma emitsWell_generateMotor n s : emitsWell (generateMotor n s).
Proof.
  unfold generateMotor.
  apply (emitsWell_bind (addLine _)
           (fun g => if decide (n = "left") then addLine _ g
                     else if decide (n = "right") then addLine _ g else Some g));
    [apply emitsWell_addLine |].
  intros g. repeat case_decide; try apply emitsWell_addLine. apply emitsWell_ret.
Qed.

End GeneratorFacts.

Section GeneratorBlocks.
Import ArduinoGenerator.

Lemma emitsWell_ext (f h : t -> option t) :
  (forall g, f g = h g) -> emitsWell f -> emitsWell h.
Proof.
  intros E Hf g. rewrite <- E. apply Hf.
Qed.

(** [increaseIndent(); generateBlock(body); decreaseIndent();] *)
Lemma emitsWell_indented (f : t -> option t) :
  emitsWell f ->
  emitsWell (fun g => g' ← f (increaseIndent g); Some (decreaseIndent g')).
Proof.
  intros Hf g. split.
  - intros g' H. destruct (f (increaseIndent g)) as [g1|] eqn:E; simpl in H; [|discriminate].
    injection H as <-.
    destruct (proj1 (Hf _) _ E) as (L & S & C & D). simpl in *.
    split; simpl; [lia |]. repeat split; assumption.
  - intros H. destruct (proj2 (Hf (increaseIndent g))) as [g1 E]; [simpl; lia |].
    rewrite E. simpl. eauto.
Qed.

Lemma emitsWell_block (header : string) (f : t -> option t) :
  emitsWell f ->
  emitsWell (fun g =>
               g ← addLine header g;
               let g := increaseIndent g in
               g ← f g;
               let g := decreaseIndent g in
               addLine "}" g).
Proof.
  intros Hf.
  eapply emitsWell_ext;
    [| exact (emitsWell_bind _ _ (emitsWell_addLine header)
                (emitsWell_bind _ _ (emitsWell_indented f Hf) (emitsWell_addLine "}")))].
  intros g0. cbv beta zeta.
  destruct (addLine header g0) as [g1|]; simpl; [|reflexivity].
  destruct (f (increaseIndent g1)); reflexivity.
Qed.

Lemma extractLoop_spec (new pre : list string) (funcCode : string) (turns : nat) :
  (length new <= turns)%nat ->
  extractLoop turns (length pre) (pre ++ new) funcCode = (pre, drained new funcCode).
Proof.
  revert funcCode turns. induction new as [|x new IH] using rev_ind; intros funcCode turns H.
  - rewrite app_nil_r. unfold drained. simpl.
    destruct turns; simpl; [reflexivity |].
    destruct (decide (length pre < length pre)%nat); [lia | reflexivity].
  - rewrite length_app in H. simpl in H.
    destruct turns as [|k]; [lia |]. simpl.
    rewrite app_assoc, last_snoc, removelast_last.
    destruct (decide (length pre < length ((pre ++ new) ++ [x]))%nat) as [_|N].
    + rewrite IH by lia. unfold drained. rewrite rev_unit. reflexivity.
    + rewrite !length_app in N. simpl in N. lia.
Qed.

Lemma extractNew_spec (new pre : list string) (funcCode : string) :
  extractNew (length pre) (pre ++ new) funcCode = (pre, drained new funcCode).
Proof.
  unfold extractNew. apply extractLoop_spec. rewrite length_app. lia.
Qed.

(** The loop over a function body puts back every line a statement
    appended: the loop-body buffer and the counter end as they began. *)
Lemma functionBodyLoop_frame (f : Statement -> t -> option t) (body : list Statement) :
  Forall (fun s => emitsWell (f s)) body ->
  forall funcCode g,
    (forall funcCode' g',
        functionBodyLoop f body (funcCode, g) = Some (funcCode', g') ->
        indentLevel g' = indentLevel g
        /\ generatedCode g' = generatedCode g
        /\ setupCode g' = setupCode g
        /\ exists d, variableDeclarations g' = (variableDeclarations g ++ d)%list)
    /\ (0 <= indentLevel g -> is_Some (functionBodyLoop f body (funcCode, g))).
Proof.
  induction 1 as [|s body Hs Hbody IH]; intros funcCode g.
  - split.
    + intros funcCode' g' [= <- <-]. repeat split. exists []. now rewrite app_nil_r.
    + simpl. eauto.
  - assert (Step : forall g1, f s g = Some g1 ->
              exists new, functionBodyLoop f (s :: body) (funcCode, g)
                          = functionBodyLoop f body
                              (drained new funcCode, set_generatedCode (generatedCode g) g1)
                          /\ preserves g g1).
    { intros g1 E. destruct (proj1 (Hs g) g1 E) as (L & S & [new C] & D).
      exists new. split; [| repeat split; eauto].
      simpl. rewrite E. simpl. rewrite C, extractNew_spec. reflexivity. }
    split.
    + intros funcCode' g' H.
      destruct (f s g) as [g1|] eqn:E; [| simpl in H; rewrite E in H; discriminate].
      destruct (Step g1 eq_refl) as (new & R & L & S & C & [d1 D1]).
      rewrite R in H. apply IH in H as (L' & C' & S' & [d2 D2]). simpl in *.
      repeat split; try congruence.
      exists (d1 ++ d2)%list. rewrite D2, D1. now rewrite app_assoc.
    + intros Hlevel. destruct (proj2 (Hs g) Hlevel) as [g1 E].
      destruct (Step g1 E) as (new & R & L & _). rewrite R.
      apply IH. simpl. lia.
Qed.

Lemma generateStatement_If c th el g :
  generateStatement (IfStatement c th el) g
  = (g ← addLine ("if " +:+ generateCondition c +:+ " {") g;
     let g := increaseIndent g in
     g ← forEach generateStatement th g;
     let g := decreaseIndent g in
     g ← (match el with
          | [] => Some g
          | _ :: _ =>
              g ← addLine "} else {" g;
              let g := increaseIndent g in
              g ← forEach generateStatement el g;
              Some (decreaseIndent g)
          end);
     addLine "}" g).
Proof. reflexivity. Qed.

Lemma generateStatement_FunctionDef name body g :
  generateStatement (FunctionDef name body) g
  = (let g := set_variableDeclarations
                (variableDeclarations g ++ ["void " +:+ name +:+ "() {"]) g in
     let savedIndent := indentLevel g in
     let g := set_indentLevel 1 g in
     '(funcCode, g) ← functionBodyLoop generateStatement body ("", g);
     let g := set_indentLevel savedIndent g in
     Some (set_variableDeclarations (variableDeclarations g ++ [funcCode; "}"; ""]) g)).
Proof. reflexivity. Qed.

Lemma emitsWell_generateIf c th el :
  Forall (fun s => emitsWell (generateStatement s)) th ->
  Forall (fun s => emitsWell (generateStatement s)) el ->
  emitsWell (generateStatement (IfStatement c th el)).
Proof.
  intros Hth Hel.
  apply emitsWell_forEach in Hth, Hel.
  pose proof (emitsWell_addLine ("if " +:+ generateCondition c +:+ " {")) as H1.
  pose proof (emitsWell_indented _ Hth) as H2.
  assert (H3 : emitsWell (fun g => match el with
                                   | [] => Some g
                                   | _ :: _ =>
                                       g ← addLine "} else {" g;
                                       let g := increaseIndent g in
                                       g ← forEach generateStatement el g;
                                       Some (decreaseIndent g)
                                   end)).
  { destruct el as [|e el']; [apply emitsWell_ret |].
    apply (emitsWell_bind _ _ (emitsWell_addLine "} else {") (emitsWell_indented _ Hel)). }
  eapply emitsWell_ext;
    [| exact (emitsWell_bind _ _ H1
                (emitsWell_bind _ _ H2
                   (emitsWell_bind _ _ H3 (emitsWell_addLine "}"))))].
  intros g. rewrite generateStatement_If. cbv beta zeta.
  destruct (addLine ("if " +:+ generateCondition c +:+ " {") g) as [g1|]; simpl;
    [| reflexivity].
  destruct (forEach generateStatement th (increaseIndent g1)) as [g2|]; reflexivity.
Qed.

Lemma emitsWell_generateFunction name body :
  Forall (fun s => emitsWell (generateStatement s)) body ->
  emitsWell (generateStatement (FunctionDef name body)).
Proof.
  intros Hbody g. rewrite generateStatement_FunctionDef. cbv zeta.
  set (g1 := set_indentLevel 1 _).
  destruct (functionBodyLoop_frame _ _ Hbody "" g1) as [Hframe Htotal].
  destruct (Htotal ltac:(simpl; lia)) as [[funcCode g2] E].
  rewrite E. simpl. split; [| eauto].
  intros g' [= <-].
  destruct (Hframe _ _ E) as (L & C & S & [d D]). simpl in *.
  split; [reflexivity |]. repeat split; simpl.
  - exact S.
  - exists []. now rewrite app_nil_r.
  - exists (["void " +:+ name +:+ "() {"] ++ d ++ [funcCode; "}"; ""])%list.
    rewrite D. now rewrite <- !app_assoc.
Qed.

(** Every statement is emitted well. *)
Lemma emitsWell_generateStatement (stmt : Statement) : emitsWell (generateStatement stmt).
Proof.
  induction stmt using Statement_nested_ind.
  - apply emitsWell_ret.
  - apply emitsWell_addLines.
  - apply emitsWell_generateMove.
  - apply emitsWell_generateTurn.
  - apply emitsWell_addLines.
  - now apply emitsWell_generateIf.
  - apply (emitsWell_block _ (forEach generateStatement b)). now apply emitsWell_forEach.
  - apply (emitsWell_block _ (forEach generateStatement b)). now apply emitsWell_forEach.
  - apply emitsWell_generateLED.
  - apply emitsWell_addLines.
  - apply emitsWell_generateMotor.
  - apply emitsWell_addLine.
  - now apply emitsWell_generateFunction.
  - apply emitsWell_addLine.
  - apply emitsWell_addLine.
Qed.

Lemma emitsWell_generateBlock (body : list Statement) : emitsWell (generateBlock body).
Proof.
  apply emitsWell_forEach, Forall_forall. intros s _. apply emitsWell_generateStatement.
Qed.

End GeneratorBlocks.

(** ===================================================================== *)
(** * The embedding against the repository's own samples                  *)
(** ===================================================================== *)

(** The lexer turns the example texts into the example token sequences. *)
Example lexer_examples :
  Lexer.run repeatZeroText = Some repeatZero
  /\ Lexer.run forwardCallText = Some forwardCall
  /\ Lexer.run undefinedCallText = Some undefinedCall
  /\ Lexer.run unclosedIfBadMoveText = Some unclosedIfBadMove
  /\ Lexer.run unclosedIfText = Some unclosedIf
  /\ Lexer.run motorLeftText = Some motorLeft.
Proof. repeat split; vm_compute; reflexivity. Qed.

(** The front end on example program 1: the AST of the shipped
    document, with the REPEAT body in place. *)
Example frontEnd_example_program :
  frontEnd elementsOrder exampleProgram1
  = Some (mkProgram
            [ RobotDeclaration "myRobot";
              MoveStatement "forward" 100;
              TurnStatement "left" 90;
              MoveStatement "forward" 50;
              IfStatement (Condition.mk "sensor.distance" "<" "30")
                [StopStatement; TurnStatement "right" 180; MoveStatement "backward" 20] [];
              RepeatStatement 3
                [LEDStatement "on" "RED"; WaitStatement 500; LEDStatement "off" ""];
              ServoStatement "arm" 90;
              MotorStatement "left" 75;
              MotorStatement "right" 75;
              WhileStatement (Condition.mk "sensor.light" ">" "50")
                [MoveStatement "forward" 10; WaitStatement 100];
              FunctionDef "avoidObstacle"
                [IfStatement (Condition.mk "sensor.distance" "<" "20")
                   [StopStatement; TurnStatement "right" 45] []];
              CallStatement "avoidObstacle";
              SendStatement "Task complete" ]).
Proof. vm_compute. reflexivity. Qed.

(** [generate] reproduces the shipped document character for
    character, the reversed body of [avoidObstacle] included. *)
Example generate_sample_document :
  fst <$> ArduinoGenerator.generate sampleProgram ArduinoGenerator.new
  = Some (ArduinoGenerator.unlines sampleDocument).
Proof. vm_compute. reflexivity. Qed.

(** ===================================================================== *)
(** * The generator: claims                                               *)
(** ===================================================================== *)

(** C7.  For every [FunctionDef] and every prior state of the generator,
    [generateFunction] returns; the loop-body buffer [generatedCode], the
    indentation counter and the setup buffer are exactly what they were,
    and only [variableDeclarations] has grown: by the header line, what
    nested definitions hoisted, the body text, the closing brace and an
    empty line. *)
Theorem generateFunction_leaves_no_trace
        (name : string) (body : list Statement) (g : ArduinoGenerator.t) :
  exists g' nested funcCode,
    ArduinoGenerator.generateFunction name body g = Some g'
    /\ ArduinoGenerator.generatedCode g' = ArduinoGenerator.generatedCode g
    /\ ArduinoGenerator.indentLevel g' = ArduinoGenerator.indentLevel g
    /\ ArduinoGenerator.setupCode g' = ArduinoGenerator.setupCode g
    /\ ArduinoGenerator.variableDeclarations g'
       = (ArduinoGenerator.variableDeclarations g
          ++ ["void " +:+ name +:+ "() {"] ++ nested ++ [funcCode; "}"; ""])%list.
Proof.
  unfold ArduinoGenerator.generateFunction.
  rewrite generateStatement_FunctionDef. cbv zeta.
  set (g1 := ArduinoGenerator.set_indentLevel 1 _).
  assert (Hbody : Forall (fun s => emitsWell (ArduinoGenerator.generateStatement s)) body).
  { apply Forall_forall. intros s _. apply emitsWell_generateStatement. }
  destruct (functionBodyLoop_frame _ _ Hbody "" g1) as [Hframe Htotal].
  destruct (Htotal ltac:(simpl; lia)) as [[funcCode g2] E].
  destruct (Hframe _ _ E) as (L & C & S & [d D]). simpl in *.
  rewrite E. simpl.
  eexists _, d, funcCode. split; [reflexivity |]. simpl.
  repeat split; try assumption.
  rewrite D. now rewrite <- !app_assoc.
Qed.

Lemma generate_unfold (program : Program) (g : ArduinoGenerator.t) :
  ArduinoGenerator.generate program g
  = (g' ← ArduinoGenerator.forEach ArduinoGenerator.generateStatement (statements program)
            (ArduinoGenerator.mk 0 []
               [ "// Initialize pins"; "pinMode(13, OUTPUT);"; "pinMode(5, OUTPUT);";
                 "pinMode(6, OUTPUT);"; "pinMode(10, OUTPUT);"; "pinMode(11, OUTPUT);";
                 "Serial.begin(9600);";
                 "Serial.println(" +:+ dquote +:+ "Robot initialized" +:+ dquote +:+ ");" ]
               []);
     Some (ArduinoGenerator.document g', g')).
Proof. reflexivity. Qed.

(** C8.  Whenever [generateStatement] returns, the indentation counter
    has its value on entry, whatever that value and the statement are;
    it does return from every non-negative level (from a negative one
    [indent] cannot build its string); and after [generate] has walked
    any program the counter is 0. *)
Theorem indentation_balanced :
  (forall stmt g g',
      ArduinoGenerator.generateStatement stmt g = Some g' ->
      ArduinoGenerator.indentLevel g' = ArduinoGenerator.indentLevel g)
  /\ (forall stmt g,
         0 <= ArduinoGenerator.indentLevel g ->
         exists g', ArduinoGenerator.generateStatement stmt g = Some g'
                    /\ ArduinoGenerator.indentLevel g' = ArduinoGenerator.indentLevel g)
  /\ (forall program g,
         exists text g', ArduinoGenerator.generate program g = Some (text, g')
                         /\ ArduinoGenerator.indentLevel g' = 0).
Proof.
  split; [| split].
  - intros stmt g g' H. apply (emitsWell_generateStatement stmt g), H.
  - intros stmt g H.
    destruct (proj2 (emitsWell_generateStatement stmt g) H) as [g' E].
    exists g'. split; [exact E |]. apply (emitsWell_generateStatement stmt g), E.
  - intros program g. rewrite generate_unfold.
    set (g0 := ArduinoGenerator.mk 0 [] _ []).
    destruct (proj2 (emitsWell_generateBlock (statements program) g0)) as [g' E];
      [simpl; lia |].
    unfold ArduinoGenerator.generateBlock in E. rewrite E. simpl.
    eexists _, g'. split; [reflexivity |].
    apply (emitsWell_generateBlock (statements program) g0) in E as [L _]. exact L.
Qed.

Lemma indentation_balanced_witness :
  (exists g',
      ArduinoGenerator.generateStatement
        (IfStatement (Condition.mk "a" "<" "b") [StopStatement] [WaitStatement 5])
        ArduinoGenerator.new = Some g'
      /\ ArduinoGenerator.indentLevel g' = 0).
Proof.
  destruct indentation_balanced as (_ & H & _).
  apply (H (IfStatement (Condition.mk "a" "<" "b") [StopStatement] [WaitStatement 5])
           ArduinoGenerator.new).
  simpl. lia.
Defined.

(** C6.  A condition whose left operand contains [sensor.distance],
    with operator [<] and right operand [30], is lowered to
    [(analogRead(14) < 30)]; operands that contain neither sensor name
    pass through unchanged. *)
Theorem generateCondition_sensor_distance :
  (forall left,
      contains left "sensor.distance" ->
      ArduinoGenerator.generateCondition (Condition.mk left "<" "30")
      = "(analogRead(14) < 30)")
  /\ (forall left op right,
         ~ contains left "sensor.distance" -> ~ contains left "sensor.light" ->
         ~ contains right "sensor.distance" -> ~ contains right "sensor.light" ->
         ArduinoGenerator.generateCondition (Condition.mk left op right)
         = "(" +:+ left +:+ " " +:+ op +:+ " " +:+ right +:+ ")").
Proof.
  split.
  - intros left H. apply found_iff in H.
    unfold ArduinoGenerator.generateCondition, ArduinoGenerator.lowerOperand. simpl.
    rewrite H. reflexivity.
  - intros left op right Hl1 Hl2 Hr1 Hr2.
    apply found_false_iff in Hl1, Hl2, Hr1, Hr2.
    unfold ArduinoGenerator.generateCondition, ArduinoGenerator.lowerOperand. simpl.
    rewrite Hl1, Hl2, Hr1, Hr2. reflexivity.
Qed.

Lemma generateCondition_sensor_distance_witness :
  ArduinoGenerator.generateCondition (Condition.mk "front.sensor.distance" "<" "30")
  = "(analogRead(14) < 30)"
  /\ ArduinoGenerator.generateCondition (Condition.mk "speed" "==" "30")
     = "(speed == 30)".
Proof.
  destruct generateCondition_sensor_distance as [H1 H2]. split.
  - apply H1. exists "front.", "". reflexivity.
  - apply (H2 "speed" "==" "30"); apply found_false_iff; reflexivity.
Defined.

Lemma addLines_emitted (codes : list string) (g : ArduinoGenerator.t) :
  0 <= ArduinoGenerator.indentLevel g ->
  ArduinoGenerator.addLines codes g = Some (emitted g codes).
Proof.
  revert g. induction codes as [|c codes IH]; intros g H.
  - unfold emitted. simpl. rewrite app_nil_r. now destruct g.
  - simpl. rewrite addLine_Some by exact H. simpl.
    rewrite IH by exact H. unfold emitted. simpl.
    now rewrite <- app_assoc.
Qed.

Lemma addLine_emitted (code : string) (g : ArduinoGenerator.t) :
  0 <= ArduinoGenerator.indentLevel g ->
  ArduinoGenerator.addLine code g = Some (emitted g [code]).
Proof.
  intros H. now rewrite addLine_Some.
Qed.

Lemma emitted_emitted (g : ArduinoGenerator.t) (c1 c2 : list string) :
  emitted (emitted g c1) c2 = emitted g (c1 ++ c2).
Proof.
  unfold emitted. simpl. now rewrite map_app, app_assoc.
Qed.

Lemma generateMotor_emitted (name : string) (speed : Z) (g : ArduinoGenerator.t) :
  0 <= ArduinoGenerator.indentLevel g ->
  ArduinoGenerator.generateMotor name speed g
  = Some (emitted g
            (motorComment name speed
             :: (if decide (name = "left")
                 then [ArduinoGenerator.analogWrite 5 (ArduinoGenerator.pwmValue speed)]
                 else if decide (name = "right")
                      then [ArduinoGenerator.analogWrite 10 (ArduinoGenerator.pwmValue speed)]
                      else []))).
Proof.
  intros H. unfold ArduinoGenerator.generateMotor.
  rewrite addLine_emitted by exact H. simpl.
  repeat case_decide; rewrite ?addLine_emitted by exact H; rewrite ?emitted_emitted;
    reflexivity.
Qed.

Lemma parseMotor_default (line : string) (stmt : Statement) :
  PeglibParser.part (PeglibParser.split line " ") 1 = "SPEED" ->
  PeglibParser.parseMotor line = Some stmt ->
  exists speed, 0 <= speed <= 100 /\ stmt = MotorStatement "default" speed.
Proof.
  intros Hspeed. unfold PeglibParser.parseMotor.
  destruct (decide (length (PeglibParser.split line " ") < 3)%nat) as [|Hlen]; [discriminate |].
  destruct (decide ((3 <= length (PeglibParser.split line " "))%nat
                    /\ PeglibParser.part (PeglibParser.split line " ") 1 = "SPEED"))
    as [_|N]; [| exfalso; apply N; split; [lia | exact Hspeed]].
  destruct (Cpp.stoi _) as [v|]; simpl; [| discriminate].
  intros [= <-]. exists (PeglibParser.clamp v). split; [| reflexivity].
  unfold PeglibParser.clamp. repeat case_decide; lia.
Qed.

(** C10.  [generateMotor] emits the comment line and then an
    [analogWrite] only for the names [left] (pin 5) and [right] (pin 10);
    the value written is [(speed * 255) / 100] with truncating division
    whenever the product is an [int], and lies in [0,255] for a speed in
    [0,100]; a line of the form [MOTOR SPEED n], which the line-based
    parser names [default], yields the comment line alone. *)
Theorem generateMotor_pwm :
  (forall name speed g,
      0 <= ArduinoGenerator.indentLevel g ->
      ArduinoGenerator.generateMotor name speed g
      = Some (emitted g
                (motorComment name speed
                 :: (if decide (name = "left")
                     then [ArduinoGenerator.analogWrite 5 (ArduinoGenerator.pwmValue speed)]
                     else if decide (name = "right")
                          then [ArduinoGenerator.analogWrite 10 (ArduinoGenerator.pwmValue speed)]
                          else []))))
  /\ (forall speed,
         INT_MIN <= speed * 255 <= INT_MAX ->
         ArduinoGenerator.pwmValue speed = Z.quot (speed * 255) 100)
  /\ (forall speed, 0 <= speed <= 100 -> 0 <= ArduinoGenerator.pwmValue speed <= 255)
  /\ (forall line stmt g,
         PeglibParser.part (PeglibParser.split line " ") 1 = "SPEED" ->
         PeglibParser.parseMotor line = Some stmt ->
         0 <= ArduinoGenerator.indentLevel g ->
         exists speed,
           stmt = MotorStatement "default" speed
           /\ ArduinoGenerator.generateStatement stmt g
              = Some (emitted g [motorComment "default" speed])).
Proof.
  split; [| split; [| split]].
  - exact generateMotor_emitted.
  - exact pwmValue_exact.
  - intros speed H. apply pwmValue_percent, H.
  - intros line stmt g Hspeed Hparse Hlevel.
    destruct (parseMotor_default line stmt Hspeed Hparse) as (speed & _ & ->).
    exists speed. split; [reflexivity |].
    simpl. rewrite generateMotor_emitted by exact Hlevel. reflexivity.
Qed.

Lemma generateMotor_pwm_witness :
  ArduinoGenerator.generateMotor "left" 75 ArduinoGenerator.new
  = Some (emitted ArduinoGenerator.new ["// Motor left speed: 75%"; "analogWrite(5, 191);"])
  /\ ArduinoGenerator.pwmValue 75 = 191
  /\ 0 <= ArduinoGenerator.pwmValue 75 <= 255
  /\ exists speed,
       MotorStatement "default" 100 = MotorStatement "default" speed
       /\ ArduinoGenerator.generateStatement (MotorStatement "default" 100) ArduinoGenerator.new
          = Some (emitted ArduinoGenerator.new [motorComment "default" speed]).
Proof.
  destruct generateMotor_pwm as (H1 & H2 & H3 & H4).
  split; [| split; [| split]].
  - apply (H1 "left" 75 ArduinoGenerator.new). simpl. lia.
  - apply (H2 75). unfold INT_MIN, INT_MAX. lia.
  - apply (H3 75). lia.
  - apply (H4 "MOTOR SPEED 250" (MotorStatement "default" 100) ArduinoGenerator.new).
    + reflexivity.
    + reflexivity.
    + simpl. lia.
Defined.

(** ===================================================================== *)
(** * The JSON view: claims                                               *)
(** ===================================================================== *)

(** C9.  The JSON object of an [LEDStatement] always has the keys [type]
    and [state]; it has the key [color] exactly when the color string is
    not empty, and then with that string as its value: for an empty
    color the key is absent. *)
Theorem LED_toJson_color (state color : string) :
  exists fields,
    Ast.toJson (LEDStatement state color) = Some (JObject fields)
    /\ fields !! "type" = Some (JString "LED")
    /\ fields !! "state" = Some (JString state)
    /\ fields !! "color" = (if decide (color = "") then None else Some (JString color))
    /\ (is_Some (fields !! "color") <-> color <> "").
Proof.
  cbn [Ast.toJson]. unfold Ast.LEDStatement_toJson. cbv zeta.
  destruct (decide (color = "")) as [->|Hc]; eexists; (split; [reflexivity |]).
  - assert (Hnone : (<["state" := JString state]> (<["type" := JString "LED"]> ∅)
                      : gmap string Json) !! "color" = None).
    { rewrite !lookup_insert_ne by discriminate. apply lookup_empty. }
    split; [| split; [| split; [exact Hnone |]]].
    + rewrite lookup_insert_ne by discriminate. apply lookup_insert_eq.
    + apply lookup_insert_eq.
    + rewrite Hnone. split; [intros [x Hx]; discriminate | congruence].
  - assert (Hsome : (<["color" := JString color]>
                       (<["state" := JString state]> (<["type" := JString "LED"]> ∅))
                      : gmap string Json) !! "color" = Some (JString color)).
    { apply lookup_insert_eq. }
    split; [| split; [| split; [exact Hsome |]]].
    + rewrite !lookup_insert_ne by discriminate. apply lookup_insert_eq.
    + rewrite lookup_insert_ne by discriminate. apply lookup_insert_eq.
    + rewrite Hsome. split; [intros _; exact Hc | eauto].
Qed.

(** ===================================================================== *)
(** * Hoisting: the order of a function body                              *)
(** ===================================================================== *)

(** C1.  For the program that [FUNCTION avoidObstacle STOP END] followed
    by [CALL avoidObstacle] parses into, [generate] hoists exactly one block
    [void avoidObstacle()] and leaves exactly the invocation line in the
    loop body, with no line of the stop sequence there; but the text of
    the block is the stop sequence from its last line to its first, not
    in the order [generateStop] emits it. *)
Theorem hoisted_body_is_reversed (g : ArduinoGenerator.t) :
  exists text g',
    frontEnd elementsOrder avoidObstacleText
    = Some (mkProgram [FunctionDef "avoidObstacle" [StopStatement];
                       CallStatement "avoidObstacle"])
    /\ ArduinoGenerator.generate
         (mkProgram [FunctionDef "avoidObstacle" [StopStatement];
                     CallStatement "avoidObstacle"]) g
       = Some (text, g')
    /\ ArduinoGenerator.variableDeclarations g'
       = [ "void avoidObstacle() {";
           ArduinoGenerator.unlines
             (rev (map (fun code => "  " +:+ code) ArduinoGenerator.stopSequence));
           "}"; "" ]
    /\ ArduinoGenerator.generatedCode g' = ["avoidObstacle();  // Call function"]
    /\ ArduinoGenerator.unlines
         (rev (map (fun code => "  " +:+ code) ArduinoGenerator.stopSequence))
       <> ArduinoGenerator.unlines
            (map (fun code => "  " +:+ code) ArduinoGenerator.stopSequence).
Proof.
  rewrite generate_unfold.
  eexists _, _. split; [vm_compute; reflexivity |].
  split; [vm_compute; reflexivity |].
  split; [vm_compute; reflexivity |]. split; [reflexivity |].
  vm_compute. discriminate.
Qed.

(** ===================================================================== *)
(** * The token parser: the primitives                                    *)
(** ===================================================================== *)

Section ParserPrimitives.
Import Parser.

Lemma bind_Ok {A B} (m : M A) (k : A -> M B) p b p'' :
  bind m k p = Ok b p'' -> exists a p', m p = Ok a p' /\ k a p' = Ok b p''.
Proof.
  unfold bind. destruct (m p) as [a p'| |]; [eauto | discriminate | discriminate].
Qed.

Lemma ret_Ok {A} (a b : A) p p' : ret a p = Ok b p' -> b = a /\ p' = p.
Proof. intros [= -> ->]. split; reflexivity. Qed.

Lemma peek_lookup p tok : tokens p !! pos p = Some tok -> peek p = tok.
Proof. unfold peek. intros ->. reflexivity. Qed.

Lemma peek_past_end p : tokens p !! pos p = None -> peek p = eof.
Proof. unfold peek. intros ->. reflexivity. Qed.

Lemma moved_refl p : moved ∅ ∅ p p.
Proof.
  unfold moved. repeat split; try lia; set_solver.
Qed.

Lemma moved_trans D1 C1 D2 C2 p1 p2 p3 :
  moved D1 C1 p1 p2 -> moved D2 C2 p2 p3 -> moved (D1 ∪ D2) (C1 ∪ C2) p1 p3.
Proof.
  intros (T1 & L1 & B1 & HD1 & HC1) (T2 & L2 & B2 & HD2 & HC2).
  unfold moved. rewrite T1 in B2.
  repeat split.
  - congruence.
  - lia.
  - destruct B2 as [B2|B2]; [left; exact B2 |].
    destruct B1 as [B1|B1]; [left; lia | right; lia].
  - rewrite HD2, HD1. set_solver.
  - rewrite HC2, HC1. set_solver.
Qed.

Lemma moved_sets D C D' C' p p' : moved D C p p' -> D = D' -> C = C' -> moved D' C' p p'.
Proof. intros H -> ->. exact H. Qed.

Lemma moved_remaining D C p p' : moved D C p p' -> (remaining p' <= remaining p)%nat.
Proof.
  intros (T & L & B & _). unfold remaining. rewrite T. lia.
Qed.

Lemma moved_remaining_lt D C p p' :
  moved D C p p' -> (pos p < pos p')%nat -> (remaining p' < remaining p)%nat.
Proof.
  intros (T & L & B & _) Hlt. unfold remaining. rewrite T.
  destruct B as [B|B]; lia.
Qed.

Lemma consume_Ok tok p p' :
  consume p = Ok tok p' ->
  tokens p !! pos p = Some tok /\ p' = set_pos (S (pos p)) p.
Proof.
  unfold consume. destruct (tokens p !! pos p) as [x|]; [| discriminate].
  intros [= -> <-]. split; reflexivity.
Qed.

Lemma consumeExpected_Ok expected tok p p' :
  expected <> "EOF" ->
  consumeExpected expected p = Ok tok p' ->
  tokens p !! pos p = Some tok /\ Token.value tok = expected /\ p' = set_pos (S (pos p)) p.
Proof.
  intros Hne. unfold consumeExpected.
  destruct (decide (Token.value (peek p) = expected)) as [E|]; [| discriminate].
  intros [= <- <-].
  destruct (tokens p !! pos p) as [x|] eqn:L.
  - rewrite (peek_lookup _ _ L) in *. repeat split; assumption.
  - rewrite (peek_past_end _ L) in E. simpl in E. congruence.
Qed.

Lemma set_pos_moved p tok :
  tokens p !! pos p = Some tok ->
  moved ∅ ∅ p (set_pos (S (pos p)) p) /\ (pos p < pos (set_pos (S (pos p)) p))%nat.
Proof.
  intros L. apply lookup_lt_Some in L.
  unfold moved. simpl. repeat split; try lia; set_solver.
Qed.

Lemma consume_moved tok p p' :
  consume p = Ok tok p' -> moved ∅ ∅ p p' /\ (pos p < pos p')%nat.
Proof.
  intros H. apply consume_Ok in H as [L ->]. eapply set_pos_moved, L.
Qed.

Lemma consumeExpected_moved expected tok p p' :
  expected <> "EOF" ->
  consumeExpected expected p = Ok tok p' -> moved ∅ ∅ p p' /\ (pos p < pos p')%nat.
Proof.
  intros Hne H. apply consumeExpected_Ok in H as (L & _ & ->); [| exact Hne].
  eapply set_pos_moved, L.
Qed.

Lemma expectType_Ok tok ty msg ex p u p' :
  expectType tok ty msg ex p = Ok u p' -> Token.type tok = ty /\ p' = p.
Proof.
  unfold expectType. destruct (decide (Token.type tok = ty)); [| discriminate].
  intros [= _ <-]. split; [assumption | reflexivity].
Qed.

Lemma stoi_Ok s z p p' :
  stoi s p = Ok z p' -> Cpp.stoi s = Some z /\ p' = p.
Proof.
  unfold stoi. destruct (Cpp.stoi s); [| discriminate].
  intros [= <- <-]. split; reflexivity.
Qed.

Lemma guard_Ok (P : Prop) `{Decision P} e p u p' :
  (if decide P then throw e else ret tt) p = Ok u p' -> ~ P /\ p' = p.
Proof.
  destruct (decide P); [discriminate |]. intros [= _ <-]. split; [assumption | reflexivity].
Qed.

End ParserPrimitives.

(** Inversion of a rule that returned: one state per step. *)
Ltac parser_inv :=
  repeat match goal with
    | H : Parser.bind _ _ _ = Parser.Ok _ _ |- _ =>
        let a := fresh "a" in let q := fresh "q" in let E := fresh "E" in
        apply bind_Ok in H as (a & q & E & H); cbv beta in H
    | H : Parser.ret _ _ = Parser.Ok _ _ |- _ => apply ret_Ok in H as [-> ->]
    | H : Parser.throw _ _ = Parser.Ok _ _ |- _ => discriminate H
    | H : Parser.expectType _ _ _ _ _ = Parser.Ok _ _ |- _ =>
        let T := fresh "T" in apply expectType_Ok in H as [T ->]
    | H : Parser.stoi _ _ = Parser.Ok _ _ |- _ =>
        let Z := fresh "Z" in apply stoi_Ok in H as [Z ->]
    | H : (if decide _ then Parser.throw _ else Parser.ret tt) _ = Parser.Ok _ _ |- _ =>
        let N := fresh "N" in apply guard_Ok in H as [N ->]
    end.

Ltac consume_inv :=
  repeat match goal with
    | H : Parser.consume _ = Parser.Ok _ _ |- _ =>
        let L := fresh "L" in apply consume_Ok in H as [L ->]
    | H : Parser.consumeExpected _ _ = Parser.Ok _ _ |- _ =>
        let L := fresh "L" in let V := fresh "V" in
        apply consumeExpected_Ok in H as (L & V & ->); [| discriminate]
    | H : Parser.Ok _ _ = Parser.Ok _ _ |- _ => injection H as ? ?; subst
    end.

Ltac lookup_bounds :=
  repeat match goal with
    | H : _ !! _ = Some _ |- _ => simpl in H; apply lookup_lt_Some in H
    end.

(** Closes [parsedOne] for a rule without nested blocks, once every step
    of the rule is inverted. *)
Ltac leaf_solve :=
  parser_inv; consume_inv; lookup_bounds;
  unfold parsedOne, moved; simpl; repeat split; try lia; try set_solver.

(** ===================================================================== *)
(** * The token parser: the statement rules                               *)
(** ===================================================================== *)

Section ParserLeaves.
Import Parser.

Lemma parseRobotDeclaration_parsed p s p' :
  parseRobotDeclaration p = Ok s p' -> parsedOne p s p'.
Proof. unfold parseRobotDeclaration. intros H. leaf_solve. Qed.

Lemma parseMoveStatement_parsed p s p' :
  parseMoveStatement p = Ok s p' -> parsedOne p s p'.
Proof. unfold parseMoveStatement. intros H. leaf_solve. Qed.

Lemma parseTurnStatement_parsed p s p' :
  parseTurnStatement p = Ok s p' -> parsedOne p s p'.
Proof. unfold parseTurnStatement. intros H. leaf_solve. Qed.

Lemma parseStopStatement_parsed p s p' :
  parseStopStatement p = Ok s p' -> parsedOne p s p'.
Proof. unfold parseStopStatement. intros H. leaf_solve. Qed.

Lemma parseLEDStatement_parsed p s p' :
  parseLEDStatement p = Ok s p' -> parsedOne p s p'.
Proof.
  unfold parseLEDStatement. intros H. parser_inv.
  match goal with
  | H : (if checkType IDENTIFIER ?q then _ else _) = _ |- _ =>
      destruct (checkType IDENTIFIER q)
  end; leaf_solve.
Qed.

Lemma parseServoStatement_parsed p s p' :
  parseServoStatement p = Ok s p' -> parsedOne p s p'.
Proof. unfold parseServoStatement. intros H. leaf_solve. Qed.

Lemma parseMotorStatement_parsed p s p' :
  parseMotorStatement p = Ok s p' -> parsedOne p s p'.
Proof. unfold parseMotorStatement. intros H. leaf_solve. Qed.

Lemma parseWaitStatement_parsed p s p' :
  parseWaitStatement p = Ok s p' -> parsedOne p s p'.
Proof. unfold parseWaitStatement. intros H. leaf_solve. Qed.

Lemma parseCallStatement_parsed p s p' :
  parseCallStatement p = Ok s p' -> parsedOne p s p'.
Proof. unfold parseCallStatement. intros H. leaf_solve. Qed.

Lemma parseSendStatement_parsed p s p' :
  parseSendStatement p = Ok s p' -> parsedOne p s p'.
Proof. unfold parseSendStatement. intros H. leaf_solve. Qed.

Lemma parseCondition_moved p c p' :
  parseCondition p = Ok c p' -> moved ∅ ∅ p p' /\ (pos p < pos p')%nat.
Proof.
  unfold parseCondition. intros H. parser_inv; consume_inv; lookup_bounds.
  unfold moved; simpl; repeat split; try lia; set_solver.
Qed.

End ParserLeaves.


Ltac sets_solve :=
  cbn [declaredIn calledIn]; unfold declaredInAll, calledInAll in *;
  repeat match goal with
    | H : Parser.declaredFunctions _ = _ |- _ => rewrite H; clear H
    | H : Parser.calledFunctions _ = _ |- _ => rewrite H; clear H
    end;
  repeat match goal with
    | H : Parser.declaredFunctions _ = _ |- _ => clear H
    | H : Parser.calledFunctions _ = _ |- _ => clear H
    | H : _ \/ _ |- _ => clear H
    end;
  set_solver.

Ltac moved_goal :=
  match goal with
  | |- ?a = ?a => reflexivity
  | |- (_ <= _)%nat => lia
  | |- (_ < _)%nat => lia
  | |- _ \/ _ => lia
  | |- Parser.declaredFunctions _ = _ => sets_solve
  | |- Parser.calledFunctions _ = _ => sets_solve
  | |- _ => idtac
  end.

Ltac split_moved :=
  unfold parsedOne, parsedAll, moved in *;
  repeat match goal with
    | H : _ /\ _ |- _ => destruct H
    end;
  cbn [Parser.tokens Parser.pos Parser.declaredFunctions Parser.calledFunctions
       Parser.declare Parser.call Parser.set_pos] in *;
  repeat match goal with
    | H : Parser.tokens ?q = Parser.tokens ?p |- _ => rewrite H in *; clear H
    end;
  repeat match goal with |- _ /\ _ => split end;
  moved_goal.

Section ParserCompound.
Import Parser.

Variable parseBlock : string -> M (list Statement).
Hypothesis parseBlock_parsed :
  forall terminator p stmts p', parseBlock terminator p = Ok stmts p' -> parsedAll p stmts p'.

Ltac moves :=
  repeat match goal with
    | H : consume _ = Ok _ _ |- _ => apply consume_moved in H as [? ?]
    | H : consumeExpected _ _ = Ok _ _ |- _ =>
        apply consumeExpected_moved in H as [? ?]; [| discriminate]
    | H : parseCondition _ = Ok _ _ |- _ => apply parseCondition_moved in H as [? ?]
    | H : parseBlock _ _ = Ok _ _ |- _ => apply parseBlock_parsed in H
    | H : Ok _ _ = Ok _ _ |- _ => injection H as ? ?; subst
    end.

Ltac compound_solve := parser_inv; moves; clear parseBlock_parsed; split_moved.

Lemma parseIfStatement_parsed p s p' :
  parseIfStatement parseBlock p = Ok s p' -> parsedOne p s p'.
Proof.
  unfold parseIfStatement. intros H. parser_inv.
  match goal with
  | H : (if check "ELSE" ?q then _ else _) = _ |- _ => destruct (check "ELSE" q)
  end.
  - compound_solve.
    cbn [motorsInRange]. apply andb_true_iff. split; assumption.
  - compound_solve.
    cbn [motorsInRange]. apply andb_true_iff. split; [assumption | reflexivity].
Qed.

Lemma parseWhileStatement_parsed p s p' :
  parseWhileStatement parseBlock p = Ok s p' -> parsedOne p s p'.
Proof. unfold parseWhileStatement. intros H. compound_solve. assumption. Qed.

Lemma parseRepeatStatement_parsed p s p' :
  parseRepeatStatement parseBlock p = Ok s p' -> parsedOne p s p'.
Proof. unfold parseRepeatStatement. intros H. compound_solve. assumption. Qed.

Lemma parseFunctionDef_parsed p s p' :
  parseFunctionDef parseBlock p = Ok s p' -> parsedOne p s p'.
Proof. unfold parseFunctionDef. intros H. compound_solve. assumption. Qed.

End ParserCompound.

Section ParserStatements.
Import Parser.

Lemma parsedAll_nil p : parsedAll p [] p.
Proof.
  split; [| reflexivity]. eapply moved_sets; [apply moved_refl | |]; reflexivity.
Qed.

Lemma parsedAll_cons p s q stmts q' :
  parsedOne p s q -> parsedAll q stmts q' -> parsedAll p (s :: stmts) q'.
Proof.
  intros (M1 & _ & R1) (M2 & R2). split.
  - eapply moved_sets; [exact (moved_trans _ _ _ _ _ _ _ M1 M2) | |]; reflexivity.
  - simpl. rewrite R1, R2. reflexivity.
Qed.

Section WithBlock.
Variable parseBlock : string -> M (list Statement).
Hypothesis parseBlock_parsed :
  forall terminator p stmts p', parseBlock terminator p = Ok stmts p' -> parsedAll p stmts p'.

Lemma dispatch_parsed token p r p' :
  check "END" p = false ->
  dispatch parseBlock token p = Ok r p' ->
  exists s, r = Some s /\ parsedOne p s p'.
Proof.
  intros HE H. unfold dispatch in H.
  repeat match type of H with
         | (if check ?v p then _ else _) = _ =>
             destruct (check v p) eqn:?; cbv iota in H
         end;
    try congruence;
    parser_inv; eexists; (split; [reflexivity |]);
    eauto using parseRobotDeclaration_parsed, parseMoveStatement_parsed,
      parseTurnStatement_parsed, parseStopStatement_parsed, parseLEDStatement_parsed,
      parseServoStatement_parsed, parseMotorStatement_parsed, parseWaitStatement_parsed,
      parseCallStatement_parsed, parseSendStatement_parsed,
      parseIfStatement_parsed, parseWhileStatement_parsed,
      parseRepeatStatement_parsed, parseFunctionDef_parsed.
Qed.

Lemma parseStatementWith_parsed p r p' :
  parseStatementWith parseBlock p = Ok r p' -> statementParsed p r p'.
Proof.
  unfold parseStatementWith.
  destruct (decide (Token.type (peek p) = END_OF_FILE));
    [intros [= <- <-]; split; [reflexivity | left; assumption] |].
  destruct (check "END" p) eqn:HE;
    [intros [= <- <-]; split; [reflexivity | right; exact HE] |].
  destruct (dispatch parseBlock (peek p) p) as [r0 p0| |] eqn:D; [| discriminate ..].
  intros [= <- <-].
  destruct (dispatch_parsed _ _ _ _ HE D) as (s & -> & H). exact H.
Qed.
End WithBlock.

Lemma blockLoop_parsed (ps : M (option Statement)) :
  (forall p r p', ps p = Ok r p' -> statementParsed p r p') ->
  forall turns terminator acc p stmts p',
    blockLoop ps turns terminator acc p = Ok stmts p' ->
    exists new, stmts = (acc ++ new)%list /\ parsedAll p new p'.
Proof.
  intros Hps. induction turns as [|k IH]; intros terminator acc p stmts p' H;
    [discriminate |].
  simpl in H.
  destruct (blockContinues terminator p);
    [| injection H as <- <-; exists []; split;
       [now rewrite app_nil_r | apply parsedAll_nil]].
  destruct (check "END" p || check "ELSE" p || check "DO" p);
    [injection H as <- <-; exists []; split;
     [now rewrite app_nil_r | apply parsedAll_nil] |].
  destruct (ps p) as [[s|] q| |] eqn:E; [| | discriminate ..].
  - apply Hps in E. apply IH in H as (new & -> & Hnew).
    exists (s :: new). split; [now rewrite <- app_assoc |].
    eapply parsedAll_cons; eassumption.
  - apply Hps in E. destruct E as [-> _].
    destruct (blockContinues terminator p).
    + injection H as <- <-. exists []. split; [now rewrite app_nil_r | apply parsedAll_nil].
    + apply IH in H. exact H.
Qed.

Lemma parseStatement_parsed fuel p r p' :
  parseStatement fuel p = Ok r p' -> statementParsed p r p'.
Proof.
  revert p r p'. induction fuel as [|n IH]; intros p r p'; [discriminate |].
  simpl. apply parseStatementWith_parsed.
  intros terminator q stmts q' H.
  apply (blockLoop_parsed _ IH) in H as (new & -> & H). exact H.
Qed.

Lemma parseBlock_parsedAll fuel terminator p stmts p' :
  parseBlock fuel terminator p = Ok stmts p' -> parsedAll p stmts p'.
Proof.
  unfold parseBlock. intros H.
  apply (blockLoop_parsed _ (parseStatement_parsed fuel)) in H as (new & -> & H). exact H.
Qed.

Lemma programLoop_parsed fuel turns acc p stmts p' :
  programLoop fuel turns acc p = Ok stmts p' ->
  exists new, stmts = (acc ++ new)%list /\ parsedAll p new p'.
Proof.
  revert acc p. induction turns as [|k IH]; intros acc p H; [discriminate |].
  simpl in H.
  destruct (programContinues p);
    [| injection H as <- <-; exists []; split;
       [now rewrite app_nil_r | apply parsedAll_nil]].
  destruct (parseStatement fuel p) as [[s|] q| |] eqn:E; [| | discriminate ..].
  - apply parseStatement_parsed in E. apply IH in H as (new & -> & Hnew).
    exists (s :: new). split; [now rewrite <- app_assoc |].
    eapply parsedAll_cons; eassumption.
  - apply parseStatement_parsed in E. destruct E as [-> _].
    apply IH in H. exact H.
Qed.

(** When the parsing phase of [parse] returns, the two accumulators
    hold exactly the names of the program's [FunctionDef] and [Call]
    nodes, and every motor speed of the program is in range. *)
Lemma parseProgram_parsed fuel toks program p' :
  parseProgram fuel (new toks) = Ok program p' ->
  declaredFunctions p' = declaredInAll (statements program)
  /\ calledFunctions p' = calledInAll (statements program)
  /\ forallb motorsInRange (statements program) = true.
Proof.
  unfold parseProgram. intros H. parser_inv.
  apply programLoop_parsed in E as (stmts & -> & (M & R)).
  assert (declaredFunctions q0 = declaredFunctions q
          /\ calledFunctions q0 = calledFunctions q) as [ED EC].
  { destruct (check "END" q); parser_inv; consume_inv; split; reflexivity. }
  destruct M as (_ & _ & _ & HD & HC). simpl in *.
  rewrite ED, EC, HD, HC. repeat split; [set_solver | set_solver | exact R].
Qed.

End ParserStatements.

(** ===================================================================== *)
(** * The token parser: termination                                       *)
(** ===================================================================== *)

Section ParserTotal.
Import Parser.

Lemma bind_total {A B} (m : M A) (k : A -> M B) p :
  m p <> OutOfFuel ->
  (forall a q, m p = Ok a q -> k a q <> OutOfFuel) ->
  bind m k p <> OutOfFuel.
Proof.
  intros Hm Hk. unfold bind. destruct (m p) as [a q| |]; [eauto | discriminate | congruence].
Qed.

Lemma consume_total p : consume p <> OutOfFuel.
Proof. unfold consume. destruct (tokens p !! pos p); discriminate. Qed.

Lemma consumeExpected_total expected p : consumeExpected expected p <> OutOfFuel.
Proof. unfold consumeExpected. destruct (decide _); discriminate. Qed.

Lemma expectType_total tok ty msg ex p : expectType tok ty msg ex p <> OutOfFuel.
Proof. unfold expectType. destruct (decide _); discriminate. Qed.

Lemma stoi_total s p : stoi s p <> OutOfFuel.
Proof. unfold stoi. destruct (Cpp.stoi s); discriminate. Qed.

Lemma parseCondition_total p : parseCondition p <> OutOfFuel.
Proof.
  unfold parseCondition.
  repeat (apply bind_total; [apply consume_total | intros ? ? _; cbv beta]).
  discriminate.
Qed.

End ParserTotal.

(** One step of a proof that a rule does not run out of fuel. *)
Ltac total_step :=
  match goal with
  | |- Parser.bind _ _ _ <> Parser.OutOfFuel =>
      let a := fresh "a" in let q := fresh "q" in let E := fresh "E" in
      apply bind_total; [| intros a q E; cbv beta]
  | |- Parser.consume _ <> Parser.OutOfFuel => apply consume_total
  | |- Parser.consumeExpected _ _ <> Parser.OutOfFuel => apply consumeExpected_total
  | |- Parser.expectType _ _ _ _ _ <> Parser.OutOfFuel => apply expectType_total
  | |- Parser.stoi _ _ <> Parser.OutOfFuel => apply stoi_total
  | |- Parser.parseCondition _ <> Parser.OutOfFuel => apply parseCondition_total
  | |- Parser.ret _ _ <> Parser.OutOfFuel => discriminate
  | |- Parser.throw _ _ <> Parser.OutOfFuel => discriminate
  | |- Parser.Ok _ _ <> Parser.OutOfFuel => discriminate
  | |- Parser.Throw _ <> Parser.OutOfFuel => discriminate
  | |- (if ?c then _ else _) _ <> Parser.OutOfFuel => destruct c
  | |- (if ?c then _ else _) <> Parser.OutOfFuel => destruct c
  end.

Section ParserTotalRules.
Import Parser.

Lemma parseRobotDeclaration_total p : parseRobotDeclaration p <> OutOfFuel.
Proof. unfold parseRobotDeclaration. repeat total_step. Qed.

Lemma parseMoveStatement_total p : parseMoveStatement p <> OutOfFuel.
Proof. unfold parseMoveStatement. repeat total_step. Qed.

Lemma parseTurnStatement_total p : parseTurnStatement p <> OutOfFuel.
Proof. unfold parseTurnStatement. repeat total_step. Qed.

Lemma parseStopStatement_total p : parseStopStatement p <> OutOfFuel.
Proof. unfold parseStopStatement. repeat total_step. Qed.

Lemma parseLEDStatement_total p : parseLEDStatement p <> OutOfFuel.
Proof. unfold parseLEDStatement. repeat total_step. Qed.

Lemma parseServoStatement_total p : parseServoStatement p <> OutOfFuel.
Proof. unfold parseServoStatement. repeat total_step. Qed.

Lemma parseMotorStatement_total p : parseMotorStatement p <> OutOfFuel.
Proof. unfold parseMotorStatement. repeat total_step. Qed.

Lemma parseWaitStatement_total p : parseWaitStatement p <> OutOfFuel.
Proof. unfold parseWaitStatement. repeat total_step. Qed.

Lemma parseCallStatement_total p : parseCallStatement p <> OutOfFuel.
Proof. unfold parseCallStatement. repeat total_step. Qed.

Lemma parseSendStatement_total p : parseSendStatement p <> OutOfFuel.
Proof. unfold parseSendStatement. repeat total_step. Qed.

Section WithBlockTotal.
Variable parseBlock : string -> M (list Statement).
Variable k : nat.
Hypothesis parseBlock_parsed :
  forall terminator p stmts p', parseBlock terminator p = Ok stmts p' -> parsedAll p stmts p'.
Hypothesis parseBlock_total :
  forall terminator q, (remaining q < k)%nat -> parseBlock terminator q <> OutOfFuel.

(** The block rule is reached after at least one token was consumed. *)
Ltac block_total :=
  apply parseBlock_total;
  repeat match goal with
    | H : consume _ = Ok _ _ |- _ => apply consume_moved in H as [? ?]
    | H : consumeExpected _ _ = Ok _ _ |- _ =>
        apply consumeExpected_moved in H as [? ?]; [| discriminate]
    | H : parseCondition _ = Ok _ _ |- _ => apply parseCondition_moved in H as [? ?]
    | H : parseBlock _ _ = Ok _ _ |- _ => apply parseBlock_parsed in H
    | H : expectType _ _ _ _ _ = Ok _ _ |- _ => apply expectType_Ok in H as [? ->]
    | H : stoi _ _ = Ok _ _ |- _ => apply stoi_Ok in H as [? ->]
    | H : Ok _ _ = Ok _ _ |- _ => injection H as ? ?; subst
    end;
  clear parseBlock_parsed parseBlock_total;
  unfold parsedAll, moved, remaining in *;
  repeat match goal with
    | H : _ /\ _ |- _ => destruct H
    end;
  cbn [tokens pos declaredFunctions calledFunctions declare call set_pos] in *;
  repeat match goal with
    | H : tokens ?q = tokens ?p |- _ => rewrite H in *; clear H
    end;
  lia.

Ltac compound_total :=
  repeat first [ total_step
               | match goal with
                 | |- parseBlock _ _ <> OutOfFuel => block_total
                 end ].

Lemma parseIfStatement_total p :
  (remaining p <= k)%nat -> parseIfStatement parseBlock p <> OutOfFuel.
Proof. intros Hk. unfold parseIfStatement. compound_total. Qed.

Lemma parseWhileStatement_total p :
  (remaining p <= k)%nat -> parseWhileStatement parseBlock p <> OutOfFuel.
Proof. intros Hk. unfold parseWhileStatement. compound_total. Qed.

Lemma parseRepeatStatement_total p :
  (remaining p <= k)%nat -> parseRepeatStatement parseBlock p <> OutOfFuel.
Proof. intros Hk. unfold parseRepeatStatement. compound_total. Qed.

Lemma parseFunctionDef_total p :
  (remaining p <= k)%nat -> parseFunctionDef parseBlock p <> OutOfFuel.
Proof. intros Hk. unfold parseFunctionDef. compound_total. Qed.

Lemma dispatch_total token p :
  (remaining p <= k)%nat -> dispatch parseBlock token p <> OutOfFuel.
Proof.
  intros Hk. unfold dispatch.
  repeat match goal with
         | |- (if check ?v p then _ else _) <> _ => destruct (check v p)
         end;
    try discriminate;
    (apply bind_total; [| intros; discriminate]);
    eauto using parseRobotDeclaration_total, parseMoveStatement_total,
      parseTurnStatement_total, parseStopStatement_total, parseLEDStatement_total,
      parseServoStatement_total, parseMotorStatement_total, parseWaitStatement_total,
      parseCallStatement_total, parseSendStatement_total, parseIfStatement_total,
      parseWhileStatement_total, parseRepeatStatement_total, parseFunctionDef_total,
      consumeExpected_total.
Qed.

Lemma parseStatementWith_total p :
  (remaining p <= k)%nat -> parseStatementWith parseBlock p <> OutOfFuel.
Proof.
  intros Hk. unfold parseStatementWith.
  destruct (decide _); [discriminate |].
  destruct (check "END" p); [discriminate |].
  pose proof (dispatch_total (peek p) p Hk) as D.
  destruct (dispatch parseBlock (peek p) p); [discriminate | discriminate | congruence].
Qed.

End WithBlockTotal.

Lemma blockLoop_total (ps : M (option Statement)) (k : nat) :
  (forall p r p', ps p = Ok r p' -> statementParsed p r p') ->
  (forall q, (remaining q < k)%nat -> ps q <> OutOfFuel) ->
  forall turns terminator acc p,
    (remaining p < turns)%nat -> (remaining p < k)%nat ->
    blockLoop ps turns terminator acc p <> OutOfFuel.
Proof.
  intros Hps Htotal. induction turns as [|t IH]; intros terminator acc p Ht Hk; [lia |].
  simpl. destruct (blockContinues terminator p) eqn:C; [| discriminate].
  destruct (check "END" p || check "ELSE" p || check "DO" p); [discriminate |].
  pose proof (Htotal p Hk) as T.
  destruct (ps p) as [[s|] q| |] eqn:E; [| | discriminate | congruence].
  - apply Hps in E. destruct E as (M & L & _).
    pose proof (moved_remaining_lt _ _ _ _ M L). apply IH; lia.
  - apply Hps in E. destruct E as [-> _]. rewrite C. discriminate.
Qed.

Lemma parseStatement_total fuel p :
  (remaining p < fuel)%nat -> parseStatement fuel p <> OutOfFuel.
Proof.
  revert p. induction fuel as [|n IH]; intros p H; [lia |].
  simpl. apply (parseStatementWith_total _ n); [| | lia].
  - intros terminator q stmts q' B.
    apply (blockLoop_parsed _ (parseStatement_parsed n)) in B as (new & -> & B). exact B.
  - intros terminator q Hq.
    apply (blockLoop_total _ n (parseStatement_parsed n) IH); assumption.
Qed.

(** [parseBlock] never loops forever. *)
Lemma parseBlock_total fuel terminator p :
  (remaining p < fuel)%nat -> parseBlock fuel terminator p <> OutOfFuel.
Proof.
  intros H. unfold parseBlock.
  apply (blockLoop_total _ fuel (parseStatement_parsed fuel)); try assumption.
  intros q Hq. apply parseStatement_total, Hq.
Qed.

Lemma programLoop_total fuel turns acc p :
  (remaining p < turns)%nat -> (remaining p < fuel)%nat ->
  programLoop fuel turns acc p <> OutOfFuel.
Proof.
  revert acc p. induction turns as [|t IH]; intros acc p Ht Hf; [lia |].
  simpl. destruct (programContinues p) eqn:C; [| discriminate].
  pose proof (parseStatement_total fuel p Hf) as T.
  destruct (parseStatement fuel p) as [[s|] q| |] eqn:E; [| | discriminate | congruence].
  - apply parseStatement_parsed in E. destruct E as (M & L & _).
    pose proof (moved_remaining_lt _ _ _ _ M L). apply IH; lia.
  - apply parseStatement_parsed in E. destruct E as [-> [E|E]]; exfalso;
      unfold programContinues in C; apply andb_true_iff in C as [C1 C3];
      apply andb_true_iff in C1 as [C1 C2].
    + apply negb_true_iff, bool_decide_eq_false in C2. contradiction.
    + rewrite E in C3. discriminate.
Qed.

Lemma semanticAnalysis_total ord program p : semanticAnalysis ord program p <> OutOfFuel.
Proof. unfold semanticAnalysis. destruct (checkCalls _ _ _); discriminate. Qed.

Lemma parseProgram_total toks : parseProgram (fuelFor toks) (new toks) <> OutOfFuel.
Proof.
  unfold parseProgram.
  apply bind_total; [apply programLoop_total; unfold remaining, fuelFor; simpl; lia |].
  intros stmts q _. repeat total_step.
Qed.

(** [parse] terminates on every token sequence: the fuel of [run] is
    never exhausted. *)
Lemma parse_terminates ord toks : run ord toks <> OutOfFuel.
Proof.
  unfold run, parse.
  apply bind_total; [apply parseProgram_total |].
  intros program q _.
  apply bind_total; [apply semanticAnalysis_total | intros; discriminate].
Qed.

End ParserTotalRules.

(** ===================================================================== *)
(** * The token parser: the fuel is immaterial                            *)
(** ===================================================================== *)

Section ParserFuel.
Import Parser.

Lemma agrees_refl {A} (m : M A) : agrees m m.
Proof. intros p _. reflexivity. Qed.

Lemma agrees_bind {A B} (m m' : M A) (k k' : A -> M B) :
  agrees m m' -> (forall a, agrees (k a) (k' a)) -> agrees (bind m k) (bind m' k').
Proof.
  intros Hm Hk p H. unfold bind in *.
  destruct (m p) as [a q| e |] eqn:E; [| | congruence].
  - rewrite (Hm p) by congruence. rewrite E. apply Hk, H.
  - rewrite (Hm p) by congruence. rewrite E. reflexivity.
Qed.

Lemma agrees_if {A} (c : t -> bool) (x x' y y' : M A) :
  agrees x x' -> agrees y y' ->
  agrees (fun p => if c p then x p else y p) (fun p => if c p then x' p else y' p).
Proof.
  intros Hx Hy p H. destruct (c p); [apply Hx, H | apply Hy, H].
Qed.

Section Rules.
Variables parseBlock parseBlock' : string -> M (list Statement).
Hypothesis blocks_agree : forall terminator, agrees (parseBlock terminator) (parseBlock' terminator).

Ltac agree :=
  repeat first [ apply agrees_refl
               | apply blocks_agree
               | apply agrees_bind; [| intros ?]
               | apply agrees_if ].

Lemma parseIfStatement_agrees :
  agrees (parseIfStatement parseBlock) (parseIfStatement parseBlock').
Proof. unfold parseIfStatement. agree. Qed.

Lemma parseWhileStatement_agrees :
  agrees (parseWhileStatement parseBlock) (parseWhileStatement parseBlock').
Proof. unfold parseWhileStatement. agree. Qed.

Lemma parseRepeatStatement_agrees :
  agrees (parseRepeatStatement parseBlock) (parseRepeatStatement parseBlock').
Proof. unfold parseRepeatStatement. agree. Qed.

Lemma parseFunctionDef_agrees :
  agrees (parseFunctionDef parseBlock) (parseFunctionDef parseBlock').
Proof. unfold parseFunctionDef. agree. Qed.

Lemma dispatch_agrees token :
  agrees (dispatch parseBlock token) (dispatch parseBlock' token).
Proof.
  intros p H. unfold dispatch in *.
  repeat match goal with
         | |- context [if check ?v p then _ else _] => destruct (check v p)
         end;
    try reflexivity;
    (apply agrees_bind; [| intros ?; apply agrees_refl | exact H]);
    auto using parseIfStatement_agrees, parseWhileStatement_agrees,
      parseRepeatStatement_agrees, parseFunctionDef_agrees.
Qed.

Lemma parseStatementWith_agrees :
  agrees (parseStatementWith parseBlock) (parseStatementWith parseBlock').
Proof.
  intros p H. unfold parseStatementWith in *.
  destruct (decide _); [reflexivity |].
  destruct (check "END" p); [reflexivity |].
  rewrite (dispatch_agrees (peek p) p); [reflexivity |].
  destruct (dispatch parseBlock (peek p) p); congruence.
Qed.
End Rules.

Lemma blockLoop_agrees (ps ps' : M (option Statement)) :
  agrees ps ps' ->
  forall turns turns' terminator acc,
    (turns <= turns')%nat ->
    agrees (blockLoop ps turns terminator acc) (blockLoop ps' turns' terminator acc).
Proof.
  intros Hps. induction turns as [|k IH]; intros turns' terminator acc Hle p H;
    [contradiction |].
  destruct turns' as [|k']; [lia |]. simpl in *.
  destruct (blockContinues terminator p); [| reflexivity].
  destruct (check "END" p || check "ELSE" p || check "DO" p); [reflexivity |].
  destruct (ps p) as [[s|] q| e |] eqn:E; [| | | congruence].
  - rewrite (Hps p) by congruence. rewrite E. apply IH; [lia | exact H].
  - rewrite (Hps p) by congruence. rewrite E.
    destruct (blockContinues terminator q); [reflexivity |]. apply IH; [lia | exact H].
  - rewrite (Hps p) by congruence. rewrite E. reflexivity.
Qed.

Lemma parseStatement_agrees fuel :
  forall fuel', (fuel <= fuel')%nat -> agrees (parseStatement fuel) (parseStatement fuel').
Proof.
  induction fuel as [|n IH]; intros fuel' Hle; [intros p H; contradiction |].
  destruct fuel' as [|n']; [lia |]. cbn [parseStatement].
  apply parseStatementWith_agrees. intros terminator.
  apply blockLoop_agrees; [apply IH; lia | lia].
Qed.

Lemma programLoop_agrees fuel fuel' :
  (fuel <= fuel')%nat ->
  forall turns turns' acc,
    (turns <= turns')%nat ->
    agrees (programLoop fuel turns acc) (programLoop fuel' turns' acc).
Proof.
  intros Hf. induction turns as [|k IH]; intros turns' acc Hle p H; [contradiction |].
  destruct turns' as [|k']; [lia |]. simpl in *.
  destruct (programContinues p); [| reflexivity].
  destruct (parseStatement fuel p) as [[s|] q| e |] eqn:E; [| | | congruence].
  - rewrite (parseStatement_agrees fuel fuel' Hf p) by congruence. rewrite E.
    apply IH; [lia | exact H].
  - rewrite (parseStatement_agrees fuel fuel' Hf p) by congruence. rewrite E.
    apply IH; [lia | exact H].
  - rewrite (parseStatement_agrees fuel fuel' Hf p) by congruence. rewrite E. reflexivity.
Qed.

Lemma parse_agrees ord fuel fuel' :
  (fuel <= fuel')%nat -> agrees (parse ord fuel) (parse ord fuel').
Proof.
  intros Hf. unfold parse, parseProgram.
  repeat first [ apply agrees_refl
               | apply programLoop_agrees; [exact Hf | exact Hf]
               | apply agrees_bind; [| intros ?] ].
Qed.

(** More fuel than [fuelFor] never changes what [parse] does: the
    outcome of [run] is the outcome of the parser. *)
Lemma parse_fuel_immaterial ord toks fuel :
  (fuelFor toks <= fuel)%nat -> parse ord fuel (new toks) = run ord toks.
Proof.
  intros H. apply (parse_agrees ord _ _ H). apply parse_terminates.
Qed.

End ParserFuel.

(** ===================================================================== *)
(** * Motor speeds after parsing                                          *)
(** ===================================================================== *)

Lemma forallb_In {A} (f : A -> bool) (l : list A) (x : A) :
  forallb f l = true -> In x l -> f x = true.
Proof.
  intros H Hx. rewrite forallb_forall in H. apply H, Hx.
Qed.

Lemma motorsInRange_occurs (stmt : Statement) (name : string) (speed : Z) :
  motorsInRange stmt = true ->
  occursIn (MotorStatement name speed) stmt ->
  0 <= speed <= 100.
Proof.
  intros H O. induction O as [|c th el s I O IH|c th el s I O IH|c body s I O IH
                              |n body s I O IH|f body s I O IH].
  - simpl in H. apply andb_true_iff in H as [H1 H2].
    apply Z.leb_le in H1, H2. lia.
  - apply IH. cbn [motorsInRange] in H. apply andb_true_iff in H as [H _].
    eapply forallb_In; eassumption.
  - apply IH. cbn [motorsInRange] in H. apply andb_true_iff in H as [_ H].
    eapply forallb_In; eassumption.
  - apply IH. cbn [motorsInRange] in H. eapply forallb_In; eassumption.
  - apply IH. cbn [motorsInRange] in H. eapply forallb_In; eassumption.
  - apply IH. cbn [motorsInRange] in H. eapply forallb_In; eassumption.
Qed.

Lemma motorsInRange_program (program : Program) (name : string) (speed : Z) :
  forallb motorsInRange (statements program) = true ->
  occursInProgram (MotorStatement name speed) program ->
  0 <= speed <= 100.
Proof.
  intros H (s & I & O). eapply motorsInRange_occurs; [| exact O].
  eapply forallb_In; eassumption.
Qed.

Lemma run_Ok_parseProgram ord toks program p :
  Parser.run ord toks = Parser.Ok program p ->
  Parser.parseProgram (Parser.fuelFor toks) (Parser.new toks) = Parser.Ok program p.
Proof.
  unfold Parser.run, Parser.parse. intros H. parser_inv.
  unfold Parser.semanticAnalysis in E0.
  destruct (Parser.checkCalls _ _ _); [discriminate |].
  injection E0 as _ <-. exact E.
Qed.

Section LineParser.
Import PeglibParser.

Lemma clamp_range (speed : Z) : 0 <= clamp speed <= 100.
Proof. unfold clamp. repeat case_decide; lia. Qed.

Lemma parseMotor_inRange line stmt :
  parseMotor line = Some stmt -> motorsInRange stmt = true.
Proof.
  unfold parseMotor. case_decide; [discriminate |].
  match goal with
  | |- context [mbind _ ?named] => destruct named as [[motorName speed]|]
  end; simpl; [| discriminate].
  intros [= <-]. simpl. pose proof (clamp_range speed).
  apply andb_true_iff. split; apply Z.leb_le; lia.
Qed.

Lemma parseWait_inRange line stmt :
  parseWait line = Some stmt -> motorsInRange stmt = true.
Proof.
  unfold parseWait. case_decide; [discriminate |].
  destruct (stoi _); [| discriminate]. intros [= <-]. reflexivity.
Qed.

Lemma parseLED_inRange line stmt :
  parseLED line = Some stmt -> motorsInRange stmt = true.
Proof.
  unfold parseLED. case_decide; [discriminate |]. intros [= <-]. reflexivity.
Qed.

Lemma push_back_inRange acc r :
  forallb motorsInRange acc = true ->
  (forall s, r = Some s -> motorsInRange s = true) ->
  forallb motorsInRange (push_back acc r) = true.
Proof.
  intros Ha Hr. destruct r as [s|]; simpl; [| exact Ha].
  rewrite forallb_app, Ha. simpl. rewrite (Hr s eq_refl). reflexivity.
Qed.

Lemma parseStatements_step n lines index acc line :
  lines !! index = Some line ->
  parseStatements (S n) lines index acc
  = if decide (line = "END") then Some (index, acc)
    else if decide (find line "REPEAT" = Some O) then
      '(index, repeatStmt) ← parseRepeat (parseStatements n lines) lines index;
      parseStatements n lines index (push_back acc repeatStmt)
    else if decide (find line "WAIT" = Some O) then
      parseStatements n lines (S index) (push_back acc (parseWait line))
    else if decide (find line "LED" = Some O) then
      parseStatements n lines (S index) (push_back acc (parseLED line))
    else if decide (find line "MOTOR" = Some O) then
      parseStatements n lines (S index) (push_back acc (parseMotor line))
    else if decide (line = "STOP") then
      parseStatements n lines (S index) (acc ++ [StopStatement])
    else parseStatements n lines (S index) acc.
Proof. intros L. cbn [parseStatements]. rewrite L. reflexivity. Qed.

Lemma parseStatements_past_end n lines index acc :
  lines !! index = None -> parseStatements (S n) lines index acc = Some (index, acc).
Proof. intros L. cbn [parseStatements]. rewrite L. reflexivity. Qed.

(** The statements the line parser collects have their motors in range,
    and the index never moves back. *)
Lemma parseStatements_inRange fuel lines :
  forall index acc index' stmts,
    parseStatements fuel lines index acc = Some (index', stmts) ->
    forallb motorsInRange acc = true ->
    forallb motorsInRange stmts = true /\ (index <= index')%nat.
Proof.
  induction fuel as [|n IH]; intros index acc index' stmts H Hacc; [discriminate |].
  destruct (lines !! index) as [line|] eqn:L.
  2:{ rewrite parseStatements_past_end in H by exact L. injection H as <- <-. auto. }
  rewrite (parseStatements_step _ _ _ _ _ L) in H.
  repeat case_decide.
  - injection H as <- <-. auto.
  - destruct (parseRepeat (parseStatements n lines) lines index) as [[index1 r]|] eqn:R;
      simpl in H; [| discriminate].
    assert (Hr : (forall s, r = Some s -> motorsInRange s = true) /\ (S index <= index1)%nat).
    { unfold parseRepeat in R. case_decide; [injection R as <- <-; split; [discriminate | lia] |].
      destruct (stoi _) as [count|]; [| injection R as <- <-; split; [discriminate | lia]].
      destruct (parseStatements n lines (S index) []) as [[index2 body]|] eqn:B;
        simpl in R; [| discriminate].
      apply IH in B as [B1 B2]; [| reflexivity].
      injection R as <- <-. split; [| case_decide; lia].
      intros s [= <-]. exact B1. }
    destruct Hr as [Hr Hi].
    apply IH in H as [Hs Hi']; [| apply push_back_inRange; assumption].
    split; [exact Hs | lia].
  - apply IH in H as [Hs Hi]; [split; [exact Hs | lia] |].
    apply push_back_inRange; [exact Hacc | apply parseWait_inRange].
  - apply IH in H as [Hs Hi]; [split; [exact Hs | lia] |].
    apply push_back_inRange; [exact Hacc | apply parseLED_inRange].
  - apply IH in H as [Hs Hi]; [split; [exact Hs | lia] |].
    apply push_back_inRange; [exact Hacc | apply parseMotor_inRange].
  - apply IH in H as [Hs Hi]; [split; [exact Hs | lia] |].
    rewrite forallb_app, Hacc. reflexivity.
  - apply IH in H as [Hs Hi]; [split; [exact Hs | lia] | exact Hacc].
Qed.

(** The line parser never runs out of fuel. *)
Lemma parseStatements_total fuel lines :
  forall index acc,
    (length lines - index < fuel)%nat ->
    is_Some (parseStatements fuel lines index acc).
Proof.
  induction fuel as [|n IH]; intros index acc Hf; [lia |].
  destruct (lines !! index) as [line|] eqn:L.
  2:{ rewrite parseStatements_past_end by exact L. eauto. }
  rewrite (parseStatements_step _ _ _ _ _ L).
  pose proof (lookup_lt_Some _ _ _ L) as Hlt.
  repeat case_decide; try (apply IH; lia); [eauto |].
  assert (R : exists index1 r, parseRepeat (parseStatements n lines) lines index
                               = Some (index1, r) /\ (S index <= index1)%nat).
  { unfold parseRepeat. case_decide; [eexists _, _; split; [reflexivity | lia] |].
    destruct (stoi _) as [count|]; [| eexists _, _; split; [reflexivity | lia]].
    destruct (IH (S index) [] ltac:(lia)) as [[index2 body] B]. rewrite B. simpl.
    apply parseStatements_inRange in B as [_ B]; [| reflexivity].
    eexists _, _. split; [reflexivity | case_decide; lia]. }
  destruct R as (index1 & r & -> & Hi). simpl. apply IH. lia.
Qed.

Lemma semanticAnalysis_new ord program sourceCode :
  semanticAnalysis ord program (new sourceCode) = None.
Proof.
  unfold semanticAnalysis. simpl.
  pose proof (iterate_perm ord ∅) as P. rewrite elements_empty in P.
  apply Permutation_nil_r in P. rewrite P. reflexivity.
Qed.

(** The line parser returns a program for every source text. *)
Lemma parse_returns ord sourceCode :
  exists program, parse ord sourceCode = Some (inl program).
Proof.
  unfold parse, parseWith.
  change (source (new sourceCode)) with sourceCode.
  destruct (parseStatements_total (S (length (sourceLines sourceCode)))
              (sourceLines sourceCode) 0 [] ltac:(simpl; lia)) as [[index stmts] E].
  rewrite E. cbn [mbind option_bind]. rewrite semanticAnalysis_new. eauto.
Qed.

Lemma parse_inRange ord sourceCode program :
  parse ord sourceCode = Some (inl program) ->
  forallb motorsInRange (statements program) = true.
Proof.
  unfold parse, parseWith.
  change (source (new sourceCode)) with sourceCode.
  destruct (parseStatements _ _ 0 []) as [[index stmts]|] eqn:E;
    cbn [mbind option_bind]; [| discriminate].
  rewrite semanticAnalysis_new. intros [= <-]. cbn [statements].
  apply parseStatements_inRange in E as [E _]; [exact E | reflexivity].
Qed.

End LineParser.

Lemma consume_lookup p tok :
  Parser.tokens p !! Parser.pos p = Some tok ->
  Parser.consume p = Parser.Ok tok (Parser.set_pos (S (Parser.pos p)) p).
Proof. intros L. unfold Parser.consume. rewrite L. reflexivity. Qed.

Lemma consumeExpected_lookup p tok expected :
  Parser.tokens p !! Parser.pos p = Some tok ->
  Token.value tok = expected ->
  Parser.consumeExpected expected p = Parser.Ok tok (Parser.set_pos (S (Parser.pos p)) p).
Proof.
  intros L V. unfold Parser.consumeExpected. rewrite (peek_lookup _ _ L).
  destruct (decide (Token.value tok = expected)); [reflexivity | contradiction].
Qed.

(** The token parser rejects a speed outside [0,100]. *)
Lemma parseMotorStatement_rejects p motorTok nameTok speedTok valueTok speed :
  Parser.tokens p !! Parser.pos p = Some motorTok ->
  Token.value motorTok = "MOTOR" ->
  Parser.tokens p !! S (Parser.pos p) = Some nameTok ->
  Parser.tokens p !! S (S (Parser.pos p)) = Some speedTok ->
  Token.value speedTok = "SPEED" ->
  Parser.tokens p !! S (S (S (Parser.pos p))) = Some valueTok ->
  Token.type valueTok = NUMBER ->
  Cpp.stoi (Token.value valueTok) = Some speed ->
  ~ 0 <= speed <= 100 ->
  Parser.parseMotorStatement p
  = Parser.Throw (SemanticException "Motor speed must be between 0 and 100"
                                    ("Found: " +:+ to_string speed)).
Proof.
  intros L0 V0 L1 L2 V2 L3 T3 Z N.
  unfold Parser.parseMotorStatement.
  unfold Parser.bind at 1. rewrite (consumeExpected_lookup _ _ _ L0 V0).
  unfold Parser.bind at 1. rewrite (consume_lookup _ nameTok) by exact L1.
  unfold Parser.bind at 1. rewrite (consumeExpected_lookup _ speedTok) by assumption.
  unfold Parser.bind at 1. rewrite (consume_lookup _ valueTok) by exact L3.
  unfold Parser.bind at 1. unfold Parser.expectType.
  destruct (decide (Token.type valueTok = NUMBER)); [| contradiction].
  unfold Parser.ret at 1.
  unfold Parser.bind at 1. unfold Parser.stoi. rewrite Z. unfold Parser.ret at 1.
  unfold Parser.bind at 1.
  destruct (decide (speed < 0 \/ speed > 100)) as [|N']; [reflexivity | lia].
Qed.

(** The line parser clamps instead. *)
Lemma parseMotor_clamps line speed :
  (3 <= length (PeglibParser.split line " "))%nat ->
  PeglibParser.part (PeglibParser.split line " ") 1 = "SPEED" ->
  Cpp.stoi (PeglibParser.part (PeglibParser.split line " ") 2) = Some speed ->
  PeglibParser.parseMotor line
  = Some (MotorStatement "default" (PeglibParser.clamp speed)).
Proof.
  intros Hlen Hspeed Z. unfold PeglibParser.parseMotor.
  destruct (decide (length (PeglibParser.split line " ") < 3)%nat); [lia |].
  destruct (decide ((3 <= length (PeglibParser.split line " "))%nat
                    /\ PeglibParser.part (PeglibParser.split line " ") 1 = "SPEED"))
    as [_|N]; [| exfalso; apply N; split; assumption].
  rewrite Z. reflexivity.
Qed.

(** C3.  Whenever a parse succeeds, through the token-based [Parser] or
    through the line-based [PeglibParser], every [MotorStatement] that
    occurs in the returned program, at any nesting depth, has its speed
    in [0,100]; the line-based parser succeeds on every source text.
    The token parser gets there by throwing a [SemanticException] on a
    speed outside the range, the line parser by clamping. *)
Theorem motor_speed_in_range :
  (forall ord toks program p name speed,
      Parser.run ord toks = Parser.Ok program p ->
      occursInProgram (MotorStatement name speed) program ->
      0 <= speed <= 100)
  /\ (forall ord sourceCode program name speed,
         PeglibParser.parse ord sourceCode = Some (inl program) ->
         occursInProgram (MotorStatement name speed) program ->
         0 <= speed <= 100)
  /\ (forall ord sourceCode,
         exists program, PeglibParser.parse ord sourceCode = Some (inl program))
  /\ (forall p motorTok nameTok speedTok valueTok speed,
         Parser.tokens p !! Parser.pos p = Some motorTok ->
         Token.value motorTok = "MOTOR" ->
         Parser.tokens p !! S (Parser.pos p) = Some nameTok ->
         Parser.tokens p !! S (S (Parser.pos p)) = Some speedTok ->
         Token.value speedTok = "SPEED" ->
         Parser.tokens p !! S (S (S (Parser.pos p))) = Some valueTok ->
         Token.type valueTok = NUMBER ->
         Cpp.stoi (Token.value valueTok) = Some speed ->
         ~ 0 <= speed <= 100 ->
         Parser.parseMotorStatement p
         = Parser.Throw (SemanticException "Motor speed must be between 0 and 100"
                                           ("Found: " +:+ to_string speed)))
  /\ (forall line speed,
         (3 <= length (PeglibParser.split line " "))%nat ->
         PeglibParser.part (PeglibParser.split line " ") 1 = "SPEED" ->
         Cpp.stoi (PeglibParser.part (PeglibParser.split line " ") 2) = Some speed ->
         PeglibParser.parseMotor line
         = Some (MotorStatement "default" (PeglibParser.clamp speed))).
Proof.
  split; [| split; [| split; [| split]]].
  - intros ord toks program p name speed H O.
    apply run_Ok_parseProgram, parseProgram_parsed in H as (_ & _ & H).
    eapply motorsInRange_program; eassumption.
  - intros ord sourceCode program name speed H O.
    apply parse_inRange in H. eapply motorsInRange_program; eassumption.
  - apply parse_returns.
  - exact parseMotorStatement_rejects.
  - exact parseMotor_clamps.
Qed.

(** ===================================================================== *)
(** * The whole-program check of called functions                         *)
(** ===================================================================== *)

Section SemanticAnalysis.
Import Parser.

Lemma elem_of_iterate ord (s : gset string) (f : string) : f ∈ iterate ord s <-> f ∈ s.
Proof.
  rewrite (iterate_perm ord s). apply elem_of_elements.
Qed.

Lemma checkCalls_defined ord declared called :
  (forall f, f ∈ called -> f ∈ declared) -> checkCalls ord declared called = None.
Proof.
  induction called as [|f called IH]; intros H; [reflexivity |].
  simpl. destruct (decide (f ∈ declared)) as [_|N].
  - apply IH. intros g Hg. apply H. now right.
  - exfalso. apply N, H. now left.
Qed.

Lemma checkCalls_undefined ord declared called f :
  f ∈ called -> f ∉ declared ->
  exists g, g ∈ called /\ (g ∉ declared)
            /\ checkCalls ord declared called
               = Some (SemanticException
                         ("Function '" +:+ g +:+ "' is called but never defined")
                         ("Available functions: " +:+ availableFuncs ord declared)).
Proof.
  induction called as [|h called IH]; intros Hf N; [inversion Hf |].
  simpl. destruct (decide (h ∈ declared)) as [Hh|Hh].
  - apply elem_of_cons in Hf as [->|Hf]; [contradiction |].
    destruct (IH Hf N) as (g & Hg & Ng & E).
    exists g. split; [now right | split; [exact Ng | exact E]].
  - exists h. split; [now left | split; [exact Hh | reflexivity]].
Qed.

Lemma joinFuncs_from (fs : list string) (acc : string) :
  acc <> "" ->
  joinFuncs fs acc = acc +:+ String.concat "" (map (fun f => ", " +:+ f) fs).
Proof.
  revert acc. induction fs as [|f fs IH]; intros acc Hacc; simpl.
  - now rewrite append_nil_r.
  - destruct (decide (acc = "")) as [|_]; [contradiction |].
    rewrite IH.
    + destruct fs; simpl; rewrite ?append_nil_r, ?append_assoc; reflexivity.
    + destruct acc; [contradiction | discriminate].
Qed.

Lemma concat_separator (f : string) (fs : list string) :
  String.concat ", " (f :: fs) = f +:+ String.concat "" (map (fun g => ", " +:+ g) fs).
Proof.
  revert f. induction fs as [|g fs IH]; intros f.
  - simpl. now rewrite append_nil_r.
  - change (String.concat ", " (f :: g :: fs))
      with (f +:+ ", " +:+ String.concat ", " (g :: fs)).
    rewrite IH. destruct fs; simpl; rewrite ?append_nil_r, ?append_assoc; reflexivity.
Qed.

Lemma joinFuncs_concat (fs : list string) :
  (forall f, f ∈ fs -> f <> "") -> fs <> [] -> joinFuncs fs "" = String.concat ", " fs.
Proof.
  destruct fs as [|f fs]; intros H N; [contradiction |].
  simpl. rewrite joinFuncs_from by (apply H; now left).
  symmetry. apply concat_separator.
Qed.

Lemma availableFuncs_none ord : availableFuncs ord ∅ = "none".
Proof. reflexivity. Qed.

Lemma availableFuncs_list ord (declared : gset string) :
  declared <> ∅ ->
  (forall f, f ∈ declared -> f <> "") ->
  exists names, names ≡ₚ elements declared
                /\ availableFuncs ord declared = String.concat ", " names.
Proof.
  intros N H. exists (iterate ord declared). split; [apply iterate_perm |].
  unfold availableFuncs. destruct (decide (declared = ∅)); [contradiction |].
  apply joinFuncs_concat.
  - intros f Hf. apply elem_of_iterate in Hf. apply H, Hf.
  - intros E. apply N.
    pose proof (iterate_perm ord declared) as P. rewrite E in P.
    apply Permutation_nil in P.
    apply leibniz_equiv, elements_empty_inv. rewrite P. reflexivity.
Qed.

Lemma run_after_parseProgram ord toks program p :
  parseProgram (fuelFor toks) (new toks) = Ok program p ->
  run ord toks
  = match checkCalls ord (declaredFunctions p) (iterate ord (calledFunctions p)) with
    | Some e => Throw e
    | None => Ok program p
    end.
Proof.
  intros H. unfold run, parse, bind. rewrite H. unfold semanticAnalysis.
  destruct (checkCalls _ _ _); reflexivity.
Qed.

End SemanticAnalysis.

(** C2.  When the parsing phase of [parse] has finished, the two
    accumulators are the sets of names of the [FunctionDef] and of the
    [Call] nodes of the program, wherever those nodes stand.  If some
    called name is not declared, [parse] throws a [SemanticException]
    that names one such function and lists the declared ones ([none]
    when there is none); otherwise it returns the program. *)
Theorem undefined_call_rejected
        (ord : UnorderedSetOrder) (toks : list Token.t) (program : Program) (p : Parser.t) :
  Parser.parseProgram (Parser.fuelFor toks) (Parser.new toks) = Parser.Ok program p ->
  Parser.declaredFunctions p = declaredInAll (statements program)
  /\ Parser.calledFunctions p = calledInAll (statements program)
  /\ (calledInAll (statements program) ∖ declaredInAll (statements program) <> ∅ ->
      exists f,
        f ∈ calledInAll (statements program)
        /\ (f ∉ declaredInAll (statements program))
        /\ Parser.run ord toks
           = Parser.Throw
               (SemanticException
                  ("Function '" +:+ f +:+ "' is called but never defined")
                  ("Available functions: "
                   +:+ Parser.availableFuncs ord (declaredInAll (statements program)))))
  /\ (calledInAll (statements program) ∖ declaredInAll (statements program) = ∅ ->
      Parser.run ord toks = Parser.Ok program p)
  /\ (declaredInAll (statements program) = ∅ ->
      Parser.availableFuncs ord (declaredInAll (statements program)) = "none")
  /\ (declaredInAll (statements program) <> ∅ ->
      (forall f, f ∈ declaredInAll (statements program) -> f <> "") ->
      exists names,
        names ≡ₚ elements (declaredInAll (statements program))
        /\ Parser.availableFuncs ord (declaredInAll (statements program))
           = String.concat ", " names).
Proof.
  intros H.
  destruct (parseProgram_parsed _ _ _ _ H) as (HD & HC & _).
  pose proof (run_after_parseProgram ord _ _ _ H) as R.
  rewrite HD, HC in R.
  split; [exact HD |]. split; [exact HC |]. split; [| split; [| split]].
  - intros N. apply set_choose_L in N as [f Hf].
    apply elem_of_difference in Hf as [Hc Hd].
    destruct (checkCalls_undefined ord (declaredInAll (statements program))
                (iterate ord (calledInAll (statements program))) f) as (g & Hg & Ng & E).
    + apply elem_of_iterate, Hc.
    + exact Hd.
    + exists g. rewrite R, E. apply elem_of_iterate in Hg. auto.
  - intros E. rewrite R, checkCalls_defined; [reflexivity |].
    intros f Hf. apply elem_of_iterate in Hf.
    destruct (decide (f ∈ declaredInAll (statements program))) as [|N]; [assumption |].
    exfalso. assert (f ∈ calledInAll (statements program)
                           ∖ declaredInAll (statements program)) as X
        by (apply elem_of_difference; auto).
    rewrite E in X. apply not_elem_of_empty in X. exact X.
  - intros ->. apply availableFuncs_none.
  - apply availableFuncs_list.
Qed.

Lemma undefined_call_rejected_witness :
  (exists p,
      Parser.run elementsOrder forwardCall
      = Parser.Ok (mkProgram [CallStatement "f"; FunctionDef "f" [StopStatement]]) p)
  /\ Parser.run elementsOrder undefinedCall
     = Parser.Throw (SemanticException "Function 'g' is called but never defined"
                                       "Available functions: none").
Proof.
  split.
  - eexists.
    eapply (undefined_call_rejected elementsOrder forwardCall).
    + vm_compute. reflexivity.
    + unfold calledInAll, declaredInAll. cbn [statements map calledIn declaredIn].
      set_solver.
  - edestruct (undefined_call_rejected elementsOrder undefinedCall) as (_ & _ & H & _).
    + vm_compute. reflexivity.
    + unfold calledInAll, declaredInAll in H. cbn [statements map calledIn declaredIn] in H.
      destruct H as (f & Hc & _ & R).
      * intros E. assert (X : "g" ∈ (∅ : gset string)) by (rewrite <- E; set_solver).
        set_solver.
      * assert (f = "g") as -> by set_solver. exact R.
Defined.

(** ===================================================================== *)
(** * An IF that is never closed                                          *)
(** ===================================================================== *)

Section UnclosedIf.
Import Parser.

Lemma check_value p tok v :
  tokens p !! pos p = Some tok -> check v p = bool_decide (Token.value tok = v).
Proof. intros L. unfold check. now rewrite (peek_lookup _ _ L). Qed.

Lemma noEndFrom_tail (header rest : list Token.t) :
  (forall tok, In tok rest -> Token.value tok <> "END") ->
  noEndFrom (length header) (header ++ rest).
Proof.
  intros H i tok Hi L.
  rewrite lookup_app_r in L by exact Hi.
  apply H. apply list_elem_of_In. eapply list_elem_of_lookup_2, L.
Qed.

End UnclosedIf.

(** ===================================================================== *)
(** * The token parser: what it returns is a complete statement           *)
(** ===================================================================== *)

Section Sound.
Import Parser.

Lemma starts_peek p tok keyword :
  tokens p !! pos p = Some tok -> Token.value tok = keyword ->
  Token.type (peek p) <> END_OF_FILE -> starts (tokens p) (pos p) keyword.
Proof.
  intros L V Ty. exists tok. rewrite (peek_lookup _ _ L) in Ty. auto.
Qed.

Lemma one_of_two (a b c : string) : ~ (a <> b /\ a <> c) -> a = b \/ a = c.
Proof. destruct (decide (a = b)), (decide (a = c)); tauto. Qed.

Ltac sound_leaf :=
  parser_inv; consume_inv; cbn [tokens pos set_pos call declare] in *;
  (split; [| reflexivity]);
  econstructor; eauto using starts_peek, one_of_two; try lia.

Lemma parseRobotDeclaration_spans p s p' :
  Token.type (peek p) <> END_OF_FILE ->
  parseRobotDeclaration p = Ok s p' ->
  spans (tokens p) (pos p) s (pos p') /\ tokens p' = tokens p.
Proof. unfold parseRobotDeclaration. intros Ty H. sound_leaf. Qed.

Lemma parseMoveStatement_spans p s p' :
  Token.type (peek p) <> END_OF_FILE ->
  parseMoveStatement p = Ok s p' ->
  spans (tokens p) (pos p) s (pos p') /\ tokens p' = tokens p.
Proof. unfold parseMoveStatement. intros Ty H. sound_leaf. Qed.

Lemma parseTurnStatement_spans p s p' :
  Token.type (peek p) <> END_OF_FILE ->
  parseTurnStatement p = Ok s p' ->
  spans (tokens p) (pos p) s (pos p') /\ tokens p' = tokens p.
Proof. unfold parseTurnStatement. intros Ty H. sound_leaf. Qed.

Lemma parseStopStatement_spans p s p' :
  Token.type (peek p) <> END_OF_FILE ->
  parseStopStatement p = Ok s p' ->
  spans (tokens p) (pos p) s (pos p') /\ tokens p' = tokens p.
Proof. unfold parseStopStatement. intros Ty H. sound_leaf. Qed.

Lemma parseLEDStatement_spans p s p' :
  Token.type (peek p) <> END_OF_FILE ->
  parseLEDStatement p = Ok s p' ->
  spans (tokens p) (pos p) s (pos p') /\ tokens p' = tokens p.
Proof.
  unfold parseLEDStatement. intros Ty H. parser_inv.
  match goal with
  | H : (if checkType IDENTIFIER ?q then _ else _) = _ |- _ =>
      destruct (checkType IDENTIFIER q) eqn:C
  end.
  - apply bool_decide_eq_true in C. parser_inv. consume_inv.
    cbn [tokens pos set_pos] in *.
    split; [| reflexivity].
    unfold peek in C. cbn [tokens pos set_pos] in C.
    match goal with
    | L : tokens p !! S (S (pos p)) = Some ?c |- _ => rewrite L in C
    end.
    eapply spans_led_color; eauto using starts_peek, one_of_two.
  - apply bool_decide_eq_false in C. parser_inv. consume_inv.
    unfold peek in C. cbn [tokens pos set_pos] in *.
    split; [| reflexivity].
    eapply spans_led; eauto using starts_peek, one_of_two.
Qed.

Lemma parseServoStatement_spans p s p' :
  Token.type (peek p) <> END_OF_FILE ->
  parseServoStatement p = Ok s p' ->
  spans (tokens p) (pos p) s (pos p') /\ tokens p' = tokens p.
Proof. unfold parseServoStatement. intros Ty H. sound_leaf. Qed.

Lemma parseMotorStatement_spans p s p' :
  Token.type (peek p) <> END_OF_FILE ->
  parseMotorStatement p = Ok s p' ->
  spans (tokens p) (pos p) s (pos p') /\ tokens p' = tokens p.
Proof. unfold parseMotorStatement. intros Ty H. sound_leaf. Qed.

Lemma parseWaitStatement_spans p s p' :
  Token.type (peek p) <> END_OF_FILE ->
  parseWaitStatement p = Ok s p' ->
  spans (tokens p) (pos p) s (pos p') /\ tokens p' = tokens p.
Proof. unfold parseWaitStatement. intros Ty H. sound_leaf. Qed.

Lemma parseCallStatement_spans p s p' :
  Token.type (peek p) <> END_OF_FILE ->
  parseCallStatement p = Ok s p' ->
  spans (tokens p) (pos p) s (pos p') /\ tokens p' = tokens p.
Proof. unfold parseCallStatement. intros Ty H. sound_leaf. Qed.

Lemma parseSendStatement_spans p s p' :
  Token.type (peek p) <> END_OF_FILE ->
  parseSendStatement p = Ok s p' ->
  spans (tokens p) (pos p) s (pos p') /\ tokens p' = tokens p.
Proof. unfold parseSendStatement. intros Ty H. sound_leaf. Qed.

End Sound.

Section SoundCompound.
Import Parser.

Variable parseBlock : string -> M (list Statement).
Hypothesis parseBlock_spans :
  forall terminator p stmts p',
    parseBlock terminator p = Ok stmts p' ->
    spansAll (tokens p) (pos p) stmts (pos p') /\ tokens p' = tokens p.

Ltac block_inv :=
  repeat match goal with
    | H : parseBlock _ _ = Ok _ _ |- _ =>
        let B := fresh "B" in let T := fresh "T" in
        apply parseBlock_spans in H as [B T];
        cbn [tokens pos set_pos call declare] in B, T;
        rewrite ?T in *
    end.

Ltac sound_compound :=
  unfold parseCondition in *; parser_inv; consume_inv;
  cbn [tokens pos set_pos call declare] in *;
  block_inv;
  (split; [| reflexivity]);
  econstructor; eauto using starts_peek.

Lemma parseIfStatement_spans p s p' :
  Token.type (peek p) <> END_OF_FILE ->
  parseIfStatement parseBlock p = Ok s p' ->
  spans (tokens p) (pos p) s (pos p') /\ tokens p' = tokens p.
Proof.
  unfold parseIfStatement. intros Ty H. parser_inv.
  match goal with
  | H : (if check "ELSE" ?q then _ else _) = _ |- _ => destruct (check "ELSE" q) eqn:C
  end.
  - sound_compound.
  - sound_compound.
Qed.

Lemma parseWhileStatement_spans p s p' :
  Token.type (peek p) <> END_OF_FILE ->
  parseWhileStatement parseBlock p = Ok s p' ->
  spans (tokens p) (pos p) s (pos p') /\ tokens p' = tokens p.
Proof. unfold parseWhileStatement. intros Ty H. sound_compound. Qed.

Lemma parseRepeatStatement_spans p s p' :
  Token.type (peek p) <> END_OF_FILE ->
  parseRepeatStatement parseBlock p = Ok s p' ->
  spans (tokens p) (pos p) s (pos p') /\ tokens p' = tokens p.
Proof. unfold parseRepeatStatement. intros Ty H. sound_compound. Qed.

Lemma parseFunctionDef_spans p s p' :
  Token.type (peek p) <> END_OF_FILE ->
  parseFunctionDef parseBlock p = Ok s p' ->
  spans (tokens p) (pos p) s (pos p') /\ tokens p' = tokens p.
Proof. unfold parseFunctionDef. intros Ty H. sound_compound. Qed.

Lemma dispatch_spans token p r p' :
  Token.type (peek p) <> END_OF_FILE ->
  check "END" p = false ->
  dispatch parseBlock token p = Ok r p' ->
  exists s, r = Some s /\ spans (tokens p) (pos p) s (pos p') /\ tokens p' = tokens p.
Proof.
  intros Ty HE H. unfold dispatch in H.
  repeat match type of H with
         | (if check ?v p then _ else _) = _ =>
             destruct (check v p) eqn:?; cbv iota in H
         end;
    try congruence;
    parser_inv; eexists; (split; [reflexivity |]);
    eauto using parseRobotDeclaration_spans, parseMoveStatement_spans,
      parseTurnStatement_spans, parseStopStatement_spans, parseLEDStatement_spans,
      parseServoStatement_spans, parseMotorStatement_spans, parseWaitStatement_spans,
      parseCallStatement_spans, parseSendStatement_spans,
      parseIfStatement_spans, parseWhileStatement_spans,
      parseRepeatStatement_spans, parseFunctionDef_spans.
Qed.

Lemma parseStatementWith_spans p s p' :
  parseStatementWith parseBlock p = Ok (Some s) p' ->
  spans (tokens p) (pos p) s (pos p') /\ tokens p' = tokens p.
Proof.
  unfold parseStatementWith.
  destruct (decide (Token.type (peek p) = END_OF_FILE)); [discriminate |].
  destruct (check "END" p) eqn:HE; [discriminate |].
  destruct (dispatch parseBlock (peek p) p) as [r0 p0| |] eqn:D; [| discriminate ..].
  intros [= -> ->].
  destruct (dispatch_spans _ _ _ _ n HE D) as (s' & [= <-] & H). exact H.
Qed.

End SoundCompound.

Section SoundStatements.
Import Parser.

Lemma blockLoop_spans (ps : M (option Statement)) :
  (forall p r p', ps p = Ok r p' -> statementParsed p r p') ->
  (forall p s p', ps p = Ok (Some s) p' ->
                  spans (tokens p) (pos p) s (pos p') /\ tokens p' = tokens p) ->
  forall turns terminator acc p stmts p',
    blockLoop ps turns terminator acc p = Ok stmts p' ->
    exists new, stmts = (acc ++ new)%list
                /\ spansAll (tokens p) (pos p) new (pos p') /\ tokens p' = tokens p.
Proof.
  intros Hps Hsp. induction turns as [|k IH]; intros terminator acc p stmts p' H;
    [discriminate |].
  simpl in H.
  destruct (blockContinues terminator p);
    [| injection H as <- <-; exists []; split;
       [now rewrite app_nil_r | split; [constructor | reflexivity]]].
  destruct (check "END" p || check "ELSE" p || check "DO" p);
    [injection H as <- <-; exists []; split;
     [now rewrite app_nil_r | split; [constructor | reflexivity]] |].
  destruct (ps p) as [[s|] q| |] eqn:E; [| | discriminate ..].
  - apply Hsp in E as [E T]. apply IH in H as (new & -> & Hnew & T').
    exists (s :: new). split; [now rewrite <- app_assoc |].
    rewrite T in *. split; [econstructor; eassumption | exact T'].
  - apply Hps in E. destruct E as [-> _].
    destruct (blockContinues terminator p).
    + injection H as <- <-. exists []. split;
        [now rewrite app_nil_r | split; [constructor | reflexivity]].
    + apply IH in H. exact H.
Qed.

(** A statement the parser returns is a complete statement of the
    token vector, from where the parser stood to where it stands. *)
Lemma parseStatement_spans fuel p s p' :
  parseStatement fuel p = Ok (Some s) p' ->
  spans (tokens p) (pos p) s (pos p') /\ tokens p' = tokens p.
Proof.
  revert p s p'. induction fuel as [|n IH]; intros p s p'; [discriminate |].
  simpl. apply parseStatementWith_spans.
  intros terminator q stmts q' H.
  apply (blockLoop_spans _ (parseStatement_parsed n) IH) in H as (new & -> & H). exact H.
Qed.

End SoundStatements.

(** ===================================================================== *)
(** * The token parser: a rule step by step                               *)
(** ===================================================================== *)

Section Complete.
Import Parser.

Lemma bind_eq {A B} (m : M A) (k : A -> M B) p a q :
  m p = Ok a q -> bind m k p = k a q.
Proof. unfold bind. intros ->. reflexivity. Qed.

Lemma bind_Throw {A B} (m : M A) (k : A -> M B) p e :
  m p = Throw e -> bind m k p = Throw e.
Proof. unfold bind. intros ->. reflexivity. Qed.

Lemma consume_at p tok :
  tokens p !! pos p = Some tok -> consume p = Ok tok (set_pos (S (pos p)) p).
Proof. unfold consume. intros ->. reflexivity. Qed.

Lemma consumeExpected_at p tok expected :
  tokens p !! pos p = Some tok -> Token.value tok = expected ->
  consumeExpected expected p = Ok tok (set_pos (S (pos p)) p).
Proof.
  intros L V. unfold consumeExpected. rewrite (peek_lookup _ _ L).
  rewrite decide_True by exact V. reflexivity.
Qed.

Lemma expectType_at tok ty msg ex p :
  Token.type tok = ty -> expectType tok ty msg ex p = Ok tt p.
Proof. intros T. unfold expectType. rewrite decide_True by exact T. reflexivity. Qed.

Lemma stoi_at s z p : Cpp.stoi s = Some z -> stoi s p = Ok z p.
Proof. unfold stoi. intros ->. reflexivity. Qed.

Lemma guard_at (P : Prop) `{Decision P} e p :
  ~ P -> (if decide P then throw e else ret tt) p = Ok tt p.
Proof. intros N. rewrite decide_False by exact N. reflexivity. Qed.

Lemma neither_of_two (a b c : string) : a = b \/ a = c -> ~ (a <> b /\ a <> c).
Proof. tauto. Qed.

Lemma parseCondition_at p left op right :
  tokens p !! pos p = Some left -> tokens p !! S (pos p) = Some op ->
  tokens p !! S (S (pos p)) = Some right ->
  parseCondition p
  = Ok (Condition.mk (Token.value left) (Token.value op) (Token.value right))
       (set_pos (3 + pos p) p).
Proof.
  intros L1 L2 L3. unfold parseCondition.
  rewrite (bind_eq _ _ _ _ _ (consume_at _ _ L1)).
  rewrite (bind_eq _ _ _ _ _ (consume_at (set_pos (S (pos p)) p) _ L2)).
  rewrite (bind_eq _ _ _ _ _
             (consume_at (set_pos (S (S (pos p))) (set_pos (S (pos p)) p)) _ L3)).
  reflexivity.
Qed.

End Complete.

(** One step of a rule that goes through. *)
Ltac at_state := cbn [Parser.tokens Parser.pos Parser.set_pos Parser.call Parser.declare].

Ltac fwd :=
  repeat first
    [ erewrite bind_eq by (apply consumeExpected_at; at_state; eassumption)
    | erewrite bind_eq by (apply consume_at; at_state; eassumption)
    | erewrite bind_eq by (apply parseCondition_at; at_state; eassumption)
    | erewrite bind_eq by (apply expectType_at; eassumption)
    | erewrite bind_eq by (apply stoi_at; eassumption)
    | erewrite bind_eq by (apply guard_at; first [apply neither_of_two; assumption | lia])
    | erewrite bind_eq by reflexivity ];
  cbv beta.


Section Dispatch.
Import Parser.
Variable parseBlock : string -> M (list Statement).

Lemma starts_check p keyword v :
  starts (tokens p) (pos p) keyword -> check v p = bool_decide (keyword = v).
Proof. intros (tok & L & V & _). unfold check. now rewrite (peek_lookup _ _ L), V. Qed.

(** On a statement keyword [parseStatement] enters its [try] block. *)
Lemma parseStatementWith_starts p keyword :
  starts (tokens p) (pos p) keyword -> keyword <> "END" ->
  parseStatementWith parseBlock p
  = match dispatch parseBlock (peek p) p with
    | Throw e => Throw (rethrow (peek p) e)
    | r => r
    end.
Proof.
  intros St Hne. unfold parseStatementWith.
  rewrite (starts_check _ _ _ St), (bool_decide_eq_false_2 _ Hne).
  destruct St as (tok & L & _ & Ty). rewrite (peek_lookup _ _ L).
  rewrite decide_False by exact Ty. reflexivity.
Qed.

Lemma dispatch_ROBOT token p :
  starts (tokens p) (pos p) "ROBOT" ->
  dispatch parseBlock token p = bind (parseRobotDeclaration) (fun s => ret (Some s)) p.
Proof. intros St. unfold dispatch. rewrite !(starts_check _ _ _ St). reflexivity. Qed.

Lemma dispatch_MOVE token p :
  starts (tokens p) (pos p) "MOVE" ->
  dispatch parseBlock token p = bind (parseMoveStatement) (fun s => ret (Some s)) p.
Proof. intros St. unfold dispatch. rewrite !(starts_check _ _ _ St). reflexivity. Qed.

Lemma dispatch_TURN token p :
  starts (tokens p) (pos p) "TURN" ->
  dispatch parseBlock token p = bind (parseTurnStatement) (fun s => ret (Some s)) p.
Proof. intros St. unfold dispatch. rewrite !(starts_check _ _ _ St). reflexivity. Qed.

Lemma dispatch_STOP token p :
  starts (tokens p) (pos p) "STOP" ->
  dispatch parseBlock token p = bind (parseStopStatement) (fun s => ret (Some s)) p.
Proof. intros St. unfold dispatch. rewrite !(starts_check _ _ _ St). reflexivity. Qed.

Lemma dispatch_IF token p :
  starts (tokens p) (pos p) "IF" ->
  dispatch parseBlock token p = bind (parseIfStatement parseBlock) (fun s => ret (Some s)) p.
Proof. intros St. unfold dispatch. rewrite !(starts_check _ _ _ St). reflexivity. Qed.

Lemma dispatch_WHILE token p :
  starts (tokens p) (pos p) "WHILE" ->
  dispatch parseBlock token p = bind (parseWhileStatement parseBlock) (fun s => ret (Some s)) p.
Proof. intros St. unfold dispatch. rewrite !(starts_check _ _ _ St). reflexivity. Qed.

Lemma dispatch_REPEAT token p :
  starts (tokens p) (pos p) "REPEAT" ->
  dispatch parseBlock token p = bind (parseRepeatStatement parseBlock) (fun s => ret (Some s)) p.
Proof. intros St. unfold dispatch. rewrite !(starts_check _ _ _ St). reflexivity. Qed.

Lemma dispatch_LED token p :
  starts (tokens p) (pos p) "LED" ->
  dispatch parseBlock token p = bind (parseLEDStatement) (fun s => ret (Some s)) p.
Proof. intros St. unfold dispatch. rewrite !(starts_check _ _ _ St). reflexivity. Qed.

Lemma dispatch_SERVO token p :
  starts (tokens p) (pos p) "SERVO" ->
  dispatch parseBlock token p = bind (parseServoStatement) (fun s => ret (Some s)) p.
Proof. intros St. unfold dispatch. rewrite !(starts_check _ _ _ St). reflexivity. Qed.

Lemma dispatch_MOTOR token p :
  starts (tokens p) (pos p) "MOTOR" ->
  dispatch parseBlock token p = bind (parseMotorStatement) (fun s => ret (Some s)) p.
Proof. intros St. unfold dispatch. rewrite !(starts_check _ _ _ St). reflexivity. Qed.

Lemma dispatch_WAIT token p :
  starts (tokens p) (pos p) "WAIT" ->
  dispatch parseBlock token p = bind (parseWaitStatement) (fun s => ret (Some s)) p.
Proof. intros St. unfold dispatch. rewrite !(starts_check _ _ _ St). reflexivity. Qed.

Lemma dispatch_FUNCTION token p :
  starts (tokens p) (pos p) "FUNCTION" ->
  dispatch parseBlock token p = bind (parseFunctionDef parseBlock) (fun s => ret (Some s)) p.
Proof. intros St. unfold dispatch. rewrite !(starts_check _ _ _ St). reflexivity. Qed.

Lemma dispatch_CALL token p :
  starts (tokens p) (pos p) "CALL" ->
  dispatch parseBlock token p = bind (parseCallStatement) (fun s => ret (Some s)) p.
Proof. intros St. unfold dispatch. rewrite !(starts_check _ _ _ St). reflexivity. Qed.

Lemma dispatch_SEND token p :
  starts (tokens p) (pos p) "SEND" ->
  dispatch parseBlock token p = bind (parseSendStatement) (fun s => ret (Some s)) p.
Proof. intros St. unfold dispatch. rewrite !(starts_check _ _ _ St). reflexivity. Qed.

End Dispatch.

(** ===================================================================== *)
(** * The token parser: what a statement rule throws                      *)
(** ===================================================================== *)

Section Throws.
Import Parser.

Lemma throwsIn_bind {A B} (E : Exception -> Prop) (m : M A) (k : A -> M B) :
  throwsIn E m -> (forall a, throwsIn E (k a)) -> throwsIn E (bind m k).
Proof.
  intros Hm Hk p e. unfold bind.
  destruct (m p) as [a q| e' |] eqn:X; [apply Hk | | discriminate].
  intros [= <-]. eapply Hm, X.
Qed.

Lemma throwsIn_ret {A} (E : Exception -> Prop) (a : A) : throwsIn E (ret a).
Proof. intros p e. discriminate. Qed.

Lemma throwsIn_update {A} (E : Exception -> Prop) (f : t -> Result A) :
  (forall p, exists a q, f p = Ok a q) -> throwsIn E f.
Proof. intros H p e X. destruct (H p) as (a & q & Y). congruence. Qed.

Lemma throwsIn_consume : throwsIn ruleException consume.
Proof.
  intros p e. unfold consume. destruct (tokens p !! pos p); [discriminate |].
  intros [= <-]. exact I.
Qed.

Lemma throwsIn_consumeExpected expected : throwsIn ruleException (consumeExpected expected).
Proof.
  intros p e. unfold consumeExpected. destruct (decide _); [discriminate |].
  intros [= <-]. exact I.
Qed.

Lemma throwsIn_expectType tok ty msg ex : throwsIn ruleException (expectType tok ty msg ex).
Proof.
  intros p e. unfold expectType. destruct (decide _); [discriminate |].
  intros [= <-]. exact I.
Qed.

Lemma throwsIn_stoi s : throwsIn ruleException (stoi s).
Proof.
  intros p e. unfold stoi. destruct (Cpp.stoi s); [discriminate |].
  intros [= <-]. exact I.
Qed.

Lemma throwsIn_guard (P : Prop) `{Decision P} (e : Exception) :
  ruleException e -> throwsIn ruleException (if decide P then throw e else ret tt).
Proof.
  intros He p e'. destruct (decide P); [| discriminate]. intros [= <-]. exact He.
Qed.

Lemma throwsIn_if {A} (E : Exception -> Prop) (c : t -> bool) (x y : M A) :
  throwsIn E x -> throwsIn E y -> throwsIn E (fun p => if c p then x p else y p).
Proof. intros Hx Hy p e. destruct (c p); [apply Hx | apply Hy]. Qed.

Lemma throwsIn_blockLoop (E : Exception -> Prop) (ps : M (option Statement)) :
  throwsIn E ps -> forall turns terminator acc, throwsIn E (blockLoop ps turns terminator acc).
Proof.
  intros Hps. induction turns as [|k IH]; intros terminator acc p e; [discriminate |].
  simpl. destruct (blockContinues terminator p); [| discriminate].
  destruct (check "END" p || check "ELSE" p || check "DO" p); [discriminate |].
  destruct (ps p) as [[s|] q| e' |] eqn:X; [apply IH | | | discriminate].
  - destruct (blockContinues terminator q); [discriminate | apply IH].
  - intros [= <-]. eapply Hps, X.
Qed.

Section Rules.
Variable parseBlock : string -> M (list Statement).
Hypothesis parseBlock_throws : forall terminator, throwsIn ruleException (parseBlock terminator).

Ltac semantic :=
  cbn [ruleException]; unfold valueCheckFailed; eauto 8.

Ltac throws :=
  repeat first
    [ apply throwsIn_bind; [| intros ?]
    | apply throwsIn_consume
    | apply throwsIn_consumeExpected
    | apply throwsIn_expectType
    | apply throwsIn_stoi
    | apply throwsIn_ret
    | apply parseBlock_throws
    | apply throwsIn_if
    | apply throwsIn_guard; semantic
    | apply throwsIn_update; intros ?; eexists _, _; reflexivity ].

Lemma throwsIn_parseRobotDeclaration : throwsIn ruleException parseRobotDeclaration.
Proof. unfold parseRobotDeclaration. throws. Qed.

Lemma throwsIn_parseMoveStatement : throwsIn ruleException parseMoveStatement.
Proof. unfold parseMoveStatement. throws. Qed.

Lemma throwsIn_parseTurnStatement : throwsIn ruleException parseTurnStatement.
Proof. unfold parseTurnStatement. throws. Qed.

Lemma throwsIn_parseStopStatement : throwsIn ruleException parseStopStatement.
Proof. unfold parseStopStatement. throws. Qed.

Lemma throwsIn_parseLEDStatement : throwsIn ruleException parseLEDStatement.
Proof. unfold parseLEDStatement. throws. Qed.

Lemma throwsIn_parseServoStatement : throwsIn ruleException parseServoStatement.
Proof. unfold parseServoStatement. throws. Qed.

Lemma throwsIn_parseMotorStatement : throwsIn ruleException parseMotorStatement.
Proof. unfold parseMotorStatement. throws. Qed.

Lemma throwsIn_parseWaitStatement : throwsIn ruleException parseWaitStatement.
Proof. unfold parseWaitStatement. throws. Qed.

Lemma throwsIn_parseCallStatement : throwsIn ruleException parseCallStatement.
Proof. unfold parseCallStatement. throws. Qed.

Lemma throwsIn_parseSendStatement : throwsIn ruleException parseSendStatement.
Proof. unfold parseSendStatement. throws. Qed.

Lemma throwsIn_parseIfStatement : throwsIn ruleException (parseIfStatement parseBlock).
Proof. unfold parseIfStatement, parseCondition. throws. Qed.

Lemma throwsIn_parseWhileStatement : throwsIn ruleException (parseWhileStatement parseBlock).
Proof. unfold parseWhileStatement, parseCondition. throws. Qed.

Lemma throwsIn_parseRepeatStatement : throwsIn ruleException (parseRepeatStatement parseBlock).
Proof. unfold parseRepeatStatement. throws. Qed.

Lemma throwsIn_parseFunctionDef : throwsIn ruleException (parseFunctionDef parseBlock).
Proof. unfold parseFunctionDef. throws. Qed.

Lemma throwsIn_dispatch token : throwsIn ruleException (dispatch parseBlock token).
Proof.
  intros p e. unfold dispatch.
  repeat match goal with
         | |- context [if check ?v p then _ else _] => destruct (check v p)
         end;
    try (intros [= <-]; exact I);
    refine (throwsIn_bind ruleException _ _ _ _ p e);
    try (intros ?; apply throwsIn_ret);
    auto using throwsIn_parseRobotDeclaration, throwsIn_parseMoveStatement,
      throwsIn_parseTurnStatement, throwsIn_parseStopStatement, throwsIn_parseLEDStatement,
      throwsIn_parseServoStatement, throwsIn_parseMotorStatement, throwsIn_parseWaitStatement,
      throwsIn_parseCallStatement, throwsIn_parseSendStatement, throwsIn_parseIfStatement,
      throwsIn_parseWhileStatement, throwsIn_parseRepeatStatement, throwsIn_parseFunctionDef,
      throwsIn_consumeExpected.
Qed.

Lemma rethrow_statementException token e :
  ruleException e -> statementException (rethrow token e).
Proof. destruct e; simpl; auto. Qed.

Lemma throwsIn_parseStatementWith :
  throwsIn statementException (parseStatementWith parseBlock).
Proof.
  intros p e. unfold parseStatementWith.
  destruct (decide _); [discriminate |].
  destruct (check "END" p); [discriminate |].
  destruct (dispatch parseBlock (peek p) p) as [r q| e' |] eqn:D; [discriminate | | discriminate].
  intros [= <-]. apply rethrow_statementException. eapply throwsIn_dispatch, D.
Qed.

End Rules.

Lemma statementException_rule e : statementException e -> ruleException e.
Proof. destruct e; simpl; auto. Qed.

(** Whatever [parseStatement] throws is a [ParserException] or the
    [SemanticException] of a failed value check. *)
Lemma throwsIn_parseStatement fuel : throwsIn statementException (parseStatement fuel).
Proof.
  induction fuel as [|n IH]; [intros p e; discriminate |].
  cbn [parseStatement]. apply throwsIn_parseStatementWith.
  intros terminator. apply throwsIn_blockLoop.
  intros p e X. apply statementException_rule. eapply IH, X.
Qed.

End Throws.


(** ===================================================================== *)
(** * The token parser: complete statements are parsed, open ones rejected *)
(** ===================================================================== *)

Section CompleteStatements.
Import Parser.

Lemma starts_continues p keyword terminator :
  starts (tokens p) (pos p) keyword ->
  keyword ∈ statementKeywords ->
  terminator = "ELSE" \/ terminator = "END" ->
  blockContinues terminator p = true
  /\ check "END" p || check "ELSE" p || check "DO" p = false
  /\ programContinues p = true.
Proof.
  intros St K Ht. unfold blockContinues, programContinues.
  rewrite !(starts_check _ _ _ St).
  destruct St as (tok & L & _ & Ty). rewrite (peek_lookup _ _ L).
  rewrite (bool_decide_eq_false_2 _ Ty).
  unfold statementKeywords in K.
  repeat (apply elem_of_cons in K as [-> | K];
          [destruct Ht as [-> | ->]; repeat split; reflexivity |]).
  apply elem_of_nil in K. contradiction.
Qed.

Lemma spans_starts toks i s j :
  spans toks i s j -> exists keyword, starts toks i keyword /\ keyword ∈ statementKeywords.
Proof.
  intros H. destruct H;
    (eexists; split; [eassumption | unfold statementKeywords; set_solver]).
Qed.

Lemma starts_lt toks i keyword : starts toks i keyword -> (i < length toks)%nat.
Proof. intros (tok & L & _). eapply lookup_lt_Some, L. Qed.

(** A statement rule that returns makes [parseStatement] return. *)
Lemma accepted_by_rule parseBlock p keyword (rule : M Statement) s j :
  starts (tokens p) (pos p) keyword -> keyword <> "END" ->
  (forall token, dispatch parseBlock token p = bind rule (fun s => ret (Some s)) p) ->
  (exists p', rule p = Ok s p' /\ tokens p' = tokens p /\ pos p' = j) ->
  exists p', parseStatementWith parseBlock p = Ok (Some s) p'
             /\ tokens p' = tokens p /\ pos p' = j.
Proof.
  intros St Hne D (p' & R & H).
  rewrite (parseStatementWith_starts _ _ _ St Hne), D, (bind_eq _ _ _ _ _ R).
  exists p'. split; [reflexivity | exact H].
Qed.

Lemma stops_at (toks : list Token.t) (j : nat) (tok : Token.t) (terminator : string) :
  toks !! j = Some tok ->
  Token.value tok = "END" \/ Token.value tok = "ELSE" ->
  forall q, tokens q = toks -> pos q = j ->
            blockContinues terminator q = false
            \/ check "END" q || check "ELSE" q || check "DO" q = true.
Proof.
  intros L V q <- <-. right. rewrite !(check_value _ _ _ L).
  destruct V as [-> | ->]; reflexivity.
Qed.

Ltac enter St lemma :=
  let fuel := fresh "fuel" in let p := fresh "p" in
  split; [try lia |];
  intros fuel p <- <- Hf;
  destruct fuel as [|n]; [lia |];
  cbn [parseStatement];
  eapply accepted_by_rule; [exact St | discriminate | intros ?; apply lemma, St |];
  destruct St as (tok & L & V & Ty).

Ltac finish := eexists; split; [reflexivity | split; reflexivity].

Lemma bind_if {A B} (c : t -> bool) (x y : M A) (k : A -> M B) q :
  bind (fun p => if c p then x p else y p) k q = if c q then bind x k q else bind y k q.
Proof. unfold bind. destruct (c q); reflexivity. Qed.

Lemma bind_assoc {A B C} (m : M A) (f : A -> M B) (k : B -> M C) p :
  bind (bind m f) k p = bind m (fun a => bind (f a) k) p.
Proof. unfold bind. destruct (m p); reflexivity. Qed.

Lemma consumeExpected_Throw p expected :
  Token.value (peek p) <> expected ->
  consumeExpected expected p
  = Throw (ParserException "Unexpected token" (Token.line (peek p)) (Token.column (peek p))
                           expected (Token.value (peek p))).
Proof. intros N. unfold consumeExpected. rewrite decide_False by exact N. reflexivity. Qed.

Lemma endsBlock_stops terminator q :
  endsBlock (peek q) ->
  blockContinues terminator q = false
  \/ check "END" q || check "ELSE" q || check "DO" q = true.
Proof.
  intros [_ [H | [H | [H | H]]]]; unfold blockContinues, check.
  - left. rewrite (bool_decide_eq_true_2 _ H). apply andb_false_r.
  - left. rewrite (bool_decide_eq_true_2 _ H).
    destruct (bool_decide (Token.value (peek q) = terminator)); reflexivity.
  - right. rewrite (bool_decide_eq_true_2 _ H).
    destruct (bool_decide (Token.value (peek q) = "END")); reflexivity.
  - right. rewrite (bool_decide_eq_true_2 _ H). apply orb_true_r.
Qed.

(** The call of [parseBlock] inside a rule, over a body of complete
    statements that ends at a token where the loop stops. *)
Ltac block IH n :=
  match goal with
  | |- context [bind (blockLoop _ _ ?t ?acc) _ ?q] =>
      let p' := fresh "p'" in let E := fresh "E" in
      let T := fresh "T" in let P := fresh "P" in
      destruct (IH n n t acc q) as (p' & E & T & P);
      [ reflexivity | reflexivity
      | unfold remaining in *; at_state; lookup_bounds; lia
      | unfold remaining in *; at_state; lookup_bounds; lia
      | auto
      | first [ eapply stops_at; eauto; fail
              | let q := fresh "q" in let Tq := fresh "Tq" in let Pq := fresh "Pq" in
                intros q Tq Pq; apply endsBlock_stops;
                unfold peek; rewrite Tq, Pq; assumption ]
      | erewrite bind_eq by exact E; cbv beta; cbn [app]; clear E;
        destruct p'; cbn [tokens pos] in T, P; subst ]
  end.

(** The test for [ELSE] after the first block of an [IF]. *)
Ltac else_check L V :=
  rewrite bind_if;
  match goal with
  | |- context [check "ELSE" ?q] => rewrite (check_value q _ _ L), V
  end;
  first [ rewrite bool_decide_eq_true_2 by reflexivity; rewrite bind_assoc
        | rewrite bool_decide_eq_false_2 by discriminate ].

Lemma spans_accepted toks :
  (forall i s j, spans toks i s j -> accepts toks i s j)
  /\ (forall i stmts j, spansAll toks i stmts j -> acceptsAll toks i stmts j).
Proof.
  apply (spans_both toks (accepts toks) (acceptsAll toks)).
  - (* ROBOT *)
    intros i nameToken St L1. enter St dispatch_ROBOT.
    unfold parseRobotDeclaration. fwd. finish.
  - (* MOVE *)
    intros i dirToken distToken distance St L1 D L2 T Z N. enter St dispatch_MOVE.
    unfold parseMoveStatement. fwd. finish.
  - (* TURN *)
    intros i dirToken angleToken angle St L1 D L2 T Z. enter St dispatch_TURN.
    unfold parseTurnStatement. fwd. finish.
  - (* STOP *)
    intros i St. enter St dispatch_STOP.
    unfold parseStopStatement. fwd. finish.
  - (* IF *)
    intros i left op right thenToken thenBody j endToken St L1 L2 L3 L4 V4 _ [Hle IH] Lj Vj.
    enter St dispatch_IF.
    unfold parseIfStatement. fwd. block IH n.
    else_check Lj Vj. fwd. finish.
  - (* IF ELSE *)
    intros i left op right thenToken thenBody j elseToken elseBody k endToken
           St L1 L2 L3 L4 V4 _ [Hle IH] Lj Vj _ [Hle' IH'] Lk Vk.
    enter St dispatch_IF.
    unfold parseIfStatement. fwd. block IH n.
    else_check Lj Vj. fwd. block IH' n. fwd. finish.
  - (* WHILE *)
    intros i left op right doToken body j endToken St L1 L2 L3 L4 V4 _ [Hle IH] Lj Vj.
    enter St dispatch_WHILE.
    unfold parseWhileStatement. fwd. block IH n. fwd. finish.
  - (* REPEAT *)
    intros i timesToken times timesWord body j endToken St L1 T Z L2 V2 _ [Hle IH] Lj Vj.
    enter St dispatch_REPEAT.
    unfold parseRepeatStatement. fwd. block IH n. fwd. finish.
  - (* LED *)
    intros i stateToken St L1 D Ty2. enter St dispatch_LED.
    unfold parseLEDStatement. fwd.
    rewrite bind_if. unfold checkType at 1.
    rewrite bool_decide_eq_false_2 by exact Ty2. fwd. finish.
  - (* LED with a colour *)
    intros i stateToken colorToken St L1 D L2 T. enter St dispatch_LED.
    unfold parseLEDStatement. fwd.
    rewrite bind_if. unfold checkType at 1.
    rewrite bool_decide_eq_true_2 by (unfold peek; at_state; rewrite L2; exact T).
    rewrite bind_assoc. fwd. finish.
  - (* SERVO *)
    intros i nameToken toToken angleToken angle St L1 L2 V2 L3 T Z.
    enter St dispatch_SERVO.
    unfold parseServoStatement. fwd. finish.
  - (* MOTOR *)
    intros i nameToken speedWord speedToken speed St L1 L2 V2 L3 T Z R.
    enter St dispatch_MOTOR.
    unfold parseMotorStatement. fwd. finish.
  - (* WAIT *)
    intros i durationToken duration St L1 T Z. enter St dispatch_WAIT.
    unfold parseWaitStatement. fwd. finish.
  - (* FUNCTION *)
    intros i nameToken body j endToken St L1 _ [Hle IH] Lj Vj.
    enter St dispatch_FUNCTION.
    unfold parseFunctionDef. fwd. block IH n. fwd. finish.
  - (* CALL *)
    intros i nameToken St L1. enter St dispatch_CALL.
    unfold parseCallStatement. fwd. finish.
  - (* SEND *)
    intros i messageWord msgToken St L1 V1 L2 T. enter St dispatch_SEND.
    unfold parseSendStatement. fwd. finish.
  - (* the empty sequence *)
    intros i. split; [lia |].
    intros fuel turns terminator acc p <- <- Hf Ht Hterm Hstop.
    destruct turns as [|t]; [lia |]. cbn [blockLoop].
    exists p. rewrite app_nil_r.
    destruct (Hstop p eq_refl eq_refl) as [-> | C].
    + auto.
    + destruct (blockContinues terminator p); [rewrite C |]; auto.
  - (* one more statement *)
    intros i stmt j stmts k Hs [Hlt IHs] _ [Hle IH]. split; [lia |].
    intros fuel turns terminator acc p <- <- Hf Ht Hterm Hstop.
    destruct turns as [|t]; [lia |]. cbn [blockLoop].
    destruct (spans_starts _ _ _ _ Hs) as (keyword & St & K).
    destruct (starts_continues p keyword terminator St K Hterm) as (-> & -> & _).
    destruct (IHs fuel p eq_refl eq_refl Hf) as (q & -> & T & P).
    pose proof (starts_lt _ _ _ St) as Hi.
    destruct (IH fuel t terminator (acc ++ [stmt])%list q T P) as (p' & E & H).
    + unfold remaining in *. rewrite T, P. lia.
    + unfold remaining in *. rewrite T, P. lia.
    + exact Hterm.
    + exact Hstop.
    + exists p'. rewrite E, <- app_assoc. split; [reflexivity | exact H].
Qed.

(** The other direction of [parseStatement_spans]: a complete statement
    is parsed into its node, whatever stands around it. *)
Lemma spans_parseStatement fuel p s j :
  spans (tokens p) (pos p) s j -> (remaining p < fuel)%nat ->
  exists p', parseStatement fuel p = Ok (Some s) p'
             /\ tokens p' = tokens p /\ pos p' = j.
Proof.
  intros H Hf. destruct (proj1 (spans_accepted _) _ _ _ H) as [_ A].
  exact (A fuel p eq_refl eq_refl Hf).
Qed.

Lemma rethrow_statementException_id token e :
  statementException e -> rethrow token e = e.
Proof. destruct e; simpl; [reflexivity | reflexivity | contradiction]. Qed.

(** What a statement rule throws, [parseStatement] throws. *)
Lemma thrown_by_rule parseBlock p keyword (rule : M Statement) e :
  starts (tokens p) (pos p) keyword -> keyword <> "END" ->
  (forall token, dispatch parseBlock token p = bind rule (fun s => ret (Some s)) p) ->
  statementException e ->
  rule p = Throw e ->
  parseStatementWith parseBlock p = Throw e.
Proof.
  intros St Hne D He R.
  rewrite (parseStatementWith_starts _ _ _ St Hne), D, (bind_Throw _ _ _ _ R).
  rewrite (rethrow_statementException_id _ _ He). reflexivity.
Qed.

(** The statement rule on an [IF] that is left open: the missing
    [END] is reported at the token that stands in its place. *)
Lemma openIf_parseStatement fuel p found :
  openIf (tokens p) (pos p) found -> (remaining p < fuel)%nat ->
  parseStatement fuel p
  = Throw (ParserException "Unexpected token" (Token.line found) (Token.column found)
                           "END" (Token.value found)).
Proof.
  intros H Hf. destruct fuel as [|n]; [lia |]. cbn [parseStatement].
  destruct H as [left op right thenToken thenBody j St L1 L2 L3 L4 V4 Hbody -> Hend Hne
                |left op right thenToken thenBody j elseToken elseBody k
                      St L1 L2 L3 L4 V4 Hbody Lj Vj Helse -> Hend].
  - eapply thrown_by_rule;
      [exact St | discriminate | intros ?; apply dispatch_IF, St | exact I |].
    destruct (proj2 (spans_accepted _) _ _ _ Hbody) as [Hle IH].
    destruct St as (tok & L & V & Ty).
    unfold parseIfStatement. fwd. block IH n.
    rewrite bind_if. unfold check at 1.
    rewrite bool_decide_eq_false_2 by exact Hne.
    fwd. erewrite bind_Throw; [reflexivity |].
    apply consumeExpected_Throw. exact (proj1 Hend).
  - eapply thrown_by_rule;
      [exact St | discriminate | intros ?; apply dispatch_IF, St | exact I |].
    destruct (proj2 (spans_accepted _) _ _ _ Hbody) as [Hle IH].
    destruct (proj2 (spans_accepted _) _ _ _ Helse) as [Hle' IH'].
    destruct St as (tok & L & V & Ty).
    unfold parseIfStatement. fwd. block IH n.
    else_check Lj Vj. fwd. block IH' n.
    erewrite bind_Throw; [reflexivity |].
    apply consumeExpected_Throw. exact (proj1 Hend).
Qed.

Lemma starts_unique toks i k1 k2 : starts toks i k1 -> starts toks i k2 -> k1 = k2.
Proof. intros (t1 & L1 & V1 & _) (t2 & L2 & V2 & _). congruence. Qed.

(** A complete [IF] statement ends with an [END], which stands behind
    the five tokens of its header. *)
Lemma spans_if_end toks i s j :
  spans toks i s j -> starts toks i "IF" ->
  exists j0 endToken,
    j = S j0 /\ (5 + i <= j0)%nat /\ toks !! j0 = Some endToken
    /\ Token.value endToken = "END".
Proof.
  intros H St.
  destruct H;
    try (match goal with
         | H : starts _ _ _ |- _ => pose proof (starts_unique _ _ _ _ St H); discriminate
         end).
  all: repeat match goal with
         | Hs : spansAll _ _ _ _ |- _ => apply (proj2 (spans_accepted _)) in Hs as [? _]
         end.
  all: eexists _, _; (split; [reflexivity |]); (split; [lia |]); split; eassumption.
Qed.

(** With no [END] behind its header an [IF] has no matching [END]. *)
Lemma noEnd_open toks i :
  starts toks i "IF" -> noEndFrom (5 + i) toks -> forall s j, ~ spans toks i s j.
Proof.
  intros St N s j H.
  destruct (spans_if_end _ _ _ _ H St) as (j0 & endToken & _ & Hle & L & V).
  exact (N j0 endToken Hle L V).
Qed.

(** The statement rule on an [IF] without a matching [END]. *)
Lemma unmatched_parseStatement fuel p :
  starts (tokens p) (pos p) "IF" ->
  (forall s j, ~ spans (tokens p) (pos p) s j) ->
  (remaining p < fuel)%nat ->
  exists e, parseStatement fuel p = Throw e /\ statementException e.
Proof.
  intros St N Hf.
  pose proof (parseStatement_total fuel p Hf) as T.
  destruct (parseStatement fuel p) as [[s|] q| e |] eqn:E; [| | | congruence].
  - exfalso. apply parseStatement_spans in E as [E _]. exact (N _ _ E).
  - exfalso. apply parseStatement_parsed in E as [_ E].
    destruct St as (tok & L & V & Ty).
    unfold check in E. rewrite (peek_lookup _ _ L), V in E.
    destruct E as [E | E]; [contradiction | discriminate].
  - exists e. split; [reflexivity |]. eapply throwsIn_parseStatement, E.
Qed.

(** The block that a header opens throws: its rule throws the same. *)
Lemma opensAt_parseStatement (E : Exception -> Prop) toks i k :
  opensAt toks i k ->
  (forall e, E e -> statementException e) ->
  (forall fuel turns terminator acc q,
      tokens q = toks -> pos q = k ->
      (remaining q < fuel)%nat -> (remaining q < turns)%nat ->
      terminator = "ELSE" \/ terminator = "END" ->
      exists e, blockLoop (parseStatement fuel) turns terminator acc q = Throw e /\ E e) ->
  forall fuel p,
    tokens p = toks -> pos p = i -> (remaining p < fuel)%nat ->
    exists e, parseStatement fuel p = Throw e /\ E e.
Proof.
  intros H HE Hblock fuel p T P Hf. destruct fuel as [|n]; [lia |]. cbn [parseStatement].
  pose (pb := fun terminator => blockLoop (parseStatement n) n terminator []).
  assert (via : forall keyword (rule : M Statement),
             starts (tokens p) (pos p) keyword -> keyword <> "END" ->
             (forall token, dispatch pb token p = bind rule (fun s => ret (Some s)) p) ->
             (exists e, rule p = Throw e /\ E e) ->
             exists e, parseStatementWith pb p = Throw e /\ E e).
  { intros keyword rule St Hne D (e & R & He). exists e. split; [| exact He].
    eapply thrown_by_rule; eauto. }
  assert (inside : forall terminator q (rest : list Statement -> M Statement),
             tokens q = toks -> pos q = k ->
             (remaining q < n)%nat ->
             terminator = "ELSE" \/ terminator = "END" ->
             exists e, bind (blockLoop (parseStatement n) n terminator []) rest q = Throw e
                       /\ E e).
  { intros terminator q rest Tq Pq Hq Ht.
    destruct (Hblock n n terminator [] q Tq Pq Hq Hq Ht) as (e & X & He).
    exists e. split; [apply bind_Throw, X | exact He]. }
  clear Hblock.
  destruct H as [i left op right thenToken St L1 L2 L3 L4 V4
                |i left op right thenToken thenBody j elseToken St L1 L2 L3 L4 V4 Hbody Lj Vj
                |i left op right doToken St L1 L2 L3 L4 V4
                |i timesToken times timesWord St L1 Ty Z L2 V2
                |i nameToken St L1];
    subst toks i.
  - apply (via "IF" (parseIfStatement pb) St); [discriminate | intros ?; apply dispatch_IF, St |].
    destruct St as (tok & L & V & _).
    unfold parseIfStatement, pb. fwd. apply inside; auto.
    unfold remaining in *; at_state; lookup_bounds; lia.
  - apply (via "IF" (parseIfStatement pb) St); [discriminate | intros ?; apply dispatch_IF, St |].
    destruct (proj2 (spans_accepted _) _ _ _ Hbody) as [Hle IH].
    destruct St as (tok & L & V & _).
    unfold parseIfStatement, pb. fwd. block IH n.
    else_check Lj Vj. fwd. apply inside; auto.
    unfold remaining in *; at_state; lookup_bounds; lia.
  - apply (via "WHILE" (parseWhileStatement pb) St);
      [discriminate | intros ?; apply dispatch_WHILE, St |].
    destruct St as (tok & L & V & _).
    unfold parseWhileStatement, pb. fwd. apply inside; auto.
    unfold remaining in *; at_state; lookup_bounds; lia.
  - apply (via "REPEAT" (parseRepeatStatement pb) St);
      [discriminate | intros ?; apply dispatch_REPEAT, St |].
    destruct St as (tok & L & V & _).
    unfold parseRepeatStatement, pb. fwd. apply inside; auto.
    unfold remaining in *; at_state; lookup_bounds; lia.
  - apply (via "FUNCTION" (parseFunctionDef pb) St);
      [discriminate | intros ?; apply dispatch_FUNCTION, St |].
    destruct St as (tok & L & V & _).
    unfold parseFunctionDef, pb. fwd. apply inside; auto.
    unfold remaining in *; at_state; lookup_bounds; lia.
Qed.

(** The loops of [parse] and [parseBlock] throw what the statement
    rule throws at a statement keyword. *)
Lemma loops_throw p keyword fuel e :
  starts (tokens p) (pos p) keyword -> keyword ∈ statementKeywords ->
  parseStatement fuel p = Throw e ->
  (forall turns acc, (0 < turns)%nat -> programLoop fuel turns acc p = Throw e)
  /\ (forall turns terminator acc,
         (0 < turns)%nat -> terminator = "ELSE" \/ terminator = "END" ->
         blockLoop (parseStatement fuel) turns terminator acc p = Throw e).
Proof.
  intros St K X. split.
  - intros turns acc Ht. destruct turns as [|t]; [lia |]. cbn [programLoop].
    destruct (starts_continues p keyword "END" St K (or_intror eq_refl)) as (_ & _ & ->).
    rewrite X. reflexivity.
  - intros turns terminator acc Ht Hterm. destruct turns as [|t]; [lia |]. cbn [blockLoop].
    destruct (starts_continues p keyword terminator St K Hterm) as (-> & -> & _).
    rewrite X. reflexivity.
Qed.

Lemma statement_loopsThrow (E : Exception -> Prop) toks i keyword :
  starts toks i keyword -> keyword ∈ statementKeywords ->
  (forall fuel p, tokens p = toks -> pos p = i -> (remaining p < fuel)%nat ->
                  exists e, parseStatement fuel p = Throw e /\ E e) ->
  loopsThrow E toks i.
Proof.
  intros St K H. split.
  - intros fuel turns acc p T P Hf Ht. destruct (H fuel p T P Hf) as (e & X & He).
    subst. exists e. split; [| exact He].
    apply (proj1 (loops_throw _ _ _ _ St K X)). lia.
  - intros fuel turns terminator acc p T P Hf Ht Hterm.
    destruct (H fuel p T P Hf) as (e & X & He).
    subst. exists e. split; [| exact He].
    apply (proj2 (loops_throw _ _ _ _ St K X)); [lia | exact Hterm].
Qed.

(** What the loops throw at a statement the parser gets to is what
    [parse] throws, before the whole-program check. *)
Lemma reached_throws ord (E : Exception -> Prop) toks i :
  reached toks i ->
  (forall e, E e -> statementException e) ->
  loopsThrow E toks i ->
  exists e, run ord toks = Throw e
            /\ parseProgram (fuelFor toks) (new toks) = Throw e /\ E e.
Proof.
  intros H HE. induction H as [| i stmt j _ IH Hs | i k _ IH Ho]; intros Hloops.
  - destruct (proj1 Hloops (fuelFor toks) (fuelFor toks) [] (new toks)) as (e & X & He);
      [reflexivity | reflexivity | unfold remaining, fuelFor; simpl; lia ..|].
    assert (R : parseProgram (fuelFor toks) (new toks) = Throw e)
      by (unfold parseProgram; apply bind_Throw, X).
    exists e. split; [| split; [exact R | exact He]].
    unfold run, parse. apply bind_Throw, R.
  - apply IH. destruct Hloops as [Hprog Hblock].
    destruct (spans_starts _ _ _ _ Hs) as (keyword & St & K).
    destruct (proj1 (spans_accepted _) _ _ _ Hs) as [Hlt A].
    pose proof (starts_lt _ _ _ St) as Hi.
    split.
    + intros fuel turns acc p T P Hf Ht. subst.
      destruct turns as [|t]; [lia |]. cbn [programLoop].
      destruct (starts_continues p keyword "END" St K (or_intror eq_refl)) as (_ & _ & ->).
      destruct (A fuel p eq_refl eq_refl Hf) as (q & -> & T & P).
      apply Hprog; [exact T | exact P | |]; unfold remaining in *; rewrite T, P; lia.
    + intros fuel turns terminator acc p T P Hf Ht Hterm. subst.
      destruct turns as [|t]; [lia |]. cbn [blockLoop].
      destruct (starts_continues p keyword terminator St K Hterm) as (-> & -> & _).
      destruct (A fuel p eq_refl eq_refl Hf) as (q & -> & T & P).
      apply Hblock; [exact T | exact P | | | exact Hterm];
        unfold remaining in *; rewrite T, P; lia.
  - apply IH.
    assert (St : exists keyword, starts toks i keyword /\ keyword ∈ statementKeywords).
    { destruct Ho; (eexists; split; [eassumption | unfold statementKeywords; set_solver]). }
    destruct St as (keyword & St & K).
    apply (statement_loopsThrow E toks i keyword St K).
    apply (opensAt_parseStatement E toks i k Ho HE). exact (proj2 Hloops).
Qed.

Lemma spansAll_reached toks i stmts j :
  spansAll toks i stmts j -> reached toks i -> reached toks j.
Proof.
  induction 1 as [| i stmt j stmts k Hs _ IH]; [auto |].
  intros R. apply IH. eapply reached_next; eassumption.
Qed.

End CompleteStatements.

(** C4, as the code has it.  Take an [IF] that the parser gets to
    ([reached]: behind complete statements, at the top level or inside
    blocks that are open there) and that has no matching [END].

    When the [IF] is left open over a valid body - its header and
    [THEN], complete statements with every nested block closed, after an
    [ELSE] complete statements again, and then, where its [END] is due,
    the end of the stream (or a stray [ELSE] or [DO]) - [parse] throws
    the [ParserException] [Unexpected token], expected [END], with the
    line, the column and the text of the token found there; so does the
    statement rule from every state that stands at such an [IF].

    Whatever the body, as long as the tokens from the [IF] on do not
    begin with a complete [IF] statement, [parse] returns no program:
    it throws before the whole-program check is reached, and what it
    throws is a [ParserException] or the [SemanticException] of a value
    check that a statement failed before the missing [END] was noticed.

    On every token sequence [parse] terminates, and so does
    [parseBlock] from every state: the fuel of the model is never
    exhausted.  (The complete statements are the ones the statement
    rule returns: [parseStatement_spans], [spans_parseStatement].) *)
Theorem unclosed_if_rejected :
  (forall ord toks i found,
      reached toks i ->
      openIf toks i found ->
      Parser.run ord toks
      = Parser.Throw (ParserException "Unexpected token" (Token.line found)
                                      (Token.column found) "END" (Token.value found)))
  /\ (forall fuel p found,
         openIf (Parser.tokens p) (Parser.pos p) found ->
         (remaining p < fuel)%nat ->
         Parser.parseStatement fuel p
         = Parser.Throw (ParserException "Unexpected token" (Token.line found)
                                         (Token.column found) "END" (Token.value found)))
  /\ (forall ord toks i,
         reached toks i ->
         starts toks i "IF" ->
         (forall s j, ~ spans toks i s j) ->
         exists e,
           Parser.run ord toks = Parser.Throw e
           /\ Parser.parseProgram (Parser.fuelFor toks) (Parser.new toks) = Parser.Throw e
           /\ statementException e)
  /\ (forall fuel p,
         starts (Parser.tokens p) (Parser.pos p) "IF" ->
         (forall s j, ~ spans (Parser.tokens p) (Parser.pos p) s j) ->
         (remaining p < fuel)%nat ->
         exists e, Parser.parseStatement fuel p = Parser.Throw e /\ statementException e)
  /\ (forall ord toks, Parser.run ord toks <> Parser.OutOfFuel)
  /\ (forall fuel terminator p,
         (remaining p < fuel)%nat ->
         Parser.parseBlock fuel terminator p <> Parser.OutOfFuel).
Proof.
  assert (KIf : "IF" ∈ statementKeywords) by (unfold statementKeywords; set_solver).
  split; [| split; [exact openIf_parseStatement | split; [| split;
    [exact unmatched_parseStatement | split; [exact parse_terminates | exact parseBlock_total]]]]].
  - intros ord toks i found Hreached Hopen.
    assert (St : starts toks i "IF") by (destruct Hopen; assumption).
    destruct (reached_throws ord
                (fun e => e = ParserException "Unexpected token" (Token.line found)
                                              (Token.column found) "END" (Token.value found))
                toks i Hreached) as (e & R & _ & ->); [intros e ->; exact I | | exact R].
    apply (statement_loopsThrow _ toks i "IF" St KIf).
    intros fuel p <- <- Hf. eexists. split; [| reflexivity].
    apply openIf_parseStatement; assumption.
  - intros ord toks i Hreached St N.
    apply (reached_throws ord statementException toks i Hreached); [auto |].
    apply (statement_loopsThrow _ toks i "IF" St KIf).
    intros fuel p <- <- Hf. apply unmatched_parseStatement; assumption.
Qed.

Lemma unclosed_if_rejected_witness :
  Lexer.run unclosedIfRepeatText = Some unclosedIfRepeat
  /\ Parser.run elementsOrder unclosedIfRepeat
     = Parser.Throw (ParserException "Unexpected token" 2 24 "END" "EOF")
  /\ Lexer.run unclosedIfInsideText = Some unclosedIfInside
  /\ Parser.run elementsOrder unclosedIfInside
     = Parser.Throw (ParserException "Unexpected token" 3 5 "END" "EOF")
  /\ exists e, Parser.run elementsOrder unclosedIfBadMove = Parser.Throw e
               /\ statementException e.
Proof.
  destruct unclosed_if_rejected as (Open & _ & Unmatched & _).
  assert (starts_at : forall toks i tok keyword,
             toks !! i = Some tok -> Token.value tok = keyword ->
             Token.type tok <> END_OF_FILE -> starts toks i keyword)
    by (intros toks i tok keyword L V Ty; exists tok; auto).
  split; [vm_compute; reflexivity |]. split; [| split; [vm_compute; reflexivity | split]].
  - apply (Open elementsOrder unclosedIfRepeat 0%nat (endOfFile 2 24)); [constructor |].
    eapply (openIf_then unclosedIfRepeat 0 (endOfFile 2 24) _ _ _ _
              [RepeatStatement 2 [StopStatement]] 10);
      try reflexivity.
    + eapply starts_at; [reflexivity | reflexivity | discriminate].
    + eapply spansAll_cons; [| apply spansAll_nil].
      apply (spans_repeat unclosedIfRepeat 5 (number "2" 2 8) 2 (keyword "TIMES" 2 10)
               [StopStatement] 9 (keyword "END" 2 21)); try reflexivity.
      * eapply starts_at; [reflexivity | reflexivity | discriminate].
      * eapply spansAll_cons; [| apply spansAll_nil].
        apply (spans_stop unclosedIfRepeat 8).
        eapply starts_at; [reflexivity | reflexivity | discriminate].
    + split; [discriminate | left; reflexivity].
    + discriminate.
  - apply (Open elementsOrder unclosedIfInside 4%nat (endOfFile 3 5)).
    + apply (reached_next unclosedIfInside 3 StopStatement 4).
      * apply (reached_inside unclosedIfInside 0 3); [constructor |].
        apply (opens_repeat unclosedIfInside 0 (number "2" 1 8) 2 (keyword "TIMES" 1 10));
          try reflexivity.
        eapply starts_at; [reflexivity | reflexivity | discriminate].
      * apply (spans_stop unclosedIfInside 3).
        eapply starts_at; [reflexivity | reflexivity | discriminate].
    + eapply (openIf_then unclosedIfInside 4 (endOfFile 3 5) _ _ _ _ [StopStatement] 10);
        try reflexivity.
      * eapply starts_at; [reflexivity | reflexivity | discriminate].
      * eapply spansAll_cons; [| apply spansAll_nil].
        apply (spans_stop unclosedIfInside 9).
        eapply starts_at; [reflexivity | reflexivity | discriminate].
      * split; [discriminate | left; reflexivity].
      * discriminate.
  - destruct (Unmatched elementsOrder unclosedIfBadMove 0%nat) as (e & R & _ & C).
    + constructor.
    + eapply starts_at; [reflexivity | reflexivity | discriminate].
    + apply noEnd_open.
      * eapply starts_at; [reflexivity | reflexivity | discriminate].
      * apply (noEndFrom_tail [keyword "IF" 1 1; identifier "a" 1 4; Token.mk OPERATOR "<" 1 6;
                                identifier "b" 1 8; keyword "THEN" 1 10]).
        intros tok [<-|[<-|[<-|[<-|[]]]]]; discriminate.
    + exists e. split; [exact R | exact C].
Defined.

(** C4 as stated fails: with an invalid [MOVE] inside the open block
    the exception is a [SemanticException], not a [ParserException]. *)
Lemma unclosed_if_semantic_exception :
  Lexer.run unclosedIfBadMoveText = Some unclosedIfBadMove
  /\ (exists left op right rest,
        unclosedIfBadMove
        = keyword "IF" 1 1 :: left :: op :: right :: keyword "THEN" 1 10 :: rest)
  /\ Forall (fun tok => Token.value tok <> "END") unclosedIfBadMove
  /\ Parser.run elementsOrder unclosedIfBadMove
     = Parser.Throw (SemanticException "Invalid movement direction: up"
                                       "Expected 'forward' or 'backward'").
Proof.
  split; [vm_compute; reflexivity |].
  split; [eexists _, _, _, _; reflexivity |].
  split; [repeat constructor; discriminate | vm_compute; reflexivity].
Qed.

(** ===================================================================== *)
(** * Concrete programs                                                   *)
(** ===================================================================== *)

Lemma iterate_empty (ord : UnorderedSetOrder) : iterate ord ∅ = [].
Proof.
  pose proof (iterate_perm ord ∅) as P. rewrite elements_empty in P.
  apply Permutation_nil_r in P. exact P.
Qed.

(** C5.  The tokens of [REPEAT 0 TIMES STOP END], as the lexer gives
    them, parse into a [RepeatStatement] with [times = 0] and body
    [[Stop]], and the generator turns that node into a [for] loop with
    bound 0 around the stop sequence: a loop whose body runs zero times. *)
Theorem repeat_zero_times (ord : UnorderedSetOrder) (g : ArduinoGenerator.t) :
  Lexer.run repeatZeroText = Some repeatZero
  /\ (exists p,
      Parser.run ord repeatZero
      = Parser.Ok (mkProgram [RepeatStatement 0 [StopStatement]]) p)
  /\ ArduinoGenerator.generateRepeat 0 [StopStatement] ArduinoGenerator.new
     = Some (ArduinoGenerator.set_generatedCode
               [ "for (int i = 0; i < 0; i++) {";
                 "  // Stop all motors";
                 "  digitalWrite(5, LOW);";
                 "  digitalWrite(6, LOW);";
                 "  digitalWrite(10, LOW);";
                 "  digitalWrite(11, LOW);";
                 "}" ]
               ArduinoGenerator.new)
  /\ (exists text g',
         ArduinoGenerator.generate (mkProgram [RepeatStatement 0 [StopStatement]]) g
         = Some (text, g')
         /\ ArduinoGenerator.generatedCode g'
            = ("for (int i = 0; i < 0; i++) {"
               :: map (fun code => "  " +:+ code) ArduinoGenerator.stopSequence
               ++ ["}"])%list).
Proof.
  split; [vm_compute; reflexivity |]. split; [| split].
  - eexists.
    erewrite run_after_parseProgram by (vm_compute; reflexivity).
    cbn [Parser.calledFunctions]. rewrite iterate_empty. reflexivity.
  - vm_compute. reflexivity.
  - rewrite generate_unfold. eexists _, _.
    split; [vm_compute; reflexivity | vm_compute; reflexivity].
Qed.

Lemma motor_speed_in_range_witness :
  (exists p,
      Parser.run elementsOrder motorLeft
      = Parser.Ok (mkProgram [MotorStatement "left" 75]) p)
  /\ occursInProgram (MotorStatement "left" 75) (mkProgram [MotorStatement "left" 75])
  /\ 0 <= 75 <= 100.
Proof.
  assert (R : exists p, Parser.run elementsOrder motorLeft
                        = Parser.Ok (mkProgram [MotorStatement "left" 75]) p)
    by (eexists; vm_compute; reflexivity).
  assert (O : occursInProgram (MotorStatement "left" 75)
                              (mkProgram [MotorStatement "left" 75]))
    by (eexists; split; [left; reflexivity | constructor]).
  split; [exact R |]. split; [exact O |].
  destruct R as [p R]. destruct motor_speed_in_range as [H _].
  exact (H elementsOrder motorLeft _ p "left" 75 R O).
Defined.

(** ===================================================================== *)
(** * The lexer                                                           *)
(** ===================================================================== *)

Section LexerFacts.
Import Lexer.

Lemma get_Some_lt (s : string) (n : nat) (c : ascii) :
  String.get n s = Some c -> (n < String.length s)%nat.
Proof.
  revert n. induction s as [|x s IH]; intros n; [discriminate |].
  destruct n as [|n]; simpl; [lia |]. intros H. apply IH in H. lia.
Qed.

Lemma currentChar_get l :
  currentChar l <> NUL -> String.get (pos l) (source l) = Some (currentChar l).
Proof.
  unfold currentChar. destruct (String.get (pos l) (source l)); simpl; congruence.
Qed.

Lemma lexerMoved_refl l : lexerOk l -> lexerMoved l l.
Proof. intros H. repeat split; try apply H; lia. Qed.

Lemma lexerMoved_trans l1 l2 l3 : lexerMoved l1 l2 -> lexerMoved l2 l3 -> lexerMoved l1 l3.
Proof.
  intros (S1 & P1 & O1) (S2 & P2 & O2). repeat split; try apply O3; try apply O2.
  - congruence.
  - lia.
Qed.

Lemma lexerMoved_charsLeft l l' : lexerMoved l l' -> (charsLeft l' <= charsLeft l)%nat.
Proof. intros (S & P & _). unfold charsLeft. rewrite S. lia. Qed.

Lemma lexerMoved_charsLeft_lt l l' :
  lexerMoved l l' -> (pos l < pos l')%nat -> (charsLeft l' < charsLeft l)%nat.
Proof.
  intros (S & P & (B & _)) Hlt. unfold charsLeft. rewrite S in *. lia.
Qed.

(** [advance] past a character that is not the end of the text. *)
Lemma advance_char l :
  lexerOk l -> currentChar l <> NUL ->
  lexerMoved l (advance l) /\ pos (advance l) = S (pos l).
Proof.
  intros (B & Ln & Col) H. apply currentChar_get in H.
  pose proof (get_Some_lt _ _ _ H) as Hlt.
  unfold advance. rewrite H.
  destruct (decide (currentChar l = "010"%char)); simpl;
    (split; [| reflexivity]); repeat split; simpl; lia.
Qed.

Lemma advance_moved l : lexerOk l -> lexerMoved l (advance l).
Proof.
  intros Hok. destruct (ascii_dec (currentChar l) NUL) as [E|N].
  - unfold advance. destruct (String.get (pos l) (source l)) as [c|] eqn:G.
    + pose proof (get_Some_lt _ _ _ G) as Hlt. destruct Hok as (B & Ln & Col).
      destruct (decide (c = "010"%char)); repeat split; simpl; lia.
    + apply lexerMoved_refl, Hok.
  - apply advance_char; assumption.
Qed.

(** [while (cond(currentChar())) advance();] stops, on a character that
    fails [cond]. *)
Lemma advanceWhile_spec (cond : ascii -> bool) :
  cond NUL = false ->
  forall turns l,
    lexerOk l -> (charsLeft l < turns)%nat ->
    exists l', advanceWhile cond turns l = Some l'
               /\ lexerMoved l l'
               /\ cond (currentChar l') = false
               /\ (cond (currentChar l) = true -> (pos l < pos l')%nat).
Proof.
  intros Hnul. induction turns as [|k IH]; intros l Hok Hf; [lia |].
  simpl. destruct (cond (currentChar l)) eqn:C.
  - assert (N : currentChar l <> NUL) by (intros E; rewrite E in C; congruence).
    destruct (advance_char l Hok N) as [M P].
    destruct (IH (advance l)) as (l' & E & M' & C' & _).
    + apply M.
    + pose proof (lexerMoved_charsLeft_lt _ _ M). lia.
    + exists l'. split; [exact E |]. split; [eapply lexerMoved_trans; eassumption |].
      split; [exact C' |]. intros _. destruct M' as (_ & P' & _). lia.
  - exists l. split; [reflexivity |]. split; [apply lexerMoved_refl, Hok |].
    split; [exact C | discriminate].
Qed.

Lemma allChars_app (f : ascii -> bool) (a b : string) :
  allChars f (a +:+ b) = allChars f a && allChars f b.
Proof.
  induction a as [|x a IH]; [reflexivity |].
  rewrite append_cons. simpl. rewrite IH. now rewrite andb_assoc.
Qed.

(** [while (cond(currentChar())) { text += currentChar(); advance(); }] *)
Lemma readWhile_spec (cond : ascii -> bool) :
  cond NUL = false ->
  forall turns text l,
    lexerOk l -> (charsLeft l < turns)%nat ->
    exists w l', readWhile cond turns text l = Some (text +:+ w, l')
                 /\ lexerMoved l l'
                 /\ allChars cond w = true
                 /\ (cond (currentChar l) = true -> w <> "" /\ (pos l < pos l')%nat).
Proof.
  intros Hnul. induction turns as [|k IH]; intros text l Hok Hf; [lia |].
  simpl. destruct (cond (currentChar l)) eqn:C.
  - assert (N : currentChar l <> NUL) by (intros E; rewrite E in C; congruence).
    destruct (advance_char l Hok N) as [M P].
    destruct (IH (text +:+ String (currentChar l) "") (advance l)) as (w & l' & E & M' & A & _).
    + apply M.
    + pose proof (lexerMoved_charsLeft_lt _ _ M). lia.
    + exists (String (currentChar l) w), l'.
      split; [rewrite E, append_assoc; reflexivity |].
      split; [eapply lexerMoved_trans; eassumption |].
      split; [simpl; rewrite C, A; reflexivity |].
      intros _. split; [discriminate |]. destruct M' as (_ & P' & _). lia.
  - exists "", l. split; [now rewrite append_nil_r |].
    split; [apply lexerMoved_refl, Hok |]. split; [reflexivity | discriminate].
Qed.

(** The loop of [readString] stops on a quote or at the end. *)
Lemma readStringLoop_spec :
  forall turns str l,
    lexerOk l -> (charsLeft l < turns)%nat ->
    exists str' l', readStringLoop turns str l = Some (str', l')
                    /\ lexerMoved l l'
                    /\ inString (currentChar l') = false.
Proof.
  induction turns as [|k IH]; intros str l Hok Hf; [lia |].
  cbn [readStringLoop]. cbv zeta.
  change (negb (bool_decide (currentChar l = quote)) && negb (bool_decide (currentChar l = NUL)))
    with (inString (currentChar l)).
  destruct (inString (currentChar l)) eqn:C.
  - assert (N : currentChar l <> NUL).
    { intros E. rewrite E in C. discriminate C. }
    destruct (advance_char l Hok N) as [M P].
    pose proof (lexerMoved_charsLeft_lt _ _ M ltac:(lia)) as Hlt.
    destruct (bool_decide (currentChar l = backslash)
              && negb (bool_decide (peekChar 1 l = NUL))).
    + pose proof (advance_moved (advance l) ltac:(apply M)) as M2.
      pose proof (lexerMoved_charsLeft _ _ M2) as Hle.
      match goal with
      | |- context [readStringLoop k ?s (advance (advance l))] =>
          destruct (IH s (advance (advance l))) as (str' & l' & E & M' & C')
      end.
      * apply M2.
      * lia.
      * exists str', l'. split; [exact E |]. split; [| exact C'].
        eapply lexerMoved_trans; [exact M |]. eapply lexerMoved_trans; eassumption.
    + destruct (IH (str +:+ String (currentChar l) "") (advance l))
        as (str' & l' & E & M' & C').
      * apply M.
      * lia.
      * exists str', l'. split; [exact E |]. split; [| exact C'].
        eapply lexerMoved_trans; eassumption.
  - exists str, l. split; [reflexivity |]. split; [apply lexerMoved_refl, Hok | exact C].
Qed.

Lemma turnsLeft_charsLeft l : turnsLeft l = S (charsLeft l).
Proof. reflexivity. Qed.

Lemma skipWhitespace_spec l :
  lexerOk l ->
  exists l', skipWhitespace l = Some l' /\ lexerMoved l l' /\ isspace (currentChar l') = false.
Proof.
  intros Hok. unfold skipWhitespace.
  destruct (advanceWhile_spec isspace eq_refl (turnsLeft l) l Hok) as (l' & E & M & C & _).
  - rewrite turnsLeft_charsLeft. lia.
  - eauto.
Qed.

Lemma skipComment_spec l :
  lexerOk l ->
  exists l', skipComment l = Some l'
             /\ lexerMoved l l'
             /\ (currentChar l = "#"%char -> (pos l < pos l')%nat).
Proof.
  intros Hok. unfold skipComment.
  destruct (decide (currentChar l = "#"%char)) as [E|N].
  - destruct (advanceWhile_spec inComment eq_refl (turnsLeft l) l Hok) as (l1 & E1 & M1 & C1 & P1).
    { rewrite turnsLeft_charsLeft. lia. }
    change (advanceWhile (fun c => negb (bool_decide (c = "010"%char))
                                   && negb (bool_decide (c = NUL))) (turnsLeft l) l)
      with (advanceWhile inComment (turnsLeft l) l).
    rewrite E1. simpl.
    assert (Hlt : (pos l < pos l1)%nat) by (apply P1; rewrite E; reflexivity).
    eexists. split; [reflexivity |].
    destruct (decide (currentChar l1 = "010"%char)).
    + pose proof (advance_moved l1 ltac:(apply M1)) as M2.
      split; [eapply lexerMoved_trans; eassumption |].
      intros _. destruct M2 as (_ & P2 & _). lia.
    + split; [exact M1 | intros _; exact Hlt].
  - exists l. split; [reflexivity |]. split; [apply lexerMoved_refl, Hok | contradiction].
Qed.

(** [while (currentChar() == '#') { skipComment(); skipWhitespace(); }] *)
Lemma skipComments_spec :
  forall turns l,
    lexerOk l -> (charsLeft l < turns)%nat ->
    isspace (currentChar l) = false ->
    exists l', skipComments turns l = Some l'
               /\ lexerMoved l l'
               /\ currentChar l' <> "#"%char
               /\ isspace (currentChar l') = false.
Proof.
  induction turns as [|k IH]; intros l Hok Hf Hs; [lia |].
  cbn [skipComments]. destruct (decide (currentChar l = "#"%char)) as [E|N].
  - destruct (skipComment_spec l Hok) as (l1 & E1 & M1 & P1).
    destruct (skipWhitespace_spec l1 ltac:(apply M1)) as (l2 & E2 & M2 & C2).
    rewrite E1. simpl. rewrite E2. simpl.
    pose proof (lexerMoved_charsLeft_lt _ _ M1 (P1 E)).
    pose proof (lexerMoved_charsLeft _ _ M2).
    destruct (IH l2 ltac:(apply M2) ltac:(lia) C2) as (l' & E' & M' & C' & S').
    exists l'. split; [exact E' |]. split; [| split; assumption].
    eapply lexerMoved_trans; [exact M1 |]. eapply lexerMoved_trans; eassumption.
  - exists l. split; [reflexivity |]. split; [apply lexerMoved_refl, Hok |]. split; assumption.
Qed.

(** What [getNextToken] does before it looks at the character. *)
Lemma skip_spec l :
  lexerOk l ->
  exists l', (l1 ← skipWhitespace l; skipComments (turnsLeft l1) l1) = Some l'
             /\ lexerMoved l l'
             /\ currentChar l' <> "#"%char
             /\ isspace (currentChar l') = false.
Proof.
  intros Hok. destruct (skipWhitespace_spec l Hok) as (l1 & E1 & M1 & C1).
  rewrite E1. simpl.
  destruct (skipComments_spec (turnsLeft l1) l1 ltac:(apply M1)
              ltac:(rewrite turnsLeft_charsLeft; lia) C1) as (l' & E' & M' & C' & S').
  exists l'. split; [exact E' |]. split; [| split; assumption].
  eapply lexerMoved_trans; eassumption.
Qed.

End LexerFacts.

Section LexerTokens.
Import Lexer.

Lemma isWordChar_start (ch : ascii) :
  isalpha ch || bool_decide (ch = "_"%char) = true -> isWordChar ch = true.
Proof.
  unfold isWordChar, isalnum. intros H. apply orb_true_iff in H as [H|H]; rewrite H.
  - reflexivity.
  - now rewrite orb_true_r.
Qed.

Lemma readNumber_spec l :
  lexerOk l -> isdigit (currentChar l) = true ->
  lexed (tokenRead l) l (readNumber l).
Proof.
  intros Hok Hd. unfold readNumber.
  destruct (readWhile_spec isdigit eq_refl (turnsLeft l) "" l Hok) as (w & l' & E & M & A & P).
  { rewrite turnsLeft_charsLeft. lia. }
  rewrite E. change ("" +:+ w) with w. destruct (P Hd) as [Hw Hp].
  split; [exact M |]. split; [| intros _; exact Hp].
  split; [split; assumption |]. simpl. split; apply Hok.
Qed.

Lemma readIdentifier_spec l :
  lexerOk l -> isalpha (currentChar l) || bool_decide (currentChar l = "_"%char) = true ->
  lexed (tokenRead l) l (readIdentifier l).
Proof.
  intros Hok Hd. unfold readIdentifier.
  destruct (readWhile_spec isWordChar eq_refl (turnsLeft l) "" l Hok) as (w & l' & E & M & A & P).
  { rewrite turnsLeft_charsLeft. lia. }
  change (readWhile (fun c => isalnum c || bool_decide (c = "_"%char)
                              || bool_decide (c = "."%char)) (turnsLeft l) "" l)
    with (readWhile isWordChar (turnsLeft l) "" l).
  rewrite E. change ("" +:+ w) with w. destruct (P (isWordChar_start _ Hd)) as [Hw Hp].
  destruct (decide (w ∈ KEYWORDS)) as [K|K].
  - split; [exact M |]. split; [| intros _; exact Hp].
    split; [exact K |]. simpl. split; apply Hok.
  - split; [exact M |]. split; [| intros _; exact Hp].
    split; [repeat split; assumption |]. simpl. split; apply Hok.
Qed.

Lemma inString_false (c : ascii) : inString c = false -> c <> quote -> c = NUL.
Proof.
  unfold inString. intros H N.
  rewrite (bool_decide_eq_false_2 _ N) in H. simpl in H.
  apply negb_false_iff, bool_decide_eq_true in H. exact H.
Qed.

Lemma readString_spec l :
  lexerOk l -> currentChar l = quote ->
  lexed (tokenRead l) l (readString l).
Proof.
  intros Hok Hq. unfold readString.
  assert (N : currentChar l <> NUL) by (rewrite Hq; discriminate).
  destruct (advance_char l Hok N) as [M P].
  destruct (readStringLoop_spec (turnsLeft (advance l)) "" (advance l) ltac:(apply M))
    as (str & l2 & E & M2 & C).
  { rewrite turnsLeft_charsLeft. lia. }
  rewrite E. destruct (decide (currentChar l2 = quote)) as [Q|Q].
  - pose proof (advance_moved l2 ltac:(apply M2)) as M3.
    split; [eapply lexerMoved_trans; [exact M |]; eapply lexerMoved_trans; eassumption |].
    split.
    + split; [exact I |]. simpl. split; apply Hok.
    + intros _. destruct M2 as (_ & P2 & _), M3 as (_ & P3 & _). lia.
  - split; [right; split; [reflexivity | apply inString_false; assumption] |].
    split; apply M2.
Qed.

(** [getNextToken] returns a well-formed token and has moved past it,
    or throws one of the two exceptions; it always stops. *)
Lemma getNextToken_spec l :
  lexerOk l -> lexed (tokenRead l) l (getNextToken l).
Proof.
  intros Hok. unfold getNextToken.
  destruct (skip_spec l Hok) as (l0 & E & M & Hc & Hs). rewrite E. cbv zeta.
  assert (Hok0 : lexerOk l0) by apply M.
  assert (Step : forall tok l',
             lexed (tokenRead l0) l0 (Ok tok l') -> lexed (tokenRead l) l (Ok tok l')).
  { intros tok l' (M' & T & P). split; [eapply lexerMoved_trans; eassumption |].
    split; [exact T |]. intros Ht. specialize (P Ht). destruct M as (_ & P0 & _). lia. }
  assert (Lift : forall r, lexed (tokenRead l0) l0 r -> lexed (tokenRead l) l r).
  { intros [tok l'| |]; [apply Step | exact id | exact id]. }
  assert (One : forall ty v,
             currentChar l0 <> NUL -> ty <> END_OF_FILE \/ True ->
             wellLexed (Token.mk ty v (line l0) (column l0)) ->
             lexed (tokenRead l) l (Ok (Token.mk ty v (line l0) (column l0)) (advance l0))).
  { intros ty v N _ W. apply Step. destruct (advance_char l0 Hok0 N) as [M1 P1].
    split; [exact M1 |]. split; [| intros _; lia].
    split; [exact W |]. simpl. split; apply Hok0. }
  destruct (decide (currentChar l0 = NUL)) as [Z|Z].
  { split; [exact M |]. split; [| intros T; exfalso; apply T; reflexivity].
    split; [reflexivity |]. simpl. split; apply Hok0. }
  destruct (isdigit (currentChar l0)) eqn:D.
  { apply Lift, readNumber_spec; assumption. }
  destruct (isalpha (currentChar l0) || bool_decide (currentChar l0 = "_"%char)) eqn:A.
  { apply Lift, readIdentifier_spec; assumption. }
  destruct (decide (currentChar l0 = quote)) as [Q|Q].
  { apply Lift, readString_spec; assumption. }
  destruct (decide (currentChar l0 = "("%char)) as [P1|P1].
  { apply One; [exact Z | auto | reflexivity]. }
  destruct (decide (currentChar l0 = ")"%char)) as [P2|P2].
  { apply One; [exact Z | auto | reflexivity]. }
  destruct (decide (currentChar l0 = ","%char)) as [P3|P3].
  { apply One; [exact Z | auto | reflexivity]. }
  destruct (decide (currentChar l0 = "."%char)) as [P4|P4].
  { apply One; [exact Z | auto | reflexivity]. }
  destruct (isOperator (currentChar l0)) eqn:O.
  { apply One; [exact Z | auto |]. exists (currentChar l0). split; [exact O | reflexivity]. }
  split; [| split; apply Hok0].
  left. split; [reflexivity |].
  apply orb_false_iff in A as [A1 A2].
  unfold startsNoToken. rewrite Hs, D, A1, A2, O.
  rewrite !bool_decide_eq_false_2 by assumption. reflexivity.
Qed.

(** The loop of [tokenize]: the tokens read, then the end marker. *)
Lemma tokenizeLoop_spec :
  forall turns acc l,
    lexerOk l -> (charsLeft l < turns)%nat ->
    lexed (fun toks _ =>
             exists front last,
               toks = (acc ++ front ++ [last])%list
               /\ Forall (fun tok => lexedToken tok /\ Token.type tok <> END_OF_FILE) front
               /\ lexedToken last /\ Token.type last = END_OF_FILE)
          l (tokenizeLoop turns acc l).
Proof.
  induction turns as [|k IH]; intros acc l Hok Hf; [lia |].
  cbn [tokenizeLoop].
  pose proof (getNextToken_spec l Hok) as G.
  destruct (getNextToken l) as [tok l1| |]; [| exact G | exact G].
  destruct G as (M & T & P). cbv zeta.
  destruct (decide (Token.type tok = END_OF_FILE)) as [E|N].
  - split; [exact M |]. exists [], tok. repeat split; try apply T; auto.
  - specialize (P N). pose proof (lexerMoved_charsLeft_lt _ _ M P).
    specialize (IH (acc ++ [tok])%list l1 ltac:(apply M) ltac:(lia)).
    destruct (tokenizeLoop k (acc ++ [tok]) l1) as [toks l2| |]; [| exact IH | exact IH].
    destruct IH as (M2 & front & last & -> & F & L & Ty).
    split; [eapply lexerMoved_trans; eassumption |].
    exists (tok :: front), last. split; [now rewrite <- app_assoc |].
    split; [constructor; [split; assumption | exact F] |]. split; assumption.
Qed.

Lemma new_ok (code : string) : lexerOk (new code).
Proof. unfold lexerOk, new. simpl. lia. Qed.

Lemma tokenize_spec (code : string) :
  lexed (fun toks _ =>
           exists front last,
             toks = (front ++ [last])%list
             /\ Forall (fun tok => lexedToken tok /\ Token.type tok <> END_OF_FILE) front
             /\ lexedToken last /\ Token.type last = END_OF_FILE)
        (new code) (tokenize (new code)).
Proof.
  unfold tokenize.
  apply (tokenizeLoop_spec (turnsLeft (new code)) [] (new code) (new_ok code)).
  rewrite turnsLeft_charsLeft. lia.
Qed.

End LexerTokens.

(** X1.  [Lexer::tokenize] stops on every source text: it returns the
    token vector, or throws a [LexerException].  The exception is one
    of two: [Invalid character], carrying a character that starts no
    token, or [Unterminated string literal], which always carries the
    character ['\0']; its line and column are at least 1. *)
Theorem tokenize_returns_or_throws (code : string) :
  (exists tokens l, Lexer.tokenize (Lexer.new code) = Lexer.Ok tokens l)
  \/ (exists message line column invalidChar,
         Lexer.tokenize (Lexer.new code) = Lexer.Throw message line column invalidChar
         /\ lexerError message invalidChar /\ 1 <= line /\ 1 <= column).
Proof.
  pose proof (tokenize_spec code) as H.
  destruct (Lexer.tokenize (Lexer.new code)) as [toks l|m ln col ch|].
  - left. eauto.
  - right. exists m, ln, col, ch. split; [reflexivity | exact H].
  - destruct H.
Qed.

Lemma tokens_of_run (code : string) (tokens : list Token.t) :
  Lexer.run code = Some tokens -> Forall lexedToken tokens.
Proof.
  unfold Lexer.run. pose proof (tokenize_spec code) as H.
  destruct (Lexer.tokenize (Lexer.new code)) as [toks l| |]; [| discriminate ..].
  intros [= <-]. destruct H as (_ & front & last & -> & F & L & _).
  apply Forall_app. split.
  - eapply Forall_impl; [exact F |]. intros tok [T _]. exact T.
  - constructor; [exact L | constructor].
Qed.

(** X2.  A token vector that [tokenize] returns is never empty: its last
    token is the end marker, of type [END_OF_FILE] and text [EOF], and
    no token before it has that type. *)
Theorem tokens_end_with_eof (code : string) (tokens : list Token.t) :
  Lexer.run code = Some tokens ->
  exists front last,
    tokens = (front ++ [last])%list
    /\ Token.type last = END_OF_FILE /\ Token.value last = "EOF"
    /\ Forall (fun tok => Token.type tok <> END_OF_FILE) front.
Proof.
  unfold Lexer.run. pose proof (tokenize_spec code) as H.
  destruct (Lexer.tokenize (Lexer.new code)) as [toks l| |]; [| discriminate ..].
  intros [= <-]. destruct H as (_ & front & last & -> & F & (W & _) & Ty).
  exists front, last. split; [reflexivity |]. split; [exact Ty |]. split.
  - unfold wellLexed in W. rewrite Ty in W. exact W.
  - eapply Forall_impl; [exact F |]. intros tok [_ N]. exact N.
Qed.

Lemma tokens_end_with_eof_witness :
  exists front last,
    repeatZero = (front ++ [last])%list
    /\ Token.type last = END_OF_FILE /\ Token.value last = "EOF"
    /\ Forall (fun tok => Token.type tok <> END_OF_FILE) front.
Proof.
  apply (tokens_end_with_eof repeatZeroText repeatZero). vm_compute. reflexivity.
Defined.

(** X3.  In a token vector that [tokenize] returns the text of every
    token fits its type: a [NUMBER] is a non-empty string of digits, a
    [KEYWORD] is one of [KEYWORDS], an [IDENTIFIER] is a non-empty word
    that is not one of them, an [OPERATOR] is one operator character,
    the punctuation tokens and the end marker have their fixed texts;
    and every token stands at a line and a column counted from 1. *)
Theorem tokens_well_lexed (code : string) (tokens : list Token.t) :
  Lexer.run code = Some tokens -> Forall lexedToken tokens.
Proof. apply tokens_of_run. Qed.

Lemma tokens_well_lexed_witness : Forall lexedToken motorLeft.
Proof.
  apply (tokens_well_lexed motorLeftText motorLeft). vm_compute. reflexivity.
Defined.

Section LexerErrors.
Import Lexer.

Lemma skip_nothing l :
  isspace (currentChar l) = false -> currentChar l <> "#"%char ->
  (l1 ← skipWhitespace l; skipComments (turnsLeft l1) l1) = Some l.
Proof.
  intros Hs Hc. unfold skipWhitespace. rewrite turnsLeft_charsLeft.
  cbn [advanceWhile]. rewrite Hs. cbn [mbind option_bind].
  rewrite turnsLeft_charsLeft. cbn [skipComments].
  destruct (decide (currentChar l = "#"%char)); [contradiction | reflexivity].
Qed.

Lemma startsNoToken_inv (c : ascii) :
  startsNoToken c = true ->
  isspace c = false /\ c <> "#"%char /\ c <> NUL /\ isdigit c = false
  /\ isalpha c || bool_decide (c = "_"%char) = false /\ c <> quote
  /\ c <> "("%char /\ c <> ")"%char /\ c <> ","%char /\ c <> "."%char
  /\ isOperator c = false.
Proof.
  unfold startsNoToken. intros H.
  repeat (apply andb_true_iff in H as [H ?]).
  repeat match goal with
         | H : negb _ = true |- _ => apply negb_true_iff in H
         | H : bool_decide _ = false |- _ => apply bool_decide_eq_false in H
         end.
  repeat split; try assumption.
  apply orb_false_iff. split; [assumption | now apply bool_decide_eq_false].
Qed.

(** [getNextToken] in front of a character that starts no token. *)
Lemma getNextToken_invalid l :
  startsNoToken (currentChar l) = true ->
  getNextToken l = Throw "Invalid character" (line l) (column l) (currentChar l).
Proof.
  intros H. apply startsNoToken_inv in H
    as (Hs & Hc & Hn & Hd & Ha & Hq & P1 & P2 & P3 & P4 & Ho).
  unfold getNextToken. rewrite (skip_nothing l Hs Hc). cbv zeta.
  destruct (decide (currentChar l = NUL)); [contradiction |].
  rewrite Hd, Ha.
  destruct (decide (currentChar l = quote)); [contradiction |].
  destruct (decide (currentChar l = "("%char)); [contradiction |].
  destruct (decide (currentChar l = ")"%char)); [contradiction |].
  destruct (decide (currentChar l = ","%char)); [contradiction |].
  destruct (decide (currentChar l = "."%char)); [contradiction |].
  rewrite Ho. reflexivity.
Qed.

Lemma allChars_get (f : ascii -> bool) (s : string) (n : nat) (c : ascii) :
  allChars f s = true -> String.get n s = Some c -> f c = true.
Proof.
  revert n. induction s as [|x s IH]; intros n A G; [discriminate |].
  simpl in A. apply andb_true_iff in A as [A1 A2].
  destruct n as [|n]; simpl in G; [congruence | eauto].
Qed.

Lemma currentChar_cases l :
  currentChar l = NUL \/ String.get (pos l) (source l) = Some (currentChar l).
Proof.
  unfold currentChar. destruct (String.get (pos l) (source l)); simpl; auto.
Qed.

End LexerErrors.

(** X4.  A character that starts no token, and is neither white space
    nor the start of a comment, makes [getNextToken] throw the
    [LexerException] [Invalid character] with the line, the column and
    the character where the lexer stands; at the front of a source text
    that is line 1, column 1, and [tokenize] throws it whatever follows. *)
Theorem invalid_character_rejected :
  (forall l,
      startsNoToken (Lexer.currentChar l) = true ->
      Lexer.getNextToken l
      = Lexer.Throw "Invalid character" (Lexer.line l) (Lexer.column l) (Lexer.currentChar l))
  /\ (forall c rest,
         startsNoToken c = true ->
         Lexer.tokenize (Lexer.new (String c rest)) = Lexer.Throw "Invalid character" 1 1 c).
Proof.
  split; [exact getNextToken_invalid |].
  intros c rest H. unfold Lexer.tokenize. rewrite turnsLeft_charsLeft.
  cbn [Lexer.tokenizeLoop]. rewrite getNextToken_invalid by exact H. reflexivity.
Qed.

Lemma invalid_character_rejected_witness :
  Lexer.tokenize (Lexer.new "@ MOVE forward 10")
  = Lexer.Throw "Invalid character" 1 1 "@"%char.
Proof.
  destruct invalid_character_rejected as [_ H].
  apply (H "@"%char " MOVE forward 10"). reflexivity.
Defined.

(** X5.  A source text that opens a string literal and holds no second
    double quote is rejected: [tokenize] throws [Unterminated string
    literal], carrying the character ['\0']. *)
Theorem unterminated_string_rejected (s : string) :
  noQuote s = true ->
  exists line column,
    Lexer.tokenize (Lexer.new (String Lexer.quote s))
    = Lexer.Throw "Unterminated string literal" line column Lexer.NUL.
Proof.
  intros H. set (src := String Lexer.quote s).
  set (l0 := Lexer.new src).
  assert (Hok : lexerOk l0) by apply new_ok.
  assert (Hq : Lexer.currentChar l0 = Lexer.quote) by reflexivity.
  unfold Lexer.tokenize. rewrite turnsLeft_charsLeft. cbn [Lexer.tokenizeLoop].
  unfold Lexer.getNextToken. rewrite skip_nothing by (rewrite Hq; first [reflexivity | discriminate]).
  cbv zeta. rewrite Hq.
  destruct (decide (Lexer.quote = Lexer.NUL)); [discriminate |].
  change (isdigit Lexer.quote) with false.
  change (Lexer.isalpha Lexer.quote || bool_decide (Lexer.quote = "_"%char)) with false.
  cbv iota.
  destruct (decide (Lexer.quote = Lexer.quote)); [| contradiction].
  unfold Lexer.readString.
  assert (N : Lexer.currentChar l0 <> Lexer.NUL) by (rewrite Hq; discriminate).
  destruct (advance_char l0 Hok N) as [M P].
  destruct (readStringLoop_spec (Lexer.turnsLeft (Lexer.advance l0)) "" (Lexer.advance l0)
              ltac:(apply M) ltac:(rewrite turnsLeft_charsLeft; lia))
    as (str & l2 & E & M2 & C).
  rewrite E.
  assert (Q : Lexer.currentChar l2 <> Lexer.quote).
  { destruct (currentChar_cases l2) as [Z|G]; [rewrite Z; discriminate |].
    destruct M2 as (S2 & P2 & _). rewrite S2 in G.
    change (Lexer.source (Lexer.advance l0)) with src in G.
    assert (Lexer.pos l2 = S (Nat.pred (Lexer.pos l2))) as Hp by lia.
    rewrite Hp in G. simpl in G.
    pose proof (allChars_get _ _ _ _ H G) as F.
    apply negb_true_iff, bool_decide_eq_false in F. exact F. }
  destruct (decide (Lexer.currentChar l2 = Lexer.quote)); [contradiction |].
  rewrite (inString_false _ C Q). eauto.
Qed.

Lemma unterminated_string_rejected_witness :
  exists line column,
    Lexer.tokenize (Lexer.new (String Lexer.quote "Task complete"))
    = Lexer.Throw "Unterminated string literal" line column Lexer.NUL.
Proof.
  apply (unterminated_string_rejected "Task complete"). reflexivity.
Defined.

(** X6.  A source text of white space only, the empty text included,
    gives the end marker alone. *)
Theorem blank_source_lexes_to_eof (s : string) :
  allChars isspace s = true ->
  exists line column,
    Lexer.run s = Some [Token.mk END_OF_FILE "EOF" line column].
Proof.
  intros H. set (l0 := Lexer.new s).
  destruct (skip_spec l0 (new_ok s)) as (l1 & E & M & Hc & Hs).
  assert (Z : Lexer.currentChar l1 = Lexer.NUL).
  { destruct (currentChar_cases l1) as [Z|G]; [exact Z |].
    destruct M as (S1 & _). rewrite S1 in G. change (Lexer.source l0) with s in G.
    pose proof (allChars_get _ _ _ _ H G). congruence. }
  unfold Lexer.run, Lexer.tokenize. fold l0. rewrite turnsLeft_charsLeft.
  cbn [Lexer.tokenizeLoop]. unfold Lexer.getNextToken. rewrite E. cbv zeta.
  destruct (decide (Lexer.currentChar l1 = Lexer.NUL)); [| contradiction].
  simpl. eauto.
Qed.

Lemma blank_source_lexes_to_eof_witness :
  exists line column,
    Lexer.run "  " = Some [Token.mk END_OF_FILE "EOF" line column].
Proof.
  apply (blank_source_lexes_to_eof "  "). reflexivity.
Defined.

(** ===================================================================== *)
(** * The token parser: what a parsed program looks like                  *)
(** ===================================================================== *)

Lemma stoi_in_int (s : string) (z : Z) : Cpp.stoi s = Some z -> in_int z = true.
Proof.
  unfold Cpp.stoi.
  destruct (match skip_spaces s with
            | String "-" tl => (true, tl)
            | String "+" tl => (false, tl)
            | _ => (false, skip_spaces s)
            end) as [neg rest].
  destruct (starts_with_digit rest); [| discriminate].
  destruct (in_int _) eqn:E; [| discriminate]. intros [= <-]. exact E.
Qed.

Lemma in_int_range (z : Z) : in_int z = true <-> INT_MIN <= z <= INT_MAX.
Proof.
  unfold in_int. rewrite andb_true_iff, !Z.leb_le. reflexivity.
Qed.

Lemma either_decide (x a b : string) :
  ~ (x <> a /\ x <> b) -> bool_decide (x = a) || bool_decide (x = b) = true.
Proof.
  intros N. destruct (decide (x = a)) as [->|Na].
  - rewrite bool_decide_eq_true_2 by reflexivity. reflexivity.
  - destruct (decide (x = b)) as [->|Nb]; [| exfalso; auto].
    rewrite (bool_decide_eq_true_2 (b = b)) by reflexivity. apply orb_true_r.
Qed.

Lemma either_decide_inv (x a b : string) :
  bool_decide (x = a) || bool_decide (x = b) = true -> x = a \/ x = b.
Proof.
  intros H. apply orb_true_iff in H as [H|H]; apply bool_decide_eq_true in H; auto.
Qed.

Section ParserWellFormed.
Import Parser.

Ltac wf_leaf :=
  parser_inv; cbn [wellFormed];
  repeat match goal with
    | H : Cpp.stoi _ = Some _ |- _ => apply stoi_in_int in H
    end;
  try reflexivity; try assumption.

Lemma parseMoveStatement_wf p s p' :
  parseMoveStatement p = Ok s p' -> wellFormed s = true.
Proof.
  unfold parseMoveStatement. intros H. wf_leaf.
  rewrite either_decide by assumption.
  apply in_int_range in Z. unfold INT_MAX in *.
  apply andb_true_iff. split; [apply Z.leb_le; lia | apply Z.leb_le; lia].
Qed.

Lemma parseTurnStatement_wf p s p' :
  parseTurnStatement p = Ok s p' -> wellFormed s = true.
Proof.
  unfold parseTurnStatement. intros H. wf_leaf.
  rewrite either_decide by assumption. exact Z.
Qed.

Lemma parseLEDStatement_wf p s p' :
  parseLEDStatement p = Ok s p' -> wellFormed s = true.
Proof.
  unfold parseLEDStatement. intros H. wf_leaf. apply either_decide. assumption.
Qed.

Lemma parseMotorStatement_wf p s p' :
  parseMotorStatement p = Ok s p' -> wellFormed s = true.
Proof.
  unfold parseMotorStatement. intros H. wf_leaf.
  apply andb_true_iff. split; apply Z.leb_le; lia.
Qed.

Lemma parseRobotDeclaration_wf p s p' :
  parseRobotDeclaration p = Ok s p' -> wellFormed s = true.
Proof. unfold parseRobotDeclaration. intros H. wf_leaf. Qed.

Lemma parseStopStatement_wf p s p' :
  parseStopStatement p = Ok s p' -> wellFormed s = true.
Proof. unfold parseStopStatement. intros H. wf_leaf. Qed.

Lemma parseServoStatement_wf p s p' :
  parseServoStatement p = Ok s p' -> wellFormed s = true.
Proof. unfold parseServoStatement. intros H. wf_leaf. Qed.

Lemma parseWaitStatement_wf p s p' :
  parseWaitStatement p = Ok s p' -> wellFormed s = true.
Proof. unfold parseWaitStatement. intros H. wf_leaf. Qed.

Lemma parseCallStatement_wf p s p' :
  parseCallStatement p = Ok s p' -> wellFormed s = true.
Proof. unfold parseCallStatement. intros H. wf_leaf. Qed.

Lemma parseSendStatement_wf p s p' :
  parseSendStatement p = Ok s p' -> wellFormed s = true.
Proof. unfold parseSendStatement. intros H. wf_leaf. Qed.

Section WithBlockWf.
Variable parseBlock : string -> M (list Statement).
Hypothesis parseBlock_wf :
  forall terminator p stmts p',
    parseBlock terminator p = Ok stmts p' -> forallb wellFormed stmts = true.

Lemma parseIfStatement_wf p s p' :
  parseIfStatement parseBlock p = Ok s p' -> wellFormed s = true.
Proof.
  unfold parseIfStatement. intros H. parser_inv.
  match goal with
  | H : (if check "ELSE" ?q then _ else _) = _ |- _ => destruct (check "ELSE" q)
  end; parser_inv; cbn [wellFormed];
    repeat match goal with
      | H : parseBlock _ _ = Ok _ _ |- _ => apply parseBlock_wf in H; rewrite H
      end; reflexivity.
Qed.

Lemma parseWhileStatement_wf p s p' :
  parseWhileStatement parseBlock p = Ok s p' -> wellFormed s = true.
Proof.
  unfold parseWhileStatement. intros H. parser_inv. cbn [wellFormed]. eauto.
Qed.

Lemma parseRepeatStatement_wf p s p' :
  parseRepeatStatement parseBlock p = Ok s p' -> wellFormed s = true.
Proof.
  unfold parseRepeatStatement. intros H. parser_inv. cbn [wellFormed].
  apply stoi_in_int in Z. rewrite Z. simpl. eauto.
Qed.

Lemma parseFunctionDef_wf p s p' :
  parseFunctionDef parseBlock p = Ok s p' -> wellFormed s = true.
Proof.
  unfold parseFunctionDef. intros H. parser_inv.
  match goal with H : Ok _ _ = Ok _ _ |- _ => injection H as _ <- end.
  cbn [wellFormed]. eauto.
Qed.

Lemma dispatch_wf token p s p' :
  dispatch parseBlock token p = Ok (Some s) p' -> wellFormed s = true.
Proof.
  intros H. unfold dispatch in H.
  repeat match type of H with
         | (if check ?v p then _ else _) = _ =>
             destruct (check v p) eqn:?; cbv iota in H
         end;
    try discriminate;
    parser_inv; unfold ret in *;
    try match goal with
      | H : Ok _ _ = Ok _ _ |- _ => injection H as ? ?; subst
      end;
    try discriminate;
    eauto using parseRobotDeclaration_wf, parseMoveStatement_wf,
      parseTurnStatement_wf, parseStopStatement_wf, parseLEDStatement_wf,
      parseServoStatement_wf, parseMotorStatement_wf, parseWaitStatement_wf,
      parseCallStatement_wf, parseSendStatement_wf,
      parseIfStatement_wf, parseWhileStatement_wf,
      parseRepeatStatement_wf, parseFunctionDef_wf.
Qed.

Lemma parseStatementWith_wf p s p' :
  parseStatementWith parseBlock p = Ok (Some s) p' -> wellFormed s = true.
Proof.
  unfold parseStatementWith.
  destruct (decide (Token.type (peek p) = END_OF_FILE)); [discriminate |].
  destruct (check "END" p); [discriminate |].
  destruct (dispatch parseBlock (peek p) p) as [r0 p0| |] eqn:D; [| discriminate ..].
  intros [= -> <-]. eapply dispatch_wf, D.
Qed.
End WithBlockWf.

Lemma blockLoop_wf (ps : M (option Statement)) :
  (forall p s p', ps p = Ok (Some s) p' -> wellFormed s = true) ->
  forall turns terminator acc p stmts p',
    blockLoop ps turns terminator acc p = Ok stmts p' ->
    forallb wellFormed acc = true -> forallb wellFormed stmts = true.
Proof.
  intros Hps. induction turns as [|k IH]; intros terminator acc p stmts p' H Hacc;
    [discriminate |].
  simpl in H.
  destruct (blockContinues terminator p); [| injection H as <- <-; exact Hacc].
  destruct (check "END" p || check "ELSE" p || check "DO" p);
    [injection H as <- <-; exact Hacc |].
  destruct (ps p) as [[s|] q| |] eqn:E; [| | discriminate ..].
  - apply Hps in E. apply IH in H; [exact H |].
    rewrite forallb_app, Hacc. simpl. rewrite E. reflexivity.
  - destruct (blockContinues terminator q).
    + injection H as <- <-. exact Hacc.
    + apply IH in H; assumption.
Qed.

Lemma parseStatement_wf fuel p s p' :
  parseStatement fuel p = Ok (Some s) p' -> wellFormed s = true.
Proof.
  revert p s p'. induction fuel as [|n IH]; intros p s p'; [discriminate |].
  simpl. apply parseStatementWith_wf.
  intros terminator q stmts q' H.
  apply (blockLoop_wf _ IH) in H; [exact H | reflexivity].
Qed.

Lemma programLoop_wf fuel turns acc p stmts p' :
  programLoop fuel turns acc p = Ok stmts p' ->
  forallb wellFormed acc = true -> forallb wellFormed stmts = true.
Proof.
  revert acc p. induction turns as [|k IH]; intros acc p H Hacc; [discriminate |].
  simpl in H.
  destruct (programContinues p); [| injection H as <- <-; exact Hacc].
  destruct (parseStatement fuel p) as [[s|] q| |] eqn:E; [| | discriminate ..].
  - apply parseStatement_wf in E. apply IH in H; [exact H |].
    rewrite forallb_app, Hacc. simpl. rewrite E. reflexivity.
  - apply IH in H; assumption.
Qed.

Lemma run_wf ord toks program p :
  run ord toks = Ok program p -> forallb wellFormed (statements program) = true.
Proof.
  intros H. apply run_Ok_parseProgram in H.
  unfold parseProgram in H. parser_inv.
  apply programLoop_wf in E; [| reflexivity].
  destruct (check "END" q); parser_inv;
    repeat match goal with
      | H : Ok _ _ = Ok _ _ |- _ => injection H as ? ?; subst
      end; exact E.
Qed.

End ParserWellFormed.

Lemma wellFormed_valid (stmt : Statement) : wellFormed stmt = true -> validNode stmt.
Proof.
  destruct stmt; cbn [wellFormed validNode]; intros H; try exact I;
    try discriminate;
    repeat match goal with
      | H : _ && _ = true |- _ => apply andb_true_iff in H as [? ?]
      | H : in_int _ = true |- _ => apply in_int_range in H
      | H : bool_decide _ || bool_decide _ = true |- _ => apply either_decide_inv in H
      | H : (_ <=? _) = true |- _ => apply Z.leb_le in H
      end; auto.
Qed.

Lemma wellFormed_occurs (stmt x : Statement) :
  wellFormed stmt = true -> occursIn x stmt -> wellFormed x = true.
Proof.
  intros H O. induction O as [|c th el s I O IH|c th el s I O IH|c body s I O IH
                              |n body s I O IH|f body s I O IH].
  - exact H.
  - apply IH. cbn [wellFormed] in H. apply andb_true_iff in H as [H _].
    eapply forallb_In; eassumption.
  - apply IH. cbn [wellFormed] in H. apply andb_true_iff in H as [_ H].
    eapply forallb_In; eassumption.
  - apply IH. cbn [wellFormed] in H. eapply forallb_In; eassumption.
  - apply IH. cbn [wellFormed] in H. apply andb_true_iff in H as [_ H].
    eapply forallb_In; eassumption.
  - apply IH. cbn [wellFormed] in H. eapply forallb_In; eassumption.
Qed.

(** X7.  Every node of a program that [Parser::parse] returns, at any
    nesting depth, passed the checks of its rule: no statement slot is
    null, a [Move] goes [forward] or [backward] over a distance that is
    not negative, a [Turn] goes [left] or [right], an [LED] is [on] or
    [off], a motor speed is in [0,100], and every integer field is an
    [int]. *)
Theorem parsed_nodes_valid
        (ord : UnorderedSetOrder) (toks : list Token.t) (program : Program) (p : Parser.t) :
  Parser.run ord toks = Parser.Ok program p ->
  forall x, occursInProgram x program -> validNode x.
Proof.
  intros H x (s & I & O). apply wellFormed_valid.
  eapply wellFormed_occurs; [| exact O].
  eapply forallb_In; [| exact I]. eapply run_wf, H.
Qed.

Lemma parsed_nodes_valid_witness :
  validNode (MotorStatement "left" 75).
Proof.
  apply (parsed_nodes_valid elementsOrder motorLeft (mkProgram [MotorStatement "left" 75])
           (Parser.mk motorLeft 5 ∅ ∅)).
  - vm_compute. reflexivity.
  - exists (MotorStatement "left" 75). split; [left; reflexivity | constructor].
Defined.

(** ===================================================================== *)
(** * The token parser: errors and edges                                  *)
(** ===================================================================== *)

Section ParserEdges.
Import Parser.

Lemma check_lookup p tok v :
  tokens p !! pos p = Some tok -> check v p = bool_decide (Token.value tok = v).
Proof. intros L. unfold check. rewrite (peek_lookup _ _ L). reflexivity. Qed.

Lemma check_false p tok v :
  tokens p !! pos p = Some tok -> Token.value tok <> v -> check v p = false.
Proof.
  intros L N. rewrite (check_lookup _ _ _ L). apply bool_decide_eq_false_2, N.
Qed.

Lemma check_true p tok v :
  tokens p !! pos p = Some tok -> Token.value tok = v -> check v p = true.
Proof.
  intros L E. rewrite (check_lookup _ _ _ L). apply bool_decide_eq_true_2, E.
Qed.

(** The statement rule in front of a token that starts no statement. *)
Lemma parseStatement_unknown fuel p tok :
  tokens p !! pos p = Some tok ->
  Token.type tok <> END_OF_FILE ->
  Token.value tok ∉ statementKeywords ->
  Token.value tok <> "END" ->
  parseStatement (S fuel) p
  = Throw (ParserException "Unknown statement type" (Token.line tok) (Token.column tok)
                           "Valid statement keyword" (Token.value tok)).
Proof.
  intros L Ty K E. cbn [parseStatement]. unfold parseStatementWith.
  rewrite (peek_lookup _ _ L).
  destruct (decide (Token.type tok = END_OF_FILE)); [contradiction |].
  rewrite (check_false _ _ _ L E).
  unfold statementKeywords in K.
  repeat (apply not_elem_of_cons in K as [? K]).
  unfold dispatch.
  rewrite !(check_false _ _ _ L) by assumption. reflexivity.
Qed.

Lemma programContinues_lookup p tok :
  tokens p !! pos p = Some tok ->
  programContinues p
  = negb (bool_decide (Token.value tok = "EOF"))
    && negb (bool_decide (Token.type tok = END_OF_FILE))
    && negb (bool_decide (Token.value tok = "END")).
Proof.
  intros L. unfold programContinues.
  rewrite !(check_lookup _ _ _ L), (peek_lookup _ _ L). reflexivity.
Qed.

Lemma semanticAnalysis_no_calls ord program p :
  calledFunctions p = ∅ -> semanticAnalysis ord program p = Ok tt p.
Proof.
  intros E. unfold semanticAnalysis. rewrite E, iterate_empty. reflexivity.
Qed.

End ParserEdges.

(** X8.  A token that is not the end marker and whose text is none of
    the fourteen statement keywords, nor [END], starts no statement:
    [parseStatement] throws the [ParserException] [Unknown statement
    type] with the line, the column and the text of that token; at the
    front of the token vector [parse] throws it, whatever follows. *)
Theorem unknown_statement_rejected :
  (forall fuel p tok,
      Parser.tokens p !! Parser.pos p = Some tok ->
      Token.type tok <> END_OF_FILE ->
      Token.value tok ∉ statementKeywords ->
      Token.value tok <> "END" ->
      Parser.parseStatement (S fuel) p
      = Parser.Throw (ParserException "Unknown statement type" (Token.line tok)
                                      (Token.column tok) "Valid statement keyword"
                                      (Token.value tok)))
  /\ (forall ord tok rest,
         Token.type tok <> END_OF_FILE ->
         Token.value tok ∉ statementKeywords ->
         Token.value tok <> "END" ->
         Token.value tok <> "EOF" ->
         Parser.run ord (tok :: rest)
         = Parser.Throw (ParserException "Unknown statement type" (Token.line tok)
                                         (Token.column tok) "Valid statement keyword"
                                         (Token.value tok))).
Proof.
  split; [exact parseStatement_unknown |].
  intros ord tok rest Ty K E F.
  assert (L : Parser.tokens (Parser.new (tok :: rest)) !! Parser.pos (Parser.new (tok :: rest))
              = Some tok) by reflexivity.
  unfold Parser.run, Parser.parse, Parser.parseProgram, Parser.bind, Parser.fuelFor.
  cbn [length]. cbn [Parser.programLoop].
  rewrite (programContinues_lookup _ _ L).
  rewrite !bool_decide_eq_false_2 by assumption. cbn [negb andb].
  rewrite (parseStatement_unknown _ _ _ L Ty K E). reflexivity.
Qed.

Lemma unknown_statement_rejected_witness :
  Parser.run elementsOrder [identifier "JUMP" 1 1; number "5" 1 6; endOfFile 1 7]
  = Parser.Throw (ParserException "Unknown statement type" 1 1 "Valid statement keyword" "JUMP").
Proof.
  destruct unknown_statement_rejected as [_ H].
  apply (H elementsOrder (identifier "JUMP" 1 1) [number "5" 1 6; endOfFile 1 7]).
  - discriminate.
  - unfold statementKeywords. intros I.
    repeat (apply elem_of_cons in I as [I|I]; [discriminate I |]).
    apply elem_of_nil in I. exact I.
  - discriminate.
  - discriminate.
Defined.

Lemma run_stops ord toks :
  Parser.programContinues (Parser.new toks) = false ->
  Parser.check "END" (Parser.new toks) = false ->
  Parser.run ord toks = Parser.Ok (mkProgram []) (Parser.new toks).
Proof.
  intros C E.
  unfold Parser.run, Parser.parse, Parser.parseProgram, Parser.bind, Parser.fuelFor.
  cbn [Parser.programLoop]. rewrite C, E. unfold Parser.ret at 1 2.
  rewrite semanticAnalysis_no_calls by reflexivity. reflexivity.
Qed.

(** X9.  [parse] reads no further than a top-level end: when the first
    token is the end marker, or any token with the text [EOF], it
    returns the empty program without consuming anything; when the first
    token has the text [END], it consumes that token and returns the
    empty program.  The tokens that follow are not looked at; an empty
    token vector gives the empty program as well. *)
Theorem parse_stops_at_first_end (ord : UnorderedSetOrder) :
  Parser.run ord [] = Parser.Ok (mkProgram []) (Parser.new [])
  /\ (forall tok rest,
         Token.type tok = END_OF_FILE \/ Token.value tok = "EOF" ->
         Token.value tok <> "END" ->
         Parser.run ord (tok :: rest) = Parser.Ok (mkProgram []) (Parser.new (tok :: rest)))
  /\ (forall tok rest,
         Token.value tok = "END" ->
         Parser.run ord (tok :: rest)
         = Parser.Ok (mkProgram []) (Parser.set_pos 1 (Parser.new (tok :: rest)))).
Proof.
  split; [| split].
  - apply run_stops; reflexivity.
  - intros tok rest H N.
    assert (L : Parser.tokens (Parser.new (tok :: rest))
                !! Parser.pos (Parser.new (tok :: rest)) = Some tok) by reflexivity.
    apply run_stops; [| apply (check_false _ _ _ L N)].
    rewrite (programContinues_lookup _ _ L). destruct H as [H|H].
    + rewrite (bool_decide_eq_true_2 _ H). cbn [negb]. now rewrite andb_false_r.
    + rewrite (bool_decide_eq_true_2 _ H). reflexivity.
  - intros tok rest V.
    assert (L : Parser.tokens (Parser.new (tok :: rest))
                !! Parser.pos (Parser.new (tok :: rest)) = Some tok) by reflexivity.
    unfold Parser.run, Parser.parse, Parser.parseProgram, Parser.bind, Parser.fuelFor.
    cbn [length]. cbn [Parser.programLoop].
    rewrite (programContinues_lookup _ _ L).
    rewrite (bool_decide_eq_true_2 _ V), andb_false_r.
    rewrite (check_true _ _ _ L V).
    rewrite (consumeExpected_lookup _ _ _ L V). unfold Parser.ret at 1 2.
    rewrite semanticAnalysis_no_calls by reflexivity. reflexivity.
Qed.

Lemma parse_stops_at_first_end_witness :
  Parser.run elementsOrder [identifier "EOF" 1 1; keyword "STOP" 2 1; endOfFile 2 5]
  = Parser.Ok (mkProgram [])
              (Parser.new [identifier "EOF" 1 1; keyword "STOP" 2 1; endOfFile 2 5])
  /\ Parser.run elementsOrder [keyword "END" 1 1; keyword "STOP" 2 1; endOfFile 2 5]
     = Parser.Ok (mkProgram [])
                 (Parser.set_pos 1
                    (Parser.new [keyword "END" 1 1; keyword "STOP" 2 1; endOfFile 2 5])).
Proof.
  destruct (parse_stops_at_first_end elementsOrder) as (_ & H1 & H2). split.
  - apply (H1 (identifier "EOF" 1 1) [keyword "STOP" 2 1; endOfFile 2 5]).
    + right. reflexivity.
    + discriminate.
  - apply (H2 (keyword "END" 1 1) [keyword "STOP" 2 1; endOfFile 2 5]). reflexivity.
Defined.

(** X10.  A [NUMBER] token that [std::stoi] cannot convert makes the
    statement rule throw a [ParserException], not a standard exception:
    [parseStatement] catches it and rethrows [Error parsing statement:]
    followed by the text of the standard exception, located at the first
    token of the statement, with that token's text as what was found. *)
Theorem stoi_failure_is_wrapped
        (ord : UnorderedSetOrder) (waitTok numTok : Token.t) (rest : list Token.t) :
  Token.value waitTok = "WAIT" ->
  Token.type waitTok <> END_OF_FILE ->
  Token.type numTok = NUMBER ->
  Cpp.stoi (Token.value numTok) = None ->
  exists what,
    Parser.run ord (waitTok :: numTok :: rest)
    = Parser.Throw
        (ParserException ("Error parsing statement: " +:+ what) (Token.line waitTok)
                         (Token.column waitTok) "Valid statement" "WAIT").
Proof.
  intros V Ty Tn Z. exists "stoi".
  set (toks := waitTok :: numTok :: rest). set (p0 := Parser.new toks).
  assert (L : Parser.tokens p0 !! Parser.pos p0 = Some waitTok) by reflexivity.
  assert (D : forall fuel, Parser.parseStatement (S fuel) p0
              = Parser.Throw
                  (ParserException ("Error parsing statement: " +:+ "stoi")
                     (Token.line waitTok) (Token.column waitTok) "Valid statement" "WAIT")).
  { intros fuel. cbn [Parser.parseStatement]. unfold Parser.parseStatementWith.
    rewrite (peek_lookup _ _ L).
    destruct (decide (Token.type waitTok = END_OF_FILE)); [contradiction |].
    rewrite (check_lookup _ _ _ L), V. cbn [bool_decide decide_rel].
    rewrite (bool_decide_eq_false_2 ("WAIT" = "END")) by discriminate.
    unfold Parser.dispatch. rewrite !(check_lookup _ _ _ L), V.
    repeat (rewrite (bool_decide_eq_false_2 ("WAIT" = _)) by discriminate).
    rewrite (bool_decide_eq_true_2 ("WAIT" = "WAIT")) by reflexivity.
    unfold Parser.parseWaitStatement.
    unfold Parser.bind at 1. unfold Parser.bind at 1.
    rewrite (consumeExpected_lookup _ _ _ L V).
    unfold Parser.bind at 1. rewrite (consume_lookup _ numTok) by reflexivity.
    unfold Parser.bind at 1. unfold Parser.expectType.
    destruct (decide (Token.type numTok = NUMBER)); [| contradiction].
    unfold Parser.ret at 1. unfold Parser.bind at 1. unfold Parser.stoi. rewrite Z.
    unfold Parser.throw. cbn [Parser.rethrow]. rewrite V. reflexivity. }
  unfold Parser.run, Parser.parse, Parser.parseProgram, Parser.bind, Parser.fuelFor.
  fold p0. subst toks. cbn [length]. cbn [Parser.programLoop].
  rewrite (programContinues_lookup _ _ L), V.
  rewrite (bool_decide_eq_false_2 _ Ty). cbn [bool_decide decide_rel].
  rewrite (bool_decide_eq_false_2 ("WAIT" = "EOF")) by discriminate.
  rewrite (bool_decide_eq_false_2 ("WAIT" = "END")) by discriminate.
  cbn [negb andb]. fold p0. rewrite D. reflexivity.
Qed.

Lemma stoi_failure_is_wrapped_witness :
  exists what,
    Parser.run elementsOrder [keyword "WAIT" 1 1; number "99999999999" 1 6; endOfFile 1 17]
    = Parser.Throw
        (ParserException ("Error parsing statement: " +:+ what) 1 1 "Valid statement" "WAIT").
Proof.
  apply (stoi_failure_is_wrapped elementsOrder (keyword "WAIT" 1 1)
           (number "99999999999" 1 6) [endOfFile 1 17]).
  - reflexivity.
  - discriminate.
  - reflexivity.
  - reflexivity.
Defined.

(** ===================================================================== *)
(** * The JSON view of the AST                                            *)
(** ===================================================================== *)

Section JsonFacts.

Lemma mapM_toJson_nullFree (l : list Statement) :
  Forall (fun s => is_Some (Ast.toJson s) <-> nullFree s = true) l ->
  is_Some (mapM Ast.toJson l) <-> forallb nullFree l = true.
Proof.
  intros H. rewrite mapM_is_Some, forallb_forall, List.Forall_forall.
  rewrite List.Forall_forall in H.
  split; intros A x Hx.
  - apply H; [exact Hx |]. apply A, Hx.
  - apply H; [exact Hx |]. apply A, Hx.
Qed.

Lemma toJson_nullFree (stmt : Statement) :
  is_Some (Ast.toJson stmt) <-> nullFree stmt = true.
Proof.
  induction stmt as [| | | | |c th el Hth Hel|c b Hb|n b Hb| | | | |n b Hb| |]
    using Statement_nested_ind;
    cbn [Ast.toJson nullFree];
    try (split; [reflexivity | eauto]).
  - split; [intros [x H]; discriminate | discriminate].
  - apply mapM_toJson_nullFree in Hth, Hel. rewrite andb_true_iff, <- Hth, <- Hel.
    destruct (mapM Ast.toJson th), (mapM Ast.toJson el); cbn [mbind option_bind];
      split; try (intros [[x H] [y H']]); try (intros [x H]); try discriminate; eauto.
  - apply mapM_toJson_nullFree in Hb. rewrite <- Hb.
    destruct (mapM Ast.toJson b); cbn [mbind option_bind];
      split; intros [x H]; try discriminate; eauto.
  - apply mapM_toJson_nullFree in Hb. rewrite <- Hb.
    destruct (mapM Ast.toJson b); cbn [mbind option_bind];
      split; intros [x H]; try discriminate; eauto.
  - apply mapM_toJson_nullFree in Hb. rewrite <- Hb.
    destruct (mapM Ast.toJson b); cbn [mbind option_bind];
      split; intros [x H]; try discriminate; eauto.
Qed.

Lemma wellFormed_nullFree (stmt : Statement) : wellFormed stmt = true -> nullFree stmt = true.
Proof.
  induction stmt as [| | | | |c th el Hth Hel|c b Hb|n b Hb| | | | |n b Hb| |]
    using Statement_nested_ind;
    cbn [wellFormed nullFree]; intros H; try reflexivity; try exact H.
  - apply andb_true_iff in H as [H1 H2]. apply andb_true_iff. split.
    + rewrite forallb_forall in *. rewrite List.Forall_forall in Hth. auto.
    + rewrite forallb_forall in *. rewrite List.Forall_forall in Hel. auto.
  - rewrite forallb_forall in *. rewrite List.Forall_forall in Hb. auto.
  - apply andb_true_iff in H as [_ H].
    rewrite forallb_forall in *. rewrite List.Forall_forall in Hb. auto.
  - rewrite forallb_forall in *. rewrite List.Forall_forall in Hb. auto.
Qed.

End JsonFacts.

(** ===================================================================== *)
(** * The line-based parser                                               *)
(** ===================================================================== *)

Section LineKinds.
Import PeglibParser.

Lemma parseMotor_kind line stmt : parseMotor line = Some stmt -> lineKind stmt = true.
Proof.
  unfold parseMotor. case_decide; [discriminate |].
  match goal with
  | |- context [mbind _ ?named] => destruct named as [[motorName speed]|]
  end; simpl; [| discriminate].
  intros [= <-]. reflexivity.
Qed.

Lemma parseWait_kind line stmt : parseWait line = Some stmt -> lineKind stmt = true.
Proof.
  unfold parseWait. case_decide; [discriminate |].
  destruct (stoi _); [| discriminate]. intros [= <-]. reflexivity.
Qed.

Lemma parseLED_kind line stmt : parseLED line = Some stmt -> lineKind stmt = true.
Proof.
  unfold parseLED. case_decide; [discriminate |]. intros [= <-]. reflexivity.
Qed.

Lemma push_back_kind acc r :
  forallb lineKind acc = true ->
  (forall s, r = Some s -> lineKind s = true) ->
  forallb lineKind (push_back acc r) = true.
Proof.
  intros Ha Hr. destruct r as [s|]; simpl; [| exact Ha].
  rewrite forallb_app, Ha. simpl. rewrite (Hr s eq_refl). reflexivity.
Qed.

Lemma parseStatements_kind fuel lines :
  forall index acc index' stmts,
    parseStatements fuel lines index acc = Some (index', stmts) ->
    forallb lineKind acc = true ->
    forallb lineKind stmts = true.
Proof.
  induction fuel as [|n IH]; intros index acc index' stmts H Hacc; [discriminate |].
  destruct (lines !! index) as [line|] eqn:L.
  2:{ rewrite parseStatements_past_end in H by exact L. injection H as <- <-. auto. }
  rewrite (parseStatements_step _ _ _ _ _ L) in H.
  repeat case_decide.
  - injection H as <- <-. auto.
  - destruct (parseRepeat (parseStatements n lines) lines index) as [[index1 r]|] eqn:R;
      simpl in H; [| discriminate].
    assert (Hr : forall s, r = Some s -> lineKind s = true).
    { unfold parseRepeat in R. case_decide; [injection R as <- <-; discriminate |].
      destruct (stoi _) as [count|]; [| injection R as <- <-; discriminate].
      destruct (parseStatements n lines (S index) []) as [[index2 body]|] eqn:B;
        simpl in R; [| discriminate].
      apply IH in B; [| reflexivity].
      injection R as <- <-. intros s [= <-]. exact B. }
    apply IH in H; [exact H |]. apply push_back_kind; assumption.
  - apply IH in H; [exact H |].
    apply push_back_kind; [exact Hacc | apply parseWait_kind].
  - apply IH in H; [exact H |].
    apply push_back_kind; [exact Hacc | apply parseLED_kind].
  - apply IH in H; [exact H |].
    apply push_back_kind; [exact Hacc | apply parseMotor_kind].
  - apply IH in H; [exact H |]. rewrite forallb_app, Hacc. reflexivity.
  - apply IH in H; [exact H | exact Hacc].
Qed.

Lemma parse_kind ord sourceCode program :
  parse ord sourceCode = Some (inl program) ->
  forallb lineKind (statements program) = true.
Proof.
  unfold parse, parseWith.
  change (source (new sourceCode)) with sourceCode.
  destruct (parseStatements _ _ 0 []) as [[index stmts]|] eqn:E;
    cbn [mbind option_bind]; [| discriminate].
  rewrite semanticAnalysis_new. intros [= <-]. cbn [statements].
  apply parseStatements_kind in E; [exact E | reflexivity].
Qed.

Lemma lineKind_occurs (stmt x : Statement) :
  lineKind stmt = true -> occursIn x stmt -> lineKind x = true.
Proof.
  intros H O. induction O as [|c th el s I O IH|c th el s I O IH|c body s I O IH
                              |n body s I O IH|f body s I O IH];
    try discriminate H.
  - exact H.
  - apply IH. cbn [lineKind] in H. eapply forallb_In; eassumption.
Qed.

Lemma lineKind_nullFree (stmt : Statement) : lineKind stmt = true -> nullFree stmt = true.
Proof.
  induction stmt as [| | | | |c th el Hth Hel|c b Hb|n b Hb| | | | |n b Hb| |]
    using Statement_nested_ind;
    cbn [lineKind nullFree]; intros H; try reflexivity; try discriminate H.
  rewrite forallb_forall in *. rewrite List.Forall_forall in Hb. auto.
Qed.

End LineKinds.

(** X11.  The line-based [PeglibParser] builds five kinds of node only:
    every statement of the program it returns, at any nesting depth, is
    a [Stop], a [Wait], an [LED], a [Motor] or a [Repeat].  Lines that
    start with any other keyword ([MOVE], [TURN], [IF], [FUNCTION],
    [CALL], ...) leave no node. *)
Theorem line_parser_node_kinds
        (ord : UnorderedSetOrder) (sourceCode : string) (program : Program) (x : Statement) :
  PeglibParser.parse ord sourceCode = Some (inl program) ->
  occursInProgram x program ->
  lineKind x = true.
Proof.
  intros H (s & I & O). eapply lineKind_occurs; [| exact O].
  eapply forallb_In; [| exact I]. eapply parse_kind, H.
Qed.

Lemma line_parser_node_kinds_witness :
  PeglibParser.parse elementsOrder
    ("MOVE forward 10" +:+ ArduinoGenerator.newline +:+ "STOP")
  = Some (inl (mkProgram [StopStatement]))
  /\ lineKind StopStatement = true.
Proof.
  assert (E : PeglibParser.parse elementsOrder
                ("MOVE forward 10" +:+ ArduinoGenerator.newline +:+ "STOP")
              = Some (inl (mkProgram [StopStatement]))) by (vm_compute; reflexivity).
  split; [exact E |].
  apply (line_parser_node_kinds elementsOrder _ _ StopStatement E).
  exists StopStatement. split; [left; reflexivity | constructor].
Defined.

Ltac map_lookup :=
  repeat first [ rewrite lookup_insert_eq
               | rewrite lookup_insert_ne by discriminate
               | rewrite lookup_empty ].

Ltac map_lookup_in H :=
  repeat first [ rewrite lookup_insert_eq in H
               | rewrite lookup_insert_ne in H by discriminate
               | rewrite lookup_empty in H ].

Section JsonType.

Lemma toJson_type (stmt : Statement) (j : Json) :
  Ast.toJson stmt = Some j -> field "type" j = JString <$> Ast.getNodeType stmt.
Proof.
  destruct stmt; cbn [Ast.toJson]; unfold Ast.LEDStatement_toJson; cbv zeta;
    repeat match goal with
      | |- context [mapM Ast.toJson ?l] =>
          destruct (mapM Ast.toJson l); cbn [mbind option_bind]
      | |- context [decide (?c = "")] => destruct (decide (c = ""))
      end;
    try discriminate;
    intros [= <-]; cbn [field Ast.getNodeType fmap option_fmap option_map];
    map_lookup; reflexivity.
Qed.

End JsonType.

(** X12.  The [type] member of the JSON object of a node is the text
    its [getNodeType] returns, for every class of statement, for a
    [Condition] and for the [Program]. *)
Theorem toJson_type_is_node_type :
  (forall stmt j,
      Ast.toJson stmt = Some j -> field "type" j = JString <$> Ast.getNodeType stmt)
  /\ (forall c, field "type" (Ast.Condition_toJson c)
                = Some (JString (Ast.Condition_getNodeType c)))
  /\ (forall program j,
         Ast.Program_toJson program = Some j ->
         field "type" j = Some (JString (Ast.Program_getNodeType program))).
Proof.
  split; [exact toJson_type |]. split.
  - intros c. unfold Ast.Condition_toJson. cbn [field]. map_lookup. reflexivity.
  - intros program j. unfold Ast.Program_toJson.
    destruct (mapM Ast.toJson (statements program)); cbn [mbind option_bind];
      [| discriminate].
    intros [= <-]. cbn [field]. map_lookup. reflexivity.
Qed.

Lemma toJson_type_is_node_type_witness :
  field "type" (JObject (<["duration" := JNumber 500]> (<["type" := JString "Wait"]> ∅)))
  = JString <$> Ast.getNodeType (WaitStatement 500).
Proof.
  destruct toJson_type_is_node_type as [H _].
  apply (H (WaitStatement 500)). reflexivity.
Defined.

Lemma Program_toJson_nullFree (program : Program) :
  is_Some (Ast.Program_toJson program) <-> forallb nullFree (statements program) = true.
Proof.
  unfold Ast.Program_toJson.
  rewrite <- mapM_toJson_nullFree
    by (apply List.Forall_forall; intros s _; apply toJson_nullFree).
  destruct (mapM Ast.toJson (statements program)); cbn [mbind option_bind];
    split; intros [x H]; try discriminate; eauto.
Qed.

(** X14.  A program that one of the two parsers returns can always be
    serialised: neither parser leaves a null statement slot in the tree,
    so [Program::toJson] meets none. *)
Theorem parsed_program_serialises :
  (forall ord toks program p,
      Parser.run ord toks = Parser.Ok program p ->
      is_Some (Ast.Program_toJson program))
  /\ (forall ord sourceCode program,
         PeglibParser.parse ord sourceCode = Some (inl program) ->
         is_Some (Ast.Program_toJson program)).
Proof.
  split.
  - intros ord toks program p R. apply Program_toJson_nullFree. apply run_wf in R.
    rewrite forallb_forall in *. intros s I. apply wellFormed_nullFree, R, I.
  - intros ord sourceCode program R. apply Program_toJson_nullFree. apply parse_kind in R.
    rewrite forallb_forall in *. intros s I. apply lineKind_nullFree, R, I.
Qed.

Lemma parsed_program_serialises_witness :
  is_Some (Ast.Program_toJson (mkProgram [RepeatStatement 0 [StopStatement]])).
Proof.
  destruct parsed_program_serialises as [H _].
  apply (H elementsOrder repeatZero (mkProgram [RepeatStatement 0 [StopStatement]])
           (Parser.mk repeatZero 5 ∅ ∅)).
  vm_compute. reflexivity.
Defined.

Section JsonInjective.

Lemma Condition_toJson_inj (c1 c2 : Condition.t) :
  Ast.Condition_toJson c1 = Ast.Condition_toJson c2 -> c1 = c2.
Proof.
  destruct c1 as [l1 o1 r1], c2 as [l2 o2 r2]. unfold Ast.Condition_toJson.
  cbn [Condition.left Condition.op Condition.right]. intros H.
  pose proof (f_equal (field "left") H) as Hl.
  pose proof (f_equal (field "operator") H) as Ho.
  pose proof (f_equal (field "right") H) as Hr.
  cbn [field] in Hl, Ho, Hr. clear H.
  map_lookup_in Hl. map_lookup_in Ho. map_lookup_in Hr. congruence.
Qed.

Lemma mapM_toJson_inj (l1 : list Statement) :
  Forall (fun s1 => forall s2 j, Ast.toJson s1 = Some j -> Ast.toJson s2 = Some j -> s1 = s2)
         l1 ->
  forall l2 js, mapM Ast.toJson l1 = Some js -> mapM Ast.toJson l2 = Some js -> l1 = l2.
Proof.
  intros H l2 js H1 H2. apply mapM_Some in H1, H2.
  revert l2 H2. induction H1 as [|s1 j l1 js E1 F1 IH]; intros l2 H2.
  - inversion H2. reflexivity.
  - inversion H2 as [|s2 j' l2' js' E2 F2]; subst.
    apply List.Forall_cons_iff in H as [Hs Hl].
    f_equal; [eapply Hs; eassumption | apply IH; assumption].
Qed.

Lemma Some_eq_inv {A} (x y : A) : Some x = Some y -> x = y.
Proof. intros H. injection H. auto. Qed.

(** The members of the two objects agree, key by key. *)
Ltac json_fields Hm :=
  let go k :=
    let F := fresh "F" in
    pose proof (f_equal (fun o => o ≫= field k) Hm) as F;
    cbn [mbind option_bind field] in F; map_lookup_in F;
    try (apply Some_eq_inv in F; apply Condition_toJson_inj in F) in
  go "name"; go "direction"; go "distance"; go "angle"; go "condition";
  go "thenBody"; go "elseBody"; go "body"; go "times"; go "state"; go "color";
  go "speed"; go "duration"; go "message";
  clear Hm.

Lemma toJson_inj (s1 : Statement) :
  forall s2 j, Ast.toJson s1 = Some j -> Ast.toJson s2 = Some j -> s1 = s2.
Proof.
  induction s1 as [| | | | |c th el Hth Hel|c b Hb|n b Hb| | | | |n b Hb| |]
    using Statement_nested_ind;
    intros s2 j H1 H2;
    pose proof (toJson_type _ _ H1) as T1; pose proof (toJson_type _ _ H2) as T2;
    rewrite T1 in T2; destruct s2;
    cbn [Ast.getNodeType fmap option_fmap option_map] in T2; try discriminate T2;
    clear T1 T2; revert H1 H2;
    cbn [Ast.toJson]; unfold Ast.LEDStatement_toJson; cbv zeta;
    repeat match goal with
      | |- context [mapM Ast.toJson ?l] =>
          let E := fresh "E" in
          destruct (mapM Ast.toJson l) eqn:E; cbn [mbind option_bind]
      | |- context [decide (?c = "")] => destruct (decide (c = ""))
      end;
    try discriminate;
    intros [= <-] Hm; json_fields Hm; simplify_eq; try reflexivity.
  - f_equal; eapply mapM_toJson_inj; eassumption.
  - f_equal; eapply mapM_toJson_inj; eassumption.
  - f_equal; eapply mapM_toJson_inj; eassumption.
  - f_equal; eapply mapM_toJson_inj; eassumption.
Qed.

End JsonInjective.

(** X15.  The JSON view loses nothing: two statements that [toJson]
    maps to the same value are the same statement, field by field and
    body by body, and two programs with the same JSON value are the same
    program. *)
Theorem toJson_injective :
  (forall s1 s2 j, Ast.toJson s1 = Some j -> Ast.toJson s2 = Some j -> s1 = s2)
  /\ (forall p1 p2 j,
         Ast.Program_toJson p1 = Some j -> Ast.Program_toJson p2 = Some j -> p1 = p2).
Proof.
  split; [exact toJson_inj |].
  intros [l1] [l2] j. unfold Ast.Program_toJson. cbn [statements].
  destruct (mapM Ast.toJson l1) as [js1|] eqn:E1; cbn [mbind option_bind]; [| discriminate].
  destruct (mapM Ast.toJson l2) as [js2|] eqn:E2; cbn [mbind option_bind]; [| discriminate].
  intros [= <-] H.
  pose proof (f_equal (fun o => o ≫= field "statements") H) as F.
  cbn [mbind option_bind field] in F. map_lookup_in F. clear H.
  injection F as ->. f_equal.
  eapply mapM_toJson_inj; [| eassumption | eassumption].
  apply List.Forall_forall. intros s _. apply toJson_inj.
Qed.

Lemma toJson_injective_witness :
  MoveStatement "forward" 50 = MoveStatement "forward" 50.
Proof.
  destruct toJson_injective as [H _].
  apply (H (MoveStatement "forward" 50) (MoveStatement "forward" 50)
           (JObject (<["distance" := JNumber 50]>
                    (<["direction" := JString "forward"]>
                    (<["type" := JString "Move"]> ∅)))));
    reflexivity.
Defined.

(** ===================================================================== *)
(** * The generator: what a statement emits                               *)
(** ===================================================================== *)

Section GeneratorLocal.
Import ArduinoGenerator.

Lemma grown_nil g : grown g [] [] = g.
Proof. destruct g. unfold grown. simpl. now rewrite !app_nil_r. Qed.

Lemma grown_grown g c1 d1 c2 d2 :
  grown (grown g c1 d1) c2 d2 = grown g (c1 ++ c2) (d1 ++ d2).
Proof. unfold grown. simpl. now rewrite !app_assoc. Qed.

Lemma indentedAt_spaces level code : indentedAt level (spaces (Z.to_nat (level * 2)) +:+ code).
Proof. apply prefix_iff. eauto. Qed.

Lemma local_ret : emitsLocally Some.
Proof.
  intros level Hl. exists [], []. split; [constructor |].
  intros g _. now rewrite grown_nil.
Qed.

Lemma local_addLine code : emitsLocally (addLine code).
Proof.
  intros level Hl. exists [spaces (Z.to_nat (level * 2)) +:+ code], [].
  split; [constructor; [apply indentedAt_spaces | constructor] |].
  intros g <-. rewrite addLine_Some by exact Hl.
  unfold grown, set_generatedCode. now rewrite app_nil_r.
Qed.

Lemma local_bind f h :
  emitsLocally f -> emitsLocally h -> emitsLocally (fun g => g' ← f g; h g').
Proof.
  intros Hf Hh level Hl.
  destruct (Hf level Hl) as (c1 & d1 & I1 & E1).
  destruct (Hh level Hl) as (c2 & d2 & I2 & E2).
  exists (c1 ++ c2)%list, (d1 ++ d2)%list. split; [apply Forall_app; split; assumption |].
  intros g Hg. rewrite (E1 g Hg). simpl. rewrite E2 by exact Hg. now rewrite grown_grown.
Qed.

Lemma local_ext (f h : t -> option t) :
  (forall g, f g = h g) -> emitsLocally f -> emitsLocally h.
Proof.
  intros E Hf level Hl. destruct (Hf level Hl) as (c & d & I & H).
  exists c, d. split; [exact I |]. intros g Hg. rewrite <- E. apply H, Hg.
Qed.

Lemma local_addLines codes : emitsLocally (addLines codes).
Proof.
  induction codes as [|c codes IH]; simpl.
  - apply local_ret.
  - apply (local_bind (addLine c) (addLines codes)); [apply local_addLine | exact IH].
Qed.

Lemma local_forEach (f : Statement -> t -> option t) (l : list Statement) :
  Forall (fun s => emitsLocally (f s)) l -> emitsLocally (forEach f l).
Proof.
  induction 1 as [|s l Hs Hl IH]; simpl.
  - apply local_ret.
  - apply (local_bind (f s) (forEach f l)); assumption.
Qed.

Lemma spaces_add (n k : nat) : spaces (n + k) = spaces n +:+ spaces k.
Proof.
  induction n as [|n IH]; [reflexivity |]. simpl. rewrite append_cons. now rewrite IH.
Qed.

Lemma prefix_spaces_le (n m : nat) (line : string) :
  (n <= m)%nat -> String.prefix (spaces m) line = true -> String.prefix (spaces n) line = true.
Proof.
  intros Hle H. apply prefix_iff in H as [post ->]. apply prefix_iff.
  replace m with (n + (m - n))%nat by lia.
  rewrite spaces_add, append_assoc. eauto.
Qed.

Lemma indentedAt_weaken level line :
  0 <= level -> indentedAt (level + 1) line -> indentedAt level line.
Proof.
  intros Hl. unfold indentedAt. apply prefix_spaces_le. lia.
Qed.

(** [increaseIndent(); ...; decreaseIndent();] *)
Lemma local_indented (f : t -> option t) :
  emitsLocally f ->
  emitsLocally (fun g => g' ← f (increaseIndent g); Some (decreaseIndent g')).
Proof.
  intros Hf level Hl. destruct (Hf (level + 1) ltac:(lia)) as (c & d & I & E).
  exists c, d. split.
  - eapply Forall_impl; [exact I |]. intros line. apply indentedAt_weaken, Hl.
  - intros g <-. rewrite E by reflexivity. simpl.
    unfold grown, decreaseIndent, increaseIndent, set_indentLevel. simpl.
    do 2 f_equal. lia.
Qed.

Lemma local_block (header : string) (f : t -> option t) :
  emitsLocally f ->
  emitsLocally (fun g =>
                  g ← addLine header g;
                  let g := increaseIndent g in
                  g ← f g;
                  let g := decreaseIndent g in
                  addLine "}" g).
Proof.
  intros Hf.
  eapply local_ext;
    [| exact (local_bind _ _ (local_addLine header)
                (local_bind _ _ (local_indented f Hf) (local_addLine "}")))].
  intros g0. cbv beta zeta.
  destruct (addLine header g0) as [g1|]; simpl; [|reflexivity].
  destruct (f (increaseIndent g1)); reflexivity.
Qed.

Lemma local_generateMove d n : emitsLocally (generateMove d n).
Proof.
  unfold generateMove.
  destruct (decide (d = "forward")); [apply local_addLines |].
  destruct (decide (d = "backward")); [apply local_addLines | apply local_ret].
Qed.

Lemma local_generateTurn d n : emitsLocally (generateTurn d n).
Proof.
  unfold generateTurn.
  apply (local_bind
           (fun g => if decide (d = "left") then addLines _ g
                     else if decide (d = "right") then addLines _ g else Some g)
           (addLine _)); [| apply local_addLine].
  destruct (decide (d = "left")); [apply local_addLines |].
  destruct (decide (d = "right")); [apply local_addLines | apply local_ret].
Qed.

Lemma local_generateLED s c : emitsLocally (generateLED s c).
Proof.
  unfold generateLED. destruct (decide (s = "on")).
  - apply (local_bind (addLine _)
             (fun g => g' ← (if decide (c = "") then Some g else addLine _ g); addLine _ g'));
      [apply local_addLine |].
    apply (local_bind (fun g => if decide (c = "") then Some g else addLine _ g)
                      (addLine _)); [| apply local_addLine].
    destruct (decide (c = "")); [apply local_ret | apply local_addLine].
  - destruct (decide (s = "off")); [apply local_addLines | apply local_ret].
Qed.

Lemma local_generateMotor n s : emitsLocally (generateMotor n s).
Proof.
  unfold generateMotor.
  apply (local_bind (addLine _)
           (fun g => if decide (n = "left") then addLine _ g
                     else if decide (n = "right") then addLine _ g else Some g));
    [apply local_addLine |].
  destruct (decide (n = "left")); [apply local_addLine |].
  destruct (decide (n = "right")); [apply local_addLine | apply local_ret].
Qed.

Lemma local_generateIf c th el :
  Forall (fun s => emitsLocally (generateStatement s)) th ->
  Forall (fun s => emitsLocally (generateStatement s)) el ->
  emitsLocally (generateStatement (IfStatement c th el)).
Proof.
  intros Hth Hel.
  apply local_forEach in Hth, Hel.
  pose proof (local_addLine ("if " +:+ generateCondition c +:+ " {")) as H1.
  pose proof (local_indented _ Hth) as H2.
  assert (H3 : emitsLocally (fun g => match el with
                                      | [] => Some g
                                      | _ :: _ =>
                                          g ← addLine "} else {" g;
                                          let g := increaseIndent g in
                                          g ← forEach generateStatement el g;
                                          Some (decreaseIndent g)
                                      end)).
  { destruct el as [|e el']; [apply local_ret |].
    apply (local_bind _ _ (local_addLine "} else {") (local_indented _ Hel)). }
  eapply local_ext;
    [| exact (local_bind _ _ H1
                (local_bind _ _ H2
                   (local_bind _ _ H3 (local_addLine "}"))))].
  intros g. rewrite generateStatement_If. cbv beta zeta.
  destruct (addLine ("if " +:+ generateCondition c +:+ " {") g) as [g1|]; simpl;
    [| reflexivity].
  destruct (forEach generateStatement th (increaseIndent g1)) as [g2|]; reflexivity.
Qed.

(** What a local emitter adds is what it adds to empty buffers. *)
Lemma local_explicit (stmt : Statement) :
  emitsLocally (generateStatement stmt) ->
  forall g, 0 <= indentLevel g ->
    generateStatement stmt g
    = Some (grown g (codeOf (indentLevel g) stmt) (hoistedBy (indentLevel g) stmt)).
Proof.
  intros H g Hl. destruct (H (indentLevel g) Hl) as (c & d & _ & E).
  rewrite (E g eq_refl).
  unfold codeOf, hoistedBy, emittedBy.
  rewrite (E (mk (indentLevel g) [] [] []) eq_refl). reflexivity.
Qed.

Lemma local_indented_code (stmt : Statement) (level : Z) :
  emitsLocally (generateStatement stmt) -> 0 <= level ->
  Forall (indentedAt level) (codeOf level stmt).
Proof.
  intros H Hl. destruct (H level Hl) as (c & d & I & E).
  unfold codeOf, emittedBy.
  rewrite (E (mk level [] [] []) eq_refl). exact I.
Qed.

Lemma concat_empty_cons (x : string) (l : list string) :
  String.concat "" (x :: l) = x +:+ String.concat "" l.
Proof.
  destruct l as [|y l]; [simpl; now rewrite append_nil_r | reflexivity].
Qed.

Lemma drained_unlines (new : list string) (funcCode : string) :
  drained new funcCode = funcCode +:+ unlines (rev new).
Proof.
  unfold drained, unlines. generalize (rev new) as l. intros l. revert funcCode.
  induction l as [|x l IH]; intros funcCode.
  - simpl. now rewrite append_nil_r.
  - cbn [fold_left map]. rewrite IH, concat_empty_cons. rewrite !append_assoc. reflexivity.
Qed.

(** The loop over a function body, statement by statement. *)
Lemma functionBodyLoop_local (body : list Statement) :
  Forall (fun s => emitsLocally (generateStatement s)) body ->
  forall funcCode g,
    indentLevel g = 1 ->
    functionBodyLoop generateStatement body (funcCode, g)
    = Some (funcCode +:+ hoistedText body,
            grown g [] (concat (map (hoistedBy 1) body))).
Proof.
  induction 1 as [|s body Hs Hbody IH]; intros funcCode g Hg.
  - simpl. unfold hoistedText. simpl. now rewrite append_nil_r, grown_nil.
  - cbn [functionBodyLoop].
    rewrite (local_explicit s Hs g) by (rewrite Hg; lia). rewrite Hg.
    cbn [mbind option_bind]. cbv zeta.
    change (generatedCode (grown g (codeOf 1 s) (hoistedBy 1 s)))
      with (generatedCode g ++ codeOf 1 s)%list.
    rewrite extractNew_spec.
    change (functionBodyLoop generateStatement) with
      (fix go (l : list Statement) (acc : string * t) {struct l} : option (string * t) :=
         match l with
         | [] => Some acc
         | s :: tl =>
             let '(funcCode, g) := acc in
             let savedSize := length (generatedCode g) in
             g ← generateStatement s g;
             let '(code, funcCode) := extractNew savedSize (generatedCode g) funcCode in
             go tl (funcCode, set_generatedCode code g)
         end) in IH.
    rewrite IH by exact Hg.
    rewrite drained_unlines. unfold hoistedText. cbn [map].
    rewrite concat_empty_cons.
    f_equal. f_equal.
    + now rewrite append_assoc.
    + unfold grown, set_generatedCode. simpl. rewrite !app_nil_r, <- app_assoc. reflexivity.
Qed.

End GeneratorLocal.

Section GeneratorLocalStatements.
Import ArduinoGenerator.

Lemma generateFunction_explicit name body g :
  Forall (fun s => emitsLocally (generateStatement s)) body ->
  generateStatement (FunctionDef name body) g
  = Some (grown g []
            (["void " +:+ name +:+ "() {"] ++ concat (map (hoistedBy 1) body)
             ++ [hoistedText body; "}"; ""])).
Proof.
  intros Hbody. rewrite generateStatement_FunctionDef. cbv zeta.
  rewrite (functionBodyLoop_local body Hbody) by reflexivity.
  cbn [mbind option_bind]. unfold grown, set_indentLevel, set_variableDeclarations.
  cbn [indentLevel generatedCode setupCode variableDeclarations].
  rewrite app_nil_r, <- !app_assoc. reflexivity.
Qed.

Lemma local_generateFunction name body :
  Forall (fun s => emitsLocally (generateStatement s)) body ->
  emitsLocally (generateStatement (FunctionDef name body)).
Proof.
  intros Hbody level Hl. eexists [], _. split; [constructor |].
  intros g _. apply generateFunction_explicit, Hbody.
Qed.

(** Every statement is emitted locally. *)
Lemma local_generateStatement (stmt : Statement) : emitsLocally (generateStatement stmt).
Proof.
  induction stmt using Statement_nested_ind.
  - apply local_ret.
  - apply local_addLines.
  - apply local_generateMove.
  - apply local_generateTurn.
  - apply local_addLines.
  - now apply local_generateIf.
  - apply (local_block _ (forEach generateStatement b)). now apply local_forEach.
  - apply (local_block _ (forEach generateStatement b)). now apply local_forEach.
  - apply local_generateLED.
  - apply local_addLines.
  - apply local_generateMotor.
  - apply local_addLine.
  - now apply local_generateFunction.
  - apply local_addLine.
  - apply local_addLine.
Qed.

Lemma local_all (l : list Statement) : Forall (fun s => emitsLocally (generateStatement s)) l.
Proof. apply List.Forall_forall. intros s _. apply local_generateStatement. Qed.

Lemma forEach_explicit (l : list Statement) :
  forall g, 0 <= indentLevel g ->
    forEach generateStatement l g
    = Some (grown g (concat (map (codeOf (indentLevel g)) l))
                    (concat (map (hoistedBy (indentLevel g)) l))).
Proof.
  induction l as [|s l IH]; intros g Hl.
  - simpl. now rewrite grown_nil.
  - cbn [forEach]. rewrite (local_explicit s (local_generateStatement s) g Hl).
    cbn [mbind option_bind].
    change (forEach generateStatement l) with
      ((fix go (l : list Statement) (g : t) {struct l} : option t :=
          match l with
          | [] => Some g
          | x :: tl => g' ← generateStatement x g; go tl g'
          end) l) in IH.
    rewrite IH by exact Hl. rewrite grown_grown. reflexivity.
Qed.

End GeneratorLocalStatements.

(** X16.  What a statement emits does not depend on what the generator
    has emitted before: from any state with a non-negative indentation
    level, [generateStatement] appends to the loop-body buffer and to
    the hoisted definitions exactly the lines it writes into empty
    buffers at that level, and changes nothing else.  The code of a
    block is therefore the concatenation of the code of its statements. *)
Theorem generateStatement_is_local :
  (forall stmt g,
      0 <= ArduinoGenerator.indentLevel g ->
      ArduinoGenerator.generateStatement stmt g
      = Some (grown g (codeOf (ArduinoGenerator.indentLevel g) stmt)
                      (hoistedBy (ArduinoGenerator.indentLevel g) stmt)))
  /\ (forall stmts g,
         0 <= ArduinoGenerator.indentLevel g ->
         ArduinoGenerator.generateBlock stmts g
         = Some (grown g (concat (map (codeOf (ArduinoGenerator.indentLevel g)) stmts))
                         (concat (map (hoistedBy (ArduinoGenerator.indentLevel g)) stmts)))).
Proof.
  split.
  - intros stmt g Hl. apply local_explicit; [apply local_generateStatement | exact Hl].
  - intros stmts g Hl. apply forEach_explicit, Hl.
Qed.

Lemma generateStatement_is_local_witness :
  ArduinoGenerator.generateStatement (WaitStatement 100)
    (ArduinoGenerator.mk 1 ["  // Stop all motors"] [] [])
  = Some (grown (ArduinoGenerator.mk 1 ["  // Stop all motors"] [] [])
                (codeOf 1 (WaitStatement 100)) (hoistedBy 1 (WaitStatement 100))).
Proof.
  destruct generateStatement_is_local as [H _].
  apply (H (WaitStatement 100) (ArduinoGenerator.mk 1 ["  // Stop all motors"] [] [])).
  simpl. lia.
Defined.

(** X17.  Every line a statement adds to the loop body at indentation
    level [n] begins with [2 * n] spaces, the lines of nested blocks
    included. *)
Theorem emitted_lines_are_indented (stmt : Statement) (level : Z) :
  0 <= level -> Forall (indentedAt level) (codeOf level stmt).
Proof.
  intros Hl. apply local_indented_code; [apply local_generateStatement | exact Hl].
Qed.

Lemma emitted_lines_are_indented_witness :
  Forall (indentedAt 2)
         (codeOf 2 (IfStatement (Condition.mk "a" "<" "b") [StopStatement] [WaitStatement 5])).
Proof.
  apply (emitted_lines_are_indented
           (IfStatement (Condition.mk "a" "<" "b") [StopStatement] [WaitStatement 5]) 2).
  lia.
Defined.

(** X18.  What [generateFunction] hoists, for every function and every
    state of the generator: the header line, what nested definitions
    hoist, then one string holding the body, the closing brace and an
    empty line.  The body string takes the statements in their order,
    but the lines of each statement from the last to the first, at
    indentation level 1; nothing is added to the loop body. *)
Theorem hoisted_function_text
        (name : string) (body : list Statement) (g : ArduinoGenerator.t) :
  ArduinoGenerator.generateFunction name body g
  = Some (grown g []
            (["void " +:+ name +:+ "() {"] ++ concat (map (hoistedBy 1) body)
             ++ [hoistedText body; "}"; ""])).
Proof.
  unfold ArduinoGenerator.generateFunction. apply generateFunction_explicit, local_all.
Qed.

Section GenerateWhole.
Import ArduinoGenerator.

Lemma generate_explicit (program : Program) (g : t) :
  generate program g
  = Some (document (mk 0 (concat (map (codeOf 0) (statements program))) setupBlock
                       (concat (map (hoistedBy 0) (statements program)))),
          mk 0 (concat (map (codeOf 0) (statements program))) setupBlock
             (concat (map (hoistedBy 0) (statements program)))).
Proof.
  rewrite generate_unfold.
  rewrite forEach_explicit by (simpl; lia). reflexivity.
Qed.

Lemma codeOf_definesOnly (level : Z) (stmt : Statement) :
  definesOnly stmt = true -> codeOf level stmt = [].
Proof.
  destruct stmt; try discriminate; intros _; unfold codeOf, emittedBy.
  - reflexivity.
  - change (generateStatement (FunctionDef name body)) with (generateFunction name body).
    unfold generateFunction. rewrite generateFunction_explicit by apply local_all.
    reflexivity.
Qed.

Lemma concat_codeOf_definesOnly (level : Z) (stmts : list Statement) :
  forallb definesOnly stmts = true -> concat (map (codeOf level) stmts) = [].
Proof.
  induction stmts as [|s l IH]; [reflexivity |]. simpl.
  intros H. apply andb_true_iff in H as [Hs Hl].
  rewrite (codeOf_definesOnly _ _ Hs), IH by exact Hl. reflexivity.
Qed.

End GenerateWhole.

(** X19.  [generate] depends on the program only, not on what the
    generator object held before: it returns the document assembled
    from the concatenated code of the top-level statements at level 0,
    the fixed setup block of eight lines, and the concatenated
    hoisted definitions, and leaves exactly these in the object.  No
    statement adds a line to [setup()]; calling [generate] again on the
    object gives the same document. *)
Theorem generate_is_a_function_of_the_program
        (program : Program) (g : ArduinoGenerator.t) :
  exists text g',
    ArduinoGenerator.generate program g = Some (text, g')
    /\ g' = ArduinoGenerator.mk 0 (concat (map (codeOf 0) (statements program))) setupBlock
                                (concat (map (hoistedBy 0) (statements program)))
    /\ text = ArduinoGenerator.document g'
    /\ ArduinoGenerator.getSetupCode g' = ArduinoGenerator.unlines setupBlock
    /\ ArduinoGenerator.generate program g' = Some (text, g').
Proof.
  eexists _, _. split; [apply generate_explicit |].
  split; [reflexivity |]. split; [reflexivity |]. split; [reflexivity |].
  apply generate_explicit.
Qed.

(** X20.  A program that holds function definitions only, the empty
    program included, leaves the loop-body buffer empty, and the
    document ends with a [loop()] that holds the placeholder comment. *)
Theorem functions_only_placeholder_loop (program : Program) (g : ArduinoGenerator.t) :
  forallb definesOnly (statements program) = true ->
  exists text g' front,
    ArduinoGenerator.generate program g = Some (text, g')
    /\ ArduinoGenerator.generatedCode g' = []
    /\ text = front +:+ "void loop() {" +:+ ArduinoGenerator.newline
              +:+ "  // Your robot code here" +:+ ArduinoGenerator.newline
              +:+ "}" +:+ ArduinoGenerator.newline.
Proof.
  intros H. rewrite generate_explicit, (concat_codeOf_definesOnly 0 _ H).
  eexists _, _,
    ("#include <Servo.h>" +:+ ArduinoGenerator.newline +:+ ArduinoGenerator.newline
     +:+ "// Pin Definitions" +:+ ArduinoGenerator.newline
     +:+ "#define LED_PIN " +:+ to_string ArduinoGenerator.LED_PIN +:+ ArduinoGenerator.newline
     +:+ "#define MOTOR_LEFT_FORWARD " +:+ to_string ArduinoGenerator.MOTOR_LEFT_FORWARD
     +:+ ArduinoGenerator.newline
     +:+ "#define MOTOR_LEFT_BACKWARD " +:+ to_string ArduinoGenerator.MOTOR_LEFT_BACKWARD
     +:+ ArduinoGenerator.newline
     +:+ "#define MOTOR_RIGHT_FORWARD " +:+ to_string ArduinoGenerator.MOTOR_RIGHT_FORWARD
     +:+ ArduinoGenerator.newline
     +:+ "#define MOTOR_RIGHT_BACKWARD " +:+ to_string ArduinoGenerator.MOTOR_RIGHT_BACKWARD
     +:+ ArduinoGenerator.newline
     +:+ "#define DISTANCE_SENSOR_PIN " +:+ to_string ArduinoGenerator.DISTANCE_SENSOR_PIN
     +:+ ArduinoGenerator.newline
     +:+ "#define LIGHT_SENSOR_PIN " +:+ to_string ArduinoGenerator.LIGHT_SENSOR_PIN
     +:+ ArduinoGenerator.newline +:+ ArduinoGenerator.newline
     +:+ "// Global Variables" +:+ ArduinoGenerator.newline
     +:+ "Servo servo;" +:+ ArduinoGenerator.newline +:+ ArduinoGenerator.newline
     +:+ ArduinoGenerator.unlines (concat (map (hoistedBy 0) (statements program)))
     +:+ "void setup() {" +:+ ArduinoGenerator.newline
     +:+ ArduinoGenerator.unlines setupBlock
     +:+ "}" +:+ ArduinoGenerator.newline +:+ ArduinoGenerator.newline).
  split; [reflexivity |]. split; [reflexivity |].
  unfold ArduinoGenerator.document.
  cbn [ArduinoGenerator.generatedCode ArduinoGenerator.setupCode
       ArduinoGenerator.variableDeclarations].
  rewrite !append_assoc. reflexivity.
Qed.

Lemma functions_only_placeholder_loop_witness :
  exists text g' front,
    ArduinoGenerator.generate (mkProgram [FunctionDef "avoidObstacle" [StopStatement]])
                              ArduinoGenerator.new
    = Some (text, g')
    /\ ArduinoGenerator.generatedCode g' = []
    /\ text = front +:+ "void loop() {" +:+ ArduinoGenerator.newline
              +:+ "  // Your robot code here" +:+ ArduinoGenerator.newline
              +:+ "}" +:+ ArduinoGenerator.newline.
Proof.
  apply (functions_only_placeholder_loop
           (mkProgram [FunctionDef "avoidObstacle" [StopStatement]]) ArduinoGenerator.new).
  reflexivity.
Defined.

(** ===================================================================== *)
(** * Lines and words: [trim] and [split]                                 *)
(** ===================================================================== *)

Section Trim.
Import PeglibParser.

Lemma find_first_None (s : string) : find_first_not_of s = None <-> blank s = true.
Proof.
  unfold blank. induction s as [|c s IH]; simpl; [split; reflexivity |].
  destruct (isTrimmed c); simpl.
  - rewrite <- IH. destruct (find_first_not_of s); simpl; split; congruence.
  - split; discriminate.
Qed.

Lemma find_last_None (s : string) : find_last_not_of s = None <-> blank s = true.
Proof.
  unfold blank. induction s as [|c s IH]; simpl; [split; reflexivity |].
  destruct (find_last_not_of s) as [i|].
  - split; [discriminate |]. intros H. apply andb_true_iff in H as [_ H].
    apply IH in H. discriminate H.
  - destruct IH as [IH _]. rewrite IH by reflexivity. rewrite andb_true_r.
    destruct (isTrimmed c); split; congruence.
Qed.

(** The index [find_last_not_of] returns: a character that is kept,
    followed by blanks only. *)
Lemma find_last_Some (s : string) (l : nat) :
  find_last_not_of s = Some l ->
  exists a c post,
    s = a +:+ String c post /\ String.length a = l
    /\ isTrimmed c = false /\ blank post = true.
Proof.
  revert l. induction s as [|x s IH]; intros l; simpl; [discriminate |].
  destruct (find_last_not_of s) as [i|] eqn:E.
  - intros [= <-]. destruct (IH i eq_refl) as (a & c & post & -> & La & Hc & Hp).
    exists (String x a), c, post. repeat split; simpl; auto.
  - destruct (isTrimmed x) eqn:T; [discriminate |]. intros [= <-].
    exists "", x, s. repeat split; auto. apply find_last_None, E.
Qed.

Lemma substring_prefix (x y : string) : String.substring 0 (String.length x) (x +:+ y) = x.
Proof.
  induction x as [|c x IH].
  - destruct y; reflexivity.
  - rewrite append_cons. cbn [String.length String.substring]. now rewrite IH.
Qed.

Lemma length_snoc (a : string) (c : ascii) :
  String.length (a +:+ String c "") = S (String.length a).
Proof.
  induction a as [|x a IH]; [reflexivity |].
  rewrite append_cons. cbn [String.length]. now rewrite IH.
Qed.

Lemma lastChar_snoc (a : string) (c : ascii) : lastChar (a +:+ String c "") = Some c.
Proof.
  induction a as [|x a IH]; [reflexivity |].
  rewrite append_cons. cbn [lastChar]. rewrite IH.
  destruct (a +:+ String c "") eqn:E; [| reflexivity].
  destruct a; discriminate E.
Qed.

Lemma trim_blank_cons (c : ascii) (s : string) :
  isTrimmed c = true -> trim (String c s) = trim s.
Proof.
  intros T. unfold trim. cbn [find_first_not_of find_last_not_of]. rewrite T.
  destruct (find_first_not_of s) as [f|] eqn:F; simpl; [| reflexivity].
  destruct (find_last_not_of s) as [l|] eqn:L; simpl; [reflexivity |].
  apply find_last_None, find_first_None in L. congruence.
Qed.

(** [trim] of a string that begins with a character it keeps. *)
Lemma trim_kept_cons (c : ascii) (s : string) :
  isTrimmed c = false ->
  exists a c' post,
    String c s = (a +:+ String c' "") +:+ post
    /\ trim (String c s) = a +:+ String c' ""
    /\ isTrimmed c' = false /\ blank post = true.
Proof.
  intros T. unfold trim. cbn [find_first_not_of]. rewrite T.
  destruct (find_last_not_of (String c s)) as [l|] eqn:L.
  - destruct (find_last_Some _ _ L) as (a & c' & post & E & La & Hc & Hp).
    exists a, c', post. rewrite E. split; [now rewrite append_assoc |].
    split; [| split; assumption].
    cbn [default from_option id]. rewrite Nat.sub_0_r, Nat.add_1_r, <- La, <- (length_snoc a c').
    replace (a +:+ String c' post) with ((a +:+ String c' "") +:+ post)
      by now rewrite append_assoc.
    apply substring_prefix.
  - apply find_last_None in L. unfold blank in L. simpl in L. rewrite T in L. discriminate L.
Qed.

Lemma firstChar_app (x y : string) : x <> "" -> firstChar (x +:+ y) = firstChar x.
Proof. destruct x; [contradiction | reflexivity]. Qed.

Lemma snoc_not_empty (a : string) (c : ascii) : a +:+ String c "" <> "".
Proof. destruct a; discriminate. Qed.

Lemma trim_decompose (s : string) :
  exists pre post,
    s = pre +:+ trim s +:+ post
    /\ blank pre = true /\ blank post = true /\ trimmed (trim s).
Proof.
  induction s as [|c s IH].
  - exists "", "". repeat split. left. reflexivity.
  - destruct (isTrimmed c) eqn:T.
    + destruct IH as (pre & post & E & Hpre & Hpost & Ht).
      exists (String c pre), post. rewrite (trim_blank_cons _ _ T).
      split; [rewrite append_cons; congruence |].
      split; [unfold blank; simpl; rewrite T; exact Hpre |]. split; assumption.
    + destruct (trim_kept_cons c s T) as (a & c' & post & E & Et & Hc & Hp).
      exists "", post. rewrite Et. split; [exact E |].
      split; [reflexivity |]. split; [exact Hp |].
      right. split.
      * exists c. split; [| exact T].
        rewrite <- (firstChar_app _ post) by apply snoc_not_empty.
        rewrite <- E. reflexivity.
      * exists c'. split; [apply lastChar_snoc | exact Hc].
Qed.

Lemma lastChar_app_blank (x post : string) (c : ascii) :
  blank post = true -> lastChar (x +:+ post) = Some c -> isTrimmed c = false ->
  x <> "" -> post = "".
Proof.
  intros Hb Hl Hc Hx. destruct post as [|p post]; [reflexivity |]. exfalso.
  assert (G : forall y q z, blank (String q z) = true ->
                lastChar (y +:+ String q z) = Some c -> isTrimmed c = true).
  { clear. intros y q z. revert y q. induction z as [|r z IH]; intros y q Hb Hl.
    - rewrite lastChar_snoc in Hl. injection Hl as <-.
      unfold blank in Hb. simpl in Hb. now rewrite andb_true_r in Hb.
    - replace (y +:+ String q (String r z)) with ((y +:+ String q "") +:+ String r z) in Hl
        by now rewrite append_assoc.
      apply (IH (y +:+ String q "") r); [| exact Hl].
      unfold blank in *. simpl in *. apply andb_true_iff in Hb as [_ Hb]. exact Hb. }
  rewrite (G x p post Hb Hl) in Hc. discriminate Hc.
Qed.

Lemma trim_trimmed (s : string) : trimmed s -> trim s = s.
Proof.
  intros [->|[(c & Hf & Hc) (c' & Hl & Hc')]]; [reflexivity |].
  destruct s as [|x s]; [discriminate Hf |]. injection Hf as ->.
  destruct (trim_kept_cons c s Hc) as (a & c'' & post & E & Et & Hk & Hp).
  rewrite Et. rewrite E in Hl.
  rewrite (lastChar_app_blank _ _ _ Hp Hl Hc' (snoc_not_empty _ _)) in E.
  rewrite append_nil_r in E. congruence.
Qed.

Lemma allChars_parts (f : ascii -> bool) (pre mid post : string) :
  allChars f (pre +:+ mid +:+ post) = true -> allChars f mid = true.
Proof.
  rewrite !allChars_app. intros H.
  apply andb_true_iff in H as [_ H]. apply andb_true_iff in H as [H _]. exact H.
Qed.

Lemma pieces_without (delimiter : ascii) (s : string) :
  forall cur, without delimiter cur = true ->
    Forall (fun piece => without delimiter piece = true) (pieces delimiter s cur).
Proof.
  induction s as [|c s IH]; intros cur Hc; simpl.
  - constructor; [exact Hc | constructor].
  - destruct (decide (c = delimiter)) as [E|N].
    + constructor; [exact Hc | apply IH; reflexivity].
    + apply IH. unfold without in *. rewrite allChars_app, Hc. simpl.
      rewrite (bool_decide_eq_false_2 _ N). reflexivity.
Qed.

Lemma Forall_removelast {A} (P : A -> Prop) (l : list A) :
  Forall P l -> Forall P (removelast l).
Proof.
  induction 1 as [|x l Hx Hl IH]; [constructor |].
  simpl. destruct l; [constructor | constructor; assumption].
Qed.

Lemma getlines_without (delimiter : ascii) (s : string) :
  Forall (fun piece => without delimiter piece = true) (getlines delimiter s).
Proof.
  pose proof (pieces_without delimiter s "" eq_refl) as H.
  unfold getlines. destruct (last (pieces delimiter s "")) as [[|x y]|];
    [apply Forall_removelast |..]; exact H.
Qed.

End Trim.

(** X21.  [trim] cuts blanks (the characters of [" \t\r\n"]) from both
    ends and nothing else: every string is a blank prefix, its [trim],
    and a blank suffix, and the result neither begins nor ends with a
    blank.  A string of blanks gives the empty string; [trim] leaves a
    string that is already trimmed as it is, so it is idempotent. *)
Theorem trim_cuts_both_ends :
  (forall s, exists pre post,
      s = pre +:+ PeglibParser.trim s +:+ post
      /\ blank pre = true /\ blank post = true /\ trimmed (PeglibParser.trim s))
  /\ (forall s, blank s = true <-> PeglibParser.trim s = "")
  /\ (forall s, trimmed s -> PeglibParser.trim s = s)
  /\ (forall s, PeglibParser.trim (PeglibParser.trim s) = PeglibParser.trim s).
Proof.
  split; [exact trim_decompose |]. split; [| split; [exact trim_trimmed |]].
  - intros s. split.
    + intros H. unfold PeglibParser.trim.
      apply find_first_None in H. rewrite H. reflexivity.
    + intros H. destruct (trim_decompose s) as (pre & post & E & Hpre & Hpost & _).
      rewrite H in E. rewrite E. unfold blank in *.
      rewrite allChars_app, Hpre. exact Hpost.
  - intros s. apply trim_trimmed.
    destruct (trim_decompose s) as (_ & _ & _ & _ & _ & H). exact H.
Qed.

Lemma trim_cuts_both_ends_witness :
  PeglibParser.trim "MOTOR left SPEED 75" = "MOTOR left SPEED 75".
Proof.
  destruct trim_cuts_both_ends as (_ & _ & H & _).
  apply (H "MOTOR left SPEED 75"). right. split.
  - exists "M"%char. split; reflexivity.
  - exists "5"%char. split; reflexivity.
Defined.

(** X22.  The words [split] returns are never empty, neither begin nor
    end with a blank, and hold no delimiter character. *)
Theorem split_words (str : string) (delimiter : ascii) :
  Forall (fun word => word <> "" /\ trimmed word /\ without delimiter word = true)
         (PeglibParser.split str delimiter).
Proof.
  unfold PeglibParser.split. apply Forall_forall. intros w Hw.
  apply list_elem_of_filter in Hw as [Hne Hin].
  apply list_elem_of_In, in_map_iff in Hin as (piece & <- & Hin).
  split; [exact Hne |].
  destruct (trim_decompose piece) as (pre & post & E & _ & _ & Ht).
  split; [exact Ht |].
  pose proof (getlines_without delimiter str) as G.
  rewrite List.Forall_forall in G. specialize (G piece Hin).
  unfold without in *. rewrite E in G. eapply allChars_parts, G.
Qed.

(** ===================================================================== *)
(** * Lexer and parser together: checks that cannot fire                  *)
(** ===================================================================== *)

Section Digits.

Lemma digit_val_nonneg (c : ascii) : isdigit c = true -> 0 <= digit_val c.
Proof.
  unfold isdigit, digit_val. intros H. apply andb_true_iff in H as [H _].
  apply Nat.leb_le in H. lia.
Qed.

Lemma read_digits_nonneg (s : string) (acc : Z) : 0 <= acc -> 0 <= read_digits s acc.
Proof.
  revert acc. induction s as [|c s IH]; intros acc H; simpl; [exact H |].
  destruct (isdigit c) eqn:D; [| exact H].
  apply IH. pose proof (digit_val_nonneg c D). lia.
Qed.

(** [std::stoi] on a non-empty string of digits gives no negative number. *)
Lemma stoi_digits_nonneg (s : string) (z : Z) :
  s <> "" -> allChars isdigit s = true -> Cpp.stoi s = Some z -> 0 <= z.
Proof.
  intros Hne Hd. destruct s as [|c s]; [contradiction |].
  simpl in Hd. apply andb_true_iff in Hd as [Hc Hs].
  assert (Hsp : isspace c = false).
  { unfold isdigit in Hc. unfold isspace. apply andb_true_iff in Hc as [H1 H2].
    apply Nat.leb_le in H1, H2.
    destruct (Nat.eqb_spec (nat_of_ascii c) 32); [lia |].
    destruct (Nat.leb_spec 9 (nat_of_ascii c)); [| reflexivity].
    destruct (Nat.leb_spec (nat_of_ascii c) 13); [lia | reflexivity]. }
  assert (Hm : c <> "-"%char) by (intros ->; discriminate Hc).
  assert (Hp : c <> "+"%char) by (intros ->; discriminate Hc).
  unfold Cpp.stoi. cbn [skip_spaces]. rewrite Hsp.
  assert (E : match String c s with
              | String "-" tl => (true, tl)
              | String "+" tl => (false, tl)
              | _ => (false, String c s)
              end = (false, String c s)).
  { destruct c as [[] [] [] [] [] [] [] []]; try reflexivity; contradiction. }
  rewrite E. cbn [starts_with_digit]. rewrite Hc.
  destruct (in_int _); [| discriminate]. intros [= <-].
  exact (read_digits_nonneg (String c s) 0 ltac:(lia)).
Qed.

End Digits.

Section ThrowsOnly.
Import Parser.

Lemma throwsOnly_bind {A B} (Q : A -> Prop) (R : B -> Prop) (m : M A) (k : A -> M B) :
  throwsOnly Q m -> (forall a, Q a -> throwsOnly R (k a)) -> throwsOnly R (bind m k).
Proof.
  intros Hm Hk p Hp. unfold bind. specialize (Hm p Hp).
  destruct (m p) as [a q| |]; [| exact Hm | exact I].
  destruct Hm as [T Qa]. specialize (Hk a Qa q).
  unfold lexedState in *. rewrite T in Hk. specialize (Hk Hp).
  destruct (k a q) as [b r| |]; [| exact Hk | exact I].
  destruct Hk as [T' Rb]. split; [congruence | exact Rb].
Qed.

Lemma throwsOnly_weaken {A} (Q R : A -> Prop) (m : M A) :
  (forall a, Q a -> R a) -> throwsOnly Q m -> throwsOnly R m.
Proof.
  intros QR Hm p Hp. specialize (Hm p Hp).
  destruct (m p) as [a q| |]; [| exact Hm | exact I].
  destruct Hm as [T Qa]. auto.
Qed.

Lemma throwsOnly_ret {A} (Q : A -> Prop) (a : A) : Q a -> throwsOnly Q (ret a).
Proof. intros Qa p Hp. simpl. auto. Qed.

Lemma throwsOnly_throw {A} (Q : A -> Prop) (e : Exception) :
  reachableOnLexed e -> throwsOnly Q (throw e : M A).
Proof. intros He p Hp. exact He. Qed.

Lemma throwsOnly_consume : throwsOnly lexedToken consume.
Proof.
  intros p Hp. unfold consume. destruct (tokens p !! pos p) as [tok|] eqn:L; [| exact I].
  split; [reflexivity |]. unfold lexedState in Hp.
  rewrite List.Forall_forall in Hp. apply Hp. apply list_elem_of_In.
  eapply list_elem_of_lookup_2, L.
Qed.

Lemma throwsOnly_consumeExpected expected : throwsOnly (fun _ => True) (consumeExpected expected).
Proof.
  intros p Hp. unfold consumeExpected. destruct (decide _); [| exact I].
  split; [reflexivity | exact I].
Qed.

Lemma throwsOnly_expectType tok ty msg ex :
  throwsOnly (fun _ => Token.type tok = ty) (expectType tok ty msg ex).
Proof.
  intros p Hp. unfold expectType. destruct (decide _); [| exact I].
  split; [reflexivity | assumption].
Qed.

Lemma throwsOnly_stoi s : throwsOnly (fun z => Cpp.stoi s = Some z) (stoi s).
Proof.
  intros p Hp. unfold stoi. destruct (Cpp.stoi s); [| exact I].
  split; reflexivity.
Qed.

Lemma throwsOnly_guard (P : Prop) `{Decision P} (e : Exception) :
  (P -> reachableOnLexed e) ->
  throwsOnly (fun _ => True) (if decide P then throw e else ret tt).
Proof.
  intros He. destruct (decide P) as [HP|HP].
  - apply throwsOnly_throw, He, HP.
  - apply throwsOnly_ret. exact I.
Qed.

Lemma throwsOnly_update (f : t -> t) :
  (forall p, tokens (f p) = tokens p) -> throwsOnly (fun _ => True) (fun p => Ok tt (f p)).
Proof. intros Hf p Hp. split; [apply Hf | exact I]. Qed.

Lemma throwsOnly_if {A} (Q : A -> Prop) (c : t -> bool) (x y : M A) :
  throwsOnly Q x -> throwsOnly Q y -> throwsOnly Q (fun p => if c p then x p else y p).
Proof. intros Hx Hy p Hp. destruct (c p); [apply Hx | apply Hy]; exact Hp. Qed.

End ThrowsOnly.

(** The message of the exception is neither of the two that
    [reachableOnLexed] restricts. *)
Ltac other_message :=
  cbn [reachableOnLexed];
  let X := fresh "X" in
  split; intros X; rewrite ?append_cons in X; discriminate X.

Ltac throws_step :=
  match goal with
  | |- throwsOnly _ (Parser.bind (Parser.consume) _) =>
      apply (throwsOnly_bind lexedToken); [apply throwsOnly_consume | intros ? ?; cbv beta zeta]
  | |- throwsOnly _ (Parser.bind (Parser.consumeExpected _) _) =>
      apply (throwsOnly_bind (fun _ => True));
      [apply throwsOnly_consumeExpected | intros ? _; cbv beta zeta]
  | |- throwsOnly _ (Parser.bind (Parser.expectType ?tok ?ty _ _) _) =>
      apply (throwsOnly_bind (fun _ => Token.type tok = ty));
      [apply throwsOnly_expectType | intros ? ?; cbv beta zeta]
  | |- throwsOnly _ (Parser.bind (Parser.stoi ?s) _) =>
      apply (throwsOnly_bind (fun z => Cpp.stoi s = Some z));
      [apply throwsOnly_stoi | intros ? ?; cbv beta zeta]
  | |- throwsOnly _ (Parser.ret _) => apply throwsOnly_ret; exact I
  end.

Section ThrowsOnlyRules.
Import Parser.

Lemma throwsOnly_parseRobotDeclaration : throwsOnly (fun _ => True) parseRobotDeclaration.
Proof. unfold parseRobotDeclaration. repeat throws_step. Qed.

Lemma throwsOnly_parseStopStatement : throwsOnly (fun _ => True) parseStopStatement.
Proof. unfold parseStopStatement. repeat throws_step. Qed.

Lemma number_nonneg tok z :
  lexedToken tok -> Token.type tok = NUMBER -> Cpp.stoi (Token.value tok) = Some z -> 0 <= z.
Proof.
  intros [W _] Ty Z. unfold wellLexed in W. rewrite Ty in W. destruct W as [Hne Hd].
  eapply stoi_digits_nonneg; eassumption.
Qed.

Lemma throwsOnly_parseMoveStatement : throwsOnly (fun _ => True) parseMoveStatement.
Proof.
  unfold parseMoveStatement. repeat throws_step.
  apply (throwsOnly_bind (fun _ => True)); [apply throwsOnly_guard; intros _; other_message |].
  intros _ _. repeat throws_step.
  apply (throwsOnly_bind (fun _ => True)); [| intros _ _; repeat throws_step].
  apply throwsOnly_guard. intros Hneg. exfalso.
  pose proof (number_nonneg _ _ ltac:(eassumption) ltac:(eassumption) ltac:(eassumption)).
  lia.
Qed.

Lemma throwsOnly_parseTurnStatement : throwsOnly (fun _ => True) parseTurnStatement.
Proof.
  unfold parseTurnStatement. repeat throws_step.
  apply (throwsOnly_bind (fun _ => True)); [apply throwsOnly_guard; intros _; other_message |].
  intros _ _. repeat throws_step.
Qed.

Lemma throwsOnly_parseLEDStatement : throwsOnly (fun _ => True) parseLEDStatement.
Proof.
  unfold parseLEDStatement. repeat throws_step.
  apply (throwsOnly_bind (fun _ => True)); [apply throwsOnly_guard; intros _; other_message |].
  intros _ _.
  apply (throwsOnly_bind (fun _ => True)); [| intros ? _; repeat throws_step].
  apply throwsOnly_if; repeat throws_step.
Qed.

Lemma throwsOnly_parseServoStatement : throwsOnly (fun _ => True) parseServoStatement.
Proof. unfold parseServoStatement. repeat throws_step. Qed.

Lemma throwsOnly_parseMotorStatement : throwsOnly (fun _ => True) parseMotorStatement.
Proof.
  unfold parseMotorStatement. repeat throws_step.
  apply (throwsOnly_bind (fun _ => True)); [| intros _ _; repeat throws_step].
  apply throwsOnly_guard. intros Hout.
  pose proof (number_nonneg _ _ ltac:(eassumption) ltac:(eassumption) ltac:(eassumption)).
  cbn [reachableOnLexed]. split; [discriminate |].
  intros _. eexists. split; [| reflexivity]. lia.
Qed.

Lemma throwsOnly_parseWaitStatement : throwsOnly (fun _ => True) parseWaitStatement.
Proof. unfold parseWaitStatement. repeat throws_step. Qed.

Lemma throwsOnly_parseCallStatement : throwsOnly (fun _ => True) parseCallStatement.
Proof.
  unfold parseCallStatement. repeat throws_step.
  apply (throwsOnly_bind (fun _ => True));
    [apply throwsOnly_update; reflexivity | intros _ _; repeat throws_step].
Qed.

Lemma throwsOnly_parseSendStatement : throwsOnly (fun _ => True) parseSendStatement.
Proof. unfold parseSendStatement. repeat throws_step. Qed.

Lemma throwsOnly_parseCondition : throwsOnly (fun _ => True) parseCondition.
Proof. unfold parseCondition. repeat throws_step. Qed.

Section WithBlockThrows.
Variable parseBlock : string -> M (list Statement).
Hypothesis parseBlock_throws : forall terminator, throwsOnly (fun _ => True) (parseBlock terminator).

Ltac block_step :=
  first [ throws_step
        | match goal with
          | |- throwsOnly _ (bind (parseBlock _) _) =>
              apply (throwsOnly_bind (fun _ => True));
              [apply parseBlock_throws | intros ? _; cbv beta zeta]
          | |- throwsOnly _ (bind parseCondition _) =>
              apply (throwsOnly_bind (fun _ => True));
              [apply throwsOnly_parseCondition | intros ? _; cbv beta zeta]
          | |- throwsOnly _ (parseBlock _) => apply parseBlock_throws
          end ].

Lemma throwsOnly_parseIfStatement : throwsOnly (fun _ => True) (parseIfStatement parseBlock).
Proof.
  unfold parseIfStatement. repeat block_step.
  apply (throwsOnly_bind (fun _ => True)); [| intros ? _; repeat block_step].
  apply throwsOnly_if; repeat block_step.
Qed.

Lemma throwsOnly_parseWhileStatement :
  throwsOnly (fun _ => True) (parseWhileStatement parseBlock).
Proof. unfold parseWhileStatement. repeat block_step. Qed.

Lemma throwsOnly_parseRepeatStatement :
  throwsOnly (fun _ => True) (parseRepeatStatement parseBlock).
Proof. unfold parseRepeatStatement. repeat block_step. Qed.

Lemma throwsOnly_parseFunctionDef : throwsOnly (fun _ => True) (parseFunctionDef parseBlock).
Proof.
  unfold parseFunctionDef. repeat block_step.
  apply (throwsOnly_bind (fun _ => True));
    [apply throwsOnly_update; reflexivity | intros _ _; repeat block_step].
Qed.

Lemma throwsOnly_some (m : M Statement) :
  throwsOnly (fun _ => True) m -> throwsOnly (fun _ => True) (bind m (fun s => ret (Some s))).
Proof.
  intros H. apply (throwsOnly_bind (fun _ => True)); [exact H |].
  intros s _. apply throwsOnly_ret. exact I.
Qed.

Lemma throwsOnly_dispatch token : throwsOnly (fun _ => True) (dispatch parseBlock token).
Proof.
  intros p Hp. unfold dispatch.
  repeat match goal with
         | |- context [if check ?v p then _ else _] => destruct (check v p)
         end;
    try exact I;
    try (apply throwsOnly_some; [| exact Hp];
         eauto using throwsOnly_parseRobotDeclaration, throwsOnly_parseMoveStatement,
           throwsOnly_parseTurnStatement, throwsOnly_parseStopStatement,
           throwsOnly_parseLEDStatement, throwsOnly_parseServoStatement,
           throwsOnly_parseMotorStatement, throwsOnly_parseWaitStatement,
           throwsOnly_parseCallStatement, throwsOnly_parseSendStatement,
           throwsOnly_parseIfStatement, throwsOnly_parseWhileStatement,
           throwsOnly_parseRepeatStatement, throwsOnly_parseFunctionDef).
  apply (throwsOnly_bind (fun _ => True) (fun _ => True) (consumeExpected "END"));
    [apply throwsOnly_consumeExpected | | exact Hp].
  intros _ _. apply throwsOnly_ret. exact I.
Qed.

Lemma rethrow_reachable token e : reachableOnLexed e -> reachableOnLexed (rethrow token e).
Proof. destruct e; simpl; auto. Qed.

Lemma throwsOnly_parseStatementWith : throwsOnly (fun _ => True) (parseStatementWith parseBlock).
Proof.
  intros p Hp. unfold parseStatementWith.
  destruct (decide _); [split; [reflexivity | exact I] |].
  destruct (check "END" p); [split; [reflexivity | exact I] |].
  pose proof (throwsOnly_dispatch (peek p) p Hp) as D.
  destruct (dispatch parseBlock (peek p) p) as [r q|e|]; [exact D | | exact I].
  apply rethrow_reachable, D.
Qed.

End WithBlockThrows.

Lemma throwsOnly_blockLoop (ps : M (option Statement)) :
  throwsOnly (fun _ => True) ps ->
  forall turns terminator acc, throwsOnly (fun _ => True) (blockLoop ps turns terminator acc).
Proof.
  intros Hps. induction turns as [|k IH]; intros terminator acc p Hp; [exact I |].
  simpl. destruct (blockContinues terminator p); [| split; [reflexivity | exact I]].
  destruct (check "END" p || check "ELSE" p || check "DO" p); [split; [reflexivity | exact I] |].
  pose proof (Hps p Hp) as S.
  destruct (ps p) as [[s|] q| |]; [| | exact S | exact I]; destruct S as [T _].
  - assert (Hq : lexedState q) by (unfold lexedState in *; rewrite T; exact Hp).
    specialize (IH terminator (acc ++ [s])%list q Hq).
    destruct (blockLoop ps k terminator (acc ++ [s]) q) as [r q'| |]; [| exact IH | exact I].
    destruct IH as [T' _]. split; [congruence | exact I].
  - destruct (blockContinues terminator q); [split; [exact T | exact I] |].
    assert (Hq : lexedState q) by (unfold lexedState in *; rewrite T; exact Hp).
    specialize (IH terminator acc q Hq).
    destruct (blockLoop ps k terminator acc q) as [r q'| |]; [| exact IH | exact I].
    destruct IH as [T' _]. split; [congruence | exact I].
Qed.

Lemma throwsOnly_parseStatement fuel : throwsOnly (fun _ => True) (parseStatement fuel).
Proof.
  induction fuel as [|n IH]; [intros p Hp; exact I |].
  simpl. apply throwsOnly_parseStatementWith.
  intros terminator. apply throwsOnly_blockLoop, IH.
Qed.

Lemma throwsOnly_programLoop fuel :
  forall turns acc, throwsOnly (fun _ => True) (programLoop fuel turns acc).
Proof.
  induction turns as [|k IH]; intros acc p Hp; [exact I |].
  simpl. destruct (programContinues p); [| split; [reflexivity | exact I]].
  pose proof (throwsOnly_parseStatement fuel p Hp) as S.
  destruct (parseStatement fuel p) as [[s|] q| |]; [| | exact S | exact I]; destruct S as [T _];
    assert (Hq : lexedState q) by (unfold lexedState in *; rewrite T; exact Hp).
  - specialize (IH (acc ++ [s])%list q Hq).
    destruct (programLoop fuel k (acc ++ [s]) q) as [r q'| |]; [| exact IH | exact I].
    destruct IH as [T' _]. split; [congruence | exact I].
  - specialize (IH acc q Hq).
    destruct (programLoop fuel k acc q) as [r q'| |]; [| exact IH | exact I].
    destruct IH as [T' _]. split; [congruence | exact I].
Qed.

Lemma throwsOnly_semanticAnalysis ord program :
  throwsOnly (fun _ => True) (semanticAnalysis ord program).
Proof.
  intros p Hp. unfold semanticAnalysis.
  generalize (iterate ord (calledFunctions p)) as called. intros called.
  induction called as [|f called IH]; simpl; [split; [reflexivity | exact I] |].
  destruct (decide (f ∈ declaredFunctions p)); [exact IH |].
  other_message.
Qed.

Lemma throwsOnly_parse ord fuel : throwsOnly (fun _ => True) (parse ord fuel).
Proof.
  unfold parse.
  apply (throwsOnly_bind (fun _ => True)).
  - unfold parseProgram.
    apply (throwsOnly_bind (fun _ => True)); [apply throwsOnly_programLoop |].
    intros stmts _.
    apply (throwsOnly_bind (fun _ => True)); [| intros _ _; throws_step].
    apply throwsOnly_if; repeat throws_step.
  - intros program _.
    apply (throwsOnly_bind (fun _ => True)); [apply throwsOnly_semanticAnalysis |].
    intros _ _. throws_step.
Qed.

End ThrowsOnlyRules.

(** X23.  On the tokens of a source text, as the lexer returns them,
    two checks of the parser never fire: a number token holds digits
    only, so [parseMoveStatement] never throws [Movement distance must
    be positive], and [parseMotorStatement] throws [Motor speed must be
    between 0 and 100] only for a speed above 100. *)
Theorem negative_number_checks_are_dead
        (ord : UnorderedSetOrder) (code : string) (toks : list Token.t) (e : Exception) :
  Lexer.run code = Some toks ->
  Parser.run ord toks = Parser.Throw e ->
  reachableOnLexed e.
Proof.
  intros L R. pose proof (tokens_of_run code toks L) as W.
  pose proof (throwsOnly_parse ord (Parser.fuelFor toks) (Parser.new toks) W) as H.
  unfold Parser.run in R. rewrite R in H. exact H.
Qed.

Lemma negative_number_checks_are_dead_witness :
  reachableOnLexed (SemanticException "Motor speed must be between 0 and 100" "Found: 150").
Proof.
  eapply (negative_number_checks_are_dead elementsOrder "MOTOR left SPEED 150").
  - vm_compute. reflexivity.
  - vm_compute. reflexivity.
Defined.

(** ===================================================================== *)
(** * Statements the generator passes over                                *)
(** ===================================================================== *)

Lemma parseLEDStatement_rejects p ledTok stateTok :
  Parser.tokens p !! Parser.pos p = Some ledTok ->
  Token.value ledTok = "LED" ->
  Parser.tokens p !! S (Parser.pos p) = Some stateTok ->
  Token.value stateTok <> "on" -> Token.value stateTok <> "off" ->
  Parser.parseLEDStatement p
  = Parser.Throw (SemanticException "LED state must be 'on' or 'off'"
                                    ("Found: " +:+ Token.value stateTok)).
Proof.
  intros L0 V0 L1 N1 N2. unfold Parser.parseLEDStatement.
  unfold Parser.bind at 1. rewrite (consumeExpected_lookup _ _ _ L0 V0).
  unfold Parser.bind at 1. rewrite (consume_lookup _ stateTok) by exact L1.
  unfold Parser.bind at 1.
  destruct (decide (Token.value stateTok <> "on" /\ Token.value stateTok <> "off")) as [|N];
    [reflexivity | exfalso; apply N; split; assumption].
Qed.

(** X24.  An [LED] whose state is neither [on] nor [off]: the token
    parser throws a [SemanticException]; the line-based parser builds
    the node with whatever word follows [LED], and the generator then
    emits nothing for it, so the line leaves no trace in the output. *)
Theorem unknown_led_state :
  (forall p ledTok stateTok,
      Parser.tokens p !! Parser.pos p = Some ledTok ->
      Token.value ledTok = "LED" ->
      Parser.tokens p !! S (Parser.pos p) = Some stateTok ->
      Token.value stateTok <> "on" -> Token.value stateTok <> "off" ->
      Parser.parseLEDStatement p
      = Parser.Throw (SemanticException "LED state must be 'on' or 'off'"
                                        ("Found: " +:+ Token.value stateTok)))
  /\ (forall line,
         (2 <= length (PeglibParser.split line " "))%nat ->
         PeglibParser.part (PeglibParser.split line " ") 1 <> "on" ->
         PeglibParser.part (PeglibParser.split line " ") 1 <> "off" ->
         exists state color,
           PeglibParser.parseLED line = Some (LEDStatement state color)
           /\ state = PeglibParser.part (PeglibParser.split line " ") 1
           /\ forall g, ArduinoGenerator.generateStatement (LEDStatement state color) g
                        = Some g).
Proof.
  split; [exact parseLEDStatement_rejects |].
  intros line Hlen N1 N2. unfold PeglibParser.parseLED.
  destruct (decide (length (PeglibParser.split line " ") < 2)%nat); [lia |].
  eexists _, _. split; [reflexivity |]. split; [reflexivity |].
  intros g. cbn [ArduinoGenerator.generateStatement]. unfold ArduinoGenerator.generateLED.
  destruct (decide (PeglibParser.part (PeglibParser.split line " ") 1 = "on"));
    [contradiction |].
  destruct (decide (PeglibParser.part (PeglibParser.split line " ") 1 = "off"));
    [contradiction | reflexivity].
Qed.

Lemma unknown_led_state_witness :
  exists state color,
    PeglibParser.parseLED "LED blink" = Some (LEDStatement state color)
    /\ state = PeglibParser.part (PeglibParser.split "LED blink" " ") 1
    /\ forall g, ArduinoGenerator.generateStatement (LEDStatement state color) g = Some g.
Proof.
  destruct unknown_led_state as [_ H].
  apply (H "LED blink").
  - vm_compute. lia.
  - vm_compute. discriminate.
  - vm_compute. discriminate.
Defined.

(** X25.  A [Move] whose direction is neither [forward] nor [backward]
    emits nothing, while a [Turn] whose direction is neither [left] nor
    [right] still emits its delay line.  For [forward], [generateMove]
    emits the comment, four pin writes and a delay of ten times the
    distance, exactly that product as long as it is an [int]. *)
Theorem moves_and_turns :
  (forall direction distance g,
      direction <> "forward" -> direction <> "backward" ->
      ArduinoGenerator.generateMove direction distance g = Some g)
  /\ (forall direction angle g,
         direction <> "left" -> direction <> "right" ->
         0 <= ArduinoGenerator.indentLevel g ->
         ArduinoGenerator.generateTurn direction angle g
         = Some (emitted g ["delay(" +:+ to_string (int_mul angle 5) +:+ ");"]))
  /\ (forall distance g,
         0 <= ArduinoGenerator.indentLevel g ->
         ArduinoGenerator.generateMove "forward" distance g
         = Some (emitted g [ "// Move forward: " +:+ to_string distance +:+ " units";
                             "digitalWrite(5, HIGH);"; "digitalWrite(10, HIGH);";
                             "digitalWrite(6, LOW);"; "digitalWrite(11, LOW);";
                             "delay(" +:+ to_string (int_mul distance 10) +:+ ");" ]))
  /\ (forall distance,
         INT_MIN <= distance * 10 <= INT_MAX -> int_mul distance 10 = distance * 10).
Proof.
  split; [| split; [| split]].
  - intros direction distance g N1 N2. unfold ArduinoGenerator.generateMove.
    destruct (decide (direction = "forward")); [contradiction |].
    destruct (decide (direction = "backward")); [contradiction | reflexivity].
  - intros direction angle g N1 N2 Hl. unfold ArduinoGenerator.generateTurn.
    destruct (decide (direction = "left")); [contradiction |].
    destruct (decide (direction = "right")); [contradiction |].
    cbn [mbind option_bind]. apply addLine_emitted, Hl.
  - intros distance g Hl. unfold ArduinoGenerator.generateMove.
    destruct (decide ("forward" = "forward")); [| contradiction].
    apply addLines_emitted, Hl.
  - intros distance H. unfold int_mul. apply wrap_in_range, H.
Qed.

Lemma moves_and_turns_witness :
  ArduinoGenerator.generateMove "up" 10 ArduinoGenerator.new = Some ArduinoGenerator.new
  /\ ArduinoGenerator.generateTurn "around" 180 ArduinoGenerator.new
     = Some (emitted ArduinoGenerator.new ["delay(" +:+ to_string (int_mul 180 5) +:+ ");"])
  /\ int_mul 100 10 = 100 * 10.
Proof.
  destruct moves_and_turns as (H1 & H2 & _ & H4). split; [| split].
  - apply (H1 "up" 10 ArduinoGenerator.new); discriminate.
  - apply (H2 "around" 180 ArduinoGenerator.new); [discriminate | discriminate |].
    simpl. lia.
  - apply (H4 100). unfold INT_MIN, INT_MAX. lia.
Defined.

(** X26.  [generateCondition] lowers an operand that mentions
    [sensor.light], and not [sensor.distance], to a read of pin 15; an
    operand that mentions both is lowered to a read of pin 14, the
    distance sensor being tested first.  The operator is copied as it
    is. *)
Theorem generateCondition_sensor_light :
  (forall left op right,
      contains left "sensor.light" -> ~ contains left "sensor.distance" ->
      ~ contains right "sensor.distance" -> ~ contains right "sensor.light" ->
      ArduinoGenerator.generateCondition (Condition.mk left op right)
      = "(analogRead(15) " +:+ op +:+ " " +:+ right +:+ ")")
  /\ (forall left op right,
         contains right "sensor.light" -> ~ contains right "sensor.distance" ->
         ~ contains left "sensor.distance" -> ~ contains left "sensor.light" ->
         ArduinoGenerator.generateCondition (Condition.mk left op right)
         = "(" +:+ left +:+ " " +:+ op +:+ " analogRead(15))")
  /\ (forall x,
         contains x "sensor.distance" -> contains x "sensor.light" ->
         ArduinoGenerator.lowerOperand x = "analogRead(14)").
Proof.
  split; [| split].
  - intros left op right Hl Nl Nr1 Nr2.
    apply found_iff in Hl. apply found_false_iff in Nl, Nr1, Nr2.
    unfold ArduinoGenerator.generateCondition, ArduinoGenerator.lowerOperand. simpl.
    rewrite Hl, Nl, Nr1, Nr2. reflexivity.
  - intros left op right Hr Nr Nl1 Nl2.
    apply found_iff in Hr. apply found_false_iff in Nr, Nl1, Nl2.
    unfold ArduinoGenerator.generateCondition, ArduinoGenerator.lowerOperand. simpl.
    rewrite Hr, Nr, Nl1, Nl2. reflexivity.
  - intros x Hd _. apply found_iff in Hd.
    unfold ArduinoGenerator.lowerOperand. rewrite Hd. reflexivity.
Qed.

Lemma generateCondition_sensor_light_witness :
  ArduinoGenerator.generateCondition (Condition.mk "sensor.light" ">" "50")
  = "(analogRead(15) " +:+ ">" +:+ " " +:+ "50" +:+ ")".
Proof.
  destruct generateCondition_sensor_light as [H _].
  apply (H "sensor.light" ">" "50").
  - exists "", "". reflexivity.
  - apply found_false_iff. reflexivity.
  - apply found_false_iff. reflexivity.
  - apply found_false_iff. reflexivity.
Defined.

(** ===================================================================== *)
(** * A message through the whole compiler                                *)
(** ===================================================================== *)

Section StringLiteral.
Import Lexer.

Lemma get_app_length (pre s : string) :
  forall n, String.get (String.length pre + n) (pre +:+ s) = String.get n s.
Proof.
  induction pre as [|x pre IH]; intros n; [reflexivity |].
  rewrite append_cons. simpl. apply IH.
Qed.

Lemma string_length_app (a b : string) :
  String.length (a +:+ b) = (String.length a + String.length b)%nat.
Proof.
  induction a as [|x a IH]; [reflexivity |].
  rewrite append_cons. simpl. now rewrite IH.
Qed.

Lemma get_at_length (pre s : string) :
  String.get (String.length pre) (pre +:+ s) = String.get 0 s.
Proof.
  pose proof (get_app_length pre s 0) as H. now rewrite Nat.add_0_r in H.
Qed.

Lemma currentChar_at (pre s : string) (ln col : Z) :
  currentChar (mk (pre +:+ s) (String.length pre) ln col)
  = default NUL (String.get 0 s).
Proof.
  unfold currentChar. cbn [source pos]. now rewrite get_at_length.
Qed.

Lemma advance_at (pre : string) (c : ascii) (s : string) (ln col : Z) :
  exists ln' col',
    advance (mk (pre +:+ String c s) (String.length pre) ln col)
    = mk ((pre +:+ String c "") +:+ s) (String.length (pre +:+ String c "")) ln' col'.
Proof.
  unfold advance. cbn [source pos]. rewrite get_at_length.
  cbn [String.get]. rewrite length_snoc, append_assoc. cbn [append].
  destruct (decide (c = "010"%char)); eauto.
Qed.

Lemma isPlain_inv (c : ascii) :
  isPlain c = true -> c <> quote /\ c <> NUL /\ c <> backslash.
Proof.
  unfold isPlain. intros H. repeat (apply andb_true_iff in H as [H ?]).
  repeat match goal with
         | H : negb _ = true |- _ => apply negb_true_iff, bool_decide_eq_false in H
         end.
  auto.
Qed.

(** The loop of [readString] over a text without escapes copies it. *)
Lemma readStringLoop_plain (s : string) :
  plainText s = true ->
  forall turns pre rest str ln col,
    (String.length s < turns)%nat ->
    exists ln' col',
      readStringLoop turns str (mk (pre +:+ s +:+ String quote rest) (String.length pre) ln col)
      = Some (str +:+ s,
              mk ((pre +:+ s) +:+ String quote rest) (String.length (pre +:+ s)) ln' col').
Proof.
  unfold plainText. induction s as [|c s IH]; intros Hp turns pre rest str ln col Hf.
  - destruct turns as [|k]; [simpl in Hf; lia |].
    cbn [readStringLoop]. cbv zeta. cbn [append].
    rewrite currentChar_at. cbn [String.get default from_option id].
    rewrite (bool_decide_eq_true_2 (quote = quote)) by reflexivity. cbn [negb andb].
    rewrite !append_nil_r. eauto.
  - simpl in Hp. apply andb_true_iff in Hp as [Hc Hs].
    apply isPlain_inv in Hc as (Nq & Nn & Nb).
    destruct turns as [|k]; [simpl in Hf; lia |].
    cbn [readStringLoop]. cbv zeta. rewrite append_cons.
    rewrite currentChar_at. cbn [String.get default from_option id].
    rewrite (bool_decide_eq_false_2 (c = quote)) by exact Nq.
    rewrite (bool_decide_eq_false_2 (c = NUL)) by exact Nn.
    rewrite (bool_decide_eq_false_2 (c = backslash)) by exact Nb.
    cbn [negb andb].
    destruct (advance_at pre c (s +:+ String quote rest) ln col) as (ln1 & col1 & ->).
    destruct (IH Hs k (pre +:+ String c "") rest (str +:+ String c "") ln1 col1)
      as (ln' & col' & E).
    { simpl in Hf. lia. }
    rewrite E. exists ln', col'.
    rewrite !append_assoc. reflexivity.
Qed.

(** [readString] in front of a literal without escapes. *)
Lemma readString_plain (pre s rest : string) (ln col : Z) :
  plainText s = true ->
  exists l',
    readString (mk (pre +:+ String quote (s +:+ String quote rest)) (String.length pre) ln col)
    = Ok (Token.mk STRING s ln col) l'
    /\ source l' = pre +:+ String quote (s +:+ String quote rest)
    /\ pos l' = (String.length pre + String.length s + 2)%nat.
Proof.
  intros Hp. unfold readString. cbv zeta. cbn [line column].
  destruct (advance_at pre quote (s +:+ String quote rest) ln col) as (ln1 & col1 & ->).
  destruct (readStringLoop_plain s Hp
              (turnsLeft (mk ((pre +:+ String quote "") +:+ s +:+ String quote rest)
                             (String.length (pre +:+ String quote "")) ln1 col1))
              (pre +:+ String quote "") rest "" ln1 col1) as (ln2 & col2 & E).
  { unfold turnsLeft. cbn [source pos]. rewrite !string_length_app. simpl. lia. }
  rewrite E. change ("" +:+ s) with s.
  rewrite currentChar_at. cbn [String.get default from_option id].
  destruct (decide (quote = quote)); [| contradiction].
  destruct (advance_at (((pre +:+ String quote "") +:+ s)) quote rest ln2 col2)
    as (ln3 & col3 & ->).
  eexists. split; [reflexivity |]. cbn [source pos]. split.
  - rewrite !append_assoc. reflexivity.
  - rewrite !string_length_app. simpl. lia.
Qed.

Lemma getNextToken_at_quote l l1 :
  (x ← skipWhitespace l; skipComments (turnsLeft x) x) = Some l1 ->
  currentChar l1 = quote ->
  getNextToken l = readString l1.
Proof.
  intros E Q. unfold getNextToken. rewrite E. cbv zeta. rewrite Q.
  destruct (decide (quote = NUL)); [discriminate |].
  change (isdigit quote) with false.
  change (isalpha quote || bool_decide (quote = "_"%char)) with false. cbv iota.
  destruct (decide (quote = quote)); [reflexivity | contradiction].
Qed.

Lemma currentChar_end l :
  pos l = String.length (source l) -> currentChar l = NUL.
Proof.
  intros E. unfold currentChar. rewrite E.
  assert (G : forall s, String.get (String.length s) s = None).
  { clear. induction s as [|c s IH]; [reflexivity | exact IH]. }
  rewrite G. reflexivity.
Qed.

Lemma getNextToken_end l :
  pos l = String.length (source l) ->
  getNextToken l = Ok (Token.mk END_OF_FILE "EOF" (line l) (column l)) l.
Proof.
  intros E. pose proof (currentChar_end l E) as Z.
  unfold getNextToken. rewrite skip_nothing by (rewrite Z; first [reflexivity | discriminate]).
  cbv zeta. destruct (decide (currentChar l = NUL)); [reflexivity | contradiction].
Qed.

End StringLiteral.

Section SendMessage.

Lemma sendText_eq (s : string) :
  sendText s = "SEND message " +:+ String Lexer.quote (s +:+ String Lexer.quote "").
Proof. reflexivity. Qed.

(** The tokens of [SEND message "s"]. *)
Lemma lex_sendText (s : string) :
  plainText s = true ->
  exists ln col,
    Lexer.run (sendText s)
    = Some [ keyword "SEND" 1 1; keyword "message" 1 6; Token.mk STRING s 1 14;
             endOfFile ln col ].
Proof.
  intros Hp. rewrite sendText_eq.
  set (src := "SEND message " +:+ String Lexer.quote (s +:+ String Lexer.quote "")).
  assert (T1 : Lexer.getNextToken (Lexer.new src)
               = Lexer.Ok (keyword "SEND" 1 1) (Lexer.mk src 4 1 5))
    by (vm_compute; reflexivity).
  assert (T2 : Lexer.getNextToken (Lexer.mk src 4 1 5)
               = Lexer.Ok (keyword "message" 1 6) (Lexer.mk src 12 1 13))
    by (vm_compute; reflexivity).
  assert (S3 : (x ← Lexer.skipWhitespace (Lexer.mk src 12 1 13);
                Lexer.skipComments (Lexer.turnsLeft x) x)
               = Some (Lexer.mk src 13 1 14))
    by (vm_compute; reflexivity).
  destruct (readString_plain "SEND message " s "" 1 14 Hp) as (l3 & T3 & S3' & P3).
  change (String.length "SEND message ") with 13%nat in T3.
  fold src in T3, S3'.
  assert (T3' : Lexer.getNextToken (Lexer.mk src 12 1 13)
                = Lexer.Ok (Token.mk STRING s 1 14) l3).
  { rewrite (getNextToken_at_quote _ _ S3); [exact T3 | reflexivity]. }
  assert (E3 : Lexer.pos l3 = String.length (Lexer.source l3)).
  { rewrite P3, S3'. unfold src. rewrite !string_length_app. simpl. rewrite string_length_app. simpl. lia. }
  pose proof (getNextToken_end l3 E3) as T4.
  exists (Lexer.line l3), (Lexer.column l3).
  unfold Lexer.run, Lexer.tokenize.
  assert (F : exists k, Lexer.turnsLeft (Lexer.new src) = S (S (S (S k)))).
  { unfold Lexer.turnsLeft. cbn [Lexer.source Lexer.pos Lexer.new]. unfold src.
    rewrite string_length_app. simpl. eauto. }
  destruct F as [k ->].
  cbn [Lexer.tokenizeLoop]. rewrite T1. cbv zeta.
  destruct (decide (Token.type (keyword "SEND" 1 1) = END_OF_FILE)); [discriminate |].
  cbn [Lexer.tokenizeLoop]. rewrite T2. cbv zeta.
  destruct (decide (Token.type (keyword "message" 1 6) = END_OF_FILE)); [discriminate |].
  cbn [Lexer.tokenizeLoop]. rewrite T3'. cbv zeta.
  destruct (decide (Token.type (Token.mk STRING s 1 14) = END_OF_FILE)); [discriminate |].
  cbn [Lexer.tokenizeLoop]. rewrite T4. cbv zeta.
  destruct (decide (Token.type (Token.mk END_OF_FILE "EOF" (Lexer.line l3) (Lexer.column l3))
                    = END_OF_FILE)); [| contradiction].
  reflexivity.
Qed.

Lemma parse_send ord (s : string) (ln col : Z) :
  exists p,
    Parser.run ord [ keyword "SEND" 1 1; keyword "message" 1 6; Token.mk STRING s 1 14;
                     endOfFile ln col ]
    = Parser.Ok (mkProgram [SendStatement s]) p.
Proof.
  eexists.
  erewrite run_after_parseProgram by (vm_compute; reflexivity).
  cbn [Parser.calledFunctions]. rewrite iterate_empty. reflexivity.
Qed.

End SendMessage.

(** X27.  A message without quote, backslash or ['\0'] goes through the
    whole compiler as it is: the text [SEND message "s"] is lexed and
    parsed into the program with the single node [Send s], and the
    generator turns that program into the single loop line
    [Serial.println("s");]. *)
Theorem send_message_end_to_end
        (ord : UnorderedSetOrder) (s : string) (g : ArduinoGenerator.t) :
  plainText s = true ->
  frontEnd ord (sendText s) = Some (mkProgram [SendStatement s])
  /\ exists text g',
       ArduinoGenerator.generate (mkProgram [SendStatement s]) g = Some (text, g')
       /\ ArduinoGenerator.generatedCode g'
          = ["Serial.println(" +:+ dquote +:+ s +:+ dquote +:+ ");"].
Proof.
  intros Hp. split.
  - unfold frontEnd. destruct (lex_sendText s Hp) as (ln & col & ->).
    cbn [mbind option_bind]. destruct (parse_send ord s ln col) as [p ->]. reflexivity.
  - rewrite generate_explicit. eexists _, _. split; [reflexivity |].
    cbn [ArduinoGenerator.generatedCode statements map concat].
    reflexivity.
Qed.

Lemma send_message_end_to_end_witness :
  frontEnd elementsOrder (sendText "Task complete")
  = Some (mkProgram [SendStatement "Task complete"])
  /\ exists text g',
       ArduinoGenerator.generate (mkProgram [SendStatement "Task complete"])
                                 ArduinoGenerator.new = Some (text, g')
       /\ ArduinoGenerator.generatedCode g'
          = ["Serial.println(" +:+ dquote +:+ "Task complete" +:+ dquote +:+ ");"].
Proof.
  apply (send_message_end_to_end elementsOrder "Task complete" ArduinoGenerator.new).
  reflexivity.
Defined.
